(** * MACPLAS surface interpolation: a shallow embedding of [include/utilities.h]

    The development follows the header file: the segment helpers, the class
    [Triangle], and the two interpolators [SurfaceInterpolator3D] and
    [SurfaceInterpolator2D].

    Conventions of the embedding.
    - A C++ [double] is a real number ([R]): rounding is outside the model.
      The one operation of the header that leaves the real numbers is a
      division by zero, which gives an infinity or NaN: a quotient is an
      [option R], with [None] for a value that is not a finite number, and
      so are the barycentric coordinates made of quotients and the entries
      of the output vectors that are computed from them.
    - [std::vector<T>] and [dealii::Vector<double>] are lists; every
      [operator[]] is written with its range check, and an access past the end
      (undefined behaviour in C++) is the outcome [UndefinedBehaviour].
    - [std::map<std::string, T>] is a [gmap string T].
    - [unsigned int] and [unsigned long] values are natural numbers; a
      numeral read from a file is checked against the range of its type
      (32 bits for [unsigned int], 64 bits for [unsigned long]). Sizes of
      containers stay below 2^32.
    - The functions of deal.II and of the standard library that [read_vtu]
      calls on strings ([split_string_list], [string_to_int], [std::stod],
      [std::stoul]) are not in the header: they are variables of the section
      that holds [read_vtu], and the examples give them as decimal readers.
    - Member functions that mutate their object are computations in a state
      and exception monad over the object; what is printed on [std::cout] is
      not modelled. *)

From Stdlib Require Import Reals Lra Lia Ascii String.
From stdpp Require Import gmap strings list.

Open Scope R_scope.

(** ** Decidable comparisons on [double] *)

#[global] Instance Rlt_decision : RelDecision Rlt := Rlt_dec.
#[global] Instance Rgt_decision : RelDecision Rgt := Rgt_dec.
#[global] Instance Rle_decision : RelDecision Rle := Rle_dec.
#[global] Instance Rge_decision : RelDecision Rge := Rge_dec.
#[global] Instance Req_decision : EqDecision R := Req_dec_T.

(** [std::max(a, b)] is [(a < b) ? b : a], [std::min(a, b)] is
    [(b < a) ? b : a]. *)
Definition std_max (a b : R) : R := if bool_decide (a < b) then b else a.
Definition std_min (a b : R) : R := if bool_decide (b < a) then b else a.

(** [sqr] *)
Definition sqr (x : R) : R := x * x.

(** ** Quotients

    [x / y] on [double]: when [y] is zero the quotient is an infinity or NaN
    and not a number of the model. *)
Definition fdiv (x y : R) : option R :=
  if bool_decide (y = 0) then None else Some (x / y).

(** [t * x] for a quotient [t], and [a + b] where an operand may be no
    finite number: the result is not finite when an operand is not. *)
Definition fmul (t : option R) (x : R) : option R :=
  match t with
  | Some t => Some (t * x)
  | None => None
  end.

Definition fadd (a b : option R) : option R :=
  match a, b with
  | Some a, Some b => Some (a + b)
  | _, _ => None
  end.

(** [(t >= 0) && (t <= 1)] for a quotient [t]: both comparisons are false
    for NaN, and one of them is false for an infinity. *)
Definition in_unit_interval (t : option R) : bool :=
  match t with
  | Some t => bool_decide (t >= 0) && bool_decide (t <= 1)
  | None => false
  end.

(** ** Fixed-size arrays [std::array<T, 2>] and [std::array<T, 3>] *)

Definition array2 (A : Type) : Type := (A * A)%type.
Definition array3 (A : Type) : Type := (A * A * A)%type.

Definition at2 {A} (a : array2 A) (k : nat) : A :=
  match k with O => fst a | _ => snd a end.

Definition at3 {A} (a : array3 A) (k : nat) : A :=
  let '(a0, a1, a2) := a in
  match k with O => a0 | S O => a1 | _ => a2 end.

Definition array3_list {A} (a : array3 A) : list A :=
  let '(a0, a1, a2) := a in [a0; a1; a2].

(** ** [Point<dim>] and [Tensor<1,dim>] for [dim = 2, 3] *)

Record Point2 : Type := mkPoint2 { p2_x : R; p2_y : R }.
Record Point3 : Type := mkPoint3 { p3_x : R; p3_y : R; p3_z : R }.

(** The operations of the template [Point<dim>] that the header uses. *)
Class PointOps (P : Type) : Type := {
  pt_zero : P;                      (* value-initialised point *)
  pt_add : P -> P -> P;
  pt_sub : P -> P -> P;
  pt_scale : R -> P -> P;           (* [t * d] and [d * t] *)
  pt_div : P -> R -> P;             (* [d / t] *)
  pt_dot : P -> P -> R              (* [a * b] on two tensors *)
}.

#[global] Instance Point2_ops : PointOps Point2 := {|
  pt_zero := mkPoint2 0 0;
  pt_add a b := mkPoint2 (p2_x a + p2_x b) (p2_y a + p2_y b);
  pt_sub a b := mkPoint2 (p2_x a - p2_x b) (p2_y a - p2_y b);
  pt_scale t a := mkPoint2 (t * p2_x a) (t * p2_y a);
  pt_div a t := mkPoint2 (p2_x a / t) (p2_y a / t);
  pt_dot a b := p2_x a * p2_x b + p2_y a * p2_y b
|}.

#[global] Instance Point3_ops : PointOps Point3 := {|
  pt_zero := mkPoint3 0 0 0;
  pt_add a b := mkPoint3 (p3_x a + p3_x b) (p3_y a + p3_y b) (p3_z a + p3_z b);
  pt_sub a b := mkPoint3 (p3_x a - p3_x b) (p3_y a - p3_y b) (p3_z a - p3_z b);
  pt_scale t a := mkPoint3 (t * p3_x a) (t * p3_y a) (t * p3_z a);
  pt_div a t := mkPoint3 (p3_x a / t) (p3_y a / t) (p3_z a / t);
  pt_dot a b := p3_x a * p3_x b + p3_y a * p3_y b + p3_z a * p3_z b
|}.

Declare Scope point_scope.
Delimit Scope point_scope with pt.
Infix "+" := pt_add : point_scope.
Infix "-" := pt_sub : point_scope.
Notation "t *^ a" := (pt_scale t a) (at level 40, left associativity).
Notation "a /^ t" := (pt_div a t) (at level 40, left associativity).
Notation "a <.> b" := (pt_dot a b) (at level 40, left associativity).

Definition norm_square {P} `{PointOps P} (a : P) : R := a <.> a.
Definition norm {P} `{PointOps P} (a : P) : R := sqrt (norm_square a).

Definition cross_product_3d (a b : Point3) : Point3 :=
  mkPoint3 (p3_y a * p3_z b - p3_z a * p3_y b)
           (p3_z a * p3_x b - p3_x a * p3_z b)
           (p3_x a * p3_y b - p3_y a * p3_x b).

(** ** Segment helpers *)

(** [closest_segment_point]: project on the line, clamp the parameter.
    When the two end points coincide, [d] is zero and the quotient is
    [0.0 / 0.0], NaN: then [std::min(1.0, t)], which is
    [(t < 1.0) ? t : 1.0], is [1.0], and so is [std::max(0.0, 1.0)]. *)
Definition closest_segment_point {P} `{PointOps P}
    (p segment_p0 segment_p1 : P) : P :=
  let d := (segment_p1 - segment_p0)%pt in
  let t := fdiv (d <.> (p - segment_p0)%pt) (norm_square d) in
  let t := match t with
           | Some t => std_max 0 (std_min 1 t)
           | None => 1
           end in
  (segment_p0 + t *^ d)%pt.

(** [barycentric_coordinates] of a segment: the unclamped parameter. Both
    coordinates are NaN when the two end points coincide. *)
Definition barycentric_coordinates {P} `{PointOps P}
    (p segment_p0 segment_p1 : P) : array2 (option R) :=
  let d := (segment_p1 - segment_p0)%pt in
  let t := fdiv (d <.> (p - segment_p0)%pt) (norm_square d) in
  (match t with Some t => Some (1 - t) | None => None end, t).

(** ** [Triangle<3>] *)

Module Triangle.

Record t : Type := mk {
  m_points : array3 Point3;
  m_normal : Point3;
  m_center : Point3;
  m_area : R;
  m_longest_side : R
}.

(** A default-constructed triangle (zero points; the scalars are not
    initialised in C++ and are never read before [reinit]). *)
Definition default : t :=
  mk (pt_zero, pt_zero, pt_zero) pt_zero pt_zero 0 0.

Definition calculate_normal_and_area (pts : array3 Point3) : Point3 * R :=
  let normal :=
    cross_product_3d (at3 pts 1 - at3 pts 0)%pt (at3 pts 2 - at3 pts 0)%pt in
  let area := 0.5 * norm normal in
  (* normalize *)
  (if bool_decide (area > 0) then normal /^ (2 * area) else normal, area).

Definition reinit (p0 p1 p2 : Point3) : t :=
  let pts := (p0, p1, p2) in
  let '(normal, area) := calculate_normal_and_area pts in
  {| m_points := pts;
     m_normal := normal;
     m_center := (p0 + p1 + p2)%pt /^ 3;
     m_area := area;
     m_longest_side :=
       std_max (std_max (norm (p1 - p0)%pt) (norm (p2 - p0)%pt))
               (norm (p1 - p2)%pt) |}.

Definition center (tr : t) : Point3 := m_center tr.
Definition normal (tr : t) : Point3 := m_normal tr.
Definition area (tr : t) : R := m_area tr.
Definition longest_side (tr : t) : R := m_longest_side tr.

Definition signed_area (tr : t) (p0 p1 p2 : Point3) : R :=
  0.5 * (m_normal tr <.> cross_product_3d (p1 - p0)%pt (p2 - p0)%pt).

Definition project_to_triangle_plane (tr : t) (p : Point3) : Point3 :=
  (p - (m_normal tr <.> (p - at3 (m_points tr) 0)%pt) *^ m_normal tr)%pt.

(** The three coordinates are quotients by the area: for a triangle of
    area zero none of them is a finite number. *)
Definition barycentric_coordinates (tr : t) (p : Point3)
    : array3 (option R) :=
  let pts := m_points tr in
  (fdiv (signed_area tr p (at3 pts 1) (at3 pts 2)) (m_area tr),
   fdiv (signed_area tr (at3 pts 0) p (at3 pts 2)) (m_area tr),
   fdiv (signed_area tr (at3 pts 0) (at3 pts 1) p) (m_area tr)).

(** One round of the edge loop of [closest_triangle_point]; the state is
    [(p_closest, d2_min)]. *)
Definition edge_step (tr : t) (p : Point3) (st : Point3 * R) (i : nat)
    : Point3 * R :=
  let '(p_closest, d2_min) := st in
  let p_edge :=
    closest_segment_point p (at3 (m_points tr) i)
                            (at3 (m_points tr) ((i + 1) mod 3)) in
  let d2 := norm_square (p - p_edge)%pt in
  if bool_decide (d2 < d2_min) || bool_decide (d2_min < 0)
  then (p_edge, d2) else (p_closest, d2_min).

Definition closest_triangle_point (tr : t) (p : Point3) : Point3 :=
  let p_proj := project_to_triangle_plane tr p in
  let t3 := barycentric_coordinates tr p_proj in
  let inside :=
    fold_left (fun inside t => inside && in_unit_interval t)
              (array3_list t3) true in
  if inside then p_proj
  else fst (fold_left (edge_step tr p) [0; 1; 2]%nat (pt_zero, -1)).

End Triangle.

(** ** Exceptions, undefined behaviour, and the state-and-exception monad *)

Inductive exn : Type :=
| runtime_error (what : string)            (* [std::runtime_error] *)
| ExcInterpolationFailed (p : Point3)      (* [ExcInterpolationFailed<dim>] *)
| ExcNotImplemented
| length_error                             (* [std::length_error] *)
| invalid_argument                         (* [std::invalid_argument] *)
| UndefinedBehaviour.                      (* an index past the end, or a read
                                              of an indeterminate value *)

Inductive result (A : Type) : Type :=
| Ok (a : A)
| Throw (e : exn).
Arguments Ok {A} a.
Arguments Throw {A} e.

(** A computation over a mutable object of type [St]: it returns the object
    as it is when the computation ends, normally or by an exception. *)
Definition M (St A : Type) : Type := St -> St * result A.

Definition ret {St A} (a : A) : M St A := fun s => (s, Ok a).

Definition bind {St A B} (m : M St A) (k : A -> M St B) : M St B :=
  fun s =>
    match m s with
    | (s', Ok a) => k a s'
    | (s', Throw e) => (s', Throw e)
    end.

Definition throw {St A} (e : exn) : M St A := fun s => (s, Throw e).
Definition get {St} : M St St := fun s => (s, Ok s).
Definition gets {St A} (f : St -> A) : M St A := fun s => (s, Ok (f s)).
Definition put {St} (s : St) : M St unit := fun _ => (s, Ok tt).
Definition modify {St} (f : St -> St) : M St unit := fun s => (f s, Ok tt).

Declare Scope monad_scope.
Delimit Scope monad_scope with M.
Notation "'let*' x ':=' m 'in' k" := (bind m (fun x => k))
  (at level 10, x name, m at level 100, k at level 200) : monad_scope.
Notation "m >> k" := (bind m (fun _ => k))
  (at level 90, right associativity) : monad_scope.
Open Scope monad_scope.

(** [AssertThrow(cond, exc)] *)
Definition AssertThrow {St} (cond : bool) (e : exn) : M St unit :=
  if cond then ret tt else throw e.

(** [v[i]] on a [std::vector]: undefined behaviour past the end. *)
Definition index {St A} (v : list A) (i : nat) : M St A :=
  match v !! i with
  | Some a => ret a
  | None => throw UndefinedBehaviour
  end.

(** [v[i] = a] on a [std::vector]. *)
Definition assign {St A} (v : list A) (i : nat) (a : A) : M St (list A) :=
  if decide (i < length v)%nat then ret (<[i := a]> v)
  else throw UndefinedBehaviour.

(** [for (unsigned int i = lo; i < lo + n; ++i) body(i)] *)
Fixpoint for_from {St} (lo n : nat) (body : nat -> M St unit) : M St unit :=
  match n with
  | O => ret tt
  | S n' => body lo >> for_from (S lo) n' body
  end.

Definition for_loop {St} (n : nat) (body : nat -> M St unit) : M St unit :=
  for_from 0 n body.

(** Run a computation on local variables [L] inside a computation on [St];
    an exception of the inner computation propagates. *)
Definition with_locals {St L A} (init : L) (m : M L A) : M St (L * A) :=
  fun s =>
    match m init with
    | (l, Ok a) => (s, Ok (l, a))
    | (_, Throw e) => (s, Throw e)
    end.

(** [v.resize(n)]: keep the first [n] elements, pad with value-initialised
    ones. *)
Definition resize {A} (n : nat) (a0 : A) (v : list A) : list A :=
  take n v ++ replicate (n - length v) a0.

(** A [const] member that can only throw is a [result]; [lift] runs it
    inside a computation. *)
Definition lift {St A} (r : result A) : M St A := fun s => (s, r).

(** [target_values[i] = x] and [target_values[i] += x] on the
    [Vector<double>] the computation owns; an entry may come to hold a value
    that is not a finite number. *)
Definition set_at (i : nat) (x : R) : M (list (option R)) unit :=
  let* v := get in
  let* v' := assign v i (Some x) in
  put v'.

Definition add_at (i : nat) (x : option R) : M (list (option R)) unit :=
  let* v := get in
  let* old := index v i in
  let* v' := assign v i (fadd old x) in
  put v'.

(** The local variables [p_found], [j_found], [d2_min] of both
    [interpolate] functions. *)
Record found (P : Type) : Type := mkFound {
  p_found : P;
  j_found : nat;
  d2_min : R
}.
Arguments mkFound {P} _ _ _.
Arguments p_found {P} _.
Arguments j_found {P} _.
Arguments d2_min {P} _.

Definition found_init {P} `{PointOps P} : found P := mkFound pt_zero 0%nat (-1).

(** [if (d2 < d2_min || d2_min < 0) { d2_min = d2; p_found = p_trial;
    j_found = j; }] *)
Definition keep_if_closer {P} (p_trial : P) (j : nat) (d2 : R) : M (found P) unit :=
  modify (fun f =>
    if bool_decide (d2 < d2_min f) || bool_decide (d2_min f < 0)
    then mkFound p_trial j d2 else f).

(** ** Small utilities of the header *)

(** [std::minmax_element]: the first smallest and the last largest element;
    [None] stands for the pair of [end()] iterators of an empty range. *)
Definition minmax_element (x : list R) : option (R * R) :=
  match x with
  | [] => None
  | a :: rest =>
      Some (fold_left
              (fun mm y => (if bool_decide (y < mm.1) then y else mm.1,
                            if bool_decide (y < mm.2) then mm.2 else y))
              rest (a, a))
  end.

(** [minmax] on a [Vector<T>]: both iterators are dereferenced. *)
Definition minmax (x : list R) : result (R * R) :=
  match minmax_element x with
  | Some mm => Ok mm
  | None => Throw UndefinedBehaviour
  end.

(** The loop of [minmax] on a [BlockVector<T>], which appends the least and
    the greatest element of each block to [data]. *)
Fixpoint minmax_collect (blocks : list (list R)) (data : list R)
    : result (list R) :=
  match blocks with
  | [] => Ok data
  | block :: rest =>
      match minmax_element block with
      | Some mm => minmax_collect rest (data ++ [mm.1; mm.2])
      | None => Throw UndefinedBehaviour
      end
  end.

(** [minmax] on a [BlockVector<T>], given by its blocks. *)
Definition minmax_blocks (x : list (list R)) : result (R * R) :=
  match minmax_collect x [] with
  | Ok data => minmax data
  | Throw e => Throw e
  end.

(** [dx_analytical] *)
Definition dx_analytical (a b dt : R) : R :=
  if bool_decide (b = 0) then a * dt else a / b * (exp (b * dt) - 1).

(** [coordinate_names] *)
Definition coordinate_names (dim : nat) : result (list string) :=
  if bool_decide (dim = 1%nat) then Ok ["x"]
  else if bool_decide (dim = 2%nat) then Ok ["r"; "z"]
  else if bool_decide (dim = 3%nat) then Ok ["x"; "y"; "z"]
  else Throw ExcNotImplemented.

(** [std::to_string] of an unsigned number: its decimal digits. *)
Fixpoint decimal_digits (fuel n : nat) (acc : string) : string :=
  match fuel with
  | O => acc
  | S fuel' =>
      let acc' := String (ascii_of_nat (48 + n mod 10)) acc in
      if bool_decide (n < 10)%nat then acc'
      else decimal_digits fuel' (n / 10) acc'
  end.

Definition to_string (n : nat) : string := decimal_digits (S n) n "".

(** ** Formatted input: [std::ifstream] and [std::stringstream]

    All that [operator>>] observes of a text is its sequence of
    whitespace-separated tokens, so a stream is the list of the tokens still
    to be read together with its fail bit. A numeric extraction takes one
    whole token: plain decimal numerals for the integers, and
    [sign digits . digits e sign digits] for [double]; other spellings that
    the C++ library accepts (a sign before an integer, hexadecimal floats,
    [inf], [nan], a numeral followed by other characters in the same token)
    are outside the model and count as a failed extraction, and so does a
    [double] numeral too large for the type. An integer numeral too large
    for its unsigned type is read as the library reads it: the largest
    value of the type is stored and the stream fails. *)

Record istream : Type := mkStream {
  tokens : list string;
  failbit : bool
}.

Definition digit_of_ascii (c : ascii) : option nat :=
  let n := nat_of_ascii c in
  if bool_decide (48 <= n)%nat && bool_decide (n <= 57)%nat
  then Some (n - 48)%nat else None.

(** The leading decimal digits of a string, and what follows them. *)
Fixpoint take_digits (s : string) : list nat * string :=
  match s with
  | EmptyString => ([], EmptyString)
  | String c rest =>
      match digit_of_ascii c with
      | Some d => let '(ds, r) := take_digits rest in (d :: ds, r)
      | None => ([], s)
      end
  end.

Definition digits_value (ds : list nat) : nat :=
  fold_left (fun acc d => (10 * acc + d)%nat) ds 0%nat.

(** The value of a plain decimal numeral. *)
Definition numeral_value (s : string) : option nat :=
  match take_digits s with
  | (d :: ds, EmptyString) => Some (digits_value (d :: ds))
  | _ => None
  end.

(** The largest values of [unsigned int] (32 bits) and of [unsigned long]
    (64 bits). *)
Definition UINT_MAX : N := 4294967295.
Definition ULONG_MAX : N := 18446744073709551615.

(** What [operator>>] stores for the token [tk] in a variable of an unsigned
    type with the largest value [max], and whether the extraction succeeds:
    a numeral above [max] stores [max] and fails, a token that is no numeral
    stores zero and fails. *)
Definition scan_unsigned (max : N) (tk : string) : nat * bool :=
  match numeral_value tk with
  | Some x =>
      if bool_decide (N.of_nat x <= max)%N then (x, true)
      else (N.to_nat max, false)
  | None => (0%nat, false)
  end.

(** The number that a token is read as, when the extraction succeeds. *)
Definition parse_unsigned (max : N) (tk : string) : option nat :=
  let '(x, ok) := scan_unsigned max tk in if ok then Some x else None.

(** An optional sign: [(negative, rest)]. *)
Definition take_sign (s : string) : bool * string :=
  match s with
  | String "-" rest => (true, rest)
  | String "+" rest => (false, rest)
  | _ => (false, s)
  end.

Definition parse_exponent (s : string) : option Z :=
  match s with
  | EmptyString => Some 0%Z
  | String c rest =>
      if bool_decide (c = "e"%char) || bool_decide (c = "E"%char) then
        let '(neg, r) := take_sign rest in
        match take_digits r with
        | (d :: ds, EmptyString) =>
            let e := Z.of_nat (digits_value (d :: ds)) in
            Some (if neg then (- e)%Z else e)
        | _ => None
        end
      else None
  end.

Definition parse_double (s : string) : option R :=
  let '(neg, s1) := take_sign s in
  let '(ip, s2) := take_digits s1 in
  let '(fp, s3) :=
    match s2 with
    | String "." rest => take_digits rest
    | _ => ([], s2)
    end in
  match ip, fp with
  | [], [] => None
  | _, _ =>
      match parse_exponent s3 with
      | None => None
      | Some e =>
          let mant :=
            INR (digits_value ip) + INR (digits_value fp) / 10 ^ length fp in
          let x := mant * powerRZ 10 e in
          Some (if neg then - x else x)
      end
  end.

(** [stream >> x] for [x] a [std::string]: on a stream that has failed or is
    at its end, [x] keeps its value. *)
Definition extract_string (f : istream) (old : string) : istream * string :=
  if failbit f then (f, old)
  else match tokens f with
       | [] => (mkStream [] true, old)
       | tk :: rest => (mkStream rest false, tk)
       end.

(** [stream >> x] for a number: when the token is no numeral, zero is stored
    and the stream fails; on a stream that has failed or is at its end, [x]
    keeps its value. *)
Definition extract_number {A} (parse : string -> option A) (zero : A)
    (f : istream) (old : A) : istream * A :=
  if failbit f then (f, old)
  else match tokens f with
       | [] => (mkStream [] true, old)
       | tk :: rest =>
           match parse tk with
           | Some x => (mkStream rest false, x)
           | None => (mkStream (tk :: rest) true, zero)
           end
       end.

(** A local variable declared without initialiser ([unsigned int n;],
    [double val;]) is indeterminate until a value is stored; reading it then
    is undefined behaviour. *)
Definition extract_uninit {A} (parse : string -> option A) (zero : A)
    (f : istream) (old : option A) : istream * option A :=
  if failbit f then (f, old)
  else match tokens f with
       | [] => (mkStream [] true, old)
       | tk :: rest =>
           match parse tk with
           | Some x => (mkStream rest false, Some x)
           | None => (mkStream (tk :: rest) true, Some zero)
           end
       end.

(** [stream >> x] for [x] of an unsigned type with the largest value
    [max]. *)
Definition extract_unsigned (max : N) (f : istream) (old : nat)
    : istream * nat :=
  if failbit f then (f, old)
  else match tokens f with
       | [] => (mkStream [] true, old)
       | tk :: rest =>
           let '(x, ok) := scan_unsigned max tk in
           if ok then (mkStream rest false, x)
           else (mkStream (tk :: rest) true, x)
       end.

Definition extract_uninit_unsigned (max : N) (f : istream) (old : option nat)
    : istream * option nat :=
  if failbit f then (f, old)
  else match tokens f with
       | [] => (mkStream [] true, old)
       | tk :: rest =>
           let '(x, ok) := scan_unsigned max tk in
           if ok then (mkStream rest false, Some x)
           else (mkStream (tk :: rest) true, Some x)
       end.

Definition read_var {St A} (x : option A) : M St A :=
  match x with
  | Some a => ret a
  | None => throw UndefinedBehaviour
  end.

(** ** [SurfaceInterpolator3D] *)

Module SurfaceInterpolator3D.

Inductive FieldType : Type := CellField | PointField.

#[global] Instance FieldType_eq_dec : EqDecision FieldType.
Proof. solve_decision. Defined.

Record t : Type := mk {
  points : list Point3;
  triangles : list (array3 nat);
  cell_fields : gmap string (list R);
  point_fields : gmap string (list R);
  cell_vector_fields : gmap string (list Point3);
  triangle_cache : list Triangle.t
}.

Definition set_points (f : list Point3 -> list Point3) (s : t) : t :=
  mk (f (points s)) (triangles s) (cell_fields s) (point_fields s)
     (cell_vector_fields s) (triangle_cache s).
Definition set_triangles (f : list (array3 nat) -> list (array3 nat)) (s : t) : t :=
  mk (points s) (f (triangles s)) (cell_fields s) (point_fields s)
     (cell_vector_fields s) (triangle_cache s).
Definition set_cell_fields
    (f : gmap string (list R) -> gmap string (list R)) (s : t) : t :=
  mk (points s) (triangles s) (f (cell_fields s)) (point_fields s)
     (cell_vector_fields s) (triangle_cache s).
Definition set_point_fields
    (f : gmap string (list R) -> gmap string (list R)) (s : t) : t :=
  mk (points s) (triangles s) (cell_fields s) (f (point_fields s))
     (cell_vector_fields s) (triangle_cache s).
Definition set_cell_vector_fields
    (f : gmap string (list Point3) -> gmap string (list Point3)) (s : t) : t :=
  mk (points s) (triangles s) (cell_fields s) (point_fields s)
     (f (cell_vector_fields s)) (triangle_cache s).
Definition set_triangle_cache
    (f : list Triangle.t -> list Triangle.t) (s : t) : t :=
  mk (points s) (triangles s) (cell_fields s) (point_fields s)
     (cell_vector_fields s) (f (triangle_cache s)).

(** A default-constructed interpolator: every container is empty. *)
Definition empty : t := mk [] [] ∅ ∅ ∅ [].

(** [clear] *)
Definition clear : M t unit :=
  modify (set_points (fun _ => [])) >>
  modify (set_triangles (fun _ => [])) >>
  modify (set_cell_fields (fun _ => ∅)) >>
  modify (set_point_fields (fun _ => ∅)) >>
  modify (set_cell_vector_fields (fun _ => ∅)) >>
  modify (set_triangle_cache (fun _ => [])).

(** [field(...) const]: the lookup that throws. *)
Definition field (s : t) (field_type : FieldType) (field_name : string)
    : result (list R) :=
  let fields :=
    if decide (field_type = CellField) then cell_fields s else point_fields s in
  match fields !! field_name with
  | None => Throw (runtime_error ("Field '" +:+ field_name +:+ "' does not exist."))
  | Some f => Ok f
  end.

(** [std::map::operator[]]: the entry is created empty when it is absent. *)
Definition map_subscript {A} (name : string) (m : gmap string (list A))
    : gmap string (list A) :=
  match m !! name with
  | Some _ => m
  | None => <[name := []]> m
  end.

(** [field(...)], the overload on a non-[const] object: it is
    [cell_fields[field_name]] or [point_fields[field_name]]. The reference it
    returns is the pair [(field_type, field_name)], read with [deref] and
    written with [store_ref]. *)
Definition field_mut (field_type : FieldType) (field_name : string)
    : M t (FieldType * string) :=
  (if decide (field_type = CellField)
   then modify (set_cell_fields (map_subscript field_name))
   else modify (set_point_fields (map_subscript field_name))) >>
  ret (field_type, field_name).

Definition deref (s : t) (r : FieldType * string) : list R :=
  let fields :=
    if decide (r.1 = CellField) then cell_fields s else point_fields s in
  default [] (fields !! r.2).

Definition store_ref (r : FieldType * string) (v : list R) : M t unit :=
  if decide (r.1 = CellField)
  then modify (set_cell_fields <[r.2 := v]>)
  else modify (set_point_fields <[r.2 := v]>).

(** [vector_field] *)
Definition vector_field (s : t) (field_type : FieldType) (field_name : string)
    : result (list Point3) :=
  match field_type with
  | PointField => Throw ExcNotImplemented
  | CellField =>
      match cell_vector_fields s !! field_name with
      | None => Throw (runtime_error ("Field '" +:+ field_name +:+ "' does not exist."))
      | Some f => Ok f
      end
  end.

(** *** [interpolate] *)

(** The trial of one triangle: its closest point to the target and the
    squared distance. *)
Definition trial (p : Point3) (j : nat) (triangle : Triangle.t)
    : M (found Point3) unit :=
  let p_trial := Triangle.closest_triangle_point triangle p in
  let d2 := norm_square (p_trial - p)%pt in
  keep_if_closer p_trial j d2.

(** First loop over the triangles: those whose center is farther from the
    target than three times their longest side are skipped. *)
Definition pruned_scan (s : t) (n_triangles : nat) (p : Point3)
    : M (found Point3) unit :=
  for_loop n_triangles (fun j =>
    let* triangle := index (triangle_cache s) j in
    if bool_decide (norm (p - Triangle.center triangle)%pt
                    > 3 * Triangle.longest_side triangle)
    then ret tt (* continue *)
    else trial p j triangle).

(** Second loop, "now checking each triangle". *)
Definition full_scan (s : t) (n_triangles : nat) (p : Point3)
    : M (found Point3) unit :=
  for_loop n_triangles (fun j =>
    let* triangle := index (triangle_cache s) j in
    trial p j triangle).

(** The search of one target point, from the declaration of [p_found] to
    the [AssertThrow]. *)
Definition find_triangle (s : t) (n_triangles : nat) (p : Point3)
    : M (found Point3) unit :=
  pruned_scan s n_triangles p >>
  let* d2 := gets d2_min in
  (if bool_decide (d2 < 0) then full_scan s n_triangles p else ret tt) >>
  let* d2 := gets d2_min in
  AssertThrow (bool_decide (d2 >= 0)) (ExcInterpolationFailed p).

(** The [switch (field_type)] that fills [target_values[i]]. *)
Definition reconstruct (s : t) (field_type : FieldType)
    (source_field : list R) (i : nat) (f : found Point3)
    : M (list (option R)) unit :=
  match field_type with
  | CellField =>
      let* x := index source_field (j_found f) in
      set_at i x
  | PointField =>
      let* triangle := index (triangle_cache s) (j_found f) in
      let t3 := Triangle.barycentric_coordinates triangle (p_found f) in
      let* v := index (triangles s) (j_found f) in
      for_loop 3 (fun k =>
        let* x := index source_field (at3 v k) in
        add_at i (fmul (at3 t3 k) x))
  end.

(** One round of the loop over the target points. *)
Definition interpolate_at (s : t) (field_type : FieldType)
    (source_field : list R) (n_triangles : nat)
    (target_points : list Point3) (markers : list bool) (i : nat)
    : M (list (option R)) unit :=
  let* marked := index markers i in
  if negb marked then ret tt (* continue *)
  else
    let* p := index target_points i in
    let* fr := with_locals found_init (find_triangle s n_triangles p) in
    reconstruct s field_type source_field i fr.1.

(** [interpolate] for target points in 3D. The state is [target_values]. *)
Definition interpolate (s : t) (field_type : FieldType) (field_name : string)
    (target_points : list Point3) (markers : list bool)
    : M (list (option R)) unit :=
  AssertThrow (bool_decide (field_type = CellField)
               || bool_decide (field_type = PointField)) ExcNotImplemented >>
  let* source_field := lift (field s field_type field_name) in
  let n_triangles := length (triangles s) in
  let n_values := length target_points in
  put (replicate n_values (Some 0)) >>  (* target_values.reinit(n_values) *)
  for_loop n_values
    (interpolate_at s field_type source_field n_triangles target_points markers).

(** [interpolate] for target points in 2D cylindrical coordinates. *)
Definition interpolate_2d (s : t) (field_type : FieldType) (field_name : string)
    (target_points : list Point2) (markers : list bool)
    : M (list (option R)) unit :=
  let points_3d :=
    map (fun q => mkPoint3 (p2_x q) 0 (p2_y q)) target_points in
  interpolate s field_type field_name points_3d markers.

(** *** [convert] *)

(** [target_field[id] += x; count[id]++] on the local copies. *)
Definition accumulate (id : nat) (x : R) : M (list R * list nat) unit :=
  let* st := get in
  let* old := index st.1 id in
  let* tf := assign st.1 id (old + x) in
  let* c := index st.2 id in
  let* cnt := assign st.2 id (S c) in
  put (tf, cnt).

(** [if (count[i] > 0) target_field[i] /= count[i];] *)
Definition divide_by_count (i : nat) : M (list R * list nat) unit :=
  let* st := get in
  let* c := index st.2 i in
  if bool_decide (0 < c)%nat
  then
    let* old := index st.1 i in
    let* tf := assign st.1 i (old / INR c) in
    put (tf, st.2)
  else ret tt.

(** [cell_to_point]. Both fields are obtained with the non-[const] overload
    of [field]; the source lives in [cell_fields], the target in
    [point_fields], so the two references never alias and the loops run on
    [target_field] and [count] as locals before the result is stored. *)
Definition cell_to_point (source_name target_name : string) : M t unit :=
  let* n_points := gets (fun s => length (points s)) in
  let* n_triangles := gets (fun s => length (triangles s)) in
  let* source_ref := field_mut CellField source_name in
  let* target_ref := field_mut PointField target_name in
  store_ref target_ref (replicate n_points 0) >>   (* resize, then fill *)
  let* s := get in
  let source_field := deref s source_ref in
  let* lr :=
    with_locals (replicate n_points 0, replicate n_points 0%nat)
      (for_loop n_triangles (fun i =>
         let* v := index (triangles s) i in
         for_loop 3 (fun k =>
           let* x := index source_field i in
           accumulate (at3 v k) x)) >>
       for_loop n_points divide_by_count) in
  store_ref target_ref lr.1.1.

(** [point_to_cell] *)
Definition point_to_cell (source_name target_name : string) : M t unit :=
  let* n_triangles := gets (fun s => length (triangles s)) in
  let* source_ref := field_mut PointField source_name in
  let* target_ref := field_mut CellField target_name in
  store_ref target_ref (replicate n_triangles 0) >>
  let* s := get in
  let source_field := deref s source_ref in
  let* lr :=
    with_locals (replicate n_triangles 0, replicate n_triangles 0%nat)
      (for_loop n_triangles (fun i =>
         let* v := index (triangles s) i in
         for_loop 3 (fun k =>
           let* x := index source_field (at3 v k) in
           accumulate i x)) >>
       for_loop n_triangles divide_by_count) in
  store_ref target_ref lr.1.1.

Definition convert (source_type : FieldType) (source_name : string)
    (target_type : FieldType) (target_name : string) : M t unit :=
  let target_name_updated :=
    if decide (target_name = "") then source_name else target_name in
  if bool_decide (source_type = CellField) && bool_decide (target_type = PointField)
  then cell_to_point source_name target_name_updated
  else if bool_decide (source_type = PointField)
          && bool_decide (target_type = CellField)
  then point_to_cell source_name target_name_updated
  else throw (runtime_error
                "Unsupported combination of source and target field types.").

(** *** [preprocess] *)

Definition preprocess : M t unit :=
  let* n_triangles := gets (fun s => length (triangles s)) in
  (* auto &area = cell_fields["area"]; ... *)
  modify (set_cell_fields (map_subscript "area")) >>
  modify (set_cell_fields (map_subscript "longest_side")) >>
  modify (set_cell_vector_fields (map_subscript "center")) >>
  modify (set_cell_vector_fields (map_subscript "normal")) >>
  modify (set_cell_fields (alter (resize n_triangles 0) "area")) >>
  modify (set_cell_fields (alter (resize n_triangles 0) "longest_side")) >>
  modify (set_cell_vector_fields (alter (resize n_triangles pt_zero) "center")) >>
  modify (set_cell_vector_fields (alter (resize n_triangles pt_zero) "normal")) >>
  modify (set_triangle_cache (resize n_triangles Triangle.default)) >>
  for_loop n_triangles (fun i =>
    let* s := get in
    let* v := index (triangles s) i in
    let* p0 := index (points s) (at3 v 0) in
    let* p1 := index (points s) (at3 v 1) in
    let* p2 := index (points s) (at3 v 2) in
    let triangle := Triangle.reinit p0 p1 p2 in
    modify (set_triangle_cache <[i := triangle]>) >>
    modify (set_cell_vector_fields
              (alter <[i := Triangle.center triangle]> "center")) >>
    modify (set_cell_vector_fields
              (alter <[i := Triangle.normal triangle]> "normal")) >>
    modify (set_cell_fields (alter <[i := Triangle.area triangle]> "area")) >>
    modify (set_cell_fields
              (alter <[i := Triangle.longest_side triangle]> "longest_side"))).

(** *** [read_vtk] *)

(** The interpolator being filled and the locals [file], [s], [data_type],
    [data_name] of [read_vtk]. *)
Record reader : Type := mkReader {
  obj : t;
  file : istream;
  var_s : string;
  var_data_type : string;
  var_data_name : string
}.

Definition on_obj (f : t -> t) : M reader unit :=
  modify (fun r =>
    mkReader (f (obj r)) (file r) (var_s r) (var_data_type r) (var_data_name r)).

(** [file >> s] *)
Definition in_s : M reader unit :=
  modify (fun r =>
    let '(f, x) := extract_string (file r) (var_s r) in
    mkReader (obj r) f x (var_data_type r) (var_data_name r)).

(** [file >> data_name] *)
Definition in_data_name : M reader unit :=
  modify (fun r =>
    let '(f, x) := extract_string (file r) (var_data_name r) in
    mkReader (obj r) f (var_s r) (var_data_type r) x).

(** [data_type = s] *)
Definition set_data_type : M reader unit :=
  modify (fun r =>
    mkReader (obj r) (file r) (var_s r) (var_s r) (var_data_name r)).

(** [file >> x] for a numeric lvalue [x] that holds [old]. *)
Definition in_number {A} (parse : string -> option A) (zero : A) (old : A)
    : M reader A :=
  fun r =>
    let '(f, x) := extract_number parse zero (file r) old in
    (mkReader (obj r) f (var_s r) (var_data_type r) (var_data_name r), Ok x).

(** [file >> x] for an [unsigned long] lvalue [x] that holds [old]. *)
Definition in_unsigned_long (old : nat) : M reader nat :=
  fun r =>
    let '(f, x) := extract_unsigned ULONG_MAX (file r) old in
    (mkReader (obj r) f (var_s r) (var_data_type r) (var_data_name r), Ok x).

(** [unsigned int n; file >> n] *)
Definition in_count : M reader (option nat) :=
  fun r =>
    let '(f, x) := extract_uninit_unsigned UINT_MAX (file r) None in
    (mkReader (obj r) f (var_s r) (var_data_type r) (var_data_name r), Ok x).

(** The [POINTS] section. *)
Definition read_points : M reader unit :=
  let* n := in_count in
  in_s >>                                   (* data type *)
  let* n := read_var n in
  on_obj (set_points (resize n pt_zero)) >>
  for_loop n (fun i =>
    let* r := get in
    let* p := index (points (obj r)) i in
    let* x := in_number parse_double 0 (p3_x p) in
    let* y := in_number parse_double 0 (p3_y p) in
    let* z := in_number parse_double 0 (p3_z p) in
    on_obj (set_points <[i := mkPoint3 x y z]>)).

(** The [CELLS] section. *)
Definition read_cells : M reader unit :=
  let* n := in_count in
  in_s >>                                   (* size *)
  let* n := read_var n in
  on_obj (set_triangles (resize n (0, 0, 0)%nat)) >>
  for_loop n (fun i =>
    in_s >>
    let* s := gets var_s in
    if bool_decide (s <> "3")
    then throw (runtime_error ("Triangle expected, numPoints=" +:+ s +:+ "found"))
    else
      let* r := get in
      let* v := index (triangles (obj r)) i in
      let* v0 := in_unsigned_long (at3 v 0) in
      let* v1 := in_unsigned_long (at3 v 1) in
      let* v2 := in_unsigned_long (at3 v 2) in
      on_obj (set_triangles <[i := (v0, v1, v2)]>)).

(** The values of one field: [N], [f], [f.resize(N)] and the loop
    [file >> f[i]]. *)
Definition read_field_values : M reader unit :=
  let* r := get in
  let is_cell := bool_decide (var_data_type r = "CELL_DATA") in
  let N := if is_cell then length (triangles (obj r))
           else length (points (obj r)) in
  let name := var_data_name r in
  let on_field (g : list R -> list R) : M reader unit :=
    if is_cell then on_obj (set_cell_fields (alter g name))
    else on_obj (set_point_fields (alter g name)) in
  (if is_cell then on_obj (set_cell_fields (map_subscript name))
   else on_obj (set_point_fields (map_subscript name))) >>
  on_field (resize N 0) >>
  for_loop N (fun i =>
    let* r := get in
    let f := if is_cell then default [] (cell_fields (obj r) !! name)
             else default [] (point_fields (obj r) !! name) in
    let* old := index f i in
    let* x := in_number parse_double 0 old in
    on_field <[i := x]>).

(** The body of [while (file >> s)]. *)
Definition vtk_section : M reader unit :=
  let* s := gets var_s in
  if bool_decide (s = "POINTS") then read_points
  else if bool_decide (s = "CELLS") then read_cells
  else
    (if bool_decide (s = "CELL_DATA") || bool_decide (s = "POINT_DATA")
     then set_data_type else ret tt) >>
    let* s := gets var_s in
    (if bool_decide (s = "SCALARS")
     then
       in_data_name >> in_s >>              (* data type *)
       in_s >> in_s >>                      (* LOOKUP_TABLE *)
       read_field_values
     else ret tt) >>
    let* s := gets var_s in
    (if bool_decide (s = "FIELD")
     then
       in_s >>                              (* FieldData *)
       let* n_fields := in_count in
       let* n_fields := read_var n_fields in
       for_loop n_fields (fun k =>
         in_data_name >> in_s >> in_s >> in_s >>
         read_field_values)
     else ret tt).

(** [while (file >> s) body]: each round takes at least the token it stores
    in [s], so [fuel] above the number of tokens is never used up (lemma
    [while_extract_total]). *)
Fixpoint while_extract (fuel : nat) (body : M reader unit) (r : reader)
    : option (reader * result unit) :=
  match fuel with
  | O => None
  | S fuel' =>
      let r1 := (in_s r).1 in
      if failbit (file r1) then Some (r1, Ok tt)
      else match body r1 with
           | (r2, Ok _) => while_extract fuel' body r2
           | (r2, Throw e) => Some (r2, Throw e)
           end
  end.

(** [read_vtk]: [content] is [None] when the file cannot be opened, and the
    tokens of the file otherwise. *)
Definition read_vtk (content : option (list string)) : M t unit :=
  clear >>
  match content with
  | None => ret tt                          (* "Could not open" *)
  | Some toks => fun s =>
      match while_extract (S (length toks)) vtk_section
                          (mkReader s (mkStream toks false) "" "" "") with
      | Some (r, Ok _) => preprocess (obj r)
      | Some (r, Throw e) => (obj r, Throw e)
      | None => (s, Throw UndefinedBehaviour)
      end
  end.

(** *** [read_vtu] *)

(** [Utilities::match_at_string_start(name, pattern)]: whether [name]
    starts with [pattern]. *)
Definition match_at_string_start (name pattern : string) : bool :=
  String.prefix pattern name.

(** [s.back()], on a string that is not empty. *)
Fixpoint string_back (s : string) : option ascii :=
  match s with
  | EmptyString => None
  | String c EmptyString => Some c
  | String _ rest => string_back rest
  end.

(** The double quote that delimits the value of an attribute. *)
Definition quote : ascii := "034"%char.

(** [v.resize(n)] for an [int n]: a negative [n] becomes a size above
    [max_size()]. *)
Definition resize_int {A} (n : Z) (a0 : A) (v : list A) : result (list A) :=
  if bool_decide (n < 0)%Z then Throw length_error
  else Ok (resize (Z.to_nat n) a0 v).

(** The error of a data array whose number of values does not fit. *)
Definition size_error (data_type : string) (size : nat) (data_name : string)
    (n : nat) : exn :=
  runtime_error (data_type +:+ " " +:+ to_string size +:+ " " +:+ data_name
                 +:+ " " +:+ to_string n).

(** [data_name = x] *)
Definition set_data_name (x : string) : M reader unit :=
  modify (fun r =>
    mkReader (obj r) (file r) (var_s r) (var_data_type r) x).

Section ReadVtu.

(** The functions of deal.II and of the standard library that [read_vtu]
    calls and whose code is not in the header:
    [Utilities::split_string_list(s, delimiter)],
    [Utilities::string_to_int], [std::stod] and [std::stoul]; the last three
    throw on a string that they cannot convert. *)
Variable split_string_list : string -> ascii -> list string.
Variable string_to_int : string -> result Z.
Variable stod : string -> result R.
Variable stoul : string -> result nat.

(** The branch of a token that starts with [NumberOf]. *)
Definition vtu_number_of : M reader unit :=
  let* s := gets var_s in
  let l := split_string_list s quote in
  let* l1 := index l 1 in
  let* n := lift (string_to_int l1) in
  let* l0 := index l 0 in
  if bool_decide (l0 = "NumberOfPoints=") then
    let* r := get in
    let* pts := lift (resize_int n pt_zero (points (obj r))) in
    on_obj (set_points (fun _ => pts))
  else if bool_decide (l0 = "NumberOfCells=") then
    let* r := get in
    let* tris := lift (resize_int n (0, 0, 0)%nat (triangles (obj r))) in
    on_obj (set_triangles (fun _ => tris))
  else ret tt.

(** A cell field or a point field: [auto &field = cell_fields[data_name]],
    [field.resize(n)] and the loop [field[i] = std::stod(data[i])]. *)
Definition store_values (is_cell : bool) (data : list string)
    : M reader unit :=
  let* name := gets var_data_name in
  let on_field (g : gmap string (list R) -> gmap string (list R))
      : M reader unit :=
    if is_cell then on_obj (set_cell_fields g)
    else on_obj (set_point_fields g) in
  on_field (map_subscript name) >>
  on_field (alter (resize (length data) 0) name) >>
  for_loop (length data) (fun i =>
    let* d := index data i in
    let* x := lift (stod d) in
    let* r := get in
    let f := if is_cell then default [] (cell_fields (obj r) !! name)
             else default [] (point_fields (obj r) !! name) in
    let* _ := index f i in
    on_field (alter <[i := x]> name)).

(** The point coordinates; the three conversions of a point are written in
    the order of the arguments. *)
Definition store_points (data : list string) : M reader unit :=
  for_loop (length data / 3) (fun i =>
    let k := (3 * i)%nat in
    let* d0 := index data k in
    let* x := lift (stod d0) in
    let* d1 := index data (k + 1) in
    let* y := lift (stod d1) in
    let* d2 := index data (k + 2) in
    let* z := lift (stod d2) in
    let* r := get in
    let* _ := index (points (obj r)) i in
    on_obj (set_points <[i := mkPoint3 x y z]>)).

(** The connectivity of the cells. *)
Definition store_cells (data : list string) : M reader unit :=
  for_loop (length data / 3) (fun i =>
    let k := (3 * i)%nat in
    let* d0 := index data k in
    let* v0 := lift (stoul d0) in
    let* d1 := index data (k + 1) in
    let* v1 := lift (stoul d1) in
    let* d2 := index data (k + 2) in
    let* v2 := lift (stoul d2) in
    let* r := get in
    let* _ := index (triangles (obj r)) i in
    on_obj (set_triangles <[i := (v0, v1, v2)]>)).

(** What is done with the tokens [data] of an array when [</DataArray>] is
    reached. *)
Definition store_data_array (data : list string) : M reader unit :=
  let* r := get in
  let n := length data in
  let data_type := var_data_type r in
  let data_name := var_data_name r in
  let n_points := length (points (obj r)) in
  let n_triangles := length (triangles (obj r)) in
  if bool_decide (data_type = "<CellData>") then
    if bool_decide (n <> n_triangles)
    then throw (size_error data_type n_triangles data_name n)
    else store_values true data
  else if bool_decide (data_type = "<PointData>") then
    if bool_decide (n <> n_points)
    then throw (size_error data_type n_points data_name n)
    else store_values false data
  else if bool_decide (data_type = "<Points>") then
    if bool_decide (n <> 3 * n_points)%nat
    then throw (size_error data_type n_points data_name n)
    else store_points data
  else if bool_decide (data_type = "<Cells>")
          && bool_decide (data_name = "connectivity") then
    if bool_decide (n <> 3 * n_triangles)%nat
    then throw (size_error data_type n_points data_name n)
    else store_cells data
  else ret tt.

(** The inner loop [while (file >> s)] over the tokens of an array. The
    value returned is [data_start] as the loop leaves it: cleared when
    [</DataArray>] has been reached, still set when the file has ended
    before. *)
Fixpoint read_data_array (fuel : nat) (data : list string) (r : reader)
    : option (reader * result bool) :=
  match fuel with
  | O => None
  | S fuel' =>
      let r1 := (in_s r).1 in
      if failbit (file r1) then Some (r1, Ok true)
      else if bool_decide (var_s r1 = "</DataArray>") then
        Some ((store_data_array data >> set_data_name "" >> ret false) r1)
      else read_data_array fuel' (data ++ [var_s r1]) r1
  end.

(** The body of the outer loop for the token in [s]; it returns
    [data_start]. *)
Definition vtu_token (fuel : nat) (data_start : bool) (r : reader)
    : option (reader * result bool) :=
  let s := var_s r in
  if match_at_string_start s "NumberOf" then
    Some ((vtu_number_of >> ret data_start) r)          (* continue *)
  else
    match ((if match_at_string_start s "<Cell"
               || match_at_string_start s "<Point"
            then set_data_type else ret tt) >>
           (if match_at_string_start s "Name="
            then let* name := index (split_string_list s quote) 1 in
                 set_data_name name
            else ret tt)) r with
    | (r1, Throw e) => Some (r1, Throw e)
    | (r1, Ok _) =>
        let data_start := bool_decide (s = "<DataArray") || data_start in
        if data_start && bool_decide (string_back s = Some ">"%char)
        then read_data_array fuel [] r1
        else Some (r1, Ok data_start)
    end.

(** The outer loop [while (file >> s)]. Every round of either loop takes a
    token, so [fuel] above the number of tokens is never used up. *)
Fixpoint vtu_loop (fuel : nat) (data_start : bool) (r : reader)
    : option (reader * result unit) :=
  match fuel with
  | O => None
  | S fuel' =>
      let r1 := (in_s r).1 in
      if failbit (file r1) then Some (r1, Ok tt)
      else match vtu_token fuel' data_start r1 with
           | Some (r2, Ok ds) => vtu_loop fuel' ds r2
           | Some (r2, Throw e) => Some (r2, Throw e)
           | None => None
           end
  end.

(** [read_vtu]: [content] is [None] when the file cannot be opened, and the
    tokens of the file otherwise. *)
Definition read_vtu (content : option (list string)) : M t unit :=
  clear >>
  match content with
  | None => ret tt                          (* "Could not open" *)
  | Some toks => fun s =>
      match vtu_loop (S (length toks)) false
                     (mkReader s (mkStream toks false) "" "" "") with
      | Some (r, Ok _) => preprocess (obj r)
      | Some (r, Throw e) => (obj r, Throw e)
      | None => (s, Throw UndefinedBehaviour)
      end
  end.

End ReadVtu.

End SurfaceInterpolator3D.

(** ** [SurfaceInterpolator2D] *)

(** The whitespace-separated words of one line, as a [std::stringstream]
    built on the line yields them. *)
Definition is_space (c : ascii) : bool :=
  let n := nat_of_ascii c in
  bool_decide (n = 32)%nat || (bool_decide (9 <= n)%nat && bool_decide (n <= 13)%nat).

Fixpoint words_from (cur : string) (s : string) : list string :=
  match s with
  | EmptyString => if bool_decide (cur = "") then [] else [cur]
  | String c rest =>
      if is_space c
      then (if bool_decide (cur = "") then words_from "" rest
            else cur :: words_from "" rest)
      else words_from (cur +:+ String c "") rest
  end.

Definition words (line : string) : list string := words_from "" line.

Module SurfaceInterpolator2D.

Record t : Type := mk {
  points : list Point2;
  fields : gmap string (list R)
}.

Definition empty : t := mk [] ∅.

(** [clear] *)
Definition clear : M t unit :=
  modify (fun s => mk [] (fields s)) >>
  modify (fun s => mk (points s) ∅).

(** [field] *)
Definition field (s : t) (field_name : string) : result (list R) :=
  match fields s !! field_name with
  | None => Throw (runtime_error ("Field '" +:+ field_name +:+ "' does not exist."))
  | Some f => Ok f
  end.

(** *** [read_txt] *)

(** The interpolator being filled and the locals of [read_txt]: the vectors
    [field_names] and [field_values], and for the line at hand the stream
    [ss] and the variable [val]. *)
Record reader : Type := mkReader {
  obj : t;
  field_names : list string;
  field_values : list (list R);
  ss : istream;
  val : option R
}.

Definition set_ss (f : istream) (r : reader) : reader :=
  mkReader (obj r) (field_names r) (field_values r) f (val r).

(** The header line: [ss >> name >> name], then the field names. *)
Definition read_header (line : string) : M reader unit :=
  modify (fun r =>
    let names := drop 2 (words line) in
    mkReader (obj r) (field_names r ++ names)
             (resize (length (field_names r ++ names)) [] (field_values r))
             (mkStream [] true) (val r)).

(** [ss >> val; field_values[i].push_back(val);] *)
Definition read_value (i : nat) : M reader unit :=
  let* r := get in
  let '(f, x) := extract_uninit parse_double 0 (ss r) (val r) in
  put (mkReader (obj r) (field_names r) (field_values r) f x) >>
  let* x := read_var x in
  let* column := index (field_values r) i in
  let* fv := assign (field_values r) i (column ++ [x]) in
  modify (fun r => mkReader (obj r) (field_names r) fv (ss r) (val r)).

(** A data line. *)
Definition read_row (line : string) : M reader unit :=
  let f0 := mkStream (words line) false in
  let '(f1, x) := extract_number parse_double 0 f0 0 in
  let '(f2, y) := extract_number parse_double 0 f1 0 in
  modify (fun r =>
    mkReader (mk (points (obj r) ++ [mkPoint2 x y]) (fields (obj r)))
             (field_names r) (field_values r) f2 None) >>
  let* n := gets (fun r => length (field_names r)) in
  for_loop n read_value.

(** One round of [while (std::getline(file, line))]. *)
Definition read_line (line : string) : M reader unit :=
  if bool_decide (line = "") then ret tt (* continue *)
  else
    let* names := gets field_names in
    if bool_decide (names = []) then read_header line else read_row line.

Fixpoint read_lines (lines : list string) : M reader unit :=
  match lines with
  | [] => ret tt
  | line :: rest => read_line line >> read_lines rest
  end.

(** [fields[field_names[i]] = field_values[i]] *)
Definition publish_field (i : nat) : M reader unit :=
  let* r := get in
  let* name := index (field_names r) i in
  let* column := index (field_values r) i in
  put (mkReader (mk (points (obj r)) (<[name := column]> (fields (obj r))))
                (field_names r) (field_values r) (ss r) (val r)).

(** [read_txt]: [content] is [None] when the file cannot be opened, and the
    lines of the file otherwise. *)
Definition read_txt (content : option (list string)) : M t unit :=
  clear >>
  match content with
  | None => ret tt                          (* "Could not open" *)
  | Some lines => fun s =>
      let '(r, res) :=
        (read_lines lines >>
         let* n := gets (fun r => length (field_names r)) in
         for_loop n publish_field)
          (mkReader s [] [] (mkStream [] false) None) in
      (obj r, res)
  end.

(** *** [interpolate] *)

(** The loop over the segments, [for (j = 0; j + 1 < n_points; ++j)]. *)
Definition scan_segments (s : t) (n_points : nat) (p : Point2)
    : M (found Point2) unit :=
  for_loop (n_points - 1) (fun j =>
    let* a := index (points s) j in
    let* b := index (points s) (j + 1) in
    let p_trial := closest_segment_point p a b in
    let d2 := norm (p_trial - p)%pt in
    keep_if_closer p_trial j d2).

(** The blend of the two end values of the segment found. *)
Definition blend (s : t) (source_field : list R) (i : nat) (f : found Point2)
    : M (list (option R)) unit :=
  let* a := index (points s) (j_found f) in
  let* b := index (points s) (j_found f + 1) in
  let t2 := barycentric_coordinates (p_found f) a b in
  for_loop 2 (fun k =>
    let* x := index source_field (j_found f + k) in
    add_at i (fmul (at2 t2 k) x)).

(** One round of the loop over the target points. *)
Definition interpolate_at (s : t) (source_field : list R) (n_points : nat)
    (target_points : list Point2) (markers : list bool) (i : nat)
    : M (list (option R)) unit :=
  let* marked := index markers i in
  if negb marked then ret tt (* continue *)
  else
    let* p := index target_points i in
    let* fr := with_locals found_init (scan_segments s n_points p) in
    blend s source_field i fr.1.

(** [interpolate] for target points in 2D. The state is [target_values]. *)
Definition interpolate (s : t) (field_name : string)
    (target_points : list Point2) (markers : list bool)
    : M (list (option R)) unit :=
  let* source_field := lift (field s field_name) in
  let n_points := length (points s) in
  let n_values := length target_points in
  put (replicate n_values (Some 0)) >>  (* target_values.reinit(n_values) *)
  for_loop n_values
    (interpolate_at s source_field n_points target_points markers).

(** [interpolate] for target points in 3D, taken to cylindrical [(r, z)]. *)
Definition interpolate_3d (s : t) (field_name : string)
    (target_points : list Point3) (markers : list bool)
    : M (list (option R)) unit :=
  let points_2d :=
    map (fun q => mkPoint2 (sqrt (p3_x q * p3_x q + p3_y q * p3_y q)) (p3_z q))
        target_points in
  interpolate s field_name points_2d markers.

End SurfaceInterpolator2D.

(** Short names for the two classes. *)
Module Import I3 := SurfaceInterpolator3D.
Module I2 := SurfaceInterpolator2D.

(** * Specification vocabulary *)

(** Partial correctness with an exceptional postcondition: from a state in
    [P], the computation ends in a state in [Q] when it returns and in a
    state in [E] when it throws. *)
Definition hoare {St A} (P : St -> Prop) (m : M St A)
    (Q : A -> St -> Prop) (E : exn -> St -> Prop) : Prop :=
  forall s, P s ->
    match m s with
    | (s', Ok a) => Q a s'
    | (s', Throw e) => E e s'
    end.

(** What one round of a nearest-feature loop offers: nothing when the
    feature is skipped, else the trial point and its distance measure. *)
Definition offer {P} (c : option (P * R)) (j : nat) : M (found P) unit :=
  match c with
  | None => ret tt
  | Some (pt, d2) => keep_if_closer pt j d2
  end.

(** [f] holds the first best offer among the rounds below [n]. *)
Definition best_of {P} (cand : nat -> option (P * R)) (n : nat) (f : found P)
    : Prop :=
  (j_found f < n)%nat /\
  cand (j_found f) = Some (p_found f, d2_min f) /\
  forall j pt d2, (j < n)%nat -> cand j = Some (pt, d2) ->
    d2_min f <= d2 /\ ((j < j_found f)%nat -> d2_min f < d2).

(** Nothing was offered below [n]: the locals are as initialised. *)
Definition none_of {P} `{PointOps P} (cand : nat -> option (P * R)) (n : nat)
    (f : found P) : Prop :=
  f = found_init /\ forall j, (j < n)%nat -> cand j = None.

(** Squared distance from [p] to the closest point of a triangle. *)
Definition closest_distance2 (tr : Triangle.t) (p : Point3) : R :=
  norm_square (Triangle.closest_triangle_point tr p - p)%pt.

(** The pruning test of [interpolate], as a boolean: [true] when the
    triangle is kept. *)
Definition survives_pruning (p : Point3) (tr : Triangle.t) : bool :=
  negb (bool_decide (norm (p - Triangle.center tr)%pt
                     > 3 * Triangle.longest_side tr)).

(** The offers of the two triangle loops. *)
Definition triangle_offer (keep : Triangle.t -> bool)
    (cache : list Triangle.t) (p : Point3) (j : nat) : option (Point3 * R) :=
  match cache !! j with
  | Some tr =>
      if keep tr
      then Some (Triangle.closest_triangle_point tr p, closest_distance2 tr p)
      else None
  | None => None
  end.

(** Triangle [j] is, among the triangles below [n] that satisfy [keep], one
    of least distance to [p], and the first such. *)
Definition nearest_among (keep : Triangle.t -> bool)
    (cache : list Triangle.t) (n : nat) (p : Point3) (j : nat) : Prop :=
  (j < n)%nat /\
  exists tr, cache !! j = Some tr /\ keep tr = true /\
    forall j' tr', (j' < n)%nat -> cache !! j' = Some tr' -> keep tr' = true ->
      closest_distance2 tr p <= closest_distance2 tr' p /\
      ((j' < j)%nat -> closest_distance2 tr p < closest_distance2 tr' p).

(** What [find_triangle] leaves in the locals when it returns. *)
Definition selected (s : SurfaceInterpolator3D.t) (n : nat) (p : Point3) (f : found Point3) : Prop :=
  best_of (triangle_offer (survives_pruning p) (SurfaceInterpolator3D.triangle_cache s) p) n f \/
  ((forall j, (j < n)%nat ->
      triangle_offer (survives_pruning p) (SurfaceInterpolator3D.triangle_cache s) p j = None) /\
   best_of (triangle_offer (fun _ => true) (SurfaceInterpolator3D.triangle_cache s) p) n f).

(** [v'] differs from [v] at index [i] at most. *)
Definition same_except {A} (i : nat) (v v' : list A) : Prop :=
  length v' = length v /\ forall j, j <> i -> v' !! j = v !! j.

(** The blend [t3[0] * x0 + t3[1] * x1 + t3[2] * x2]: a number when the
    three coordinates are numbers. *)
Definition blend3 (t3 : array3 (option R)) (x0 x1 x2 : R) : option R :=
  match at3 t3 0, at3 t3 1, at3 t3 2 with
  | Some t0, Some t1, Some t2 => Some (t0 * x0 + t1 * x1 + t2 * x2)
  | _, _, _ => None
  end.

(** The blend [t2[0] * x0 + t2[1] * x1]. *)
Definition blend2 (t2 : array2 (option R)) (x0 x1 : R) : option R :=
  match at2 t2 0, at2 t2 1 with
  | Some t0, Some t1 => Some (t0 * x0 + t1 * x1)
  | _, _ => None
  end.

(** The value that [interpolate] stores for a target point whose search
    ended with the locals [f]: the value of triangle [j_found] for a cell
    field, the barycentric blend of its three vertex values at [p_found] for
    a point field, which is no finite number when the coordinates are
    not. *)
Definition reconstructed_value (s : SurfaceInterpolator3D.t)
    (field_type : SurfaceInterpolator3D.FieldType) (source_field : list R)
    (f : found Point3) (x : option R) : Prop :=
  match field_type with
  | SurfaceInterpolator3D.CellField =>
      exists y, source_field !! j_found f = Some y /\ x = Some y
  | SurfaceInterpolator3D.PointField =>
      exists tr v x0 x1 x2,
        SurfaceInterpolator3D.triangle_cache s !! j_found f = Some tr /\
        SurfaceInterpolator3D.triangles s !! j_found f = Some v /\
        source_field !! at3 v 0 = Some x0 /\
        source_field !! at3 v 1 = Some x1 /\
        source_field !! at3 v 2 = Some x2 /\
        x = blend3 (Triangle.barycentric_coordinates tr (p_found f)) x0 x1 x2
  end.

(** The shape shared by the loops over the target points of both
    interpolators: skip the unmarked point, search the nearest feature with
    fresh locals, then fill [target_values[i]]. *)
Definition marked_round {P} `{PointOps P}
    (search : P -> M (found P) unit)
    (finish : nat -> found P -> M (list (option R)) unit)
    (target_points : list P) (markers : list bool) (i : nat)
    : M (list (option R)) unit :=
  let* marked := index markers i in
  if negb marked then ret tt
  else
    let* p := index target_points i in
    let* fr := with_locals found_init (search p) in
    finish i fr.1.

(** The entry of the output for target [i] once the loop has passed it:
    zero for an unmarked point, and for a marked one a value that [value]
    relates to the locals left by the search. *)
Definition entry_post {P} `{PointOps P}
    (search : P -> M (found P) unit) (value : found P -> option R -> Prop)
    (target_points : list P) (markers : list bool)
    (i : nat) (o : option (option R)) : Prop :=
  (markers !! i = Some false /\ o = Some (Some 0)) \/
  (markers !! i = Some true /\
   exists p f x, target_points !! i = Some p /\
     search p found_init = (f, Ok tt) /\ value f x /\ o = Some x).

(** Invariant of the loop over [m] target points after [k] rounds. *)
Definition loop_inv {P} `{PointOps P}
    (search : P -> M (found P) unit) (value : found P -> option R -> Prop)
    (target_points : list P) (markers : list bool)
    (m k : nat) (tv : list (option R)) : Prop :=
  length tv = m /\
  (forall i, (k <= i < m)%nat -> tv !! i = Some (Some 0)) /\
  (forall i, (i < k)%nat ->
     entry_post search value target_points markers i (tv !! i)).

(** Unmarked entries are zero. *)
Definition unmarked_zero (markers : list bool) (m : nat)
    (tv : list (option R)) : Prop :=
  length tv = m /\
  forall i, (i < m)%nat -> markers !! i = Some false ->
    tv !! i = Some (Some 0).

(** What the round for segment [j] of the polyline offers. *)
Definition segment_offer (pts : list Point2) (p : Point2) (j : nat)
    : option (Point2 * R) :=
  match pts !! j, pts !! (j + 1)%nat with
  | Some a, Some b =>
      let q := closest_segment_point p a b in Some (q, norm (q - p)%pt)
  | _, _ => None
  end.

(** The value that the 2D [interpolate] stores for a target point whose
    search ended with the locals [f]: the blend of the end values of segment
    [j_found] with the parameter of [p_found] on it. *)
Definition blended_value (s : SurfaceInterpolator2D.t) (source_field : list R)
    (f : found Point2) (x : option R) : Prop :=
  exists a b x0 x1,
    SurfaceInterpolator2D.points s !! j_found f = Some a /\
    SurfaceInterpolator2D.points s !! (j_found f + 1)%nat = Some b /\
    source_field !! j_found f = Some x0 /\
    source_field !! (j_found f + 1)%nat = Some x1 /\
    x = blend2 (barycentric_coordinates (p_found f) a b) x0 x1.

(** The invariants of a loaded surface: the triangle cache has one entry
    per triangle, and the vertex indices of the triangles are valid. *)
Definition cache_in_step (s : SurfaceInterpolator3D.t) : Prop :=
  length (SurfaceInterpolator3D.triangle_cache s)
  = length (SurfaceInterpolator3D.triangles s).

Definition indices_valid (s : SurfaceInterpolator3D.t) : Prop :=
  forall j v k, SurfaceInterpolator3D.triangles s !! j = Some v ->
    (k < 3)%nat -> (at3 v k < length (SurfaceInterpolator3D.points s))%nat.

(** A cell field has one value per triangle, a point field one per point. *)
Definition field_fits (s : SurfaceInterpolator3D.t)
    (field_type : SurfaceInterpolator3D.FieldType) (f : list R) : Prop :=
  length f = match field_type with
             | SurfaceInterpolator3D.CellField =>
                 length (SurfaceInterpolator3D.triangles s)
             | SurfaceInterpolator3D.PointField =>
                 length (SurfaceInterpolator3D.points s)
             end.

(** ** Incidence sums

    [occurrences v p] counts the corners of triangle [v] that are point [p];
    the sums below run over the first [i] triangles. *)
Definition occurrences (v : array3 nat) (p : nat) : nat :=
  ((if decide (p = at3 v 0) then 1 else 0) +
   (if decide (p = at3 v 1) then 1 else 0) +
   (if decide (p = at3 v 2) then 1 else 0))%nat.

Fixpoint incidence_count (tris : list (array3 nat)) (p : nat) (i : nat) : nat :=
  match i with
  | O => O
  | S i' =>
      (incidence_count tris p i' + occurrences (nth i' tris (0, 0, 0)%nat) p)%nat
  end.

Fixpoint incidence_sum (tris : list (array3 nat)) (src : list R) (p : nat)
    (i : nat) : R :=
  match i with
  | O => 0
  | S i' =>
      incidence_sum tris src p i'
      + INR (occurrences (nth i' tris (0, 0, 0)%nat) p) * nth i' src 0
  end.

(** The mean over the corners of all triangles that are point [p], and zero
    when there is none. *)
Definition incidence_mean (tris : list (array3 nat)) (src : list R) (p : nat)
    : R :=
  let c := incidence_count tris p (length tris) in
  if decide (0 < c)%nat
  then incidence_sum tris src p (length tris) / INR c
  else 0.

(** The mean of the three vertex values of triangle [v]. *)
Definition vertex_mean (src : list R) (v : array3 nat) : R :=
  (nth (at3 v 0) src 0 + nth (at3 v 1) src 0 + nth (at3 v 2) src 0) / 3.

(** The locals [target_field] and [count] of a conversion hold the values
    [fs] and [fc] on the indices below [n]. *)
Definition acc_state (n : nat) (fs : nat -> R) (fc : nat -> nat)
    (st : list R * list nat) : Prop :=
  length st.1 = n /\ length st.2 = n /\
  forall p, (p < n)%nat -> st.1 !! p = Some (fs p) /\ st.2 !! p = Some (fc p).

(** ** Plain means over incident triangles

    Triangle [v] is incident on point [p] when one of its corners is [p];
    here every incident triangle counts once. *)
Definition incident (v : array3 nat) (p : nat) : bool :=
  bool_decide (p = at3 v 0) || bool_decide (p = at3 v 1)
  || bool_decide (p = at3 v 2).

Fixpoint incident_count (tris : list (array3 nat)) (p : nat) (i : nat) : nat :=
  match i with
  | O => O
  | S i' =>
      (incident_count tris p i'
       + (if incident (nth i' tris (0, 0, 0)%nat) p then 1 else 0))%nat
  end.

Fixpoint incident_sum (tris : list (array3 nat)) (src : list R) (p : nat)
    (i : nat) : R :=
  match i with
  | O => 0
  | S i' =>
      incident_sum tris src p i'
      + (if incident (nth i' tris (0, 0, 0)%nat) p then nth i' src 0 else 0)
  end.

Definition plain_mean (tris : list (array3 nat)) (src : list R) (p : nat) : R :=
  let c := incident_count tris p (length tris) in
  if decide (0 < c)%nat
  then incident_sum tris src p (length tris) / INR c
  else 0.

(** The three corners of every triangle are different points. *)
Definition distinct_corners (tris : list (array3 nat)) : Prop :=
  forall j v, tris !! j = Some v -> NoDup (array3_list v).

(** [target_name_updated] of [convert]. *)
Definition target_name_updated (source_name target_name : string) : string :=
  if decide (target_name = "") then source_name else target_name.

(** ** Invariants of a reader

    A computation is [steady] for an invariant [I] when it keeps [I], and
    ends in [E] when it throws from a state in [I]. *)
Definition steady {St A} (I : St -> Prop) (E : exn -> St -> Prop)
    (m : M St A) : Prop :=
  hoare I m (fun _ => I) E.

(** At most [n] tokens are left in the file. *)
Definition tokens_le (n : nat) (r : SurfaceInterpolator3D.reader) : Prop :=
  (length (tokens (SurfaceInterpolator3D.file r)) <= n)%nat.

(** The file is left as it was. *)
Definition file_is (f0 : istream) (r : SurfaceInterpolator3D.reader) : Prop :=
  SurfaceInterpolator3D.file r = f0.

(** The exceptions of [read_vtk]: its [std::runtime_error] is thrown with
    the triangle array allocated; all else is undefined behaviour. *)
Definition format_error_state (e : exn) (r : SurfaceInterpolator3D.reader)
    : Prop :=
  match e with
  | runtime_error _ =>
      SurfaceInterpolator3D.triangles (SurfaceInterpolator3D.obj r) <> []
  | UndefinedBehaviour => True
  | _ => False
  end.

(** An invariant of the reader that depends only on the interpolator being
    filled and holds for any shorter rest of the file. *)
Definition read_stable (I : SurfaceInterpolator3D.reader -> Prop) : Prop :=
  forall r r',
    SurfaceInterpolator3D.obj r' = SurfaceInterpolator3D.obj r ->
    (length (tokens (SurfaceInterpolator3D.file r'))
     <= length (tokens (SurfaceInterpolator3D.file r)))%nat ->
    I r -> I r'.

(** Invariant of the loop of the [CELLS] section over [c] cells. *)
Definition cells_inv (n c : nat) (r : SurfaceInterpolator3D.reader) : Prop :=
  tokens_le n r /\
  length (SurfaceInterpolator3D.triangles (SurfaceInterpolator3D.obj r)) = c.

(** ** Invariants of [read_txt] *)

(** The columns read so far have one value per point, and no field has been
    published yet. *)
Definition columns_fit (r : I2.reader) : Prop :=
  length (I2.field_values r) = length (I2.field_names r) /\
  (forall i col, I2.field_values r !! i = Some col ->
     length col = length (I2.points (I2.obj r))) /\
  (I2.field_names r = [] -> I2.points (I2.obj r) = []) /\
  I2.fields (I2.obj r) = ∅.

(** Every published field has one value per point. *)
Definition fields_fit (s : I2.t) : Prop :=
  forall name f, I2.fields s !! name = Some f ->
    length f = length (I2.points s).

(** ** Geometry, loads and conversions: further vocabulary *)

(** [q] lies on the segment from [a] to [b]. *)
Definition on_segment {P} `{PointOps P} (a b q : P) : Prop :=
  exists t, 0 <= t <= 1 /\ q = (a + t *^ (b - a))%pt.

(** The parameter that [closest_segment_point] clamps. *)
Definition clamp01 (t : R) : R := std_max 0 (std_min 1 t).

(** The cross product of the two edges that leave the first corner. *)
Definition edge_cross (p0 p1 p2 : Point3) : Point3 :=
  cross_product_3d (p1 - p0)%pt (p2 - p0)%pt.

(** The point with the barycentric coordinates [t] in the triangle
    [(p0, p1, p2)]. *)
Definition combination (pts : array3 Point3) (t : array3 R) : Point3 :=
  (at3 t 0 *^ at3 pts 0 + at3 t 1 *^ at3 pts 1 + at3 t 2 *^ at3 pts 2)%pt.

(** The three quotients of [Triangle::barycentric_coordinates], for a
    triangle whose area is not zero. *)
Definition area_ratios (tr : Triangle.t) (p : Point3) : array3 R :=
  let pts := Triangle.m_points tr in
  (Triangle.signed_area tr p (at3 pts 1) (at3 pts 2) / Triangle.m_area tr,
   Triangle.signed_area tr (at3 pts 0) p (at3 pts 2) / Triangle.m_area tr,
   Triangle.signed_area tr (at3 pts 0) (at3 pts 1) p / Triangle.m_area tr).

(** [q] is a point of the triangle: a combination of the corners with
    coordinates that are not negative and add up to one. *)
Definition in_triangle (pts : array3 Point3) (q : Point3) : Prop :=
  exists t0 t1 t2, 0 <= t0 /\ 0 <= t1 /\ 0 <= t2 /\ t0 + t1 + t2 = 1 /\
    q = combination pts (t0, t1, t2).

(** [q] lies in the plane of the triangle. *)
Definition in_plane (tr : Triangle.t) (q : Point3) : Prop :=
  Triangle.m_normal tr <.> (q - at3 (Triangle.m_points tr) 0)%pt = 0.

(** Where the segment from a point with coordinates [s >= 0] to a point
    with the coordinate [c] leaves the half plane of the non-negative
    coordinate. *)
Definition exit_at (s c : R) : R :=
  if bool_decide (c < 0) then s / (s - c) else 1.

(** The three candidates of the edge loop and what the loop keeps. *)
Definition edge_point (pts : array3 Point3) (p : Point3) (i : nat) : Point3 :=
  closest_segment_point p (at3 pts i) (at3 pts ((i + 1) mod 3)).

(** The triangle that [preprocess] builds for the index triple [v]. *)
Definition triangle_of (pts : list Point3) (v : array3 nat) : option Triangle.t :=
  match pts !! at3 v 0, pts !! at3 v 1, pts !! at3 v 2 with
  | Some p0, Some p1, Some p2 => Some (Triangle.reinit p0 p1 p2)
  | _, _, _ => None
  end.

(** The cache holds, for every triangle, the triangle built from its three
    points. *)
Definition cache_of_points (s : I3.t) : Prop :=
  length (triangle_cache s) = length (triangles s) /\
  forall j v, triangles s !! j = Some v ->
    exists tr, triangle_of (points s) v = Some tr /\
               triangle_cache s !! j = Some tr.

(** The state of [preprocess] after [i] rounds of its loop on the surface
    [s] of [n] triangles. *)
Definition preprocessed_upto (s : I3.t) (n i : nat) (x : I3.t) : Prop :=
  points x = points s /\ triangles x = triangles s /\
  point_fields x = point_fields s /\
  length (triangle_cache x) = n /\
  (forall name, name <> "area" -> name <> "longest_side" ->
     cell_fields x !! name = cell_fields s !! name) /\
  (forall name, name <> "center" -> name <> "normal" ->
     cell_vector_fields x !! name = cell_vector_fields s !! name) /\
  exists fa fl fc fn,
    cell_fields x !! "area" = Some fa /\ length fa = n /\
    cell_fields x !! "longest_side" = Some fl /\ length fl = n /\
    cell_vector_fields x !! "center" = Some fc /\ length fc = n /\
    cell_vector_fields x !! "normal" = Some fn /\ length fn = n /\
    forall j, (j < i)%nat ->
      exists v tr, triangles s !! j = Some v /\
        triangle_of (points s) v = Some tr /\
        triangle_cache x !! j = Some tr /\
        fa !! j = Some (Triangle.area tr) /\
        fl !! j = Some (Triangle.longest_side tr) /\
        fc !! j = Some (Triangle.center tr) /\
        fn !! j = Some (Triangle.normal tr).

(** The state in which the loop of [preprocess] starts. *)
Definition preprocess_start (s : I3.t) : I3.t :=
  let n := length (triangles s) in
  set_triangle_cache (resize n Triangle.default)
   (set_cell_vector_fields (alter (resize n pt_zero) "normal")
    (set_cell_vector_fields (alter (resize n pt_zero) "center")
     (set_cell_fields (alter (resize n 0) "longest_side")
      (set_cell_fields (alter (resize n 0) "area")
       (set_cell_vector_fields (map_subscript "normal")
        (set_cell_vector_fields (map_subscript "center")
         (set_cell_fields (map_subscript "longest_side")
          (set_cell_fields (map_subscript "area") s)))))))).

(** One round of the loop of [preprocess]. *)
Definition preprocess_round (i : nat) : M I3.t unit :=
  let* s := get in
  let* v := index (triangles s) i in
  let* p0 := index (points s) (at3 v 0) in
  let* p1 := index (points s) (at3 v 1) in
  let* p2 := index (points s) (at3 v 2) in
  let triangle := Triangle.reinit p0 p1 p2 in
  modify (set_triangle_cache <[i := triangle]>) >>
  modify (set_cell_vector_fields
            (alter <[i := Triangle.center triangle]> "center")) >>
  modify (set_cell_vector_fields
            (alter <[i := Triangle.normal triangle]> "normal")) >>
  modify (set_cell_fields (alter <[i := Triangle.area triangle]> "area")) >>
  modify (set_cell_fields
            (alter <[i := Triangle.longest_side triangle]> "longest_side")).

(** The consecutive points of the polyline are different. *)
Definition polyline_proper (pts : list Point2) : Prop :=
  forall j a b, pts !! j = Some a -> pts !! (j + 1)%nat = Some b -> a <> b.

(** The number [n] of values of a data array of [read_vtu] does not fit
    the surface [o] for the data type and the data name at hand; [size] is
    the size that the error then reports. *)
Definition array_misfit (o : I3.t) (data_type data_name : string)
    (n size : nat) : Prop :=
  (data_type = "<CellData>" /\ n <> length (triangles o) /\
   size = length (triangles o)) \/
  (data_type = "<PointData>" /\ n <> length (points o) /\
   size = length (points o)) \/
  (data_type = "<Points>" /\ n <> (3 * length (points o))%nat /\
   size = length (points o)) \/
  (data_type = "<Cells>" /\ data_name = "connectivity" /\
   n <> (3 * length (triangles o))%nat /\ size = length (points o)).

(** The last token of a [<DataArray ...>] tag: it ends the tag and is none
    of the tokens that the loop of [read_vtu] acts upon. *)
Definition closes_tag (tk : string) : Prop :=
  I3.match_at_string_start tk "NumberOf" = false /\
  I3.match_at_string_start tk "<Cell" = false /\
  I3.match_at_string_start tk "<Point" = false /\
  I3.match_at_string_start tk "Name=" = false /\
  I3.string_back tk = Some ">"%char.

(** [q] is a point of one of the segments of the polyline. *)
Definition on_polyline (pts : list Point2) (q : Point2) : Prop :=
  exists j a b, pts !! j = Some a /\ pts !! (j + 1)%nat = Some b /\
                on_segment a b q.

(** Every cached triangle has a positive area. *)
Definition areas_positive (s : I3.t) : Prop :=
  forall j tr, triangle_cache s !! j = Some tr -> Triangle.area tr > 0.

(** A computation whose only failure is undefined behaviour. *)
Definition only_undefined {St A} (m : M St A) : Prop :=
  steady (fun _ : St => True) (fun e _ => e = UndefinedBehaviour) m.

(** The two locals of a conversion have [n] entries each. *)
Definition locals_sized (n : nat) (st : list R * list nat) : Prop :=
  length st.1 = n /\ length st.2 = n.

(** A rotation of a 3D point about the z axis by the angle [a]. *)
Definition rotate_z (a : R) (q : Point3) : Point3 :=
  mkPoint3 (cos a * p3_x q - sin a * p3_y q)
           (sin a * p3_x q + cos a * p3_y q) (p3_z q).

(** The numbers [(x, y, values)] of a data line: its first two words are
    numerals for [x] and [y], and the following words are numerals for the
    values. *)
Definition parses_as (line : string) (d : R * R * list R) : Prop :=
  exists wx wy ws,
    words line = wx :: wy :: ws /\
    parse_double wx = Some d.1.1 /\ parse_double wy = Some d.1.2 /\
    Forall2 (fun w v => parse_double w = Some v) ws d.2.

(** Column [k] of a table. *)
Definition column (k : nat) (tbl : list (R * R * list R)) : list R :=
  map (fun d => nth k d.2 0) tbl.

(** Column [k] of a table whose short rows are continued with their last
    value. *)
Definition padded_column (k : nat) (tbl : list (R * R * list R)) : list R :=
  map (fun d => nth k d.2 (List.last d.2 0)) tbl.

(** The reader of [read_txt] has read the rows [tbl] under the field names
    [names]. *)
Definition reader_holds (names : list string) (tbl : list (R * R * list R))
    (r : I2.reader) : Prop :=
  I2.obj r = I2.mk (map (fun d => mkPoint2 d.1.1 d.1.2) tbl) ∅ /\
  I2.field_names r = names /\
  I2.field_values r = map (fun k => padded_column k tbl) (seq 0 (length names)).

(** [lo] and [hi] are the least and the greatest element of [x]. *)
Definition least_and_greatest (x : list R) (lo hi : R) : Prop :=
  lo ∈ x /\ hi ∈ x /\ forall y, y ∈ x -> lo <= y <= hi.

(** The blocks that [read_vtk] tells apart in the tokens of a file: a
    [POINTS] block (count, data type, three numerals per point), a [CELLS]
    block (count, size, and [3 a b c] per cell), a [SCALARS] block (name,
    data type, two tokens for the lookup table, the values), a [FIELD]
    block (one token, the number of arrays, and per array its name, three
    tokens and the values), and any other token. *)
Inductive vtk_block : Type :=
| VtkWord (w : string)
| VtkPoints (n ty : string) (coords : list (string * string * string))
| VtkCells (n size : string) (rows : list (string * string * string))
| VtkScalars (name ty lookup table : string) (values : list string)
| VtkField (word n : string)
           (arrays : list (string * string * string * string * list string)).

Definition point_tokens (c : string * string * string) : list string :=
  let '(x, y, z) := c in [x; y; z].

Definition cell_tokens (c : string * string * string) : list string :=
  let '(v0, v1, v2) := c in ["3"; v0; v1; v2].

Definition array_tokens (a : string * string * string * string * list string)
    : list string :=
  let '(name, h1, h2, h3, values) := a in name :: h1 :: h2 :: h3 :: values.

Definition vtk_block_tokens (b : vtk_block) : list string :=
  match b with
  | VtkWord w => [w]
  | VtkPoints n ty coords =>
      "POINTS" :: n :: ty :: concat (map point_tokens coords)
  | VtkCells n size rows =>
      "CELLS" :: n :: size :: concat (map cell_tokens rows)
  | VtkScalars name ty lookup table values =>
      "SCALARS" :: name :: ty :: lookup :: table :: values
  | VtkField word n arrays =>
      "FIELD" :: word :: n :: concat (map array_tokens arrays)
  end.

(** The tokens of a file made of the blocks [bs]. *)
Definition vtk_tokens (bs : list vtk_block) : list string :=
  concat (map vtk_block_tokens bs).

Definition parse_point (c : string * string * string) : option Point3 :=
  let '(x, y, z) := c in
  match parse_double x, parse_double y, parse_double z with
  | Some x, Some y, Some z => Some (mkPoint3 x y z)
  | _, _, _ => None
  end.

Definition parse_cell (c : string * string * string) : option (array3 nat) :=
  let '(v0, v1, v2) := c in
  match parse_unsigned ULONG_MAX v0, parse_unsigned ULONG_MAX v1,
        parse_unsigned ULONG_MAX v2 with
  | Some v0, Some v1, Some v2 => Some (v0, v1, v2)
  | _, _, _ => None
  end.

(** The values of a field block, which belong to the cells after
    [CELL_DATA] and to the points otherwise: one numeral per cell or per
    point. *)
Definition decode_values (data_type name : string) (values : list string)
    (s : I3.t) : option I3.t :=
  match mapM parse_double values with
  | Some vals =>
      if bool_decide (data_type = "CELL_DATA") then
        if bool_decide (length vals = length (triangles s))
        then Some (set_cell_fields <[name := vals]> s) else None
      else
        if bool_decide (length vals = length (points s))
        then Some (set_point_fields <[name := vals]> s) else None
  | None => None
  end.

Fixpoint decode_arrays (data_type : string)
    (arrays : list (string * string * string * string * list string))
    (s : I3.t) : option I3.t :=
  match arrays with
  | [] => Some s
  | (name, _, _, _, values) :: rest =>
      match decode_values data_type name values s with
      | Some s' => decode_arrays data_type rest s'
      | None => None
      end
  end.

(** What a block means for the surface read so far and the kind of data
    ([CELL_DATA] or [POINT_DATA]) last announced; [None] when the block is
    not well formed: a count that is not the number of entries, a token that
    is no numeral, a number of values that is not the number of cells or
    points, a lookup table called [FIELD], or a keyword as a plain word. *)
Definition decode_block (b : vtk_block) (st : I3.t * string)
    : option (I3.t * string) :=
  let '(s, data_type) := st in
  match b with
  | VtkWord w =>
      if bool_decide (w = "POINTS") || bool_decide (w = "CELLS")
         || bool_decide (w = "SCALARS") || bool_decide (w = "FIELD")
      then None
      else if bool_decide (w = "CELL_DATA") || bool_decide (w = "POINT_DATA")
      then Some (s, w)
      else Some (s, data_type)
  | VtkPoints n ty coords =>
      match mapM parse_point coords with
      | Some pts =>
          if bool_decide (parse_unsigned UINT_MAX n = Some (length coords))
          then Some (set_points (fun _ => pts) s, data_type) else None
      | None => None
      end
  | VtkCells n size rows =>
      match mapM parse_cell rows with
      | Some tris =>
          if bool_decide (parse_unsigned UINT_MAX n = Some (length rows))
          then Some (set_triangles (fun _ => tris) s, data_type) else None
      | None => None
      end
  | VtkScalars name ty lookup table values =>
      if bool_decide (table = "FIELD") then None
      else match decode_values data_type name values s with
           | Some s' => Some (s', data_type)
           | None => None
           end
  | VtkField word n arrays =>
      if bool_decide (parse_unsigned UINT_MAX n = Some (length arrays))
      then match decode_arrays data_type arrays s with
           | Some s' => Some (s', data_type)
           | None => None
           end
      else None
  end.

Fixpoint decode_blocks (bs : list vtk_block) (st : I3.t * string)
    : option (I3.t * string) :=
  match bs with
  | [] => Some st
  | b :: rest =>
      match decode_block b st with
      | Some st' => decode_blocks rest st'
      | None => None
      end
  end.

(** ** Example surfaces

    The unit right triangle of the end-to-end scenario, as [preprocess]
    leaves it after a load, with a cell field [f] and a point field [g];
    a surface of a small triangle under the target point [above] and a
    large triangle further below; a surface one of whose triangles lists
    point 0 twice; and the polyline of the 2D scenario. *)

Definition unit_raw : I3.t :=
  I3.mk [mkPoint3 0 0 0; mkPoint3 1 0 0; mkPoint3 0 1 0] [(0, 1, 2)%nat]
        {["f" := [5]]} {["g" := [1; 2; 3]]} ∅ [].

Definition unit_triangle : Triangle.t :=
  Triangle.reinit (mkPoint3 0 0 0) (mkPoint3 1 0 0) (mkPoint3 0 1 0).

Definition unit_surface : I3.t := (I3.preprocess unit_raw).1.

Definition two_raw : I3.t :=
  I3.mk [mkPoint3 (-1) (-1) 0; mkPoint3 2 (-1) 0; mkPoint3 (-1) 2 0;
         mkPoint3 (-30) (-30) (-5); mkPoint3 60 (-30) (-5); mkPoint3 (-30) 60 (-5)]
        [(0, 1, 2)%nat; (3, 4, 5)%nat]
        {["q" := [1; 2]]} ∅ ∅ [].

Definition near_small : Triangle.t :=
  Triangle.reinit (mkPoint3 (-1) (-1) 0) (mkPoint3 2 (-1) 0) (mkPoint3 (-1) 2 0).

Definition far_big : Triangle.t :=
  Triangle.reinit (mkPoint3 (-30) (-30) (-5)) (mkPoint3 60 (-30) (-5))
                  (mkPoint3 (-30) 60 (-5)).

Definition two_surface : I3.t := (I3.preprocess two_raw).1.

Definition above : Point3 := mkPoint3 0 0 15.

Definition folded_raw : I3.t :=
  I3.mk [mkPoint3 0 0 0; mkPoint3 1 0 0; mkPoint3 0 1 0]
        [(0, 0, 1)%nat; (0, 1, 2)%nat]
        {["q" := [3; 6]]} ∅ ∅ [].
Definition folded_surface : I3.t := (I3.preprocess folded_raw).1.

Definition line_surface : I2.t :=
  I2.mk [mkPoint2 0 0; mkPoint2 1 0; mkPoint2 2 0] {["T" := [0; 10; 20]]}.

(** A surface whose one triangle has its three corners on a line, with a
    point field; the surface that [read_vtk] leaves after a file without
    any token; and a polyline whose two points coincide. *)
Definition needle_raw : I3.t :=
  I3.mk [mkPoint3 0 0 0; mkPoint3 1 0 0; mkPoint3 2 0 0] [(0, 1, 2)%nat]
        ∅ {["g" := [1; 2; 3]]} ∅ [].

Definition needle : Triangle.t :=
  Triangle.reinit (mkPoint3 0 0 0) (mkPoint3 1 0 0) (mkPoint3 2 0 0).

Definition needle_surface : I3.t := (I3.preprocess needle_raw).1.

Definition blank_surface : I3.t := (I3.read_vtk (Some []) I3.empty).1.

Definition doubled_line : I2.t :=
  I2.mk [mkPoint2 0 0; mkPoint2 0 0] {["T" := [3; 7]]}.

(** The tokens of the start of a VTU file that announces three points and
    one cell and then gives two values of the point field [T]:

      <Piece NumberOfPoints=.3. NumberOfCells=.1.>
      <PointData>
      <DataArray type=.Float64. Name=.T. format=.ascii.>
      1 2
      </DataArray>

    where each dot stands for a double quote. *)
Definition quoted (s : string) : string :=
  String I3.quote (s +:+ String I3.quote "").

Definition vtu_points_token : string := "NumberOfPoints=" +:+ quoted "3".
Definition vtu_cells_token : string := "NumberOfCells=" +:+ quoted "1" +:+ ">".
Definition vtu_type_token : string := "type=" +:+ quoted "Float64".
Definition vtu_name_token : string := "Name=" +:+ quoted "T".
Definition vtu_format_token : string := "format=" +:+ quoted "ascii" +:+ ">".

Definition short_array_tokens : list string :=
  ["<Piece"; vtu_points_token; vtu_cells_token; "<PointData>";
   "<DataArray"; vtu_type_token; vtu_name_token; vtu_format_token;
   "1"; "2"; "</DataArray>"].

(** Functions that do on the tokens of the example what the library
    functions of [read_vtu] do: the pieces of a string between the
    delimiters, and the value of a decimal numeral. *)
Fixpoint pieces_from (cur s : string) (c : ascii) : list string :=
  match s with
  | EmptyString => if bool_decide (cur = "") then [] else [cur]
  | String a rest =>
      if bool_decide (a = c) then cur :: pieces_from "" rest c
      else pieces_from (cur +:+ String a "") rest c
  end.

Definition pieces (s : string) (c : ascii) : list string :=
  pieces_from "" s c.

Definition numeral_to_int (s : string) : result Z :=
  match numeral_value s with
  | Some n => Ok (Z.of_nat n)
  | None => Throw invalid_argument
  end.

Definition numeral_to_double (s : string) : result R :=
  match parse_double s with
  | Some x => Ok x
  | None => Throw invalid_argument
  end.

Definition numeral_to_unsigned (s : string) : result nat :=
  match parse_unsigned ULONG_MAX s with
  | Some n => Ok n
  | None => Throw invalid_argument
  end.

(** A file that announces a cell of four vertices, and the surface that
    [read_vtk] leaves when it has thrown on it. *)
Definition quad_tokens : list string :=
  ["#"; "vtk"; "DataFile"; "Version"; "4.2"; "quad"; "ASCII";
   "DATASET"; "UNSTRUCTURED_GRID";
   "POINTS"; "4"; "float";
   "0"; "0"; "0"; "1"; "0"; "0"; "1"; "1"; "0"; "0"; "1"; "0";
   "CELLS"; "1"; "5"; "4"; "0"; "1"; "2"; "3"].
Definition quad_state : I3.t := (I3.read_vtk (Some quad_tokens) I3.empty).1.

Definition short_line : I2.t := I2.mk [mkPoint2 0 0] {["T" := [7]]}.

(** The lines of a text file with the polyline of [line_surface], and the
    polyline that [read_txt] loads from it. *)
Definition line_file : list string :=
  ["x y T"; "0 0 0"; "1 0 10"; "2 0 20"].
Definition line_loaded : I2.t := (I2.read_txt (Some line_file) I2.empty).1.

(** A polyline with a uniform field. *)
Definition flat_line : I2.t :=
  I2.mk [mkPoint2 0 0; mkPoint2 1 0; mkPoint2 2 0] {["c" := [4; 4; 4]]}.

(** The rows of [line_file] as numbers. *)
Definition line_table : list (R * R * list R) :=
  map (fun ws => (default 0 (parse_double (nth 0 ws "")),
                  default 0 (parse_double (nth 1 ws "")),
                  [default 0 (parse_double (nth 2 ws ""))]))
      [["0"; "0"; "0"]; ["1"; "0"; "10"]; ["2"; "0"; "20"]].

(** The blocks of a legacy VTK file with the surface [unit_raw]. *)
Definition unit_file : list vtk_block :=
  [VtkWord "#"; VtkWord "vtk"; VtkWord "DataFile"; VtkWord "Version";
   VtkWord "4.2"; VtkWord "unit"; VtkWord "ASCII";
   VtkWord "DATASET"; VtkWord "UNSTRUCTURED_GRID";
   VtkPoints "3" "float" [("0", "0", "0"); ("1", "0", "0"); ("0", "1", "0")];
   VtkCells "1" "4" [("0", "1", "2")];
   VtkWord "CELL_TYPES"; VtkWord "1"; VtkWord "5";
   VtkWord "CELL_DATA"; VtkWord "1";
   VtkScalars "f" "float" "LOOKUP_TABLE" "default" ["5"];
   VtkWord "POINT_DATA"; VtkWord "3";
   VtkField "FieldData" "1" [("g", "1", "3", "float", ["1"; "2"; "3"])]].

(** The blocks of [unit_file] up to its points, and a file that goes on
    with a [CELLS] block of one triangle and one cell of four vertices. *)
Definition unit_points_blocks : list vtk_block :=
  [VtkWord "#"; VtkWord "vtk"; VtkWord "DataFile"; VtkWord "Version";
   VtkWord "4.2"; VtkWord "unit"; VtkWord "ASCII";
   VtkWord "DATASET"; VtkWord "UNSTRUCTURED_GRID";
   VtkPoints "3" "float" [("0", "0", "0"); ("1", "0", "0"); ("0", "1", "0")]].

Definition mixed_cells_tokens : list string :=
  vtk_tokens unit_points_blocks
  ++ "CELLS" :: "2" :: "9" :: concat (map cell_tokens [("0", "1", "2")])
  ++ "4" :: ["0"; "1"; "2"; "3"].

(** * Lemmas on the monad and its loops *)

Lemma for_from_ext {St} (body1 body2 : nat -> M St unit) lo n s :
  (forall j s', (lo <= j < lo + n)%nat -> body1 j s' = body2 j s') ->
  for_from lo n body1 s = for_from lo n body2 s.
Proof.
  revert lo s. induction n as [|n IH]; intros lo s Hext; [reflexivity|].
  simpl. unfold bind. rewrite Hext by lia.
  destruct (body2 lo s) as [s' [[]|e]]; [|reflexivity].
  apply IH. intros j s'' Hj. apply Hext. lia.
Qed.

Lemma for_from_inv {St} (I : nat -> St -> Prop) (E : exn -> St -> Prop)
    (body : nat -> M St unit) lo n :
  (forall i, (lo <= i < lo + n)%nat ->
     hoare (I i) (body i) (fun _ => I (S i)) E) ->
  hoare (I lo) (for_from lo n body) (fun _ => I (lo + n)%nat) E.
Proof.
  revert lo. induction n as [|n IH]; intros lo Hbody s Hs.
  - simpl. replace (lo + 0)%nat with lo by lia. exact Hs.
  - simpl. unfold bind.
    pose proof (Hbody lo ltac:(lia) s Hs) as Hstep.
    destruct (body lo s) as [s' [[]|e]]; [|exact Hstep].
    replace (lo + S n)%nat with (S lo + n)%nat by lia.
    apply IH; [|exact Hstep].
    intros i Hi. apply Hbody. lia.
Qed.

Lemma for_loop_inv {St} (I : nat -> St -> Prop) (E : exn -> St -> Prop)
    (body : nat -> M St unit) n :
  (forall i, (i < n)%nat -> hoare (I i) (body i) (fun _ => I (S i)) E) ->
  hoare (I 0%nat) (for_loop n body) (fun _ => I n) E.
Proof.
  intros Hbody. unfold for_loop.
  apply (for_from_inv I E body 0 n). intros i Hi. apply Hbody. lia.
Qed.

(** Running a [bind] whose first computation is known. *)
Lemma bind_ok {St A B} (m : M St A) (k : A -> M St B) s s' a :
  m s = (s', Ok a) -> bind m k s = k a s'.
Proof. intros Hm. unfold bind. rewrite Hm. reflexivity. Qed.

Lemma bind_throw {St A B} (m : M St A) (k : A -> M St B) s s' e :
  m s = (s', Throw e) -> bind m k s = (s', Throw e).
Proof. intros Hm. unfold bind. rewrite Hm. reflexivity. Qed.

Lemma bind_ret {St A B} (a : A) (k : A -> M St B) s : bind (ret a) k s = k a s.
Proof. reflexivity. Qed.

Lemma bind_gets {St A B} (f : St -> A) (k : A -> M St B) s :
  bind (gets f) k s = k (f s) s.
Proof. reflexivity. Qed.

Lemma bind_get {St B} (k : St -> M St B) s : bind get k s = k s s.
Proof. reflexivity. Qed.

Lemma bind_put {St B} (s0 : St) (k : unit -> M St B) s :
  bind (put s0) k s = k tt s0.
Proof. reflexivity. Qed.

Lemma bind_modify {St B} (f : St -> St) (k : unit -> M St B) s :
  bind (modify f) k s = k tt (f s).
Proof. reflexivity. Qed.

Lemma bind_throw_now {St A B} (e : exn) (k : A -> M St B) s :
  bind (throw e) k s = (s, Throw e).
Proof. reflexivity. Qed.

Lemma bind_lift_ok {St A B} (a : A) (k : A -> M St B) s :
  bind (lift (Ok a)) k s = k a s.
Proof. reflexivity. Qed.

Lemma bind_lift_throw {St A B} (e : exn) (k : A -> M St B) s :
  bind (lift (Throw e)) k s = (s, Throw e).
Proof. reflexivity. Qed.

Lemma bind_index_ok {St A B} (v : list A) i a (k : A -> M St B) s :
  v !! i = Some a -> bind (index v i) k s = k a s.
Proof. intros Hv. unfold bind, index. rewrite Hv. reflexivity. Qed.

Lemma bind_index_ub {St A B} (v : list A) i (k : A -> M St B) s :
  v !! i = None -> bind (index v i) k s = (s, Throw UndefinedBehaviour).
Proof. intros Hv. unfold bind, index. rewrite Hv. reflexivity. Qed.

Lemma bind_assign_ok {St A B} (v : list A) i a (k : list A -> M St B) s :
  (i < length v)%nat -> bind (assign v i a) k s = k (<[i := a]> v) s.
Proof. intros Hi. unfold bind, assign. rewrite decide_True by exact Hi. reflexivity. Qed.

Lemma bind_assoc {St A B C} (m : M St A) (k1 : A -> M St B) (k2 : B -> M St C) s :
  bind (bind m k1) k2 s = bind m (fun a => bind (k1 a) k2) s.
Proof. unfold bind. destruct (m s) as [s' [a|e]]; reflexivity. Qed.

Create Rewrite HintDb monad.
#[global] Hint Rewrite @bind_ret @bind_gets @bind_get @bind_put @bind_modify
  @bind_throw_now @bind_lift_ok @bind_lift_throw : monad.

(** * Lemmas on the nearest-feature loops *)

Section Scan.
Context {P : Type} `{PointOps P}.
Variable cand : nat -> option (P * R).
Hypothesis cand_nonneg : forall j pt d2, cand j = Some (pt, d2) -> 0 <= d2.

Lemma offer_step j f :
  none_of cand j f \/ best_of cand j f ->
  exists f', offer (cand j) j f = (f', Ok tt) /\
             (none_of cand (S j) f' \/ best_of cand (S j) f').
Proof.
  intros Hf. unfold offer.
  destruct (cand j) as [[pt d2]|] eqn:Hc.
  - pose proof (cand_nonneg _ _ _ Hc) as Hd2.
    unfold keep_if_closer, modify. eexists; split; [reflexivity|].
    right. destruct Hf as [[-> Hnone] | (Hlt & Hat & Hmin)].
    + simpl. rewrite (bool_decide_eq_true_2 (-1 < 0)) by lra.
      rewrite orb_true_r. repeat split; simpl; [lia|exact Hc| |].
      * destruct (decide (j0 = j)) as [->|Hne]; [rewrite Hc in H1; injection H1 as _ <-; lra|].
        rewrite Hnone in H1 by lia. discriminate.
      * intros Hlt. rewrite Hnone in H1 by lia. discriminate.
    + pose proof (cand_nonneg _ _ _ Hat) as Hmin0.
      rewrite (bool_decide_eq_false_2 (d2_min f < 0)) by lra.
      rewrite orb_false_r.
      destruct (bool_decide (d2 < d2_min f)) eqn:Hcmp.
      * apply bool_decide_eq_true_1 in Hcmp.
        repeat split; simpl; [lia|exact Hc| |].
        -- destruct (decide (j0 = j)) as [->|Hne]; [rewrite Hc in H1; injection H1 as _ <-; lra|].
           destruct (Hmin j0 pt0 d0 ltac:(lia) H1). lra.
        -- intros Hlt'. destruct (Hmin j0 pt0 d0 ltac:(lia) H1). lra.
      * apply bool_decide_eq_false_1 in Hcmp.
        repeat split; [lia|exact Hat| |].
        -- destruct (decide (j0 = j)) as [->|Hne]; [rewrite Hc in H1; injection H1 as _ <-; lra|].
           destruct (Hmin j0 pt0 d0 ltac:(lia) H1). lra.
        -- intros Hlt'. apply (Hmin j0 pt0 d0); [lia|exact H1|exact Hlt'].
  - unfold ret. eexists; split; [reflexivity|].
    destruct Hf as [[-> Hnone] | (Hlt & Hat & Hmin)].
    + left. split; [reflexivity|]. intros j0 Hj0.
      destruct (decide (j0 = j)) as [->|Hne]; [exact Hc|apply Hnone; lia].
    + right. repeat split; [lia|exact Hat| |].
      * destruct (decide (j0 = j)) as [->|Hne]; [congruence|].
        destruct (Hmin j0 pt d2 ltac:(lia) H1). lra.
      * intros Hlt'. apply (Hmin j0 pt d2); [lia|exact H1|exact Hlt'].
Qed.
End Scan.

Section ScanLoop.
Context {P : Type} `{PointOps P}.
Variable cand : nat -> option (P * R).
Hypothesis cand_nonneg : forall j pt d2, cand j = Some (pt, d2) -> 0 <= d2.

(** A loop that makes the offers of [cand] in turn ends with the first
    best offer, or with the locals as initialised when nothing was
    offered. *)
Lemma scan_spec (body : nat -> M (found P) unit) n :
  (forall j f, (j < n)%nat -> body j f = offer (cand j) j f) ->
  exists f, for_loop n body found_init = (f, Ok tt) /\
            (none_of cand n f \/ best_of cand n f).
Proof.
  intros Hbody.
  pose proof (for_loop_inv
    (fun j f => none_of cand j f \/ best_of cand j f)
    (fun _ _ => False) body n) as Hloop.
  unfold hoare in Hloop.
  specialize (Hloop
    (fun i Hi s Hs =>
       ltac:(rewrite (Hbody i s Hi);
             destruct (offer_step cand cand_nonneg i s Hs) as (f' & -> & Hf');
             exact Hf'))
    found_init).
  destruct (for_loop n body found_init) as [f [[]|e]].
  - exists f. split; [reflexivity|]. apply Hloop.
    left. split; [reflexivity|]. intros j Hj. lia.
  - exfalso. apply Hloop. left. split; [reflexivity|]. intros j Hj. lia.
Qed.

Lemma best_of_nonneg n f : best_of cand n f -> 0 <= d2_min f.
Proof. intros (_ & Hat & _). exact (cand_nonneg _ _ _ Hat). Qed.
End ScanLoop.

(** * Lemmas on [SurfaceInterpolator3D::interpolate] *)


Lemma norm_square3_nonneg (a : Point3) : 0 <= norm_square a.
Proof. unfold norm_square. simpl. nra. Qed.

Lemma norm_square2_nonneg (a : Point2) : 0 <= norm_square a.
Proof. unfold norm_square. simpl. nra. Qed.

Lemma triangle_offer_nonneg keep cache p j pt d2 :
  triangle_offer keep cache p j = Some (pt, d2) -> 0 <= d2.
Proof.
  unfold triangle_offer. destruct (cache !! j) as [tr|]; [|discriminate].
  destruct (keep tr); [|discriminate].
  intros [= _ <-]. apply norm_square3_nonneg.
Qed.

Lemma pruned_scan_body s p j f tr :
  triangle_cache s !! j = Some tr ->
  (let* triangle := index (triangle_cache s) j in
   if bool_decide (norm (p - Triangle.center triangle)%pt
                   > 3 * Triangle.longest_side triangle)
   then ret tt else trial p j triangle) f
  = offer (triangle_offer (survives_pruning p) (triangle_cache s) p j) j f.
Proof.
  intros Htr. unfold bind, index, triangle_offer, survives_pruning.
  rewrite Htr. unfold ret at 1.
  destruct (bool_decide _); reflexivity.
Qed.

Lemma full_scan_body s p j f tr :
  triangle_cache s !! j = Some tr ->
  (let* triangle := index (triangle_cache s) j in trial p j triangle) f
  = offer (triangle_offer (fun _ => true) (triangle_cache s) p j) j f.
Proof.
  intros Htr. unfold bind, index, triangle_offer. rewrite Htr. reflexivity.
Qed.

Lemma pruned_scan_spec s n p :
  (n <= length (triangle_cache s))%nat ->
  let cand := triangle_offer (survives_pruning p) (triangle_cache s) p in
  exists f, pruned_scan s n p found_init = (f, Ok tt) /\
            (none_of cand n f \/ best_of cand n f).
Proof.
  intros Hn cand. apply scan_spec.
  - intros j pt d2. apply triangle_offer_nonneg.
  - intros j f Hj.
    destruct (lookup_lt_is_Some_2 (triangle_cache s) j ltac:(lia)) as [tr Htr].
    apply (pruned_scan_body s p j f tr Htr).
Qed.

Lemma full_scan_spec s n p :
  (n <= length (triangle_cache s))%nat ->
  let cand := triangle_offer (fun _ => true) (triangle_cache s) p in
  exists f, full_scan s n p found_init = (f, Ok tt) /\
            (none_of cand n f \/ best_of cand n f).
Proof.
  intros Hn cand. apply scan_spec.
  - intros j pt d2. apply triangle_offer_nonneg.
  - intros j f Hj.
    destruct (lookup_lt_is_Some_2 (triangle_cache s) j ltac:(lia)) as [tr Htr].
    apply (full_scan_body s p j f tr Htr).
Qed.

Lemma find_triangle_spec s n p :
  (n <= length (triangle_cache s))%nat ->
  (n = 0%nat /\
   find_triangle s n p found_init
   = (found_init, Throw (ExcInterpolationFailed p))) \/
  ((0 < n)%nat /\
   exists f, find_triangle s n p found_init = (f, Ok tt) /\ selected s n p f).
Proof.
  intros Hn. unfold find_triangle.
  destruct (pruned_scan_spec s n p Hn) as (f1 & Hrun1 & Hf1).
  rewrite (bind_ok _ _ _ _ _ Hrun1), bind_gets.
  destruct Hf1 as [[-> Hnone] | Hbest].
  - (* nothing survived the pruning *)
    simpl d2_min. rewrite (bool_decide_eq_true_2 (-1 < 0)) by lra.
    destruct (full_scan_spec s n p Hn) as (f2 & Hrun2 & Hf2).
    rewrite (bind_ok _ _ _ _ _ Hrun2), bind_gets. unfold AssertThrow.
    destruct Hf2 as [[-> Hnone2] | Hbest2].
    + left. simpl d2_min.
      rewrite (bool_decide_eq_false_2 (-1 >= 0)) by lra.
      split; [|reflexivity].
      destruct n as [|n]; [reflexivity|exfalso].
      specialize (Hnone2 0%nat ltac:(lia)). unfold triangle_offer in Hnone2.
      destruct (lookup_lt_is_Some_2 (triangle_cache s) 0 ltac:(lia)) as [tr Htr].
      rewrite Htr in Hnone2. discriminate.
    + right.
      pose proof (best_of_nonneg _ (triangle_offer_nonneg _ _ _) _ _ Hbest2).
      rewrite bool_decide_eq_true_2 by lra.
      split; [destruct Hbest2; lia|].
      exists f2. split; [reflexivity|]. right. split; assumption.
  - pose proof (best_of_nonneg _ (triangle_offer_nonneg _ _ _) _ _ Hbest).
    rewrite bool_decide_eq_false_2 by lra.
    rewrite bind_ret, bind_gets. unfold AssertThrow.
    rewrite bool_decide_eq_true_2 by lra.
    right. split; [destruct Hbest; lia|].
    exists f1. split; [reflexivity|]. left. exact Hbest.
Qed.

Lemma same_except_refl {A} i (v : list A) : same_except i v v.
Proof. split; reflexivity || (intros; reflexivity). Qed.

Lemma same_except_trans {A} i (v1 v2 v3 : list A) :
  same_except i v1 v2 -> same_except i v2 v3 -> same_except i v1 v3.
Proof.
  intros [Hl1 H1] [Hl2 H2]. split; [congruence|].
  intros j Hj. rewrite H2, H1 by exact Hj. reflexivity.
Qed.

Lemma same_except_insert {A} i (v : list A) x : same_except i v (<[i := x]> v).
Proof.
  split; [apply length_insert|].
  intros j Hj. apply list_lookup_insert_ne. congruence.
Qed.

Lemma set_at_run i x (tv : list (option R)) :
  (i < length tv)%nat -> set_at i x tv = (<[i := Some x]> tv, Ok tt).
Proof.
  intros Hi. unfold set_at. rewrite bind_get, bind_assign_ok by exact Hi.
  reflexivity.
Qed.

Lemma add_at_run i x (tv : list (option R)) old :
  tv !! i = Some old -> add_at i x tv = (<[i := fadd old x]> tv, Ok tt).
Proof.
  intros Hi. unfold add_at.
  rewrite bind_get, (bind_index_ok _ _ _ _ _ Hi).
  rewrite bind_assign_ok by (eapply lookup_lt_Some; exact Hi). reflexivity.
Qed.

Lemma set_at_frame i x : forall tv0,
  hoare (same_except i tv0) (set_at i x)
        (fun _ => same_except i tv0) (fun _ => same_except i tv0).
Proof.
  intros tv0 tv Htv. unfold set_at, assign. rewrite bind_get. unfold bind.
  destruct (decide (i < length tv)%nat); simpl; [|exact Htv].
  eapply same_except_trans; [exact Htv|apply same_except_insert].
Qed.

Lemma add_at_frame i x : forall tv0,
  hoare (same_except i tv0) (add_at i x)
        (fun _ => same_except i tv0) (fun _ => same_except i tv0).
Proof.
  intros tv0 tv Htv. unfold add_at. rewrite bind_get.
  destruct (tv !! i) as [old|] eqn:Hi.
  - rewrite (bind_index_ok _ _ _ _ _ Hi).
    rewrite bind_assign_ok by (eapply lookup_lt_Some; exact Hi). simpl.
    eapply same_except_trans; [exact Htv|apply same_except_insert].
  - rewrite (bind_index_ub _ _ _ _ Hi). exact Htv.
Qed.

Lemma reconstruct_frame s ft src i f tv0 :
  hoare (same_except i tv0) (reconstruct s ft src i f)
        (fun _ => same_except i tv0) (fun _ => same_except i tv0).
Proof.
  intros tv Htv. unfold reconstruct. destruct ft.
  - destruct (src !! j_found f) as [x|] eqn:Hx.
    + rewrite (bind_index_ok _ _ _ _ _ Hx). apply set_at_frame. exact Htv.
    + rewrite (bind_index_ub _ _ _ _ Hx). exact Htv.
  - destruct (triangle_cache s !! j_found f) as [tr|] eqn:Htr;
      [rewrite (bind_index_ok _ _ _ _ _ Htr)
      |rewrite (bind_index_ub _ _ _ _ Htr); exact Htv].
    destruct (triangles s !! j_found f) as [v|] eqn:Hv;
      [rewrite (bind_index_ok _ _ _ _ _ Hv)
      |rewrite (bind_index_ub _ _ _ _ Hv); exact Htv].
    apply (for_loop_inv (fun _ => same_except i tv0)); [|exact Htv].
    intros k Hk tv1 Htv1.
    destruct (src !! at3 v k) as [x|] eqn:Hx.
    + rewrite (bind_index_ok _ _ _ _ _ Hx). apply add_at_frame. exact Htv1.
    + rewrite (bind_index_ub _ _ _ _ Hx). exact Htv1.
Qed.

Lemma bind_add_at_ok {B} i x (tv : list (option R)) old
    (k : unit -> M (list (option R)) B) :
  tv !! i = Some old ->
  bind (add_at i x) k tv = k tt (<[i := fadd old x]> tv).
Proof. intros Hi. apply bind_ok. apply add_at_run. exact Hi. Qed.

(** Three additions to an entry that holds zero. *)
Lemma accumulate3 t3 x0 x1 x2 :
  fadd (fadd (fadd (Some 0) (fmul (at3 t3 0) x0)) (fmul (at3 t3 1) x1))
       (fmul (at3 t3 2) x2)
  = blend3 t3 x0 x1 x2.
Proof.
  destruct t3 as [[[t0|] [t1|]] [t2|]]; unfold blend3; simpl; try reflexivity.
  f_equal. lra.
Qed.

Lemma accumulate2 t2 x0 x1 :
  fadd (fadd (Some 0) (fmul (at2 t2 0) x0)) (fmul (at2 t2 1) x1)
  = blend2 t2 x0 x1.
Proof.
  destruct t2 as [[t0|] [t1|]]; unfold blend2; simpl; try reflexivity.
  f_equal. lra.
Qed.

Lemma fdiv_some x y : y <> 0 -> fdiv x y = Some (x / y).
Proof.
  intros Hy. unfold fdiv. rewrite bool_decide_eq_false_2 by exact Hy.
  reflexivity.
Qed.

Lemma fdiv_none x y : y = 0 -> fdiv x y = None.
Proof.
  intros Hy. unfold fdiv. rewrite bool_decide_eq_true_2 by exact Hy.
  reflexivity.
Qed.

Lemma reconstruct_run s ft src i f tv x :
  tv !! i = Some (Some 0) ->
  reconstructed_value s ft src f x ->
  exists y, y = x /\ reconstruct s ft src i f tv = (<[i := y]> tv, Ok tt).
Proof.
  intros Hi Hval. pose proof (lookup_lt_Some _ _ _ Hi) as Hlt.
  unfold reconstruct. destruct ft; simpl in Hval.
  - destruct Hval as (y & Hy & ->). exists (Some y). split; [reflexivity|].
    rewrite (bind_index_ok _ _ _ _ _ Hy). apply set_at_run. exact Hlt.
  - destruct Hval as (tr & v & x0 & x1 & x2 & Htr & Hv & H0 & H1 & H2 & ->).
    rewrite (bind_index_ok _ _ _ _ _ Htr), (bind_index_ok _ _ _ _ _ Hv).
    unfold for_loop. simpl for_from.
    eexists. split; [reflexivity|].
    rewrite bind_assoc, (bind_index_ok _ _ _ _ _ H0).
    rewrite (bind_add_at_ok _ _ _ _ _ Hi).
    rewrite bind_assoc, (bind_index_ok _ _ _ _ _ H1).
    rewrite (bind_add_at_ok _ _ _ (fadd (Some 0) _))
      by (apply list_lookup_insert_eq; exact Hlt).
    rewrite bind_assoc, (bind_index_ok _ _ _ _ _ H2).
    rewrite (bind_add_at_ok _ _ _ (fadd (fadd (Some 0) _) _))
      by (apply list_lookup_insert_eq; rewrite length_insert; exact Hlt).
    rewrite !list_insert_insert_eq, <- accumulate3. reflexivity.
Qed.

Lemma reconstruct_ok s ft src i f tv tv' :
  tv !! i = Some (Some 0) ->
  reconstruct s ft src i f tv = (tv', Ok tt) ->
  exists x, reconstructed_value s ft src f x /\ tv' = <[i := x]> tv.
Proof.
  intros Hi Hrun. pose proof (lookup_lt_Some _ _ _ Hi) as Hlt.
  assert (Hcase : (exists x, reconstructed_value s ft src f x) \/
                  exists tv1, reconstruct s ft src i f tv
                              = (tv1, Throw UndefinedBehaviour)).
  { unfold reconstruct, reconstructed_value. destruct ft.
    - destruct (src !! j_found f) as [x|] eqn:Hx; [left; eauto|right].
      rewrite (bind_index_ub _ _ _ _ Hx). eauto.
    - destruct (triangle_cache s !! j_found f) as [tr|] eqn:Htr;
        [rewrite (bind_index_ok _ _ _ _ _ Htr)
        |right; rewrite (bind_index_ub _ _ _ _ Htr); eauto].
      destruct (triangles s !! j_found f) as [v|] eqn:Hv;
        [rewrite (bind_index_ok _ _ _ _ _ Hv)
        |right; rewrite (bind_index_ub _ _ _ _ Hv); eauto].
      unfold for_loop. simpl for_from.
      destruct (src !! at3 v 0) as [x0|] eqn:H0;
        [|right; rewrite bind_assoc, (bind_index_ub _ _ _ _ H0); eauto].
      rewrite bind_assoc, (bind_index_ok _ _ _ _ _ H0).
      rewrite (bind_add_at_ok _ _ _ _ _ Hi).
      destruct (src !! at3 v 1) as [x1|] eqn:H1;
        [|right; rewrite bind_assoc, (bind_index_ub _ _ _ _ H1); eauto].
      rewrite bind_assoc, (bind_index_ok _ _ _ _ _ H1).
      rewrite (bind_add_at_ok _ _ _ (fadd (Some 0) _))
        by (apply list_lookup_insert_eq; exact Hlt).
      destruct (src !! at3 v 2) as [x2|] eqn:H2;
        [|right; rewrite bind_assoc, (bind_index_ub _ _ _ _ H2); eauto].
      left. eexists. exists tr, v, x0, x1, x2. repeat split; eauto. }
  destruct Hcase as [[x Hx] | [tv1 Hub]]; [|congruence].
  destruct (reconstruct_run s ft src i f tv x Hi Hx) as (y & -> & Hrun').
  exists x. split; [exact Hx|congruence].
Qed.

Lemma bind_with_locals_ok {St L A B} (init : L) (m : M L A)
    (k : L * A -> M St B) s l a :
  m init = (l, Ok a) -> bind (with_locals init m) k s = k (l, a) s.
Proof. intros Hm. unfold bind, with_locals. rewrite Hm. reflexivity. Qed.

Lemma bind_with_locals_throw {St L A B} (init : L) (m : M L A)
    (k : L * A -> M St B) s l e :
  m init = (l, Throw e) -> bind (with_locals init m) k s = (s, Throw e).
Proof. intros Hm. unfold bind, with_locals. rewrite Hm. reflexivity. Qed.

Section MarkedLoop.
Context {P : Type} `{PointOps P}.
Variable search : P -> M (found P) unit.
Variable finish : nat -> found P -> M (list (option R)) unit.
Variable value : found P -> option R -> Prop.
Variables (targets : list P) (markers : list bool).

Hypothesis finish_frame : forall i f tv0,
  hoare (same_except i tv0) (finish i f)
        (fun _ => same_except i tv0) (fun _ => same_except i tv0).
Hypothesis finish_ok : forall i f tv tv',
  tv !! i = Some (Some 0) -> finish i f tv = (tv', Ok tt) ->
  exists x, value f x /\ tv' = <[i := x]> tv.

Let body := marked_round search finish targets markers.

Lemma marked_round_frame i tv0 :
  hoare (same_except i tv0) (body i)
        (fun _ => same_except i tv0) (fun _ => same_except i tv0).
Proof.
  intros tv Htv. unfold body, marked_round.
  destruct (markers !! i) as [[|]|] eqn:Hm;
    [rewrite (bind_index_ok _ _ _ _ _ Hm); change (negb true) with false;
     cbv iota
    |rewrite (bind_index_ok _ _ _ _ _ Hm); exact Htv
    |rewrite (bind_index_ub _ _ _ _ Hm); exact Htv].
  destruct (targets !! i) as [p|] eqn:Hp;
    [rewrite (bind_index_ok _ _ _ _ _ Hp)
    |rewrite (bind_index_ub _ _ _ _ Hp); exact Htv].
  destruct (search p found_init) as [f [[]|e]] eqn:Hf.
  - rewrite (bind_with_locals_ok _ _ _ _ _ _ Hf).
    apply finish_frame. exact Htv.
  - rewrite (bind_with_locals_throw _ _ _ _ _ _ Hf). exact Htv.
Qed.

Lemma marked_round_unmarked i tv :
  markers !! i = Some false -> body i tv = (tv, Ok tt).
Proof.
  intros Hm. unfold body, marked_round.
  rewrite (bind_index_ok _ _ _ _ _ Hm). reflexivity.
Qed.

Lemma marked_round_no_marker i tv :
  markers !! i = None -> body i tv = (tv, Throw UndefinedBehaviour).
Proof.
  intros Hm. unfold body, marked_round.
  rewrite (bind_index_ub _ _ _ _ Hm). reflexivity.
Qed.

Lemma marked_round_marked i tv p :
  markers !! i = Some true -> targets !! i = Some p ->
  body i tv =
  match search p found_init with
  | (f, Ok _) => finish i f tv
  | (_, Throw e) => (tv, Throw e)
  end.
Proof.
  intros Hm Hp. unfold body, marked_round.
  rewrite (bind_index_ok _ _ _ _ _ Hm).
  change (negb true) with false. cbv iota.
  rewrite (bind_index_ok _ _ _ _ _ Hp).
  destruct (search p found_init) as [f [[]|e]] eqn:Hf.
  - rewrite (bind_with_locals_ok _ _ _ _ _ _ Hf). reflexivity.
  - rewrite (bind_with_locals_throw _ _ _ _ _ _ Hf). reflexivity.
Qed.

Lemma loop_inv_step m i :
  (i < m)%nat -> (m <= length targets)%nat ->
  hoare (loop_inv search value targets markers m i) (body i)
        (fun _ => loop_inv search value targets markers m (S i))
        (fun _ _ => True).
Proof.
  intros Hi Hm tv (Hlen & Hzero & Hdone).
  pose proof (marked_round_frame i tv tv (same_except_refl i tv)) as Hframe.
  destruct (body i tv) as [tv' [[]|e]] eqn:Hrun; [|exact I].
  destruct Hframe as [Hlen' Hsame].
  split; [congruence|]. split.
  - intros j Hj. rewrite Hsame by lia. apply Hzero. lia.
  - intros j Hj. destruct (decide (j = i)) as [->|Hne];
      [|rewrite Hsame by exact Hne; apply Hdone; lia].
    destruct (markers !! i) as [[|]|] eqn:Hmk.
    + destruct (lookup_lt_is_Some_2 targets i ltac:(lia)) as [p Hp].
      rewrite (marked_round_marked i tv p Hmk Hp) in Hrun.
      destruct (search p found_init) as [f [[]|e]] eqn:Hf; [|discriminate].
      destruct (finish_ok i f tv tv' (Hzero i ltac:(lia)) Hrun) as (x & Hx & ->).
      right. split; [exact Hmk|]. exists p, f, x.
      repeat split; try assumption. apply list_lookup_insert_eq. lia.
    + rewrite (marked_round_unmarked i tv Hmk) in Hrun.
      injection Hrun as <-. left. split; [exact Hmk|]. apply Hzero. lia.
    + rewrite (marked_round_no_marker i tv Hmk) in Hrun. discriminate.
Qed.

(** When the loop returns, every entry is as [entry_post] says. *)
Lemma marked_loop_post out :
  for_loop (length targets) body (replicate (length targets) (Some 0)) = (out, Ok tt) ->
  length out = length targets /\
  forall i, (i < length targets)%nat ->
    entry_post search value targets markers i (out !! i).
Proof.
  intros Hrun.
  pose proof (for_loop_inv
                (loop_inv search value targets markers (length targets))
                (fun _ _ => True) body (length targets)
                (fun i Hi => loop_inv_step (length targets) i Hi (le_n _))
                (replicate (length targets) (Some 0))) as Hloop.
  rewrite Hrun in Hloop.
  destruct Hloop as (Hlen & _ & Hdone).
  - split; [apply length_replicate|]. split; [|intros i Hi; lia].
    intros i Hi. apply lookup_replicate_2. lia.
  - split; assumption.
Qed.

(** However the loop ends, the output has one entry per target point and
    the entries of unmarked points are zero. *)
Lemma marked_loop_unmarked m out r :
  for_loop m body (replicate m (Some 0)) = (out, r) -> unmarked_zero markers m out.
Proof.
  intros Hrun.
  pose proof (for_loop_inv (fun _ => unmarked_zero markers m)
                (fun _ => unmarked_zero markers m) body m) as Hloop.
  unfold hoare in Hloop.
  specialize (Hloop
    (fun i Hi tv Htv => ltac:(
       pose proof (marked_round_frame i tv tv (same_except_refl i tv)) as Hfr;
       pose proof (marked_round_unmarked i tv) as Hun;
       destruct Htv as [Hlen Hz];
       assert (Hgoal : forall tv', same_except i tv tv' ->
                 (markers !! i = Some false -> tv' = tv) ->
                 unmarked_zero markers m tv')
         by (intros tv' [Hl Hs] Hkeep; split; [congruence|];
             intros j Hj Hmj; destruct (decide (j = i)) as [->|Hne];
             [rewrite (Hkeep Hmj); apply Hz; assumption
             |rewrite Hs by exact Hne; apply Hz; assumption]);
       destruct (body i tv) as [tv' [[]|e]] eqn:Hb;
       (apply Hgoal; [exact Hfr|intros Hmk; specialize (Hun Hmk); congruence])))
    (replicate m (Some 0))).
  rewrite Hrun in Hloop.
  assert (H0 : unmarked_zero markers m (replicate m (Some 0))).
  { split; [apply length_replicate|].
    intros i Hi _. apply lookup_replicate_2. exact Hi. }
  destruct r as [[]|e]; apply Hloop; exact H0.
Qed.
End MarkedLoop.

Lemma interpolate_at_round s ft src n targets markers :
  interpolate_at s ft src n targets markers
  = marked_round (find_triangle s n) (reconstruct s ft src) targets markers.
Proof. reflexivity. Qed.

Lemma interpolate_unfold_ok s ft name src targets markers tv0 :
  field s ft name = Ok src ->
  interpolate s ft name targets markers tv0
  = for_loop (length targets)
      (interpolate_at s ft src (length (triangles s)) targets markers)
      (replicate (length targets) (Some 0)).
Proof.
  intros Hsrc. unfold interpolate, AssertThrow.
  destruct ft; simpl orb; cbv iota; rewrite bind_ret, Hsrc, bind_lift_ok;
    reflexivity.
Qed.

Lemma interpolate_unfold_throw s ft name e targets markers tv0 :
  field s ft name = Throw e ->
  interpolate s ft name targets markers tv0 = (tv0, Throw e).
Proof.
  intros Hsrc. unfold interpolate, AssertThrow.
  destruct ft; simpl orb; cbv iota; rewrite bind_ret, Hsrc, bind_lift_throw;
    reflexivity.
Qed.

(** * Lemmas on [SurfaceInterpolator2D::interpolate] *)


Lemma segment_offer_nonneg pts p j pt d2 :
  segment_offer pts p j = Some (pt, d2) -> 0 <= d2.
Proof.
  unfold segment_offer.
  destruct (pts !! j) as [a|]; [|discriminate].
  destruct (pts !! (j + 1)%nat) as [b|]; [|discriminate].
  intros [= _ <-]. apply sqrt_pos.
Qed.

Lemma scan_segments_spec s p :
  let cand := segment_offer (I2.points s) p in
  let m := (length (I2.points s) - 1)%nat in
  exists f, I2.scan_segments s (length (I2.points s)) p found_init = (f, Ok tt) /\
            (none_of cand m f \/ best_of cand m f).
Proof.
  intros cand m. unfold I2.scan_segments. apply scan_spec.
  - intros j pt d2. apply segment_offer_nonneg.
  - intros j f Hj. unfold cand, segment_offer. fold m in Hj.
    destruct (lookup_lt_is_Some_2 (I2.points s) j ltac:(lia)) as [a Ha].
    destruct (lookup_lt_is_Some_2 (I2.points s) (j + 1) ltac:(lia)) as [b Hb].
    rewrite (bind_index_ok _ _ _ _ _ Ha), (bind_index_ok _ _ _ _ _ Hb).
    rewrite Ha, Hb. reflexivity.
Qed.

Lemma blend_frame s src i f tv0 :
  hoare (same_except i tv0) (I2.blend s src i f)
        (fun _ => same_except i tv0) (fun _ => same_except i tv0).
Proof.
  intros tv Htv. unfold I2.blend.
  destruct (I2.points s !! j_found f) as [a|] eqn:Ha;
    [rewrite (bind_index_ok _ _ _ _ _ Ha)
    |rewrite (bind_index_ub _ _ _ _ Ha); exact Htv].
  destruct (I2.points s !! (j_found f + 1)%nat) as [b|] eqn:Hb;
    [rewrite (bind_index_ok _ _ _ _ _ Hb)
    |rewrite (bind_index_ub _ _ _ _ Hb); exact Htv].
  apply (for_loop_inv (fun _ => same_except i tv0)); [|exact Htv].
  intros k Hk tv1 Htv1.
  destruct (src !! (j_found f + k)%nat) as [x|] eqn:Hx.
  - rewrite (bind_index_ok _ _ _ _ _ Hx). apply add_at_frame. exact Htv1.
  - rewrite (bind_index_ub _ _ _ _ Hx). exact Htv1.
Qed.

Lemma blend_run s src i f tv x :
  tv !! i = Some (Some 0) ->
  blended_value s src f x ->
  exists y, y = x /\ I2.blend s src i f tv = (<[i := y]> tv, Ok tt).
Proof.
  intros Hi (a & b & x0 & x1 & Ha & Hb & H0 & H1 & ->).
  pose proof (lookup_lt_Some _ _ _ Hi) as Hlt.
  unfold I2.blend.
  rewrite (bind_index_ok _ _ _ _ _ Ha), (bind_index_ok _ _ _ _ _ Hb).
  unfold for_loop. simpl for_from.
  rewrite <- (Nat.add_0_r (j_found f)) in H0 at 1.
  eexists. split; [reflexivity|].
  rewrite bind_assoc, (bind_index_ok _ _ _ _ _ H0).
  rewrite (bind_add_at_ok _ _ _ _ _ Hi).
  rewrite bind_assoc, (bind_index_ok _ _ _ _ _ H1).
  rewrite (bind_add_at_ok _ _ _ (fadd (Some 0) _))
    by (apply list_lookup_insert_eq; exact Hlt).
  rewrite !list_insert_insert_eq, <- accumulate2. reflexivity.
Qed.

Lemma blend_ok s src i f tv tv' :
  tv !! i = Some (Some 0) ->
  I2.blend s src i f tv = (tv', Ok tt) ->
  exists x, blended_value s src f x /\ tv' = <[i := x]> tv.
Proof.
  intros Hi Hrun. pose proof (lookup_lt_Some _ _ _ Hi) as Hlt.
  assert (Hcase : (exists x, blended_value s src f x) \/
                  exists tv1, I2.blend s src i f tv
                              = (tv1, Throw UndefinedBehaviour)).
  { unfold I2.blend, blended_value.
    destruct (I2.points s !! j_found f) as [a|] eqn:Ha;
      [rewrite (bind_index_ok _ _ _ _ _ Ha)
      |right; rewrite (bind_index_ub _ _ _ _ Ha); eauto].
    destruct (I2.points s !! (j_found f + 1)%nat) as [b|] eqn:Hb;
      [rewrite (bind_index_ok _ _ _ _ _ Hb)
      |right; rewrite (bind_index_ub _ _ _ _ Hb); eauto].
    unfold for_loop. simpl for_from.
    destruct (src !! (j_found f + 0)%nat) as [x0|] eqn:H0;
      [|right; rewrite bind_assoc, (bind_index_ub _ _ _ _ H0); eauto].
    rewrite bind_assoc, (bind_index_ok _ _ _ _ _ H0).
    rewrite (bind_add_at_ok _ _ _ _ _ Hi).
    destruct (src !! (j_found f + 1)%nat) as [x1|] eqn:H1;
      [|right; rewrite bind_assoc, (bind_index_ub _ _ _ _ H1); eauto].
    rewrite Nat.add_0_r in H0.
    left. eexists. exists a, b, x0, x1. repeat split; eauto. }
  destruct Hcase as [[x Hx] | [tv1 Hub]]; [|congruence].
  destruct (blend_run s src i f tv x Hi Hx) as (y & -> & Hrun').
  exists x. split; [exact Hx|congruence].
Qed.

Lemma interpolate2_at_round s src n targets markers :
  I2.interpolate_at s src n targets markers
  = marked_round (I2.scan_segments s n) (I2.blend s src) targets markers.
Proof. reflexivity. Qed.

Lemma interpolate2_unfold_ok s name src targets markers tv0 :
  I2.field s name = Ok src ->
  I2.interpolate s name targets markers tv0
  = for_loop (length targets)
      (I2.interpolate_at s src (length (I2.points s)) targets markers)
      (replicate (length targets) (Some 0)).
Proof.
  intros Hsrc. unfold I2.interpolate. rewrite Hsrc, bind_lift_ok. reflexivity.
Qed.

Lemma interpolate2_unfold_throw s name e targets markers tv0 :
  I2.field s name = Throw e ->
  I2.interpolate s name targets markers tv0 = (tv0, Throw e).
Proof.
  intros Hsrc. unfold I2.interpolate. rewrite Hsrc, bind_lift_throw. reflexivity.
Qed.

(** * Outcome of the loop over the target points *)

Section MarkedLoopOutcome.
Context {P : Type} `{PointOps P}.
Variable search : P -> M (found P) unit.
Variable finish : nat -> found P -> M (list (option R)) unit.
Variables (targets : list P) (markers : list bool).

Let body := marked_round search finish targets markers.

Hypothesis finish_frame : forall i f tv0,
  hoare (same_except i tv0) (finish i f)
        (fun _ => same_except i tv0) (fun _ => same_except i tv0).
Hypothesis markers_cover : length markers = length targets.

(** Every marked round returns: so does the loop. *)
Lemma marked_loop_returns :
  (forall i p tv, targets !! i = Some p -> tv !! i = Some (Some 0) ->
     exists f tv', search p found_init = (f, Ok tt) /\
                   finish i f tv = (tv', Ok tt)) ->
  exists out,
    for_loop (length targets) body (replicate (length targets) (Some 0))
    = (out, Ok tt).
Proof.
  intros Hround. set (m := length targets).
  set (Inv := fun k tv =>
         length tv = m /\ forall i, (k <= i < m)%nat -> tv !! i = Some (Some 0)).
  assert (Hstep : forall i, (i < m)%nat ->
            hoare (Inv i) (body i) (fun _ => Inv (S i)) (fun _ _ => False)).
  { intros i Hi tv [Hlen Hz]. unfold body in *.
    pose proof (marked_round_frame search finish targets markers
                  finish_frame i tv tv (same_except_refl i tv)) as Hfr.
    destruct (lookup_lt_is_Some_2 markers i ltac:(lia)) as [b Hb].
    destruct (lookup_lt_is_Some_2 targets i ltac:(lia)) as [p Hp].
    assert (Hrun : exists tv', body i tv = (tv', Ok tt)).
    { unfold body. destruct b.
      - destruct (Hround i p tv Hp (Hz i ltac:(lia))) as (f & tv' & Hs & Hf).
        rewrite (marked_round_marked search finish targets markers
                   i tv p Hb Hp), Hs, Hf. eauto.
      - rewrite (marked_round_unmarked search finish targets markers
                   i tv Hb). eauto. }
    destruct Hrun as [tv' Hrun]. unfold body in Hrun.
    rewrite Hrun in Hfr |- *. destruct Hfr as [Hl Hs'].
    split; [congruence|].
    intros j Hj. etransitivity; [apply Hs'; lia|apply Hz; lia]. }
  pose proof (for_loop_inv Inv (fun _ _ => False) body m Hstep
                (replicate m (Some 0))) as Hloop.
  destruct (for_loop m body (replicate m (Some 0))) as [out [[]|e]].
  - exists out. reflexivity.
  - exfalso. apply Hloop. split; [apply length_replicate|].
    intros i Hi. apply lookup_replicate_2. lia.
Qed.

(** Every marked round throws [exc p]: the loop returns when no point is
    marked, and throws for the first marked point otherwise. *)
Lemma marked_loop_throws (exc : P -> exn) :
  (forall i p tv, targets !! i = Some p ->
     exists tv', (match search p found_init with
                  | (f, Ok _) => finish i f tv
                  | (_, Throw e) => (tv, Throw e)
                  end) = (tv', Throw (exc p))) ->
  exists out r,
    for_loop (length targets) body (replicate (length targets) (Some 0)) = (out, r) /\
    ((r = Ok tt /\ forall i, (i < length targets)%nat -> markers !! i = Some false) \/
     (exists i p, targets !! i = Some p /\ markers !! i = Some true /\
                  (forall j, (j < i)%nat -> markers !! j = Some false) /\
                  r = Throw (exc p))).
Proof.
  intros Hround. set (m := length targets).
  set (Inv := fun k (_ : list (option R)) =>
         forall j, (j < k)%nat -> markers !! j = Some false).
  set (Exc := fun e (_ : list (option R)) =>
         exists i p, targets !! i = Some p /\ markers !! i = Some true /\
           (forall j, (j < i)%nat -> markers !! j = Some false) /\ e = exc p).
  assert (Hstep : forall i, (i < m)%nat ->
            hoare (Inv i) (body i) (fun _ => Inv (S i)) Exc).
  { intros i Hi tv Htv.
    destruct (lookup_lt_is_Some_2 markers i ltac:(lia)) as [b Hb].
    destruct (lookup_lt_is_Some_2 targets i ltac:(lia)) as [p Hp].
    destruct b.
    - destruct (Hround i p tv Hp) as (tv' & Hthrow).
      pose proof (marked_round_marked search finish targets markers
                    i tv p Hb Hp) as Hrun.
      fold body in Hrun. unfold body in *.
      rewrite Hrun, Hthrow. exists i, p. auto.
    - unfold body.
      rewrite (marked_round_unmarked search finish targets markers i tv Hb).
      intros j Hj. destruct (decide (j = i)) as [->|Hne];
        [exact Hb|apply Htv; lia]. }
  pose proof (for_loop_inv Inv Exc body m Hstep (replicate m (Some 0))
                ltac:(intros j Hj; lia)) as Hloop.
  destruct (for_loop m body (replicate m (Some 0))) as [out [[]|e]].
  - exists out, (Ok tt). split; [reflexivity|]. left.
    split; [reflexivity|exact Hloop].
  - exists out, (Throw e). split; [reflexivity|]. right.
    destruct Hloop as (i & p & Hp & Hm & Hfirst & ->). exists i, p. auto.
Qed.
End MarkedLoopOutcome.

(** * The search and the reconstruction on a well-formed surface *)

Lemma selected_in_range s n p f :
  selected s n p f ->
  (j_found f < n)%nat /\
  exists tr, triangle_cache s !! j_found f = Some tr /\
             p_found f = Triangle.closest_triangle_point tr p /\
             d2_min f = closest_distance2 tr p.
Proof.
  assert (Hbest : forall keep,
            best_of (triangle_offer keep (triangle_cache s) p) n f ->
            (j_found f < n)%nat /\
            exists tr, triangle_cache s !! j_found f = Some tr /\
                       p_found f = Triangle.closest_triangle_point tr p /\
                       d2_min f = closest_distance2 tr p).
  { intros keep (Hlt & Hat & _). split; [exact Hlt|].
    unfold triangle_offer in Hat.
    destruct (triangle_cache s !! j_found f) as [tr|]; [|discriminate].
    destruct (keep tr); [|discriminate].
    injection Hat as Hp Hd. exists tr. auto. }
  intros [H|[_ H]]; eapply Hbest; exact H.
Qed.

Lemma reconstructed_value_exists s ft src f :
  cache_in_step s -> indices_valid s -> field_fits s ft src ->
  (j_found f < length (triangles s))%nat ->
  exists x, reconstructed_value s ft src f x.
Proof.
  intros Hstep Hvalid Hfits Hj. unfold reconstructed_value, field_fits in *.
  destruct ft.
  - destruct (lookup_lt_is_Some_2 src (j_found f)) as [y Hy]; [lia|]. eauto.
  - destruct (lookup_lt_is_Some_2 (triangle_cache s) (j_found f)) as [tr Htr];
      [unfold cache_in_step in Hstep; lia|].
    destruct (lookup_lt_is_Some_2 (triangles s) (j_found f) Hj) as [v Hv].
    destruct (lookup_lt_is_Some_2 src (at3 v 0)) as [x0 H0];
      [rewrite Hfits; apply (Hvalid _ _ 0%nat Hv); lia|].
    destruct (lookup_lt_is_Some_2 src (at3 v 1)) as [x1 H1];
      [rewrite Hfits; apply (Hvalid _ _ 1%nat Hv); lia|].
    destruct (lookup_lt_is_Some_2 src (at3 v 2)) as [x2 H2];
      [rewrite Hfits; apply (Hvalid _ _ 2%nat Hv); lia|].
    eexists. exists tr, v, x0, x1, x2. repeat split; eauto.
Qed.

Lemma field_throws s ft name e :
  field s ft name = Throw e ->
  e = runtime_error ("Field '" +:+ name +:+ "' does not exist.").
Proof.
  unfold field. destruct (_ !! name); [discriminate|]. intros [= <-]. reflexivity.
Qed.

(** * Claims on [SurfaceInterpolator3D::interpolate] *)


(** * Computing with concrete triangles *)

Lemma norm_eq {P} `{PointOps P} (a : P) r :
  0 <= r -> norm_square a = r * r -> norm a = r.
Proof. intros Hr Hsq. unfold norm. rewrite Hsq. apply sqrt_square. exact Hr. Qed.

Lemma point3_eq a b c a' b' c' :
  a = a' -> b = b' -> c = c' -> mkPoint3 a b c = mkPoint3 a' b' c'.
Proof. congruence. Qed.

Lemma point2_eq a b a' b' :
  a = a' -> b = b' -> mkPoint2 a b = mkPoint2 a' b'.
Proof. congruence. Qed.

Ltac geom :=
  unfold Triangle.project_to_triangle_plane, Triangle.barycentric_coordinates,
    Triangle.signed_area, Triangle.center, Triangle.longest_side,
    closest_distance2, norm_square, cross_product_3d;
  simpl.

Ltac pt_eq :=
  geom;
  repeat first [apply point3_eq | apply point2_eq | apply (f_equal2 pair)];
  lra.

Lemma normal_and_area_eq pts n r :
  0 < r ->
  cross_product_3d (at3 pts 1 - at3 pts 0)%pt (at3 pts 2 - at3 pts 0)%pt = n ->
  norm_square n = r * r ->
  Triangle.calculate_normal_and_area pts = (n /^ r, r / 2).
Proof.
  intros Hr Hn Hsq. unfold Triangle.calculate_normal_and_area.
  rewrite Hn, (norm_eq n r) by (lra || exact Hsq).
  rewrite bool_decide_eq_true_2 by lra.
  f_equal; [f_equal|]; lra.
Qed.

Lemma closest_inside tr p q a b c :
  Triangle.project_to_triangle_plane tr p = q ->
  Triangle.barycentric_coordinates tr q = (Some a, Some b, Some c) ->
  0 <= a <= 1 -> 0 <= b <= 1 -> 0 <= c <= 1 ->
  Triangle.closest_triangle_point tr p = q.
Proof.
  intros Hq Hbary Ha Hb Hc. unfold Triangle.closest_triangle_point.
  rewrite Hq, Hbary. simpl.
  rewrite !bool_decide_eq_true_2 by lra. reflexivity.
Qed.

(** The coordinates in a triangle whose area is not zero. *)
Lemma barycentric_eq tr q a b c :
  Triangle.m_area tr <> 0 ->
  Triangle.signed_area tr q (at3 (Triangle.m_points tr) 1)
                            (at3 (Triangle.m_points tr) 2)
  = a * Triangle.m_area tr ->
  Triangle.signed_area tr (at3 (Triangle.m_points tr) 0) q
                          (at3 (Triangle.m_points tr) 2)
  = b * Triangle.m_area tr ->
  Triangle.signed_area tr (at3 (Triangle.m_points tr) 0)
                          (at3 (Triangle.m_points tr) 1) q
  = c * Triangle.m_area tr ->
  Triangle.barycentric_coordinates tr q = (Some a, Some b, Some c).
Proof.
  intros Hne Ha Hb Hc. unfold Triangle.barycentric_coordinates.
  rewrite !fdiv_some by exact Hne. rewrite Ha, Hb, Hc.
  repeat apply (f_equal2 pair); f_equal; field; exact Hne.
Qed.

Lemma barycentric_some tr q :
  Triangle.m_area tr <> 0 ->
  Triangle.barycentric_coordinates tr q
  = (Some (Triangle.signed_area tr q (at3 (Triangle.m_points tr) 1)
                                (at3 (Triangle.m_points tr) 2)
           / Triangle.m_area tr),
     Some (Triangle.signed_area tr (at3 (Triangle.m_points tr) 0) q
                                (at3 (Triangle.m_points tr) 2)
           / Triangle.m_area tr),
     Some (Triangle.signed_area tr (at3 (Triangle.m_points tr) 0)
                                (at3 (Triangle.m_points tr) 1) q
           / Triangle.m_area tr)).
Proof.
  intros Hne. unfold Triangle.barycentric_coordinates.
  rewrite !fdiv_some by exact Hne. reflexivity.
Qed.

(** In a triangle of area zero the three coordinates are quotients by
    zero. *)
Lemma barycentric_none tr q :
  Triangle.m_area tr = 0 ->
  Triangle.barycentric_coordinates tr q = (None, None, None).
Proof.
  intros Hz. unfold Triangle.barycentric_coordinates.
  rewrite !fdiv_none by exact Hz. reflexivity.
Qed.

Ltac bary_eq :=
  apply barycentric_eq; [simpl; lra|..];
  unfold Triangle.signed_area, norm_square, cross_product_3d; simpl; lra.

Lemma unit_triangle_eq :
  unit_triangle =
  Triangle.mk (mkPoint3 0 0 0, mkPoint3 1 0 0, mkPoint3 0 1 0)
              (mkPoint3 0 0 1) (mkPoint3 (1/3) (1/3) 0) (1/2)
              (Triangle.m_longest_side unit_triangle).
Proof.
  unfold unit_triangle, Triangle.reinit.
  rewrite (normal_and_area_eq _ (mkPoint3 0 0 1) 1); [|lra|pt_eq|pt_eq].
  simpl. f_equal; pt_eq.
Qed.

Lemma unit_closest_inside x y :
  0 <= x -> 0 <= y -> x + y <= 1 ->
  Triangle.closest_triangle_point unit_triangle (mkPoint3 x y 0) = mkPoint3 x y 0.
Proof.
  intros Hx Hy Hxy. rewrite unit_triangle_eq.
  apply (closest_inside _ _ _ (1 - x - y) x y); [pt_eq|bary_eq|lra..].
Qed.

Lemma unit_bary x y :
  Triangle.barycentric_coordinates unit_triangle (mkPoint3 x y 0)
  = (Some (1 - x - y), Some x, Some y).
Proof. rewrite unit_triangle_eq. bary_eq. Qed.

Lemma single_triangle_found s p tr :
  triangle_cache s = [tr] ->
  exists f, find_triangle s 1 p found_init = (f, Ok tt) /\
            j_found f = 0%nat /\
            p_found f = Triangle.closest_triangle_point tr p.
Proof.
  intros Hcache.
  destruct (find_triangle_spec s 1 p) as [[Hz _]|(_ & f & Hf & Hsel)];
    [rewrite Hcache; simpl; lia|discriminate|].
  destruct (selected_in_range _ _ _ _ Hsel) as (Hj & tr' & Htr & Hp & _).
  assert (j_found f = 0%nat) as Hj0 by lia.
  rewrite Hj0, Hcache in Htr. injection Htr as <-.
  exists f. auto.
Qed.

Lemma interpolate_one s ft name src p f x tv0 :
  field s ft name = Ok src ->
  find_triangle s (length (triangles s)) p found_init = (f, Ok tt) ->
  reconstructed_value s ft src f x ->
  interpolate s ft name [p] [true] tv0 = ([x], Ok tt).
Proof.
  intros Hsrc Hf Hx.
  rewrite (interpolate_unfold_ok _ _ _ _ _ _ _ Hsrc), interpolate_at_round.
  unfold for_loop. simpl for_from. simpl replicate.
  destruct (reconstruct_run s ft src 0 f [Some 0] x eq_refl Hx)
    as (y & -> & Hrun).
  rewrite (bind_ok _ _ _ [x] tt); [reflexivity|].
  rewrite (marked_round_marked _ _ [p] [true] 0 [Some 0] p eq_refl eq_refl), Hf.
  exact Hrun.
Qed.

Lemma unit_cell_example tv0 :
  interpolate unit_surface CellField "f" [mkPoint3 0.25 0.25 0] [true] tv0
  = ([Some 5], Ok tt).
Proof.
  destruct (single_triangle_found unit_surface (mkPoint3 0.25 0.25 0)
              unit_triangle eq_refl) as (f & Hf & Hj & Hp).
  apply (interpolate_one _ _ _ [5] _ f); [reflexivity|exact Hf|].
  simpl. rewrite Hj. exists 5. split; reflexivity.
Qed.

Lemma unit_point_example tv0 :
  interpolate unit_surface PointField "g" [mkPoint3 (1/3) (1/3) 0] [true] tv0
  = ([Some 2], Ok tt).
Proof.
  destruct (single_triangle_found unit_surface (mkPoint3 (1/3) (1/3) 0)
              unit_triangle eq_refl) as (f & Hf & Hj & Hp).
  apply (interpolate_one _ _ _ [1; 2; 3] _ f); [reflexivity|exact Hf|].
  unfold reconstructed_value. rewrite Hj, Hp.
  exists unit_triangle, (0, 1, 2)%nat, 1, 2, 3.
  do 5 (split; [reflexivity|]).
  rewrite unit_closest_inside, unit_bary by lra. unfold blend3. simpl.
  f_equal. lra.
Qed.

Lemma sqrt_lt_of_sq x c : 0 <= x -> 0 <= c -> x < c * c -> sqrt x < c.
Proof.
  intros Hx Hc Hsq. rewrite <- (sqrt_square c Hc).
  apply sqrt_lt_1_alt. lra.
Qed.

Lemma std_max_lt a b c : a < c -> b < c -> std_max a b < c.
Proof. intros Ha Hb. unfold std_max. destruct (bool_decide _); assumption. Qed.

Lemma std_max_ge_l a b : a <= std_max a b.
Proof. unfold std_max. case_bool_decide; lra. Qed.

Lemma std_max_ge_r a b : b <= std_max a b.
Proof. unfold std_max. case_bool_decide; lra. Qed.

Lemma near_small_eq :
  near_small =
  Triangle.mk (mkPoint3 (-1) (-1) 0, mkPoint3 2 (-1) 0, mkPoint3 (-1) 2 0)
              (mkPoint3 0 0 1) (mkPoint3 0 0 0) (9/2)
              (Triangle.m_longest_side near_small).
Proof.
  unfold near_small, Triangle.reinit.
  rewrite (normal_and_area_eq _ (mkPoint3 0 0 9) 9); [|lra|pt_eq|pt_eq].
  simpl. f_equal; pt_eq.
Qed.

Lemma far_big_eq :
  far_big =
  Triangle.mk (mkPoint3 (-30) (-30) (-5), mkPoint3 60 (-30) (-5),
               mkPoint3 (-30) 60 (-5))
              (mkPoint3 0 0 1) (mkPoint3 0 0 (-5)) 4050
              (Triangle.m_longest_side far_big).
Proof.
  unfold far_big, Triangle.reinit.
  rewrite (normal_and_area_eq _ (mkPoint3 0 0 8100) 8100); [|lra|pt_eq|pt_eq].
  simpl. f_equal; pt_eq.
Qed.

Lemma near_small_longest : Triangle.m_longest_side near_small < 5.
Proof.
  unfold near_small, Triangle.reinit.
  destruct (Triangle.calculate_normal_and_area _) as [n a]. simpl.
  repeat apply std_max_lt; unfold norm;
    (apply sqrt_lt_of_sq; [apply norm_square3_nonneg|lra|]);
    unfold norm_square; simpl; lra.
Qed.

Lemma far_big_longest : 90 <= Triangle.m_longest_side far_big.
Proof.
  unfold far_big, Triangle.reinit.
  destruct (Triangle.calculate_normal_and_area _) as [n a]. simpl.
  eapply Rle_trans; [|apply std_max_ge_l].
  eapply Rle_trans; [|apply std_max_ge_l].
  rewrite (norm_eq _ 90); [lra|lra|]. unfold norm_square; simpl; lra.
Qed.

Lemma near_small_pruned : survives_pruning above near_small = false.
Proof.
  unfold survives_pruning. rewrite bool_decide_eq_true_2; [reflexivity|].
  pose proof near_small_longest as HL.
  rewrite near_small_eq in HL |- *. simpl in HL |- *.
  rewrite (norm_eq _ 15); [lra|lra|]. unfold norm_square; simpl; lra.
Qed.

Lemma far_big_survives : survives_pruning above far_big = true.
Proof.
  unfold survives_pruning. rewrite bool_decide_eq_false_2; [reflexivity|].
  pose proof far_big_longest as HL.
  rewrite far_big_eq in HL |- *. simpl in HL |- *.
  rewrite (norm_eq _ 20); [lra|lra|]. unfold norm_square; simpl; lra.
Qed.

Lemma near_small_distance : closest_distance2 near_small above = 225.
Proof.
  unfold closest_distance2. rewrite near_small_eq.
  rewrite (closest_inside _ _ (mkPoint3 0 0 0) (1/3) (1/3) (1/3));
    [pt_eq|pt_eq|bary_eq|lra..].
Qed.

Lemma far_big_distance : closest_distance2 far_big above = 400.
Proof.
  unfold closest_distance2. rewrite far_big_eq.
  rewrite (closest_inside _ _ (mkPoint3 0 0 (-5)) (1/3) (1/3) (1/3));
    [pt_eq|pt_eq|bary_eq|lra..].
Qed.

Lemma two_cache : triangle_cache two_surface = [near_small; far_big].
Proof. reflexivity. Qed.

Lemma two_offer_pruned :
  triangle_offer (survives_pruning above) (triangle_cache two_surface) above 0 = None.
Proof. rewrite two_cache. unfold triangle_offer. simpl. rewrite near_small_pruned. reflexivity. Qed.

Lemma two_search :
  exists f, find_triangle two_surface 2 above found_init = (f, Ok tt) /\
            j_found f = 1%nat /\ d2_min f = 400.
Proof.
  destruct (find_triangle_spec two_surface 2 above) as
    [[Hz _]|(_ & f & Hf & Hsel)]; [rewrite two_cache; simpl; lia|discriminate|].
  exists f. split; [exact Hf|].
  assert (Hj : j_found f = 1%nat).
  { destruct Hsel as [(Hlt & Hat & _)|[Hnone _]].
    - destruct (j_found f) as [|[|j]]; [|reflexivity|lia].
      rewrite two_offer_pruned in Hat. discriminate.
    - specialize (Hnone 1%nat ltac:(lia)). rewrite two_cache in Hnone.
      unfold triangle_offer in Hnone. simpl in Hnone.
      rewrite far_big_survives in Hnone. discriminate. }
  split; [exact Hj|].
  destruct (selected_in_range _ _ _ _ Hsel) as (_ & tr & Htr & _ & Hd).
  rewrite Hj, two_cache in Htr. injection Htr as <-.
  rewrite Hd. apply far_big_distance.
Qed.

Lemma two_exhaustive :
  exists g, full_scan two_surface 2 above found_init = (g, Ok tt) /\
            j_found g = 0%nat /\ d2_min g = 225.
Proof.
  destruct (full_scan_spec two_surface 2 above) as (g & Hg & Hbest);
    [rewrite two_cache; simpl; lia|].
  exists g. split; [exact Hg|].
  destruct Hbest as [[_ Hnone]|(Hlt & Hat & Hmin)].
  - specialize (Hnone 0%nat ltac:(lia)). rewrite two_cache in Hnone. discriminate.
  - rewrite two_cache in Hat, Hmin. unfold triangle_offer in Hat.
    destruct (j_found g) as [|[|j]]; [| |lia]; simpl in Hat;
      injection Hat as _ Hd.
    + split; [reflexivity|]. rewrite <- Hd. apply near_small_distance.
    + exfalso.
      destruct (Hmin 0%nat _ _ ltac:(lia) eq_refl) as [Hle _].
      rewrite <- Hd, far_big_distance, near_small_distance in Hle. lra.
Qed.

(** * Lemmas on [convert] *)

Lemma acc_state_ext n fs fc fs' fc' st :
  (forall p, (p < n)%nat -> fs p = fs' p /\ fc p = fc' p) ->
  acc_state n fs fc st -> acc_state n fs' fc' st.
Proof.
  intros Hext (Hl1 & Hl2 & Hst). split; [exact Hl1|]. split; [exact Hl2|].
  intros p Hp. destruct (Hext p Hp) as [<- <-]. apply Hst. exact Hp.
Qed.

Lemma acc_state_init n :
  acc_state n (fun _ => 0) (fun _ => 0%nat)
            (replicate n 0, replicate n 0%nat).
Proof.
  split; [apply length_replicate|]. split; [apply length_replicate|].
  intros p Hp. split; apply lookup_replicate_2; exact Hp.
Qed.

Lemma accumulate_spec n fs fc st id x :
  acc_state n fs fc st -> (id < n)%nat ->
  exists st', accumulate id x st = (st', Ok tt) /\
    acc_state n (fun p => if decide (p = id) then fs p + x else fs p)
                (fun p => if decide (p = id) then S (fc p) else fc p) st'.
Proof.
  intros (Hl1 & Hl2 & Hst) Hid. destruct (Hst id Hid) as [Hf Hc].
  unfold accumulate.
  rewrite bind_get, (bind_index_ok _ _ _ _ _ Hf).
  rewrite bind_assign_ok by lia.
  rewrite (bind_index_ok _ _ _ _ _ Hc), bind_assign_ok by lia.
  eexists. split; [reflexivity|].
  split; [simpl; rewrite length_insert; exact Hl1|].
  split; [simpl; rewrite length_insert; exact Hl2|].
  intros p Hp. simpl. destruct (decide (p = id)) as [->|Hne].
  - split; apply list_lookup_insert_eq; lia.
  - rewrite !list_lookup_insert_ne by congruence. apply Hst. exact Hp.
Qed.

(** The corner loop of [cell_to_point] for triangle [v] of value [x]. *)
Lemma accumulate_corners n fs fc st (src : list R) i v x :
  acc_state n fs fc st ->
  (forall k, (k < 3)%nat -> (at3 v k < n)%nat) ->
  src !! i = Some x ->
  exists st',
    for_loop 3 (fun k => let* y := index src i in accumulate (at3 v k) y) st
    = (st', Ok tt) /\
    acc_state n (fun p => fs p + INR (occurrences v p) * x)
                (fun p => (fc p + occurrences v p)%nat) st'.
Proof.
  intros Hst Hv Hx. unfold for_loop. simpl for_from.
  destruct (accumulate_spec n _ _ st (at3 v 0) x Hst (Hv 0%nat ltac:(lia)))
    as (st1 & Hr1 & Hst1).
  destruct (accumulate_spec n _ _ st1 (at3 v 1) x Hst1 (Hv 1%nat ltac:(lia)))
    as (st2 & Hr2 & Hst2).
  destruct (accumulate_spec n _ _ st2 (at3 v 2) x Hst2 (Hv 2%nat ltac:(lia)))
    as (st3 & Hr3 & Hst3).
  rewrite bind_assoc, (bind_index_ok _ _ _ _ _ Hx), (bind_ok _ _ _ _ _ Hr1).
  rewrite bind_assoc, (bind_index_ok _ _ _ _ _ Hx), (bind_ok _ _ _ _ _ Hr2).
  rewrite bind_assoc, (bind_index_ok _ _ _ _ _ Hx), (bind_ok _ _ _ _ _ Hr3).
  exists st3. split; [reflexivity|].
  revert Hst3. apply acc_state_ext. intros p Hp. unfold occurrences.
  repeat destruct (decide _); simpl; split; try lra; try lia.
Qed.

(** The corner loop of [point_to_cell] for triangle [i] with corners [v]. *)
Lemma accumulate_vertices n fs fc st (src : list R) i v x0 x1 x2 :
  acc_state n fs fc st -> (i < n)%nat ->
  src !! at3 v 0 = Some x0 -> src !! at3 v 1 = Some x1 ->
  src !! at3 v 2 = Some x2 ->
  exists st',
    for_loop 3 (fun k => let* y := index src (at3 v k) in accumulate i y) st
    = (st', Ok tt) /\
    acc_state n (fun p => if decide (p = i) then fs p + x0 + x1 + x2 else fs p)
                (fun p => if decide (p = i) then (fc p + 3)%nat else fc p) st'.
Proof.
  intros Hst Hi H0 H1 H2. unfold for_loop. simpl for_from.
  destruct (accumulate_spec n _ _ st i x0 Hst Hi) as (st1 & Hr1 & Hst1).
  destruct (accumulate_spec n _ _ st1 i x1 Hst1 Hi) as (st2 & Hr2 & Hst2).
  destruct (accumulate_spec n _ _ st2 i x2 Hst2 Hi) as (st3 & Hr3 & Hst3).
  rewrite bind_assoc, (bind_index_ok _ _ _ _ _ H0), (bind_ok _ _ _ _ _ Hr1).
  rewrite bind_assoc, (bind_index_ok _ _ _ _ _ H1), (bind_ok _ _ _ _ _ Hr2).
  rewrite bind_assoc, (bind_index_ok _ _ _ _ _ H2), (bind_ok _ _ _ _ _ Hr3).
  exists st3. split; [reflexivity|].
  revert Hst3. apply acc_state_ext. intros p Hp.
  destruct (decide (p = i)); split; reflexivity || lia.
Qed.

Lemma hoare_returns {St A} (P : St -> Prop) (m : M St A) (Q : St -> Prop) s :
  hoare P m (fun _ => Q) (fun _ _ => False) -> P s ->
  exists s' a, m s = (s', Ok a) /\ Q s'.
Proof.
  intros Hm Hs. specialize (Hm s Hs).
  destruct (m s) as [s' [a|e]]; [eauto|contradiction].
Qed.

(** The loop [if (count[i] > 0) target_field[i] /= count[i]]. *)
Lemma divide_loop n fs fc st :
  acc_state n fs fc st ->
  exists st', for_loop n divide_by_count st = (st', Ok tt) /\
    acc_state n (fun p => if decide (0 < fc p)%nat then fs p / INR (fc p)
                          else fs p) fc st'.
Proof.
  intros Hst.
  set (mean := fun p => if decide (0 < fc p)%nat then fs p / INR (fc p) else fs p).
  set (Inv := fun k => acc_state n (fun p => if decide (p < k)%nat then mean p
                                           else fs p) fc).
  assert (Hstep : forall i, (i < n)%nat ->
            hoare (Inv i) (divide_by_count i) (fun _ => Inv (S i))
                  (fun _ _ => False)).
  { intros i Hi st0 Hst0. pose proof Hst0 as (Hl1 & Hl2 & Hp).
    destruct (Hp i Hi) as [Hf Hc].
    rewrite decide_False in Hf by lia.
    unfold divide_by_count.
    rewrite bind_get, (bind_index_ok _ _ _ _ _ Hc).
    destruct (decide (0 < fc i)%nat) as [Hpos|Hzero].
    - rewrite bool_decide_eq_true_2 by exact Hpos.
      rewrite (bind_index_ok _ _ _ _ _ Hf), bind_assign_ok by lia.
      split; [simpl; rewrite length_insert; exact Hl1|].
      split; [exact Hl2|]. simpl.
      intros p Hlt. destruct (decide (p = i)) as [->|Hne].
      + rewrite list_lookup_insert_eq by lia.
        rewrite decide_True by lia. unfold mean.
        rewrite decide_True by exact Hpos. split; [reflexivity|exact Hc].
      + rewrite list_lookup_insert_ne by congruence.
        destruct (Hp p Hlt) as [Hfp Hcp]. split; [|exact Hcp].
        rewrite Hfp. repeat case_decide; try lia; reflexivity.
    - rewrite bool_decide_eq_false_2 by exact Hzero.
      revert Hst0. apply acc_state_ext. intros p Hlt. split; [|reflexivity].
      destruct (decide (p = i)) as [->|Hne].
      + rewrite decide_False by lia. rewrite decide_True by lia.
        unfold mean. rewrite decide_False by exact Hzero. reflexivity.
      + repeat case_decide; try lia; reflexivity. }
  destruct (hoare_returns _ _ _ st (for_loop_inv Inv _ _ n Hstep))
    as (st' & [] & Hrun & Hst').
  - revert Hst. apply acc_state_ext. intros p Hp.
    rewrite decide_False by lia. split; reflexivity.
  - exists st'. split; [exact Hrun|].
    revert Hst'. apply acc_state_ext. intros p Hp.
    rewrite decide_True by lia. split; reflexivity.
Qed.

Lemma incidence_sum_zero tris src p i :
  incidence_count tris p i = 0%nat -> incidence_sum tris src p i = 0.
Proof.
  induction i as [|i IH]; [reflexivity|]. simpl. intros Hc.
  rewrite IH by lia.
  replace (occurrences (nth i tris (0, 0, 0)%nat) p) with 0%nat by lia.
  simpl. lra.
Qed.

(** The two loops of [cell_to_point] on its locals. *)
Lemma cell_to_point_loops (tris : list (array3 nat)) (src : list R) n :
  (length tris <= length src)%nat ->
  (forall j v k, tris !! j = Some v -> (k < 3)%nat -> (at3 v k < n)%nat) ->
  exists st',
    (for_loop (length tris) (fun i =>
       let* v := index tris i in
       for_loop 3 (fun k =>
         let* x := index src i in accumulate (at3 v k) x)) >>
     for_loop n divide_by_count) (replicate n 0, replicate n 0%nat)
    = (st', Ok tt) /\
    length st'.1 = n /\
    forall p, (p < n)%nat -> st'.1 !! p = Some (incidence_mean tris src p).
Proof.
  intros Hsrc Hvalid.
  set (Inv := fun i => acc_state n (fun p => incidence_sum tris src p i)
                                 (fun p => incidence_count tris p i)).
  assert (Hstep : forall i, (i < length tris)%nat ->
            hoare (Inv i)
              (let* v := index tris i in
               for_loop 3 (fun k =>
                 let* x := index src i in accumulate (at3 v k) x))
              (fun _ => Inv (S i)) (fun _ _ => False)).
  { intros i Hi st Hst.
    destruct (lookup_lt_is_Some_2 tris i Hi) as [v Hv].
    destruct (lookup_lt_is_Some_2 src i ltac:(lia)) as [x Hx].
    rewrite (bind_index_ok _ _ _ _ _ Hv).
    destruct (accumulate_corners n _ _ st src i v x Hst
                (fun k Hk => Hvalid i v k Hv Hk) Hx) as (st' & -> & Hst').
    revert Hst'. apply acc_state_ext. intros p Hp. simpl.
    rewrite !nth_lookup, Hv, Hx. split; reflexivity. }
  destruct (hoare_returns _ _ _ (replicate n 0, replicate n 0%nat)
              (for_loop_inv Inv _ _ (length tris) Hstep) (acc_state_init n))
    as (st1 & [] & Hrun1 & Hst1).
  destruct (divide_loop n _ _ st1 Hst1) as (st2 & Hrun2 & Hst2).
  exists st2. rewrite (bind_ok _ _ _ _ _ Hrun1). split; [exact Hrun2|].
  destruct Hst2 as (Hl & _ & Hp). split; [exact Hl|].
  intros p Hlt. destruct (Hp p Hlt) as [-> _]. f_equal.
  unfold incidence_mean. case_decide; [reflexivity|].
  apply incidence_sum_zero. lia.
Qed.

(** The two loops of [point_to_cell] on its locals. *)
Lemma point_to_cell_loops (tris : list (array3 nat)) (src : list R) :
  (forall j v k, tris !! j = Some v -> (k < 3)%nat -> (at3 v k < length src)%nat) ->
  exists st',
    (for_loop (length tris) (fun i =>
       let* v := index tris i in
       for_loop 3 (fun k =>
         let* x := index src (at3 v k) in accumulate i x)) >>
     for_loop (length tris) divide_by_count)
      (replicate (length tris) 0, replicate (length tris) 0%nat)
    = (st', Ok tt) /\
    length st'.1 = length tris /\
    forall j v, tris !! j = Some v -> st'.1 !! j = Some (vertex_mean src v).
Proof.
  intros Hvalid. set (n := length tris).
  set (vsum := fun j =>
         let v := nth j tris (0, 0, 0)%nat in
         0 + nth (at3 v 0) src 0 + nth (at3 v 1) src 0 + nth (at3 v 2) src 0).
  set (Inv := fun i => acc_state n
                (fun j => if decide (j < i)%nat then vsum j else 0)
                (fun j => if decide (j < i)%nat then 3%nat else 0%nat)).
  assert (Hstep : forall i, (i < n)%nat ->
            hoare (Inv i)
              (let* v := index tris i in
               for_loop 3 (fun k =>
                 let* x := index src (at3 v k) in accumulate i x))
              (fun _ => Inv (S i)) (fun _ _ => False)).
  { intros i Hi st Hst.
    destruct (lookup_lt_is_Some_2 tris i Hi) as [v Hv].
    destruct (lookup_lt_is_Some_2 src (at3 v 0)
                (Hvalid i v 0%nat Hv ltac:(lia))) as [x0 H0].
    destruct (lookup_lt_is_Some_2 src (at3 v 1)
                (Hvalid i v 1%nat Hv ltac:(lia))) as [x1 H1].
    destruct (lookup_lt_is_Some_2 src (at3 v 2)
                (Hvalid i v 2%nat Hv ltac:(lia))) as [x2 H2].
    rewrite (bind_index_ok _ _ _ _ _ Hv).
    destruct (accumulate_vertices n _ _ st src i v x0 x1 x2 Hst Hi H0 H1 H2)
      as (st' & -> & Hst').
    revert Hst'. apply acc_state_ext. intros p Hp.
    destruct (decide (p = i)) as [->|Hne].
    - rewrite !(decide_False (P := (i < i)%nat)) by lia.
      rewrite !(decide_True (P := (i < S i)%nat)) by lia.
      unfold vsum. rewrite !nth_lookup, Hv. simpl. rewrite H0, H1, H2.
      split; reflexivity.
    - repeat case_decide; try lia; split; reflexivity. }
  destruct (hoare_returns _ _ _ (replicate n 0, replicate n 0%nat)
              (for_loop_inv Inv _ _ n Hstep)) as (st1 & [] & Hrun1 & Hst1).
  { generalize (acc_state_init n). apply acc_state_ext. intros p Hp.
    rewrite decide_False by lia. split; reflexivity. }
  destruct (divide_loop n _ _ st1 Hst1) as (st2 & Hrun2 & Hst2).
  exists st2. rewrite (bind_ok _ _ _ _ _ Hrun1). split; [exact Hrun2|].
  destruct Hst2 as (Hl & _ & Hp). split; [exact Hl|].
  intros j v Hv. pose proof (lookup_lt_Some _ _ _ Hv) as Hj.
  destruct (Hp j Hj) as [-> _]. f_equal.
  unfold vsum, vertex_mean. rewrite (nth_lookup tris), Hv. fold n in Hj.
  repeat case_decide; try lia; simpl; lra.
Qed.

Lemma map_subscript_present {A} name (m : gmap string (list A)) f :
  m !! name = Some f -> map_subscript name m = m.
Proof. intros Hm. unfold map_subscript. rewrite Hm. reflexivity. Qed.

Lemma bind_field_mut {B} ft name (k : FieldType * string -> M t B) s :
  bind (field_mut ft name) k s =
  k (ft, name)
    (match ft with
     | CellField => set_cell_fields (map_subscript name) s
     | PointField => set_point_fields (map_subscript name) s
     end).
Proof. destruct ft; reflexivity. Qed.

Lemma bind_store_ref {B} ft name v (k : unit -> M t B) s :
  bind (store_ref (ft, name) v) k s =
  k tt
    (match ft with
     | CellField => set_cell_fields <[name := v]> s
     | PointField => set_point_fields <[name := v]> s
     end).
Proof. destruct ft; reflexivity. Qed.

Lemma store_ref_run ft name v s :
  store_ref (ft, name) v s =
  (match ft with
   | CellField => set_cell_fields <[name := v]> s
   | PointField => set_point_fields <[name := v]> s
   end, Ok tt).
Proof. destruct ft; reflexivity. Qed.

Lemma cell_to_point_run s src_name tgt :
  cell_to_point src_name tgt s =
  let s1 := set_cell_fields (map_subscript src_name) s in
  let s2 := set_point_fields (map_subscript tgt) s1 in
  let n_points := length (points s) in
  let s3 := set_point_fields <[tgt := replicate n_points 0]> s2 in
  let source_field := deref s3 (CellField, src_name) in
  match
    (for_loop (length (triangles s)) (fun i =>
       let* v := index (triangles s3) i in
       for_loop 3 (fun k =>
         let* x := index source_field i in accumulate (at3 v k) x)) >>
     for_loop n_points divide_by_count)
      (replicate n_points 0, replicate n_points 0%nat)
  with
  | (l, Ok _) => (set_point_fields <[tgt := l.1]> s3, Ok tt)
  | (_, Throw e) => (s3, Throw e)
  end.
Proof.
  cbv zeta. unfold cell_to_point.
  rewrite !bind_gets, !bind_field_mut, bind_store_ref, bind_get.
  match goal with
  | |- context [with_locals ?i ?m] => destruct (m i) as [l [[]|e]] eqn:Hloops
  end.
  - rewrite (bind_with_locals_ok _ _ _ _ _ _ Hloops). apply store_ref_run.
  - rewrite (bind_with_locals_throw _ _ _ _ _ _ Hloops). reflexivity.
Qed.

Lemma point_to_cell_run s src_name tgt :
  point_to_cell src_name tgt s =
  let s1 := set_point_fields (map_subscript src_name) s in
  let s2 := set_cell_fields (map_subscript tgt) s1 in
  let n_triangles := length (triangles s) in
  let s3 := set_cell_fields <[tgt := replicate n_triangles 0]> s2 in
  let source_field := deref s3 (PointField, src_name) in
  match
    (for_loop n_triangles (fun i =>
       let* v := index (triangles s3) i in
       for_loop 3 (fun k =>
         let* x := index source_field (at3 v k) in accumulate i x)) >>
     for_loop n_triangles divide_by_count)
      (replicate n_triangles 0, replicate n_triangles 0%nat)
  with
  | (l, Ok _) => (set_cell_fields <[tgt := l.1]> s3, Ok tt)
  | (_, Throw e) => (s3, Throw e)
  end.
Proof.
  cbv zeta. unfold point_to_cell.
  rewrite !bind_gets, !bind_field_mut, bind_store_ref, bind_get.
  match goal with
  | |- context [with_locals ?i ?m] => destruct (m i) as [l [[]|e]] eqn:Hloops
  end.
  - rewrite (bind_with_locals_ok _ _ _ _ _ _ Hloops). apply store_ref_run.
  - rewrite (bind_with_locals_throw _ _ _ _ _ _ Hloops). reflexivity.
Qed.

Lemma insert_map_subscript {A} name (v : list A) (m : gmap string (list A)) :
  <[name := v]> (map_subscript name m) = <[name := v]> m.
Proof.
  unfold map_subscript. destruct (m !! name); [reflexivity|].
  apply insert_insert_eq.
Qed.

Lemma cell_to_point_spec s src_name tgt src :
  cell_fields s !! src_name = Some src ->
  (length (triangles s) <= length src)%nat ->
  indices_valid s ->
  exists tf,
    cell_to_point src_name tgt s = (set_point_fields <[tgt := tf]> s, Ok tt) /\
    length tf = length (points s) /\
    forall p, (p < length (points s))%nat ->
      tf !! p = Some (incidence_mean (triangles s) src p).
Proof.
  intros Hsrc Hlen Hvalid. rewrite cell_to_point_run. cbv zeta.
  unfold deref. simpl.
  rewrite (map_subscript_present _ _ _ Hsrc), Hsrc. simpl.
  destruct (cell_to_point_loops (triangles s) src (length (points s)) Hlen)
    as (st & Hrun & Hl & Hmean).
  { intros j v k Hv Hk. exact (Hvalid j v k Hv Hk). }
  rewrite Hrun. exists st.1. split; [|split; assumption].
  f_equal. unfold set_point_fields, set_cell_fields. simpl.
  rewrite (map_subscript_present _ _ _ Hsrc).
  rewrite insert_insert_eq, insert_map_subscript. reflexivity.
Qed.

Lemma point_to_cell_spec s src_name tgt src :
  point_fields s !! src_name = Some src ->
  (forall j v k, triangles s !! j = Some v -> (k < 3)%nat ->
     (at3 v k < length src)%nat) ->
  exists tf,
    point_to_cell src_name tgt s = (set_cell_fields <[tgt := tf]> s, Ok tt) /\
    length tf = length (triangles s) /\
    forall j v, triangles s !! j = Some v ->
      tf !! j = Some (vertex_mean src v).
Proof.
  intros Hsrc Hvalid. rewrite point_to_cell_run. cbv zeta.
  unfold deref. simpl.
  rewrite (map_subscript_present _ _ _ Hsrc), Hsrc. simpl.
  destruct (point_to_cell_loops (triangles s) src Hvalid)
    as (st & Hrun & Hl & Hmean).
  rewrite Hrun. exists st.1. split; [|split; assumption].
  f_equal. unfold set_point_fields, set_cell_fields. simpl.
  rewrite (map_subscript_present _ _ _ Hsrc).
  rewrite insert_insert_eq, insert_map_subscript. reflexivity.
Qed.

Lemma convert_cell_to_point s src_name tgt :
  convert CellField src_name PointField tgt s
  = cell_to_point src_name (target_name_updated src_name tgt) s.
Proof. reflexivity. Qed.

Lemma convert_point_to_cell s src_name tgt :
  convert PointField src_name CellField tgt s
  = point_to_cell src_name (target_name_updated src_name tgt) s.
Proof. reflexivity. Qed.

Lemma occurrences_distinct v p :
  NoDup (array3_list v) ->
  occurrences v p = if incident v p then 1%nat else 0%nat.
Proof.
  destruct v as [[a b] c]. unfold occurrences, incident. simpl.
  intros Hnd.
  assert (Hne : a <> b /\ a <> c /\ b <> c).
  { apply NoDup_cons in Hnd as [Ha Hnd]. apply NoDup_cons in Hnd as [Hb _].
    set_solver. }
  destruct Hne as (Hab & Hac & Hbc).
  destruct (decide (p = a)), (decide (p = b)), (decide (p = c));
    repeat case_bool_decide; simpl; congruence || lia.
Qed.

Lemma incidence_plain tris src p i :
  distinct_corners tris -> (i <= length tris)%nat ->
  incidence_count tris p i = incident_count tris p i /\
  incidence_sum tris src p i = incident_sum tris src p i.
Proof.
  intros Hnd. induction i as [|i IH]; [split; reflexivity|].
  intros Hi. destruct (IH ltac:(lia)) as [Hc Hs]. simpl.
  destruct (lookup_lt_is_Some_2 tris i ltac:(lia)) as [v Hv].
  rewrite !nth_lookup, Hv. simpl.
  rewrite Hc, Hs, (occurrences_distinct v p (Hnd i v Hv)).
  destruct (incident v p); simpl; split; lra || lia.
Qed.

Lemma incidence_mean_plain tris src p :
  distinct_corners tris -> incidence_mean tris src p = plain_mean tris src p.
Proof.
  intros Hnd. unfold incidence_mean, plain_mean.
  destruct (incidence_plain tris src p (length tris) Hnd (le_n _)) as [-> ->].
  reflexivity.
Qed.

Lemma incidence_sum_uniform tris src p v i :
  (forall j, (j < i)%nat -> src !! j = Some v) ->
  incidence_sum tris src p i = INR (incidence_count tris p i) * v.
Proof.
  induction i as [|i IH]; intros Hu; simpl; [lra|].
  rewrite IH by (intros j Hj; apply Hu; lia).
  rewrite (nth_lookup src), (Hu i) by lia. simpl.
  rewrite plus_INR. lra.
Qed.

Lemma incidence_count_corner tris p i j v k :
  (j < i)%nat -> tris !! j = Some v -> (k < 3)%nat -> at3 v k = p ->
  (0 < incidence_count tris p i)%nat.
Proof.
  intros Hj Hv Hk Hp. induction i as [|i IH]; [lia|]. simpl.
  destruct (decide (j = i)) as [->|Hne]; [|specialize (IH ltac:(lia)); lia].
  rewrite nth_lookup, Hv. simpl. unfold occurrences.
  destruct k as [|[|[|k]]]; [| | |lia]; subst p;
    repeat case_decide; try congruence; lia.
Qed.

Lemma incidence_mean_uniform tris src p v j w k :
  (forall i, (i < length tris)%nat -> src !! i = Some v) ->
  tris !! j = Some w -> (k < 3)%nat -> at3 w k = p ->
  incidence_mean tris src p = v.
Proof.
  intros Hu Hw Hk Hp. unfold incidence_mean.
  pose proof (incidence_count_corner tris p (length tris) j w k
                (lookup_lt_Some _ _ _ Hw) Hw Hk Hp) as Hpos.
  rewrite decide_True by exact Hpos.
  rewrite (incidence_sum_uniform tris src p v) by exact Hu.
  field. apply not_0_INR. lia.
Qed.

(** * Claims on [convert] *)

(** C6, as the code has it. [convert] from [CellField] to [PointField]
    gives each point the mean of the values of the triangles on it, a
    triangle counting once for each of its corners that is the point, and
    zero when no triangle is on the point; when the three corners of every
    triangle are distinct this is the plain mean over the incident
    triangles. [convert] from [PointField] to [CellField] gives each
    triangle the mean of its three vertex values. *)
Theorem convert_means :
  (forall s src_name tgt src,
     cell_fields s !! src_name = Some src ->
     field_fits s CellField src -> indices_valid s ->
     exists tf,
       convert CellField src_name PointField tgt s
       = (set_point_fields <[target_name_updated src_name tgt := tf]> s, Ok tt) /\
       length tf = length (points s) /\
       forall p, (p < length (points s))%nat ->
         tf !! p = Some (incidence_mean (triangles s) src p) /\
         (incidence_count (triangles s) p (length (triangles s)) = 0%nat ->
          tf !! p = Some 0) /\
         (distinct_corners (triangles s) ->
          tf !! p = Some (plain_mean (triangles s) src p))) /\
  (forall s src_name tgt src,
     point_fields s !! src_name = Some src ->
     field_fits s PointField src -> indices_valid s ->
     exists tf,
       convert PointField src_name CellField tgt s
       = (set_cell_fields <[target_name_updated src_name tgt := tf]> s, Ok tt) /\
       length tf = length (triangles s) /\
       forall j v, triangles s !! j = Some v ->
         tf !! j = Some (vertex_mean src v)).
Proof.
  split.
  - intros s src_name tgt src Hsrc Hfits Hvalid.
    rewrite convert_cell_to_point.
    destruct (cell_to_point_spec s src_name (target_name_updated src_name tgt)
                src Hsrc ltac:(unfold field_fits in Hfits; lia) Hvalid)
      as (tf & Hrun & Hlen & Hmean).
    exists tf. split; [exact Hrun|]. split; [exact Hlen|].
    intros p Hp. rewrite (Hmean p Hp). split; [reflexivity|]. split.
    + intros Hzero. unfold incidence_mean. rewrite Hzero.
      rewrite decide_False by lia. reflexivity.
    + intros Hnd. rewrite (incidence_mean_plain _ _ _ Hnd). reflexivity.
  - intros s src_name tgt src Hsrc Hfits Hvalid.
    rewrite convert_point_to_cell.
    apply point_to_cell_spec; [exact Hsrc|].
    intros j v k Hv Hk. unfold field_fits in Hfits. rewrite Hfits.
    exact (Hvalid j v k Hv Hk).
Qed.

(** C9. On any surface with valid vertex indices, converting a cell field
    that has the same value [v] on every triangle to a point field and back
    gives [v] on every triangle. *)
Theorem uniform_field_round_trip s src_name tgt tgt2 src v :
  cell_fields s !! src_name = Some src ->
  field_fits s CellField src -> indices_valid s ->
  (forall i, (i < length (triangles s))%nat -> src !! i = Some v) ->
  let mid := target_name_updated src_name tgt in
  let final := target_name_updated mid tgt2 in
  exists s1 s2 out,
    convert CellField src_name PointField tgt s = (s1, Ok tt) /\
    convert PointField mid CellField tgt2 s1 = (s2, Ok tt) /\
    cell_fields s2 !! final = Some out /\
    length out = length (triangles s) /\
    forall i, (i < length (triangles s))%nat -> out !! i = Some v.
Proof.
  intros Hsrc Hfits Hvalid Hu mid final.
  rewrite convert_cell_to_point. fold mid.
  destruct (cell_to_point_spec s src_name mid src Hsrc
              ltac:(unfold field_fits in Hfits; lia) Hvalid)
    as (tf & Hrun & Hlen & Hmean).
  set (s1 := set_point_fields <[mid := tf]> s) in *.
  destruct (point_to_cell_spec s1 mid final tf) as (out & Hrun2 & Hlen2 & Hout).
  { unfold s1. simpl. apply lookup_insert_eq. }
  { intros j w k Hw Hk. rewrite Hlen. exact (Hvalid j w k Hw Hk). }
  exists s1, (set_cell_fields <[final := out]> s1), out.
  split; [exact Hrun|]. split; [rewrite convert_point_to_cell; exact Hrun2|].
  split; [simpl; apply lookup_insert_eq|]. split; [exact Hlen2|].
  intros i Hi.
  destruct (lookup_lt_is_Some_2 (triangles s) i Hi) as [w Hw].
  rewrite (Hout i w Hw). f_equal. unfold vertex_mean.
  assert (Hcorner : forall k, (k < 3)%nat -> nth (at3 w k) tf 0 = v).
  { intros k Hk. rewrite nth_lookup.
    rewrite (Hmean (at3 w k) (Hvalid i w k Hw Hk)). simpl.
    apply (incidence_mean_uniform _ _ _ _ i w k Hu Hw Hk eq_refl). }
  rewrite (Hcorner 0%nat), (Hcorner 1%nat), (Hcorner 2%nat) by lia. lra.
Qed.

(** * What [read_txt] establishes *)

Lemma resize_nil {A} n (a0 : A) : resize n a0 [] = replicate n a0.
Proof. unfold resize. rewrite take_nil. simpl. f_equal. lia. Qed.

Lemma read_header_fit line :
  hoare (fun r => columns_fit r /\ I2.field_names r = [])
        (I2.read_header line) (fun _ => columns_fit) (fun _ _ => True).
Proof.
  intros r [(Hlen & Hcols & Hempty & Hfields) Hnames].
  unfold I2.read_header, modify, columns_fit. simpl.
  rewrite Hnames in Hlen. apply length_zero_iff_nil in Hlen.
  rewrite Hlen, resize_nil.
  split; [apply length_replicate|]. split; [|split; [|exact Hfields]].
  - intros i col Hcol. apply lookup_replicate_1 in Hcol as [-> _].
    rewrite (Hempty Hnames). reflexivity.
  - intros _. apply Hempty. exact Hnames.
Qed.

Lemma read_value_fit L n k :
  (k < n)%nat ->
  hoare (fun r => length (I2.field_values r) = n /\
                  length (I2.field_names r) = n /\
                  length (I2.points (I2.obj r)) = S L /\
                  I2.fields (I2.obj r) = ∅ /\
                  forall i col, I2.field_values r !! i = Some col ->
                    length col = if decide (i < k)%nat then S L else L)
        (I2.read_value k)
        (fun _ r => length (I2.field_values r) = n /\
                  length (I2.field_names r) = n /\
                  length (I2.points (I2.obj r)) = S L /\
                  I2.fields (I2.obj r) = ∅ /\
                  forall i col, I2.field_values r !! i = Some col ->
                    length col = if decide (i < S k)%nat then S L else L)
        (fun _ _ => True).
Proof.
  intros Hk r (Hfv & Hfn & Hpts & Hfields & Hcols).
  unfold I2.read_value. rewrite bind_get.
  destruct (extract_uninit parse_double 0 (I2.ss r) (I2.val r)) as [f x].
  rewrite bind_put.
  destruct x as [x|]; unfold read_var;
    [rewrite bind_ret|rewrite bind_throw_now; exact Logic.I].
  destruct (lookup_lt_is_Some_2 (I2.field_values r) k ltac:(lia)) as [col Hcol].
  rewrite (bind_index_ok _ _ _ _ _ Hcol), bind_assign_ok by lia.
  unfold modify. simpl.
  split; [rewrite length_insert; exact Hfv|]. split; [exact Hfn|].
  split; [exact Hpts|]. split; [exact Hfields|].
  intros i c Hc. destruct (decide (i = k)) as [->|Hne].
  - rewrite list_lookup_insert_eq in Hc by lia. injection Hc as <-.
    rewrite length_app. simpl. rewrite (Hcols k col Hcol).
    rewrite decide_False by lia. rewrite decide_True by lia. lia.
  - rewrite list_lookup_insert_ne in Hc by congruence.
    rewrite (Hcols i c Hc). repeat case_decide; lia.
Qed.

Lemma read_row_fit line :
  hoare (fun r => columns_fit r /\ I2.field_names r <> [])
        (I2.read_row line) (fun _ => columns_fit) (fun _ _ => True).
Proof.
  intros r [(Hlen & Hcols & Hempty & Hfields) Hnames].
  unfold I2.read_row.
  destruct (extract_number parse_double 0 _ 0) as [f1 x].
  destruct (extract_number parse_double 0 f1 0) as [f2 y].
  rewrite bind_modify, bind_gets. simpl I2.field_names.
  set (r1 := I2.mkReader _ _ _ _ _).
  set (n := length (I2.field_names r)). set (L := length (I2.points (I2.obj r))).
  pose proof (for_loop_inv
    (fun k r => length (I2.field_values r) = n /\
                length (I2.field_names r) = n /\
                length (I2.points (I2.obj r)) = S L /\
                I2.fields (I2.obj r) = ∅ /\
                forall i col, I2.field_values r !! i = Some col ->
                  length col = if decide (i < k)%nat then S L else L)
    (fun _ _ => True) I2.read_value n
    (fun k Hk => read_value_fit L n k Hk) r1) as Hloop.
  destruct (for_loop n I2.read_value r1) as [r2 [[]|e]]; [|exact Logic.I].
  destruct Hloop as (Hfv & Hfn & Hpts & Hfields2 & Hcols2).
  { unfold r1. simpl. split; [exact Hlen|]. split; [reflexivity|].
    split; [rewrite length_app; simpl; fold L; lia|]. split; [exact Hfields|].
    intros i col Hcol. apply (Hcols i). exact Hcol. }
  split; [congruence|]. split; [|split; [|exact Hfields2]].
  - intros i col Hcol. rewrite (Hcols2 i col Hcol), Hpts.
    apply lookup_lt_Some in Hcol. rewrite decide_True by lia. reflexivity.
  - intros Hnil. exfalso. apply Hnames. apply length_zero_iff_nil.
    rewrite Hnil in Hfn. simpl in Hfn. fold n. lia.
Qed.

Lemma read_lines_fit lines :
  hoare columns_fit (I2.read_lines lines) (fun _ => columns_fit)
        (fun _ _ => True).
Proof.
  induction lines as [|line rest IH]; intros r Hr; [exact Hr|].
  simpl. unfold bind.
  assert (Hline : hoare columns_fit (I2.read_line line) (fun _ => columns_fit)
                        (fun _ _ => True)).
  { intros r0 Hr0. unfold I2.read_line.
    destruct (bool_decide (line = "")); [exact Hr0|].
    rewrite bind_gets. case_bool_decide as Hnames.
    - apply read_header_fit. auto.
    - apply read_row_fit. auto. }
  specialize (Hline r Hr).
  destruct (I2.read_line line r) as [r1 [[]|e]]; [|exact Logic.I].
  apply IH. exact Hline.
Qed.

Lemma publish_field_fit i :
  hoare (fun r => (forall j col, I2.field_values r !! j = Some col ->
                     length col = length (I2.points (I2.obj r))) /\
                  fields_fit (I2.obj r))
        (I2.publish_field i)
        (fun _ r => (forall j col, I2.field_values r !! j = Some col ->
                     length col = length (I2.points (I2.obj r))) /\
                  fields_fit (I2.obj r))
        (fun _ _ => True).
Proof.
  intros r [Hcols Hfit]. unfold I2.publish_field. rewrite bind_get.
  destruct (I2.field_names r !! i) as [name|] eqn:Hname;
    [rewrite (bind_index_ok _ _ _ _ _ Hname)
    |rewrite (bind_index_ub _ _ _ _ Hname); exact Logic.I].
  destruct (I2.field_values r !! i) as [col|] eqn:Hcol;
    [rewrite (bind_index_ok _ _ _ _ _ Hcol)
    |rewrite (bind_index_ub _ _ _ _ Hcol); exact Logic.I].
  unfold put. simpl. split; [exact Hcols|].
  intros name' f. simpl. rewrite lookup_insert.
  case_decide; [|apply Hfit]. intros [= <-]. apply (Hcols i col Hcol).
Qed.

(** When [read_txt] returns, every field has one value per point. *)
Lemma read_txt_fields_fit content s s' :
  I2.read_txt content s = (s', Ok tt) -> fields_fit s'.
Proof.
  unfold I2.read_txt. rewrite (bind_ok _ _ _ I2.empty tt) by reflexivity.
  destruct content as [lines|];
    [|intros [= <-]; intros name f Hf; change (I2.fields I2.empty) with
        (∅ : gmap string (list R)) in Hf; rewrite lookup_empty in Hf;
      discriminate].
  set (r0 := I2.mkReader _ _ _ _ _).
  pose proof (read_lines_fit lines r0) as Hlines.
  unfold bind at 1.
  destruct (I2.read_lines lines r0) as [r1 [[]|e]]; [|discriminate].
  destruct Hlines as (Hlen & Hcols & Hempty & Hfields).
  { unfold r0, columns_fit. simpl. repeat split; try reflexivity.
    intros i col Hcol. discriminate. }
  rewrite bind_gets.
  pose proof (for_loop_inv
    (fun _ r => (forall j col, I2.field_values r !! j = Some col ->
                   length col = length (I2.points (I2.obj r))) /\
                fields_fit (I2.obj r))
    (fun _ _ => True) I2.publish_field (length (I2.field_names r1))
    (fun k _ => publish_field_fit k) r1) as Hpub.
  destruct (for_loop _ I2.publish_field r1) as [r2 [[]|e]]; [|discriminate].
  intros [= <-]. apply Hpub. split; [exact Hcols|].
  intros name f Hf. rewrite Hfields, lookup_empty in Hf. discriminate.
Qed.

(** * Claims on the two [interpolate] functions *)

Lemma best_is_nearest keep (cache : list Triangle.t) n p f :
  best_of (triangle_offer keep cache p) n f ->
  nearest_among keep cache n p (j_found f).
Proof.
  intros (Hlt & Hat & Hmin). split; [exact Hlt|].
  unfold triangle_offer in Hat.
  destruct (cache !! j_found f) as [tr|] eqn:Htr; [|discriminate].
  destruct (keep tr) eqn:Hkeep; [|discriminate].
  injection Hat as _ Hd. exists tr. split; [reflexivity|]. split; [exact Hkeep|].
  intros j' tr' Hj' Htr' Hkeep'. rewrite Hd.
  apply (Hmin j' (Triangle.closest_triangle_point tr' p)); [exact Hj'|].
  unfold triangle_offer. rewrite Htr', Hkeep'. reflexivity.
Qed.

Lemma selected_cases s n p f :
  selected s n p f ->
  ((exists j tr, (j < n)%nat /\ triangle_cache s !! j = Some tr /\
                 survives_pruning p tr = true) ->
   nearest_among (survives_pruning p) (triangle_cache s) n p (j_found f)) /\
  ((forall j tr, (j < n)%nat -> triangle_cache s !! j = Some tr ->
                 survives_pruning p tr = false) ->
   nearest_among (fun _ => true) (triangle_cache s) n p (j_found f)).
Proof.
  intros [Hbest | [Hnone Hbest]]; split.
  - intros _. apply best_is_nearest. exact Hbest.
  - intros Hpruned. exfalso. destruct Hbest as (Hlt & Hat & _).
    unfold triangle_offer in Hat.
    destruct (triangle_cache s !! j_found f) as [tr|] eqn:Htr; [|discriminate].
    rewrite (Hpruned _ _ Hlt Htr) in Hat. discriminate.
  - intros (j & tr & Hj & Htr & Hkeep). exfalso.
    specialize (Hnone j Hj). unfold triangle_offer in Hnone.
    rewrite Htr, Hkeep in Hnone. discriminate.
  - intros _. apply best_is_nearest. exact Hbest.
Qed.



(** C8. Whenever [interpolate] returns, and also when the 3D one ends with
    [ExcInterpolationFailed], the output has one entry per target point and
    the entry of every unmarked target point is zero. *)
Theorem interpolate_leaves_unmarked_zero :
  (forall s ft name (targets : list Point3) markers tv0 out r,
     I3.interpolate s ft name targets markers tv0 = (out, r) ->
     r = Ok tt \/ (exists p, r = Throw (ExcInterpolationFailed p)) ->
     length out = length targets /\
     forall i, (i < length targets)%nat -> markers !! i = Some false ->
               out !! i = Some (Some 0)) /\
  (forall s name (targets : list Point2) markers tv0 out,
     I2.interpolate s name targets markers tv0 = (out, Ok tt) ->
     length out = length targets /\
     forall i, (i < length targets)%nat -> markers !! i = Some false ->
               out !! i = Some (Some 0)).
Proof.
  split.
  - intros s ft name targets markers tv0 out r Hrun Hr.
    destruct (field s ft name) as [src|e] eqn:Hsrc.
    + rewrite (interpolate_unfold_ok _ _ _ _ _ _ _ Hsrc), interpolate_at_round
        in Hrun.
      exact (marked_loop_unmarked _ _ targets markers
               (reconstruct_frame s ft src) _ out r Hrun).
    + rewrite (interpolate_unfold_throw _ _ _ _ _ _ _ Hsrc) in Hrun.
      injection Hrun as _ <-. rewrite (field_throws _ _ _ _ Hsrc) in Hr.
      destruct Hr as [Hr | [p Hr]]; discriminate.
  - intros s name targets markers tv0 out Hrun.
    destruct (I2.field s name) as [src|e] eqn:Hsrc.
    + rewrite (interpolate2_unfold_ok _ _ _ _ _ _ Hsrc), interpolate2_at_round
        in Hrun.
      exact (marked_loop_unmarked _ _ targets markers
               (blend_frame s src) _ out (Ok tt) Hrun).
    + rewrite (interpolate2_unfold_throw _ _ _ _ _ _ Hsrc) in Hrun.
      discriminate.
Qed.

Lemma segment_offer_first (pts : list Point2) p :
  (2 <= length pts)%nat -> segment_offer pts p 0 <> None.
Proof.
  intros Hlen. unfold segment_offer.
  destruct pts as [|a [|b pts]]; simpl in *; try lia. discriminate.
Qed.

Lemma best_segment_value_exists s src f p :
  best_of (segment_offer (I2.points s) p) (length (I2.points s) - 1) f ->
  length src = length (I2.points s) ->
  exists x, blended_value s src f x.
Proof.
  intros (Hlt & _ & _) Hfits. unfold blended_value.
  destruct (lookup_lt_is_Some_2 (I2.points s) (j_found f) ltac:(lia)) as [a Ha].
  destruct (lookup_lt_is_Some_2 (I2.points s) (j_found f + 1) ltac:(lia)) as [b Hb].
  destruct (lookup_lt_is_Some_2 src (j_found f) ltac:(lia)) as [x0 H0].
  destruct (lookup_lt_is_Some_2 src (j_found f + 1) ltac:(lia)) as [x1 H1].
  eexists. exists a, b, x0, x1. repeat split; eauto.
Qed.

Lemma scan_segments_best s p :
  (2 <= length (I2.points s))%nat ->
  exists f, I2.scan_segments s (length (I2.points s)) p found_init = (f, Ok tt) /\
            best_of (segment_offer (I2.points s) p) (length (I2.points s) - 1) f.
Proof.
  intros Hlen. destruct (scan_segments_spec s p) as (f & Hf & [[_ Hnone]|Hbest]).
  - exfalso. apply (segment_offer_first (I2.points s) p Hlen).
    apply Hnone. lia.
  - exists f. auto.
Qed.

Lemma scan_segments_short s p :
  (length (I2.points s) < 2)%nat ->
  I2.scan_segments s (length (I2.points s)) p found_init = (found_init, Ok tt).
Proof.
  intros Hlen. unfold I2.scan_segments.
  replace (length (I2.points s) - 1)%nat with 0%nat by lia. reflexivity.
Qed.

Lemma blend_short s src i tv :
  (length (I2.points s) < 2)%nat ->
  I2.blend s src i found_init tv = (tv, Throw UndefinedBehaviour).
Proof.
  intros Hlen. unfold I2.blend. simpl j_found.
  destruct (I2.points s) as [|a [|b pts]] eqn:Hpts; simpl in Hlen; try lia.
  - apply bind_index_ub. reflexivity.
  - rewrite (bind_index_ok _ _ a) by reflexivity.
    apply bind_index_ub. reflexivity.
Qed.

Lemma line_example tv0 :
  I2.interpolate line_surface "T" [mkPoint2 1.5 0] [true] tv0
  = ([Some 15], Ok tt).
Proof.
  rewrite (interpolate2_unfold_ok _ _ [0; 10; 20]) by reflexivity.
  rewrite interpolate2_at_round.
  destruct (scan_segments_best line_surface (mkPoint2 1.5 0) ltac:(simpl; lia))
    as (f & Hf & Hbest).
  assert (Hoffer0 : segment_offer (I2.points line_surface) (mkPoint2 1.5 0) 0
                    = Some (mkPoint2 1 0, 1/2)).
  { unfold segment_offer, closest_segment_point, norm_square. simpl.
    rewrite fdiv_some by lra.
    unfold std_min. rewrite bool_decide_eq_false_2 by lra.
    unfold std_max. rewrite bool_decide_eq_true_2 by lra.
    do 2 f_equal; [pt_eq|]. apply norm_eq; [lra|]. unfold norm_square. simpl. lra. }
  assert (Hoffer1 : segment_offer (I2.points line_surface) (mkPoint2 1.5 0) 1
                    = Some (mkPoint2 1.5 0, 0)).
  { unfold segment_offer, closest_segment_point, norm_square. simpl.
    rewrite fdiv_some by lra.
    unfold std_min. rewrite bool_decide_eq_true_2 by lra.
    unfold std_max. rewrite bool_decide_eq_true_2 by lra.
    do 2 f_equal; [pt_eq|]. apply norm_eq; [lra|]. unfold norm_square. simpl. lra. }
  destruct Hbest as (Hlt & Hat & Hmin). simpl in Hlt.
  assert (Hf1 : j_found f = 1%nat /\ p_found f = mkPoint2 1.5 0).
  { destruct (j_found f) as [|[|j]] eqn:Hj; [| |lia].
    - exfalso. rewrite Hoffer0 in Hat. injection Hat as _ Hd.
      destruct (Hmin 1%nat _ _ ltac:(simpl; lia) Hoffer1) as [Hle _]. lra.
    - rewrite Hoffer1 in Hat. injection Hat as Hp _. auto. }
  destruct Hf1 as [Hj Hp].
  destruct (blend_run line_surface [0; 10; 20] 0 f [Some 0] (Some 15) eq_refl)
    as (y & -> & Hrun).
  { unfold blended_value. rewrite Hj, Hp.
    exists (mkPoint2 1 0), (mkPoint2 2 0), 10, 20.
    do 4 (split; [reflexivity|]). unfold barycentric_coordinates, norm_square.
    simpl. rewrite fdiv_some by lra. unfold blend2. simpl. f_equal. lra. }
  unfold for_loop. simpl for_from. simpl replicate.
  rewrite (bind_ok _ _ _ [Some 15] tt); [reflexivity|].
  rewrite (marked_round_marked _ _ [mkPoint2 1.5 0] [true] 0 [Some 0]
             (mkPoint2 1.5 0) eq_refl eq_refl).
  change (length (I2.points line_surface)) with 3%nat in Hf.
  rewrite Hf. exact Hrun.
Qed.


Lemma read_txt_unreadable s :
  I2.read_txt None s = (I2.empty, Ok tt).
Proof. reflexivity. Qed.

Lemma field2_absent s name :
  I2.fields s !! name = None ->
  I2.field s name
  = Throw (runtime_error ("Field '" +:+ name +:+ "' does not exist.")).
Proof. intros Hf. unfold I2.field. rewrite Hf. reflexivity. Qed.

(** C10, as the code has it. When the named field exists, the polyline has
    fewer than two points and some target point is marked, [interpolate]
    reads past the end of [points] (undefined behaviour) and raises no
    exception of its own; when the polyline has at least two points and the
    field has one value per point, every index is in range and the call
    returns; and so it is on every polyline of at least two points that
    [read_txt] has loaded, since [read_txt] gives each field one value per
    point. The markers are as many as the target points. *)
Theorem interpolate2_needs_two_points :
  (forall s name src (targets : list Point2) markers tv0,
     I2.field s name = Ok src ->
     (length (I2.points s) < 2)%nat ->
     length markers = length targets ->
     (exists i, markers !! i = Some true) ->
     exists out,
       I2.interpolate s name targets markers tv0
       = (out, Throw UndefinedBehaviour)) /\
  (forall s name src (targets : list Point2) markers tv0,
     I2.field s name = Ok src ->
     (2 <= length (I2.points s))%nat ->
     length src = length (I2.points s) ->
     length markers = length targets ->
     exists out, I2.interpolate s name targets markers tv0 = (out, Ok tt)) /\
  (forall content s0 s name src (targets : list Point2) markers tv0,
     I2.read_txt content s0 = (s, Ok tt) ->
     I2.field s name = Ok src ->
     (2 <= length (I2.points s))%nat ->
     length markers = length targets ->
     exists out, I2.interpolate s name targets markers tv0 = (out, Ok tt)).
Proof.
  assert (Hreturns : forall s name src (targets : list Point2) markers tv0,
     I2.field s name = Ok src ->
     (2 <= length (I2.points s))%nat ->
     length src = length (I2.points s) ->
     length markers = length targets ->
     exists out, I2.interpolate s name targets markers tv0 = (out, Ok tt)).
  { intros s name src targets markers tv0 Hsrc Hlong Hfits Hcover.
    rewrite (interpolate2_unfold_ok _ _ _ _ _ _ Hsrc), interpolate2_at_round.
    apply (marked_loop_returns _ _ targets markers (blend_frame s src) Hcover).
    intros i p tv _ Hi.
    destruct (scan_segments_best s p Hlong) as (f & Hf & Hbest).
    destruct (best_segment_value_exists s src f p Hbest Hfits) as [x Hx].
    destruct (blend_run s src i f tv x Hi Hx) as (y & _ & Hrun).
    eauto. }
  split; [|split; [exact Hreturns|]].
  - intros s name src targets markers tv0 Hsrc Hshort Hcover [i Hi].
    rewrite (interpolate2_unfold_ok _ _ _ _ _ _ Hsrc), interpolate2_at_round.
    destruct (marked_loop_throws (I2.scan_segments s (length (I2.points s)))
                (I2.blend s src) targets markers Hcover
                (fun _ => UndefinedBehaviour)) as (out & r & Hrun & Hr).
    { intros j p tv _. rewrite (scan_segments_short s p Hshort).
      exists tv. apply blend_short. exact Hshort. }
    exists out. rewrite Hrun. f_equal.
    destruct Hr as [[_ Hnone] | (_ & _ & _ & _ & _ & ->)]; [|reflexivity].
    pose proof (lookup_lt_Some _ _ _ Hi) as Hlt.
    rewrite Hnone in Hi by lia. discriminate.
  - intros content s0 s name src targets markers tv0 Hload Hsrc Hlong Hcover.
    apply (Hreturns s name src); try assumption.
    apply (read_txt_fields_fit _ _ _ Hload name).
    unfold I2.field in Hsrc.
    destruct (I2.fields s !! name); [congruence|discriminate].
Qed.

(** C10, the claim as stated fails after a failed [read_txt]: the store is
    empty, so it holds fewer than two points, and [interpolate] at a marked
    target point throws the "does not exist" error of [field] before any
    point or field value is read. *)
Lemma interpolate2_after_failed_read :
  exists s,
    I2.read_txt None I2.empty = (s, Ok tt) /\
    (length (I2.points s) < 2)%nat /\
    forall tv0,
      I2.interpolate s "q" [mkPoint2 0 0] [true] tv0
      = (tv0, Throw (runtime_error "Field 'q' does not exist.")).
Proof.
  exists I2.empty. split; [reflexivity|]. split; [simpl; lia|].
  intros tv0. apply interpolate2_unfold_throw. reflexivity.
Qed.

(** * Claims on the treatment of missing fields *)

Lemma interpolate_missing_field s ft name (targets : list Point3) markers tv0 :
  (if decide (ft = CellField) then cell_fields s else point_fields s) !! name
  = None ->
  interpolate s ft name targets markers tv0
  = (tv0, Throw (runtime_error ("Field '" +:+ name +:+ "' does not exist."))).
Proof.
  intros Habsent. apply interpolate_unfold_throw.
  unfold field. rewrite Habsent. reflexivity.
Qed.

(** C3, at a failing input. [interpolate] on a surface without the named
    field throws the "does not exist" error and leaves the output as it
    was, but [convert] does not: on the empty surface it returns and has
    created the cell field "missing" and a point field of that name; on the
    unit triangle surface it has created both and then reads past the end
    of the empty source field. Neither call throws the error of [field]. *)
Theorem convert_creates_missing_source :
  (forall tv0,
     interpolate unit_surface CellField "missing" [mkPoint3 0 0 0] [true] tv0
     = (tv0, Throw (runtime_error "Field 'missing' does not exist."))) /\
  (exists s',
     convert CellField "missing" PointField "" I3.empty = (s', Ok tt) /\
     cell_fields I3.empty !! "missing" = None /\
     cell_fields s' !! "missing" = Some [] /\
     point_fields s' !! "missing" = Some []) /\
  (exists s',
     convert CellField "missing" PointField "" unit_surface
     = (s', Throw UndefinedBehaviour) /\
     cell_fields unit_surface !! "missing" = None /\
     cell_fields s' !! "missing" = Some [] /\
     point_fields s' !! "missing" = Some [0; 0; 0]).
Proof.
  split; [|split].
  - intros tv0. apply interpolate_missing_field. reflexivity.
  - eexists. split.
    + rewrite convert_cell_to_point, cell_to_point_run. reflexivity.
    + repeat split; reflexivity.
  - eexists. split.
    + rewrite convert_cell_to_point, cell_to_point_run. reflexivity.
    + repeat split; reflexivity.
Qed.

(** * Lemmas on [read_vtk] *)

Section Steady.
Context {St : Type}.
Variable I : St -> Prop.
Variable E : exn -> St -> Prop.

Lemma steady_ret {A} (a : A) : steady I E (ret a).
Proof. intros s Hs. exact Hs. Qed.

Lemma steady_bind {A B} (m : M St A) (k : A -> M St B) :
  steady I E m -> (forall a, steady I E (k a)) -> steady I E (bind m k).
Proof.
  intros Hm Hk s Hs. unfold bind. specialize (Hm s Hs).
  destruct (m s) as [s' [a|e]]; [|exact Hm]. apply Hk. exact Hm.
Qed.

Lemma steady_get : steady I E get.
Proof. intros s Hs. exact Hs. Qed.

Lemma steady_gets {A} (f : St -> A) : steady I E (gets f).
Proof. intros s Hs. exact Hs. Qed.

Lemma steady_modify (f : St -> St) :
  (forall s, I s -> I (f s)) -> steady I E (modify f).
Proof. intros Hf s Hs. apply Hf. exact Hs. Qed.

Lemma steady_throw {A} e : (forall s, I s -> E e s) -> steady I E (@throw St A e).
Proof. intros He s Hs. apply He. exact Hs. Qed.

Lemma steady_index {A} (v : list A) i :
  (forall s, I s -> E UndefinedBehaviour s) -> steady I E (index v i).
Proof.
  intros He s Hs. unfold index.
  destruct (v !! i); [exact Hs|apply He; exact Hs].
Qed.

Lemma steady_read_var {A} (x : option A) :
  (forall s, I s -> E UndefinedBehaviour s) -> steady I E (read_var x).
Proof.
  intros He s Hs. unfold read_var. destruct x; [exact Hs|apply He; exact Hs].
Qed.

Lemma steady_for_loop n (body : nat -> M St unit) :
  (forall i, (i < n)%nat -> steady I E (body i)) -> steady I E (for_loop n body).
Proof.
  intros Hbody. apply (for_loop_inv (fun _ => I) E body n). exact Hbody.
Qed.
End Steady.

Lemma steady_change {St A} (I I' : St -> Prop) (E : exn -> St -> Prop)
    (m : M St A) :
  (forall s, I s -> I' s) -> (forall s, I' s -> I s) ->
  steady I' E m -> steady I E m.
Proof.
  intros Hin Hout Hm s Hs. specialize (Hm s (Hin s Hs)).
  destruct (m s) as [s' [a|e]]; [apply Hout; exact Hm|exact Hm].
Qed.

Lemma extract_string_tokens f old :
  (length (tokens (extract_string f old).1) <= length (tokens f))%nat.
Proof.
  unfold extract_string. destruct (failbit f); [simpl; lia|].
  destruct (tokens f); simpl; lia.
Qed.

Lemma extract_number_tokens {A} parse (zero : A) f old :
  (length (tokens (extract_number parse zero f old).1) <= length (tokens f))%nat.
Proof.
  unfold extract_number. destruct (failbit f); [simpl; lia|].
  destruct (tokens f) as [|tk rest]; [simpl; lia|].
  destruct (parse tk); simpl; lia.
Qed.

Lemma extract_uninit_tokens {A} parse (zero : A) f old :
  (length (tokens (extract_uninit parse zero f old).1) <= length (tokens f))%nat.
Proof.
  unfold extract_uninit. destruct (failbit f); [simpl; lia|].
  destruct (tokens f) as [|tk rest]; [simpl; lia|].
  destruct (parse tk); simpl; lia.
Qed.

Lemma extract_unsigned_tokens max f old :
  (length (tokens (extract_unsigned max f old).1) <= length (tokens f))%nat.
Proof.
  unfold extract_unsigned. destruct (failbit f); [simpl; lia|].
  destruct (tokens f) as [|tk rest]; [simpl; lia|].
  destruct (scan_unsigned max tk) as [x []]; simpl; lia.
Qed.

Lemma extract_uninit_unsigned_tokens max f old :
  (length (tokens (extract_uninit_unsigned max f old).1)
   <= length (tokens f))%nat.
Proof.
  unfold extract_uninit_unsigned. destruct (failbit f); [simpl; lia|].
  destruct (tokens f) as [|tk rest]; [simpl; lia|].
  destruct (scan_unsigned max tk) as [x []]; simpl; lia.
Qed.

Lemma tokens_le_stable n : read_stable (tokens_le n).
Proof. intros r r' _ Hle Hr. unfold tokens_le in *. lia. Qed.

Lemma cells_inv_stable n c : read_stable (cells_inv n c).
Proof.
  intros r r' Hobj Hle [Hr Hc]. split; [unfold tokens_le in *; lia|].
  rewrite Hobj. exact Hc.
Qed.

Section ReaderSteps.
Variable I : reader -> Prop.
Variable E : exn -> reader -> Prop.
Hypothesis I_stable : read_stable I.

Lemma steady_in_s : steady I E in_s.
Proof.
  apply steady_modify. intros r Hr.
  pose proof (extract_string_tokens (file r) (var_s r)) as Hle.
  destruct (extract_string (file r) (var_s r)) as [f x].
  apply (I_stable r); [reflexivity|exact Hle|exact Hr].
Qed.

Lemma steady_in_data_name : steady I E in_data_name.
Proof.
  apply steady_modify. intros r Hr.
  pose proof (extract_string_tokens (file r) (var_data_name r)) as Hle.
  destruct (extract_string (file r) (var_data_name r)) as [f x].
  apply (I_stable r); [reflexivity|exact Hle|exact Hr].
Qed.

Lemma steady_set_data_type : steady I E set_data_type.
Proof.
  apply steady_modify. intros r Hr.
  apply (I_stable r); [reflexivity|simpl; lia|exact Hr].
Qed.

Lemma steady_in_number {A} parse (zero old : A) :
  steady I E (in_number parse zero old).
Proof.
  intros r Hr. unfold in_number.
  pose proof (extract_number_tokens parse zero (file r) old) as Hle.
  destruct (extract_number parse zero (file r) old) as [f x].
  apply (I_stable r); [reflexivity|exact Hle|exact Hr].
Qed.

Lemma steady_in_unsigned_long old : steady I E (in_unsigned_long old).
Proof.
  intros r Hr. unfold in_unsigned_long.
  pose proof (extract_unsigned_tokens ULONG_MAX (file r) old) as Hle.
  destruct (extract_unsigned ULONG_MAX (file r) old) as [f x].
  apply (I_stable r); [reflexivity|exact Hle|exact Hr].
Qed.

Lemma steady_in_count : steady I E in_count.
Proof.
  intros r Hr. unfold in_count.
  pose proof (extract_uninit_unsigned_tokens UINT_MAX (file r) None) as Hle.
  destruct (extract_uninit_unsigned UINT_MAX (file r) None) as [f x].
  apply (I_stable r); [reflexivity|exact Hle|exact Hr].
Qed.

Lemma steady_on_obj (g : t -> t) :
  (forall r, I r -> I (mkReader (g (obj r)) (file r) (var_s r)
                                (var_data_type r) (var_data_name r))) ->
  steady I E (on_obj g).
Proof. intros Hg. apply steady_modify. exact Hg. Qed.
End ReaderSteps.

Ltac steady_step stable :=
  lazymatch goal with
  | |- steady _ _ (bind _ _) => apply steady_bind; [|intros ?]
  | |- steady _ _ (ret _) => apply steady_ret
  | |- steady _ _ get => apply steady_get
  | |- steady _ _ (gets _) => apply steady_gets
  | |- steady _ _ in_s => apply (steady_in_s _ _ stable)
  | |- steady _ _ in_data_name => apply (steady_in_data_name _ _ stable)
  | |- steady _ _ set_data_type => apply (steady_set_data_type _ _ stable)
  | |- steady _ _ (in_number _ _ _) => apply (steady_in_number _ _ stable)
  | |- steady _ _ (in_unsigned_long _) =>
      apply (steady_in_unsigned_long _ _ stable)
  | |- steady _ _ in_count => apply (steady_in_count _ _ stable)
  | |- steady _ _ (index _ _) => apply steady_index; intros ? ?; exact Logic.I
  | |- steady _ _ (read_var _) =>
      apply steady_read_var; intros ? ?; exact Logic.I
  | |- steady _ _ (on_obj _) => apply steady_on_obj; intros ? ?; assumption
  | |- steady _ _ (for_loop _ _) => apply steady_for_loop; intros ? ?
  | |- steady _ _ (if ?b then _ else _) => destruct b
  end.

Lemma read_points_steady n :
  steady (tokens_le n) format_error_state read_points.
Proof.
  unfold read_points. repeat steady_step (tokens_le_stable n).
Qed.

Lemma read_field_values_steady n :
  steady (tokens_le n) format_error_state read_field_values.
Proof.
  unfold read_field_values. repeat steady_step (tokens_le_stable n).
Qed.

Lemma read_cells_steady n :
  steady (tokens_le n) format_error_state read_cells.
Proof.
  unfold read_cells.
  apply steady_bind; [steady_step (tokens_le_stable n)|intros n0].
  apply steady_bind; [steady_step (tokens_le_stable n)|intros _].
  apply steady_bind; [steady_step (tokens_le_stable n)|intros c].
  intros r Hr. unfold on_obj. rewrite bind_modify.
  set (r1 := mkReader _ _ _ _ _).
  assert (Hr1 : cells_inv n c r1).
  { split; [exact Hr|]. unfold r1, set_triangles, resize. simpl.
    rewrite length_app, length_take, length_replicate. lia. }
  assert (Hloop : steady (cells_inv n c) format_error_state
            (for_loop c (fun i =>
               in_s >>
               let* s := gets var_s in
               if bool_decide (s <> "3")
               then throw (runtime_error
                             ("Triangle expected, numPoints=" +:+ s +:+ "found"))
               else
                 let* r := get in
                 let* v := index (triangles (obj r)) i in
                 let* v0 := in_unsigned_long (at3 v 0) in
                 let* v1 := in_unsigned_long (at3 v 1) in
                 let* v2 := in_unsigned_long (at3 v 2) in
                 modify (fun r =>
                   mkReader (set_triangles <[i := (v0, v1, v2)]> (obj r))
                            (file r) (var_s r) (var_data_type r)
                            (var_data_name r))))).
  { apply steady_for_loop. intros i Hi.
    apply steady_bind; [steady_step (cells_inv_stable n c)|intros _].
    apply steady_bind; [steady_step (cells_inv_stable n c)|intros s].
    destruct (bool_decide (s <> "3")).
    - apply steady_throw. intros r0 [_ Hc]. simpl.
      destruct (triangles (obj r0)); [simpl in Hc; lia|discriminate].
    - repeat steady_step (cells_inv_stable n c).
      apply steady_modify. intros r0 [Ht Hc]. split; [exact Ht|].
      simpl. rewrite length_insert. exact Hc. }
  specialize (Hloop r1 Hr1).
  destruct (for_loop c _ r1) as [r2 [[]|e]]; [exact (proj1 Hloop)|exact Hloop].
Qed.

Lemma vtk_section_steady n :
  steady (tokens_le n) format_error_state vtk_section.
Proof.
  unfold vtk_section.
  apply steady_bind; [steady_step (tokens_le_stable n)|intros s].
  destruct (bool_decide (s = "POINTS")); [apply read_points_steady|].
  destruct (bool_decide (s = "CELLS")); [apply read_cells_steady|].
  repeat first [ apply read_field_values_steady
               | steady_step (tokens_le_stable n) ].
Qed.

Lemma in_s_progress r :
  failbit (file (in_s r).1) = false ->
  (length (tokens (file (in_s r).1)) < length (tokens (file r)))%nat.
Proof.
  unfold in_s, modify, extract_string. simpl.
  destruct (failbit (file r)) eqn:Hfail; simpl; [congruence|].
  destruct (tokens (file r)); simpl; [discriminate|lia].
Qed.

Lemma while_extract_step fuel body r :
  while_extract (S fuel) body r =
  if failbit (file (in_s r).1) then Some ((in_s r).1, Ok tt)
  else match body (in_s r).1 with
       | (r2, Ok _) => while_extract fuel body r2
       | (r2, Throw e) => Some (r2, Throw e)
       end.
Proof. reflexivity. Qed.

(** The loop [while (file >> s)] never uses up a fuel above the number of
    tokens. *)
Lemma while_extract_total fuel body r :
  (forall n, steady (tokens_le n) format_error_state body) ->
  (length (tokens (file r)) < fuel)%nat ->
  while_extract fuel body r <> None.
Proof.
  intros Hbody. revert r. induction fuel as [|fuel IH]; intros r Hfuel; [lia|].
  rewrite while_extract_step.
  destruct (failbit (file (in_s r).1)) eqn:Hfail; [discriminate|].
  pose proof (in_s_progress r Hfail) as Hlt.
  pose proof (Hbody (length (tokens (file (in_s r).1))) (in_s r).1
                ltac:(unfold tokens_le; lia)) as Hstep.
  destruct (body (in_s r).1) as [r2 [[]|e]]; [|discriminate].
  apply IH. unfold tokens_le in Hstep. lia.
Qed.

(** A [std::runtime_error] leaves the loop only with triangles allocated. *)
Lemma while_extract_throws fuel body r r' e :
  (forall n, steady (tokens_le n) format_error_state body) ->
  while_extract fuel body r = Some (r', Throw e) ->
  format_error_state e r'.
Proof.
  intros Hbody. revert r. induction fuel as [|fuel IH]; intros r; [discriminate|].
  rewrite while_extract_step.
  destruct (failbit (file (in_s r).1)); [discriminate|].
  pose proof (Hbody (length (tokens (file (in_s r).1))) (in_s r).1
                ltac:(unfold tokens_le; lia)) as Hstep.
  destruct (body (in_s r).1) as [r2 [[]|e2]].
  - apply IH.
  - intros [= <- <-]. exact Hstep.
Qed.

Lemma preprocess_throws_ub s s' e :
  preprocess s = (s', Throw e) -> e = UndefinedBehaviour.
Proof.
  assert (Hsteady : steady (fun _ : t => True)
                           (fun e _ => e = UndefinedBehaviour) preprocess).
  { unfold preprocess.
    repeat lazymatch goal with
      | |- steady _ _ (bind _ _) => apply steady_bind; [|intros ?]
      | |- steady _ _ (gets _) => apply steady_gets
      | |- steady _ _ get => apply steady_get
      | |- steady _ _ (modify _) => apply steady_modify; intros ? ?; exact Logic.I
      | |- steady _ _ (index _ _) => apply steady_index; intros ? ?; reflexivity
      | |- steady _ _ (for_loop _ _) => apply steady_for_loop; intros ? ?
      end. }
  intros Hrun. specialize (Hsteady s Logic.I). rewrite Hrun in Hsteady.
  exact Hsteady.
Qed.

Lemma clear_run s : clear s = (I3.empty, Ok tt).
Proof. reflexivity. Qed.

(** * Claims on [read_vtk] *)


Lemma read_vtk_fuel_suffices toks s :
  while_extract (S (length toks)) vtk_section
                (mkReader s (mkStream toks false) "" "" "") <> None.
Proof. apply (while_extract_total _ _ _ vtk_section_steady). simpl. lia. Qed.

Lemma quad_file_run :
  read_vtk (Some quad_tokens) I3.empty
  = (quad_state, Throw (runtime_error "Triangle expected, numPoints=4found")).
Proof. vm_compute. reflexivity. Qed.



(** * Witnesses and counterexamples *)

Lemma unit_indices_valid : indices_valid unit_surface.
Proof.
  intros j v k Hv Hk. change (length (points unit_surface)) with 3%nat.
  destruct j as [|j]; [|discriminate]. injection Hv as <-.
  destruct k as [|[|[|k]]]; simpl; lia.
Qed.

Lemma two_indices_valid : indices_valid two_surface.
Proof.
  intros j v k Hv Hk. change (length (points two_surface)) with 6%nat.
  destruct j as [|[|j]]; [| |discriminate]; injection Hv as <-;
    destruct k as [|[|[|k]]]; simpl; lia.
Qed.

Lemma folded_indices_valid : indices_valid folded_surface.
Proof.
  intros j v k Hv Hk. change (length (points folded_surface)) with 3%nat.
  destruct j as [|[|j]]; [| |discriminate]; injection Hv as <-;
    destruct k as [|[|[|k]]]; simpl; lia.
Qed.

Lemma unit_cell_two tv0 :
  interpolate unit_surface CellField "f"
              [mkPoint3 0.25 0.25 0; mkPoint3 7 7 7] [true; false] tv0
  = ([Some 5; Some 0], Ok tt).
Proof.
  destruct (single_triangle_found unit_surface (mkPoint3 0.25 0.25 0)
              unit_triangle eq_refl) as (f & Hf & Hj & Hp).
  rewrite (interpolate_unfold_ok _ _ _ [5]) by reflexivity.
  rewrite interpolate_at_round. unfold for_loop. simpl for_from.
  simpl replicate.
  rewrite (bind_ok _ _ _ [Some 5; Some 0] tt).
  - rewrite (bind_ok _ _ _ [Some 5; Some 0] tt); [reflexivity|].
    apply marked_round_unmarked. reflexivity.
  - rewrite (marked_round_marked _ _ [mkPoint3 0.25 0.25 0; mkPoint3 7 7 7]
               [true; false] 0 [Some 0; Some 0] (mkPoint3 0.25 0.25 0) eq_refl eq_refl).
    change (length (triangles unit_surface)) with 1%nat. rewrite Hf.
    unfold reconstruct. rewrite Hj.
    rewrite (bind_index_ok _ _ 5) by reflexivity. reflexivity.
Qed.

(** C1, the claim as stated fails. The small triangle under [above] is the
    nearest but is pruned, the large one survives: the search of
    [interpolate] selects triangle 1 at squared distance 400, a plain scan
    of all triangles selects triangle 0 at squared distance 225, and the
    cell field (1, 2) is interpolated as 2. *)
Lemma pruning_misses_nearest_triangle :
  exists f g,
    find_triangle two_surface 2 above found_init = (f, Ok tt) /\
    full_scan two_surface 2 above found_init = (g, Ok tt) /\
    j_found f = 1%nat /\ j_found g = 0%nat /\ d2_min g < d2_min f /\
    forall tv0,
      interpolate two_surface CellField "q" [above] [true] tv0
      = ([Some 2], Ok tt).
Proof.
  destruct two_search as (f & Hf & Hjf & Hdf).
  destruct two_exhaustive as (g & Hg & Hjg & Hdg).
  exists f, g. do 4 (split; [assumption|]). split; [lra|].
  intros tv0. apply (interpolate_one _ _ _ [1; 2] _ f); [reflexivity|exact Hf|].
  simpl. rewrite Hjf. exists 2. split; reflexivity.
Qed.




Lemma interpolate_leaves_unmarked_zero_witness :
  (length [Some 5; Some 0] = length [mkPoint3 0.25 0.25 0; mkPoint3 7 7 7] /\
   forall i, (i < length [mkPoint3 0.25 0.25 0; mkPoint3 7 7 7])%nat ->
             [true; false] !! i = Some false -> [Some 5; Some 0] !! i = Some (Some 0)) /\
  (length [Some 15] = length [mkPoint2 1.5 0] /\
   forall i, (i < length [mkPoint2 1.5 0])%nat ->
             [true] !! i = Some false -> [Some 15] !! i = Some (Some 0)).
Proof.
  split.
  - apply (proj1 interpolate_leaves_unmarked_zero unit_surface CellField "f"
             [mkPoint3 0.25 0.25 0; mkPoint3 7 7 7] [true; false] [] [Some 5; Some 0]
             (Ok tt));
      [apply unit_cell_two|left; reflexivity].
  - apply (proj2 interpolate_leaves_unmarked_zero line_surface "T"
             [mkPoint2 1.5 0] [true] [] [Some 15]).
    apply line_example.
Defined.

(** C6, the claim as stated fails. On the surface whose first triangle
    lists point 0 twice, with cell values (3, 6), point 0 receives
    (3 + 3 + 6) / 3 = 4, and the mean of the values of the two triangles on
    it is 9/2. *)
Lemma cell_to_point_counts_corners :
  exists s' tf,
    convert CellField "q" PointField "qp" folded_surface = (s', Ok tt) /\
    point_fields s' !! "qp" = Some tf /\
    tf !! 0%nat = Some 4 /\
    plain_mean (triangles folded_surface) [3; 6] 0 = 9 / 2.
Proof.
  destruct (cell_to_point_spec folded_surface "q" "qp" [3; 6])
    as (tf & Hrun & _ & Hmean);
    [reflexivity|simpl; lia|exact folded_indices_valid|].
  exists (set_point_fields <["qp" := tf]> folded_surface), tf.
  split; [exact Hrun|]. split; [apply lookup_insert_eq|].
  split.
  - rewrite (Hmean 0%nat) by (simpl; lia). f_equal.
    unfold incidence_mean. simpl. lra.
  - unfold plain_mean. simpl. lra.
Qed.

Lemma convert_means_witness :
  (exists tf,
     convert CellField "q" PointField "qp" folded_surface
     = (set_point_fields <[target_name_updated "q" "qp" := tf]> folded_surface,
        Ok tt) /\
     length tf = length (points folded_surface) /\
     forall p, (p < length (points folded_surface))%nat ->
       tf !! p = Some (incidence_mean (triangles folded_surface) [3; 6] p) /\
       (incidence_count (triangles folded_surface) p
                        (length (triangles folded_surface)) = 0%nat ->
        tf !! p = Some 0) /\
       (distinct_corners (triangles folded_surface) ->
        tf !! p = Some (plain_mean (triangles folded_surface) [3; 6] p))) /\
  (exists tf,
     convert PointField "g" CellField "" unit_surface
     = (set_cell_fields <[target_name_updated "g" "" := tf]> unit_surface,
        Ok tt) /\
     length tf = length (triangles unit_surface) /\
     forall j v, triangles unit_surface !! j = Some v ->
       tf !! j = Some (vertex_mean [1; 2; 3] v)).
Proof.
  split.
  - apply (proj1 convert_means folded_surface "q" "qp" [3; 6]);
      [reflexivity|reflexivity|exact folded_indices_valid].
  - apply (proj2 convert_means unit_surface "g" "" [1; 2; 3]);
      [reflexivity|reflexivity|exact unit_indices_valid].
Defined.

Lemma uniform_field_round_trip_witness :
  exists s1 s2 out,
    convert CellField "f" PointField "fp" unit_surface = (s1, Ok tt) /\
    convert PointField "fp" CellField "fc" s1 = (s2, Ok tt) /\
    cell_fields s2 !! "fc" = Some out /\
    length out = length (triangles unit_surface) /\
    forall i, (i < length (triangles unit_surface))%nat -> out !! i = Some 5.
Proof.
  apply (uniform_field_round_trip unit_surface "f" "fp" "fc" [5] 5);
    [reflexivity|reflexivity|exact unit_indices_valid|].
  intros i Hi. destruct i as [|i]; [reflexivity|simpl in Hi; lia].
Defined.


Lemma interpolate2_needs_two_points_witness :
  (exists out,
     I2.interpolate short_line "T" [mkPoint2 0 0] [true] []
     = (out, Throw UndefinedBehaviour)) /\
  (exists out,
     I2.interpolate line_surface "T" [mkPoint2 1.5 0] [true] [] = (out, Ok tt)) /\
  (exists out,
     I2.interpolate line_loaded "T" [mkPoint2 1.5 0] [true] [] = (out, Ok tt)).
Proof.
  split; [|split].
  - apply (proj1 interpolate2_needs_two_points short_line "T" [7]);
      [reflexivity|simpl; lia|reflexivity|exists 0%nat; reflexivity].
  - apply (proj1 (proj2 interpolate2_needs_two_points)
             line_surface "T" [0; 10; 20]);
      [reflexivity|simpl; lia|reflexivity|reflexivity].
  - eapply (proj2 (proj2 interpolate2_needs_two_points)
              (Some line_file) I2.empty line_loaded "T");
      [vm_compute; reflexivity|vm_compute; reflexivity|vm_compute; lia
      |reflexivity].
Defined.

(** * What a load establishes *)

Lemma length_resize {A} n (a0 : A) v : length (resize n a0 v) = n.
Proof.
  unfold resize. rewrite length_app, length_take, length_replicate. lia.
Qed.

(** When [preprocess] returns, the triangle cache is in step with the
    triangles and every vertex index is valid. *)
Lemma preprocess_well_formed s s' :
  preprocess s = (s', Ok tt) -> cache_in_step s' /\ indices_valid s'.
Proof.
  unfold preprocess. rewrite bind_gets, !bind_modify.
  set (Inv := fun i (x : t) =>
         points x = points s /\ triangles x = triangles s /\
         length (triangle_cache x) = length (triangles s) /\
         forall j v k, (j < i)%nat -> triangles s !! j = Some v ->
                       (k < 3)%nat -> (at3 v k < length (points s))%nat).
  intros Hrun.
  match type of Hrun with
  | for_loop ?m ?body ?s0 = _ =>
      assert (Hloop : hoare (Inv 0%nat) (for_loop m body)
                            (fun _ => Inv m) (fun _ _ => True));
      [|specialize (Hloop s0); rewrite Hrun in Hloop]
  end.
  { apply for_loop_inv. intros i Hi x (Hp & Ht & Hc & Hvalid).
    rewrite bind_get.
    destruct (triangles x !! i) as [v|] eqn:Hv;
      [rewrite (bind_index_ok _ _ _ _ _ Hv)
      |rewrite (bind_index_ub _ _ _ _ Hv); exact Logic.I].
    destruct (points x !! at3 v 0) as [p0|] eqn:H0;
      [rewrite (bind_index_ok _ _ _ _ _ H0)
      |rewrite (bind_index_ub _ _ _ _ H0); exact Logic.I].
    destruct (points x !! at3 v 1) as [p1|] eqn:H1;
      [rewrite (bind_index_ok _ _ _ _ _ H1)
      |rewrite (bind_index_ub _ _ _ _ H1); exact Logic.I].
    destruct (points x !! at3 v 2) as [p2|] eqn:H2;
      [rewrite (bind_index_ok _ _ _ _ _ H2)
      |rewrite (bind_index_ub _ _ _ _ H2); exact Logic.I].
    cbv zeta. rewrite !bind_modify. unfold modify.
    split; [exact Hp|]. split; [exact Ht|].
    split; [simpl; rewrite length_insert; exact Hc|].
    intros j w k Hj Hw Hk. destruct (decide (j = i)) as [->|Hne];
      [|apply (Hvalid j w k); [lia|exact Hw|exact Hk]].
    rewrite Ht in Hv. assert (w = v) as -> by congruence.
    rewrite <- Hp.
    destruct k as [|[|[|k]]]; [| | |lia]; eapply lookup_lt_Some; eassumption. }
  destruct Hloop as (Hp & Ht & Hc & Hvalid).
  { split; [reflexivity|]. split; [reflexivity|].
    split; [simpl; apply length_resize|]. intros j v k Hj. lia. }
  split.
  - unfold cache_in_step. rewrite Hc, Ht. reflexivity.
  - intros j v k Hv Hk. rewrite Ht in Hv. rewrite Hp.
    apply (Hvalid j v k); [|exact Hv|exact Hk].
    apply lookup_lt_Some in Hv. exact Hv.
Qed.

(** When [read_vtk] returns, the surface is well formed. *)
Lemma read_vtk_well_formed content s s' :
  read_vtk content s = (s', Ok tt) -> cache_in_step s' /\ indices_valid s'.
Proof.
  unfold read_vtk. rewrite (bind_ok _ _ _ _ _ (clear_run s)).
  destruct content as [toks|].
  - destruct (while_extract _ _ _) as [[r [[]|e]]|]; [|discriminate..].
    apply preprocess_well_formed.
  - intros [= <-]. split; [reflexivity|]. intros j v k Hv. discriminate.
Qed.

(** * Further properties of the header *)

Lemma clamp01_range t : 0 <= clamp01 t <= 1.
Proof.
  unfold clamp01, std_max, std_min.
  repeat case_bool_decide; lra.
Qed.

Lemma clamp01_cases t :
  (t <= 0 /\ clamp01 t = 0) \/ (1 <= t /\ clamp01 t = 1) \/
  (0 <= t <= 1 /\ clamp01 t = t).
Proof.
  unfold clamp01, std_max, std_min.
  repeat case_bool_decide; lra.
Qed.

(** The quadratic [t^2 A - 2 t B] on [0, 1] is least at the clamped
    [B / A]. *)
Lemma clamped_parameter_least A B t :
  0 < A -> 0 <= t <= 1 ->
  let tc := clamp01 (B / A) in
  tc * tc * A - 2 * tc * B <= t * t * A - 2 * t * B.
Proof.
  intros HA Ht tc.
  assert (HB : B = (B / A) * A) by (field; lra).
  destruct (clamp01_cases (B / A)) as [[H0 Htc]|[[H1 Htc]|[H01 Htc]]];
    subst tc; rewrite Htc.
  - set (t0 := B / A) in *. clearbody t0. subst B.
    assert (0 <= - t0 * A) by (apply Rmult_le_pos; lra).
    assert (0 <= t * (t * A)) by (repeat apply Rmult_le_pos; lra).
    assert (0 <= t * (- t0 * A)) by (apply Rmult_le_pos; lra).
    nra.
  - set (t0 := B / A) in *. clearbody t0. subst B.
    assert (0 <= (t0 - 1) * A) by (apply Rmult_le_pos; lra).
    assert (0 <= (1 - t) * ((t0 - 1) * A)) by (apply Rmult_le_pos; lra).
    assert (0 <= (1 - t) * ((1 - t) * A)) by (repeat apply Rmult_le_pos; lra).
    nra.
  - set (t0 := B / A) in *. clearbody t0. subst B.
    pose proof (Rle_0_sqr (t - t0)) as Hsq. unfold Rsqr in Hsq.
    assert (0 <= (t - t0) * (t - t0) * A) by (apply Rmult_le_pos; lra).
    lra.
Qed.

Lemma norm_square2_pos (a b : Point2) : a <> b -> 0 < norm_square (b - a)%pt.
Proof.
  intros Hne. destruct a as [ax ay], b as [bx by_].
  unfold norm_square. simpl.
  destruct (Req_dec bx ax) as [Hx|Hx]; destruct (Req_dec by_ ay) as [Hy|Hy];
    try (subst; congruence); nra.
Qed.

Lemma norm_square3_pos (a b : Point3) : a <> b -> 0 < norm_square (b - a)%pt.
Proof.
  intros Hne. destruct a as [ax ay az], b as [bx by_ bz].
  unfold norm_square. simpl.
  destruct (Req_dec bx ax) as [Hx|Hx]; destruct (Req_dec by_ ay) as [Hy|Hy];
    destruct (Req_dec bz az) as [Hz|Hz];
    try (subst; congruence); nra.
Qed.

Lemma closest_segment_point_eq {P} `{PointOps P} (p a b : P) :
  norm_square (b - a)%pt <> 0 ->
  closest_segment_point p a b
  = (a + clamp01 ((b - a) <.> (p - a) / norm_square (b - a)) *^ (b - a))%pt.
Proof.
  intros Hd. unfold closest_segment_point. cbv zeta.
  rewrite fdiv_some by exact Hd. reflexivity.
Qed.

(** Squared distance from [p] to the point of parameter [t]. *)
Lemma segment_distance2 (p a b : Point2) t :
  norm_square ((a + t *^ (b - a)) - p)%pt
  = t * t * norm_square (b - a)%pt - 2 * t * ((b - a) <.> (p - a))%pt
    + norm_square (p - a)%pt.
Proof. destruct p, a, b. unfold norm_square. simpl. ring. Qed.

Lemma segment_distance3 (p a b : Point3) t :
  norm_square ((a + t *^ (b - a)) - p)%pt
  = t * t * norm_square (b - a)%pt - 2 * t * ((b - a) <.> (p - a))%pt
    + norm_square (p - a)%pt.
Proof. destruct p, a, b. unfold norm_square. simpl. ring. Qed.

Lemma closest_segment_point2_least (p a b : Point2) t :
  a <> b -> 0 <= t <= 1 ->
  norm_square (closest_segment_point p a b - p)%pt
  <= norm_square ((a + t *^ (b - a)) - p)%pt.
Proof.
  intros Hne Ht. pose proof (norm_square2_pos a b Hne) as Hpos.
  rewrite closest_segment_point_eq, !segment_distance2 by lra.
  pose proof (clamped_parameter_least _ ((b - a) <.> (p - a))%pt t
                Hpos Ht) as Hq.
  cbv zeta in Hq. lra.
Qed.

Lemma closest_segment_point3_least (p a b : Point3) t :
  a <> b -> 0 <= t <= 1 ->
  norm_square (closest_segment_point p a b - p)%pt
  <= norm_square ((a + t *^ (b - a)) - p)%pt.
Proof.
  intros Hne Ht. pose proof (norm_square3_pos a b Hne) as Hpos.
  rewrite closest_segment_point_eq, !segment_distance3 by lra.
  pose proof (clamped_parameter_least _ ((b - a) <.> (p - a))%pt t
                Hpos Ht) as Hq.
  cbv zeta in Hq. lra.
Qed.

Lemma closest_segment_point_on_segment {P} `{PointOps P} (p a b : P) :
  on_segment a b (closest_segment_point p a b).
Proof.
  unfold closest_segment_point. cbv zeta.
  destruct (fdiv _ _) as [t|].
  - exists (clamp01 t). split; [apply clamp01_range|reflexivity].
  - exists 1. split; [lra|reflexivity].
Qed.

Lemma closest_segment_point2_norm_least (p a b q : Point2) :
  a <> b -> on_segment a b q ->
  norm (closest_segment_point p a b - p)%pt <= norm (q - p)%pt.
Proof.
  intros Hne (t & Ht & ->). unfold norm. apply sqrt_le_1_alt.
  apply closest_segment_point2_least; assumption.
Qed.

Lemma closest_segment_point3_norm_least (p a b q : Point3) :
  a <> b -> on_segment a b q ->
  norm (closest_segment_point p a b - p)%pt <= norm (q - p)%pt.
Proof.
  intros Hne (t & Ht & ->). unfold norm. apply sqrt_le_1_alt.
  apply closest_segment_point3_least; assumption.
Qed.

(** X1. [closest_segment_point] on a segment of two different end points
    returns a point of the segment, and no point of the segment is nearer
    to [p]; in two and in three dimensions. *)
Theorem closest_segment_point_nearest :
  (forall p a b : Point2, a <> b ->
     on_segment a b (closest_segment_point p a b) /\
     forall q, on_segment a b q ->
       norm (closest_segment_point p a b - p)%pt <= norm (q - p)%pt) /\
  (forall p a b : Point3, a <> b ->
     on_segment a b (closest_segment_point p a b) /\
     forall q, on_segment a b q ->
       norm (closest_segment_point p a b - p)%pt <= norm (q - p)%pt).
Proof.
  split; intros p a b Hne;
    (split; [apply closest_segment_point_on_segment|]); intros q Hq.
  - apply closest_segment_point2_norm_least; assumption.
  - apply closest_segment_point3_norm_least; assumption.
Qed.

Lemma closest_segment_point_nearest_witness :
  on_segment (mkPoint2 0 0) (mkPoint2 1 0)
    (closest_segment_point (mkPoint2 2 1) (mkPoint2 0 0) (mkPoint2 1 0)).
Proof.
  apply (proj1 closest_segment_point_nearest).
  intros [=]. lra.
Defined.

(** ** The parameter of a point of a segment *)

Lemma barycentric_on_line2 (a b : Point2) t :
  a <> b ->
  barycentric_coordinates (a + t *^ (b - a))%pt a b = (Some (1 - t), Some t).
Proof.
  intros Hne. pose proof (norm_square2_pos a b Hne) as Hpos.
  unfold barycentric_coordinates. cbv zeta. rewrite fdiv_some by lra.
  assert (Ht : ((b - a) <.> ((a + t *^ (b - a)) - a))%pt / norm_square (b - a)%pt = t).
  { replace (((b - a) <.> ((a + t *^ (b - a)) - a))%pt)
      with (t * norm_square (b - a)%pt)
      by (destruct a, b; unfold norm_square; simpl; ring).
    field. lra. }
  rewrite Ht. reflexivity.
Qed.

Lemma barycentric_on_line3 (a b : Point3) t :
  a <> b ->
  barycentric_coordinates (a + t *^ (b - a))%pt a b = (Some (1 - t), Some t).
Proof.
  intros Hne. pose proof (norm_square3_pos a b Hne) as Hpos.
  unfold barycentric_coordinates. cbv zeta. rewrite fdiv_some by lra.
  assert (Ht : ((b - a) <.> ((a + t *^ (b - a)) - a))%pt / norm_square (b - a)%pt = t).
  { replace (((b - a) <.> ((a + t *^ (b - a)) - a))%pt)
      with (t * norm_square (b - a)%pt)
      by (destruct a, b; unfold norm_square; simpl; ring).
    field. lra. }
  rewrite Ht. reflexivity.
Qed.

Lemma norm_square_self2 (a : Point2) : norm_square (a - a)%pt = 0.
Proof. destruct a. unfold norm_square. simpl. ring. Qed.

Lemma norm_square_self3 (a : Point3) : norm_square (a - a)%pt = 0.
Proof. destruct a. unfold norm_square. simpl. ring. Qed.

Lemma barycentric_degenerate2 (p a : Point2) :
  barycentric_coordinates p a a = (None, None).
Proof.
  unfold barycentric_coordinates. cbv zeta.
  rewrite fdiv_none by apply norm_square_self2. reflexivity.
Qed.

Lemma barycentric_degenerate3 (p a : Point3) :
  barycentric_coordinates p a a = (None, None).
Proof.
  unfold barycentric_coordinates. cbv zeta.
  rewrite fdiv_none by apply norm_square_self3. reflexivity.
Qed.

(** X2. On a segment of two different end points,
    [barycentric_coordinates] gives back the parameter of a point of the
    line: the point [a + t (b - a)] has the coordinates [(1 - t, t)]. At the
    point that [closest_segment_point] returns, the two coordinates are
    numbers that lie between 0 and 1 and add up to 1, and the point is
    their blend of the end points. On a segment whose end points coincide
    both coordinates are the quotient of zero by zero, no number. *)
Theorem barycentric_coordinates_of_segment_point :
  (forall (a b : Point2) t, a <> b ->
     barycentric_coordinates (a + t *^ (b - a))%pt a b
     = (Some (1 - t), Some t)) /\
  (forall (a b : Point3) t, a <> b ->
     barycentric_coordinates (a + t *^ (b - a))%pt a b
     = (Some (1 - t), Some t)) /\
  (forall p a b : Point2, a <> b ->
     let q := closest_segment_point p a b in
     exists t0 t1,
       barycentric_coordinates q a b = (Some t0, Some t1) /\
       0 <= t0 <= 1 /\ 0 <= t1 <= 1 /\ t0 + t1 = 1 /\
       q = (t0 *^ a + t1 *^ b)%pt) /\
  (forall p a : Point2, barycentric_coordinates p a a = (None, None)) /\
  (forall p a : Point3, barycentric_coordinates p a a = (None, None)).
Proof.
  split; [exact barycentric_on_line2|]. split; [exact barycentric_on_line3|].
  split; [|split; [exact barycentric_degenerate2|exact barycentric_degenerate3]].
  intros p a b Hne q. subst q.
  pose proof (norm_square2_pos a b Hne) as Hpos.
  rewrite closest_segment_point_eq, (barycentric_on_line2 _ _ _ Hne) by lra.
  pose proof (clamp01_range ((b - a) <.> (p - a) / norm_square (b - a))%pt).
  set (tc := clamp01 _) in *. clearbody tc.
  exists (1 - tc), tc. split; [reflexivity|].
  repeat split; try lra.
  destruct a, b. simpl. f_equal; ring.
Qed.

Lemma barycentric_coordinates_of_segment_point_witness :
  barycentric_coordinates
    (mkPoint2 0 0 + 0.25 *^ (mkPoint2 4 0 - mkPoint2 0 0))%pt
    (mkPoint2 0 0) (mkPoint2 4 0)
  = (Some (1 - 0.25), Some 0.25).
Proof.
  apply (proj1 barycentric_coordinates_of_segment_point).
  intros [=]. lra.
Defined.

(** ** [Triangle]: what [reinit] computes *)

Lemma reinit_points p0 p1 p2 :
  Triangle.m_points (Triangle.reinit p0 p1 p2) = (p0, p1, p2).
Proof. reflexivity. Qed.

Lemma reinit_area p0 p1 p2 :
  Triangle.m_area (Triangle.reinit p0 p1 p2)
  = 0.5 * norm (edge_cross p0 p1 p2).
Proof. reflexivity. Qed.

Lemma reinit_longest p0 p1 p2 :
  Triangle.m_longest_side (Triangle.reinit p0 p1 p2)
  = std_max (std_max (norm (p1 - p0)%pt) (norm (p2 - p0)%pt))
            (norm (p1 - p2)%pt).
Proof. reflexivity. Qed.

Lemma reinit_area_nonneg p0 p1 p2 :
  0 <= Triangle.m_area (Triangle.reinit p0 p1 p2).
Proof.
  rewrite reinit_area. unfold norm.
  pose proof (sqrt_pos (norm_square (edge_cross p0 p1 p2))). lra.
Qed.

Lemma norm_sqr {P} `{PointOps P} (a : P) :
  0 <= norm_square a -> norm a * norm a = norm_square a.
Proof. intros Hpos. unfold norm. apply sqrt_sqrt. exact Hpos. Qed.

Lemma dot_div3 (n x : Point3) r : (n /^ r) <.> x = (n <.> x) / r.
Proof. destruct n, x. simpl. unfold Rdiv. ring. Qed.

(** With a positive area the stored normal is the cross product divided
    by its length. *)
Lemma reinit_normal p0 p1 p2 :
  Triangle.m_area (Triangle.reinit p0 p1 p2) > 0 ->
  Triangle.m_normal (Triangle.reinit p0 p1 p2)
  = edge_cross p0 p1 p2 /^ norm (edge_cross p0 p1 p2).
Proof.
  intros Hpos. rewrite reinit_area in Hpos.
  set (N := edge_cross p0 p1 p2) in *.
  change (Triangle.m_normal (Triangle.reinit p0 p1 p2))
    with (if bool_decide (0.5 * norm N > 0)
          then N /^ (2 * (0.5 * norm N)) else N).
  rewrite bool_decide_eq_true_2 by exact Hpos.
  replace (2 * (0.5 * norm N)) with (norm N) by lra. reflexivity.
Qed.

Lemma reinit_cross_square p0 p1 p2 :
  Triangle.m_area (Triangle.reinit p0 p1 p2) > 0 ->
  0 < norm_square (edge_cross p0 p1 p2).
Proof.
  rewrite reinit_area. intros Hpos.
  pose proof (norm_square3_nonneg (edge_cross p0 p1 p2)) as Hnn.
  destruct Hnn as [Hlt|Heq]; [exact Hlt|].
  unfold norm in Hpos. rewrite <- Heq, sqrt_0 in Hpos. lra.
Qed.

(** A signed area over the area, without the square root. *)
Lemma signed_area_ratio p0 p1 p2 q0 q1 q2 :
  Triangle.m_area (Triangle.reinit p0 p1 p2) > 0 ->
  Triangle.signed_area (Triangle.reinit p0 p1 p2) q0 q1 q2
  / Triangle.m_area (Triangle.reinit p0 p1 p2)
  = (edge_cross p0 p1 p2 <.> edge_cross q0 q1 q2)
    / norm_square (edge_cross p0 p1 p2).
Proof.
  intros Hpos. pose proof (reinit_cross_square _ _ _ Hpos) as Hsq.
  unfold Triangle.signed_area. rewrite (reinit_normal _ _ _ Hpos), reinit_area.
  fold (edge_cross q0 q1 q2). rewrite dot_div3.
  rewrite reinit_area in Hpos.
  rewrite <- (norm_sqr (edge_cross p0 p1 p2)) by lra.
  field. lra.
Qed.

Lemma std_max_cases a b :
  (std_max a b = a /\ b <= a) \/ (std_max a b = b /\ a < b).
Proof. unfold std_max. case_bool_decide; [right|left]; split; lra. Qed.

(** X3. After [reinit] the area is not negative and is half the length of
    the cross product of two edges; when it is positive the normal has
    length one and is orthogonal to the edges; and the longest side is the
    length of one of the three edges and not less than any of them. *)
Theorem reinit_geometry p0 p1 p2 :
  let tr := Triangle.reinit p0 p1 p2 in
  0 <= Triangle.area tr /\
  (Triangle.area tr > 0 ->
     norm (Triangle.normal tr) = 1 /\
     Triangle.normal tr <.> (p1 - p0)%pt = 0 /\
     Triangle.normal tr <.> (p2 - p0)%pt = 0 /\
     Triangle.normal tr <.> (p2 - p1)%pt = 0) /\
  (Triangle.area tr = 0 <-> edge_cross p0 p1 p2 = pt_zero) /\
  norm (p1 - p0)%pt <= Triangle.longest_side tr /\
  norm (p2 - p0)%pt <= Triangle.longest_side tr /\
  norm (p1 - p2)%pt <= Triangle.longest_side tr /\
  (Triangle.longest_side tr = norm (p1 - p0)%pt \/
   Triangle.longest_side tr = norm (p2 - p0)%pt \/
   Triangle.longest_side tr = norm (p1 - p2)%pt).
Proof.
  intros tr. subst tr. unfold Triangle.area, Triangle.normal, Triangle.longest_side.
  split; [apply reinit_area_nonneg|]. split; [|split].
  - intros Hpos. pose proof (reinit_cross_square _ _ _ Hpos) as Hsq.
    rewrite (reinit_normal _ _ _ Hpos).
    rewrite reinit_area in Hpos.
    set (N := edge_cross p0 p1 p2) in *.
    assert (Hr : norm N * norm N = norm_square N) by (apply norm_sqr; lra).
    split; [|split; [|split]].
    + apply norm_eq; [lra|]. unfold norm_square at 1. rewrite dot_div3.
      replace (N <.> (N /^ norm N)) with (norm_square N / norm N)
        by (destruct N; unfold norm_square; simpl; unfold Rdiv; ring).
      rewrite <- Hr. field. lra.
    + rewrite dot_div3.
      replace (N <.> (p1 - p0)%pt) with 0; [unfold Rdiv; ring|].
      subst N. destruct p0, p1, p2. unfold edge_cross, cross_product_3d. simpl. ring.
    + rewrite dot_div3.
      replace (N <.> (p2 - p0)%pt) with 0; [unfold Rdiv; ring|].
      subst N. destruct p0, p1, p2. unfold edge_cross, cross_product_3d. simpl. ring.
    + rewrite dot_div3.
      replace (N <.> (p2 - p1)%pt) with 0; [unfold Rdiv; ring|].
      subst N. destruct p0, p1, p2. unfold edge_cross, cross_product_3d. simpl. ring.
  - rewrite reinit_area. set (N := edge_cross p0 p1 p2). split.
    + intros Hz. assert (Hn : norm N = 0) by lra.
      unfold norm in Hn. apply sqrt_eq_0 in Hn; [|apply norm_square3_nonneg].
      destruct N as [x y z]. unfold norm_square in Hn. simpl in Hn.
      assert (x = 0) by nra. assert (y = 0) by nra. assert (z = 0) by nra.
      subst. reflexivity.
    + intros ->. unfold norm, norm_square. simpl.
      replace (0 * 0 + 0 * 0 + 0 * 0) with 0 by ring. rewrite sqrt_0. ring.
  - rewrite reinit_longest.
    set (e1 := norm (p1 - p0)%pt). set (e2 := norm (p2 - p0)%pt).
    set (e3 := norm (p1 - p2)%pt).
    destruct (std_max_cases e1 e2) as [[-> H12]|[-> H12]];
      [destruct (std_max_cases e1 e3) as [[-> ?]|[-> ?]]
      |destruct (std_max_cases e2 e3) as [[-> ?]|[-> ?]]];
      repeat split; try lra; auto.
Qed.

(** ** [Triangle]: barycentric coordinates and the projection *)

Ltac vec3 :=
  repeat match goal with p : Point3 |- _ => destruct p end;
  unfold combination, edge_cross, cross_product_3d, norm_square;
  simpl; try apply point3_eq; try ring.

Lemma cross_at_combination p0 p1 p2 t0 t1 t2 :
  t0 + t1 + t2 = 1 ->
  let p := combination (p0, p1, p2) (t0, t1, t2) in
  edge_cross p p1 p2 = t0 *^ edge_cross p0 p1 p2 /\
  edge_cross p0 p p2 = t1 *^ edge_cross p0 p1 p2 /\
  edge_cross p0 p1 p = t2 *^ edge_cross p0 p1 p2.
Proof.
  intros Hsum p. subst p.
  assert (Ht0 : t0 = 1 - t1 - t2) by lra. subst t0. clear Hsum.
  repeat split; vec3.
Qed.

Lemma dot_scale3 (n x : Point3) t : n <.> (t *^ x) = t * (n <.> x).
Proof. destruct n, x. simpl. ring. Qed.

Lemma barycentric_of_combination p0 p1 p2 t0 t1 t2 :
  Triangle.m_area (Triangle.reinit p0 p1 p2) > 0 ->
  t0 + t1 + t2 = 1 ->
  Triangle.barycentric_coordinates (Triangle.reinit p0 p1 p2)
    (combination (p0, p1, p2) (t0, t1, t2))
  = (Some t0, Some t1, Some t2).
Proof.
  intros Hpos Hsum.
  pose proof (reinit_cross_square _ _ _ Hpos) as Hsq.
  destruct (cross_at_combination p0 p1 p2 t0 t1 t2 Hsum) as (H0 & H1 & H2).
  rewrite barycentric_some by lra. rewrite reinit_points.
  change (at3 (p0, p1, p2) 0) with p0. change (at3 (p0, p1, p2) 1) with p1.
  change (at3 (p0, p1, p2) 2) with p2.
  rewrite !(signed_area_ratio _ _ _ _ _ _ Hpos), H0, H1, H2, !dot_scale3.
  fold (norm_square (edge_cross p0 p1 p2)).
  f_equal; [f_equal|]; f_equal; field; lra.
Qed.

Lemma cross_sum p0 p1 p2 p :
  (edge_cross p p1 p2 + edge_cross p0 p p2 + edge_cross p0 p1 p)%pt
  = edge_cross p0 p1 p2.
Proof. vec3. Qed.

Lemma dot_add3 (n x y : Point3) : n <.> (x + y)%pt = n <.> x + n <.> y.
Proof. destruct n, x, y. simpl. ring. Qed.

Lemma area_ratios_sum p0 p1 p2 p :
  Triangle.m_area (Triangle.reinit p0 p1 p2) > 0 ->
  let t3 := area_ratios (Triangle.reinit p0 p1 p2) p in
  at3 t3 0 + at3 t3 1 + at3 t3 2 = 1.
Proof.
  intros Hpos t3. subst t3.
  pose proof (reinit_cross_square _ _ _ Hpos) as Hsq.
  unfold area_ratios. cbv zeta. rewrite reinit_points.
  change (at3 (p0, p1, p2) 0) with p0. change (at3 (p0, p1, p2) 1) with p1.
  change (at3 (p0, p1, p2) 2) with p2.
  rewrite !(signed_area_ratio _ _ _ _ _ _ Hpos).
  cbn [at3].
  set (N := edge_cross p0 p1 p2) in *.
  replace (N <.> edge_cross p p1 p2 / norm_square N +
           N <.> edge_cross p0 p p2 / norm_square N +
           N <.> edge_cross p0 p1 p / norm_square N)
    with ((N <.> (edge_cross p p1 p2 + edge_cross p0 p p2
                  + edge_cross p0 p1 p)%pt) / norm_square N)
    by (rewrite !dot_add3; field; lra).
  rewrite cross_sum. fold N. change (N <.> N) with (norm_square N).
  field. lra.
Qed.

Lemma barycentric_ratios tr p :
  Triangle.m_area tr <> 0 ->
  exists t0 t1 t2,
    area_ratios tr p = (t0, t1, t2) /\
    Triangle.barycentric_coordinates tr p = (Some t0, Some t1, Some t2).
Proof.
  intros Hne. do 3 eexists. split; [reflexivity|].
  apply barycentric_some. exact Hne.
Qed.

Lemma barycentric_sum p0 p1 p2 p :
  Triangle.m_area (Triangle.reinit p0 p1 p2) > 0 ->
  exists t0 t1 t2,
    Triangle.barycentric_coordinates (Triangle.reinit p0 p1 p2) p
    = (Some t0, Some t1, Some t2) /\
    t0 + t1 + t2 = 1.
Proof.
  intros Hpos.
  destruct (barycentric_ratios (Triangle.reinit p0 p1 p2) p)
    as (t0 & t1 & t2 & Hr & Hb); [lra|].
  pose proof (area_ratios_sum p0 p1 p2 p Hpos) as Hsum. cbv zeta in Hsum.
  rewrite Hr in Hsum. exists t0, t1, t2. split; [exact Hb|exact Hsum].
Qed.

(** X4. In a triangle of positive area, [barycentric_coordinates] gives
    back the coordinates of a combination of the corners: at the point
    [t0 p0 + t1 p1 + t2 p2] with [t0 + t1 + t2 = 1] it returns
    [(t0, t1, t2)], so the corners have the unit coordinates; and at every
    point of space the three coordinates are numbers that add up to one. *)
Theorem barycentric_coordinates_invert_combination p0 p1 p2 :
  let tr := Triangle.reinit p0 p1 p2 in
  Triangle.area tr > 0 ->
  (forall t0 t1 t2, t0 + t1 + t2 = 1 ->
     Triangle.barycentric_coordinates tr (combination (p0, p1, p2) (t0, t1, t2))
     = (Some t0, Some t1, Some t2)) /\
  Triangle.barycentric_coordinates tr p0 = (Some 1, Some 0, Some 0) /\
  Triangle.barycentric_coordinates tr p1 = (Some 0, Some 1, Some 0) /\
  Triangle.barycentric_coordinates tr p2 = (Some 0, Some 0, Some 1) /\
  (forall p, exists t0 t1 t2,
     Triangle.barycentric_coordinates tr p = (Some t0, Some t1, Some t2) /\
     t0 + t1 + t2 = 1).
Proof.
  intros tr Hpos. subst tr. unfold Triangle.area in Hpos.
  split; [intros; apply barycentric_of_combination; assumption|].
  split; [|split; [|split]].
  - rewrite <- (barycentric_of_combination p0 p1 p2 1 0 0 Hpos) by lra.
    f_equal. vec3.
  - rewrite <- (barycentric_of_combination p0 p1 p2 0 1 0 Hpos) by lra.
    f_equal. vec3.
  - rewrite <- (barycentric_of_combination p0 p1 p2 0 0 1 Hpos) by lra.
    f_equal. vec3.
  - intros p. apply barycentric_sum. exact Hpos.
Qed.

(** ** [Triangle]: the projection on the plane *)

Lemma normal_unit p0 p1 p2 :
  Triangle.m_area (Triangle.reinit p0 p1 p2) > 0 ->
  norm_square (Triangle.m_normal (Triangle.reinit p0 p1 p2)) = 1.
Proof.
  intros Hpos. pose proof (reinit_cross_square _ _ _ Hpos) as Hsq.
  rewrite (reinit_normal _ _ _ Hpos).
  set (N := edge_cross p0 p1 p2) in *.
  assert (Hr : norm N * norm N = norm_square N) by (apply norm_sqr; lra).
  assert (Hn : norm N <> 0) by (intros Hz; rewrite Hz in Hr; lra).
  replace (norm_square (N /^ norm N))
    with (norm_square N / (norm N * norm N))
    by (destruct N; unfold norm_square; simpl; field; exact Hn).
  rewrite Hr. field. lra.
Qed.

Lemma projection_eq tr p :
  Triangle.project_to_triangle_plane tr p
  = (p - (Triangle.m_normal tr <.> (p - at3 (Triangle.m_points tr) 0)%pt)
         *^ Triangle.m_normal tr)%pt.
Proof. reflexivity. Qed.

Lemma projection_in_plane p0 p1 p2 p :
  Triangle.m_area (Triangle.reinit p0 p1 p2) > 0 ->
  in_plane (Triangle.reinit p0 p1 p2)
    (Triangle.project_to_triangle_plane (Triangle.reinit p0 p1 p2) p).
Proof.
  intros Hpos. pose proof (normal_unit _ _ _ Hpos) as Hn.
  unfold in_plane. rewrite projection_eq, reinit_points.
  change (at3 (p0, p1, p2) 0) with p0.
  set (n := Triangle.m_normal _) in *. clearbody n.
  destruct n as [nx ny nz], p as [x y z], p0 as [x0 y0 z0].
  unfold norm_square in Hn. simpl in *.
  set (h := nx * (x - x0) + ny * (y - y0) + nz * (z - z0)).
  replace (nx * (x - h * nx - x0) + ny * (y - h * ny - y0)
           + nz * (z - h * nz - z0))
    with (h * (1 - (nx * nx + ny * ny + nz * nz))) by (unfold h; ring).
  rewrite Hn. ring.
Qed.

(** Pythagoras: for [q] in the plane, the squared distance from [p] to [q]
    is that from [p] to its projection plus that from the projection to
    [q]. *)
Lemma projection_pythagoras p0 p1 p2 p q :
  Triangle.m_area (Triangle.reinit p0 p1 p2) > 0 ->
  in_plane (Triangle.reinit p0 p1 p2) q ->
  let pp := Triangle.project_to_triangle_plane (Triangle.reinit p0 p1 p2) p in
  norm_square (q - p)%pt
  = norm_square (pp - p)%pt + norm_square (q - pp)%pt.
Proof.
  intros Hpos Hq pp. subst pp. pose proof (normal_unit _ _ _ Hpos) as Hn.
  unfold in_plane in Hq. rewrite projection_eq. rewrite reinit_points in *.
  change (at3 (p0, p1, p2) 0) with p0 in *.
  set (n := Triangle.m_normal _) in *. clearbody n.
  destruct n as [nx ny nz], p as [x y z], p0 as [x0 y0 z0], q as [qx qy qz].
  unfold norm_square in *. simpl in *.
  set (h := nx * (x - x0) + ny * (y - y0) + nz * (z - z0)).
  assert (Hq' : nx * qx + ny * qy + nz * qz = nx * x0 + ny * y0 + nz * z0) by lra.
  assert (Hh : nx * x + ny * y + nz * z = h + (nx * x0 + ny * y0 + nz * z0))
    by (unfold h; ring).
  clearbody h.
  transitivity ((qx - x) * (qx - x) + (qy - y) * (qy - y) + (qz - z) * (qz - z)
                + 2 * h * ((nx * qx + ny * qy + nz * qz)
                           - (nx * x + ny * y + nz * z)
                           + h * (nx * nx + ny * ny + nz * nz))).
  - rewrite Hq', Hh, Hn. ring.
  - ring.
Qed.

Lemma combination_in_plane p0 p1 p2 t0 t1 t2 :
  Triangle.m_area (Triangle.reinit p0 p1 p2) > 0 ->
  t0 + t1 + t2 = 1 ->
  in_plane (Triangle.reinit p0 p1 p2) (combination (p0, p1, p2) (t0, t1, t2)).
Proof.
  intros Hpos Hsum. unfold in_plane.
  rewrite (reinit_normal _ _ _ Hpos), reinit_points, dot_div3.
  change (at3 (p0, p1, p2) 0) with p0.
  replace (edge_cross p0 p1 p2 <.> (combination (p0, p1, p2) (t0, t1, t2) - p0)%pt)
    with 0; [unfold Rdiv; ring|].
  assert (Ht0 : t0 = 1 - t1 - t2) by lra. subst t0. vec3.
Qed.

(** A point of the plane is the combination of the corners with its
    barycentric coordinates. *)
Lemma plane_point_is_combination p0 p1 p2 q :
  Triangle.m_area (Triangle.reinit p0 p1 p2) > 0 ->
  in_plane (Triangle.reinit p0 p1 p2) q ->
  q = combination (p0, p1, p2) (area_ratios (Triangle.reinit p0 p1 p2) q).
Proof.
  intros Hpos Hq. pose proof (reinit_cross_square _ _ _ Hpos) as Hsq.
  assert (HN : edge_cross p0 p1 p2 <.> (q - p0)%pt = 0).
  { unfold in_plane in Hq.
    rewrite (reinit_normal _ _ _ Hpos), reinit_points, dot_div3 in Hq.
    change (at3 (p0, p1, p2) 0) with p0 in Hq.
    rewrite reinit_area in Hpos.
    assert (Hr : norm (edge_cross p0 p1 p2) <> 0) by lra.
    apply (Rmult_eq_compat_r (norm (edge_cross p0 p1 p2))) in Hq.
    unfold Rdiv in Hq. rewrite Rmult_assoc, Rinv_l, Rmult_1_r, Rmult_0_l in Hq
      by exact Hr.
    exact Hq. }
  unfold area_ratios. cbv zeta. rewrite reinit_points.
  change (at3 (p0, p1, p2) 0) with p0. change (at3 (p0, p1, p2) 1) with p1.
  change (at3 (p0, p1, p2) 2) with p2.
  rewrite !(signed_area_ratio _ _ _ _ _ _ Hpos).
  set (N := edge_cross p0 p1 p2) in *. set (D := norm_square N) in *.
  assert (HD : D <> 0) by lra.
  (* multiply out: D q = (N . c0) p0 + (N . c1) p1 + (N . c2) p2 *)
  assert (Hx : D * p3_x q
               = (N <.> edge_cross q p1 p2) * p3_x p0
                 + (N <.> edge_cross p0 q p2) * p3_x p1
                 + (N <.> edge_cross p0 p1 q) * p3_x p2
                 + (N <.> (q - p0)%pt) * p3_x N)
    by (unfold D, N; vec3).
  assert (Hy : D * p3_y q
               = (N <.> edge_cross q p1 p2) * p3_y p0
                 + (N <.> edge_cross p0 q p2) * p3_y p1
                 + (N <.> edge_cross p0 p1 q) * p3_y p2
                 + (N <.> (q - p0)%pt) * p3_y N)
    by (unfold D, N; vec3).
  assert (Hz : D * p3_z q
               = (N <.> edge_cross q p1 p2) * p3_z p0
                 + (N <.> edge_cross p0 q p2) * p3_z p1
                 + (N <.> edge_cross p0 p1 q) * p3_z p2
                 + (N <.> (q - p0)%pt) * p3_z N)
    by (unfold D, N; vec3).
  rewrite HN in Hx, Hy, Hz.
  set (c0 := N <.> edge_cross q p1 p2) in *.
  set (c1 := N <.> edge_cross p0 q p2) in *.
  set (c2 := N <.> edge_cross p0 p1 q) in *.
  clearbody c0 c1 c2 D.
  destruct q as [qx qy qz], p0 as [x0 y0 z0], p1 as [x1 y1 z1], p2 as [x2 y2 z2].
  unfold combination. simpl in *.
  apply point3_eq.
  - apply (Rmult_eq_reg_l D); [|exact HD]. rewrite Hx. field. exact HD.
  - apply (Rmult_eq_reg_l D); [|exact HD]. rewrite Hy. field. exact HD.
  - apply (Rmult_eq_reg_l D); [|exact HD]. rewrite Hz. field. exact HD.
Qed.

(** X5. In a triangle of positive area, [project_to_triangle_plane] returns
    a point of the plane of the triangle that is the nearest point of the
    plane; a point of the plane is its own projection; and the barycentric
    coordinates of the projection are numbers, the projection being the
    combination of the corners with them. *)
Theorem projection_is_nearest_in_plane p0 p1 p2 p :
  let tr := Triangle.reinit p0 p1 p2 in
  let pp := Triangle.project_to_triangle_plane tr p in
  Triangle.area tr > 0 ->
  in_plane tr pp /\
  (forall q, in_plane tr q -> norm (pp - p)%pt <= norm (q - p)%pt) /\
  (in_plane tr p -> pp = p) /\
  Triangle.project_to_triangle_plane tr pp = pp /\
  exists t0 t1 t2,
    Triangle.barycentric_coordinates tr pp = (Some t0, Some t1, Some t2) /\
    pp = combination (p0, p1, p2) (t0, t1, t2).
Proof.
  intros tr pp Hpos. unfold Triangle.area in Hpos. subst tr.
  assert (Hfix : forall q, in_plane (Triangle.reinit p0 p1 p2) q ->
            Triangle.project_to_triangle_plane (Triangle.reinit p0 p1 p2) q = q).
  { intros q Hq. rewrite projection_eq. unfold in_plane in Hq. rewrite Hq.
    destruct q, (Triangle.m_normal (Triangle.reinit p0 p1 p2)). simpl.
    apply point3_eq; ring. }
  pose proof (projection_in_plane p0 p1 p2 p Hpos) as Hin. fold pp in Hin.
  split; [exact Hin|]. split; [|split; [|split]].
  - intros q Hq. unfold norm. apply sqrt_le_1_alt.
    rewrite (projection_pythagoras p0 p1 p2 p q Hpos Hq). fold pp.
    pose proof (norm_square3_nonneg (q - pp)%pt). lra.
  - intros Hp. apply Hfix. exact Hp.
  - apply Hfix. exact Hin.
  - destruct (barycentric_ratios (Triangle.reinit p0 p1 p2) pp)
      as (t0 & t1 & t2 & Hr & Hb); [lra|].
    exists t0, t1, t2. split; [exact Hb|]. rewrite <- Hr.
    apply plane_point_is_combination; assumption.
Qed.

(** ** [Triangle]: the closest point *)

Lemma exit_at_range s c : 0 <= s -> 0 <= exit_at s c <= 1.
Proof.
  intros Hs. unfold exit_at. case_bool_decide as Hc; [|lra].
  assert (Hd : 0 < s - c) by lra.
  split.
  - apply Rmult_le_pos; [exact Hs|]. left. apply Rinv_0_lt_compat. exact Hd.
  - apply (Rmult_le_reg_r (s - c)); [exact Hd|].
    unfold Rdiv. rewrite Rmult_assoc, Rinv_l by lra. lra.
Qed.

Lemma exit_at_keeps s c l :
  0 <= s -> 0 <= l <= exit_at s c -> 0 <= (1 - l) * s + l * c.
Proof.
  intros Hs Hl. pose proof (exit_at_range s c Hs) as Hr.
  unfold exit_at in *. case_bool_decide as Hc.
  - assert (Hd : 0 < s - c) by lra.
    set (e := s / (s - c)) in *.
    assert (He : e * (s - c) = s) by (unfold e; field; lra).
    clearbody e.
    assert (0 <= (e - l) * (s - c)) by (apply Rmult_le_pos; lra).
    nra.
  - assert (0 <= (1 - l) * s) by (apply Rmult_le_pos; lra).
    assert (0 <= l * c) by (apply Rmult_le_pos; lra).
    lra.
Qed.

Lemma exit_at_zero s c :
  0 <= s -> c < 0 ->
  exit_at s c < 1 /\ (1 - exit_at s c) * s + exit_at s c * c = 0.
Proof.
  intros Hs Hc. unfold exit_at. rewrite bool_decide_eq_true_2 by exact Hc.
  assert (Hd : 0 < s - c) by lra.
  split; [|field; lra].
  apply (Rmult_lt_reg_r (s - c)); [exact Hd|].
  unfold Rdiv. rewrite Rmult_assoc, Rinv_l by lra. lra.
Qed.

Lemma exit_at_one s c : 0 <= c -> exit_at s c = 1.
Proof. intros Hc. unfold exit_at. rewrite bool_decide_eq_false_2 by lra. reflexivity. Qed.

(** From a point with non-negative coordinates towards a point with some
    negative coordinate, there is a point on the way whose coordinates are
    not negative and one of which is zero. *)
Lemma leaves_through_an_edge s0 s1 s2 c0 c1 c2 :
  0 <= s0 -> 0 <= s1 -> 0 <= s2 ->
  c0 < 0 \/ c1 < 0 \/ c2 < 0 ->
  exists l, 0 <= l <= 1 /\
    0 <= (1 - l) * s0 + l * c0 /\
    0 <= (1 - l) * s1 + l * c1 /\
    0 <= (1 - l) * s2 + l * c2 /\
    ((1 - l) * s0 + l * c0 = 0 \/ (1 - l) * s1 + l * c1 = 0 \/
     (1 - l) * s2 + l * c2 = 0).
Proof.
  intros Hs0 Hs1 Hs2 Hneg.
  pose proof (exit_at_range s0 c0 Hs0) as R0.
  pose proof (exit_at_range s1 c1 Hs1) as R1.
  pose proof (exit_at_range s2 c2 Hs2) as R2.
  set (l := Rmin (Rmin (exit_at s0 c0) (exit_at s1 c1)) (exit_at s2 c2)).
  assert (Hl0 : l <= exit_at s0 c0)
    by (unfold l; eapply Rle_trans; [apply Rmin_l|apply Rmin_l]).
  assert (Hl1 : l <= exit_at s1 c1)
    by (unfold l; eapply Rle_trans; [apply Rmin_l|apply Rmin_r]).
  assert (Hl2 : l <= exit_at s2 c2) by (unfold l; apply Rmin_r).
  assert (Hl : 0 <= l) by (unfold l; repeat apply Rmin_glb; lra).
  assert (Hlt : l < 1).
  { destruct Hneg as [Hc|[Hc|Hc]].
    - pose proof (exit_at_zero s0 c0 Hs0 Hc). lra.
    - pose proof (exit_at_zero s1 c1 Hs1 Hc). lra.
    - pose proof (exit_at_zero s2 c2 Hs2 Hc). lra. }
  exists l. split; [lra|].
  split; [apply exit_at_keeps; [exact Hs0|lra]|].
  split; [apply exit_at_keeps; [exact Hs1|lra]|].
  split; [apply exit_at_keeps; [exact Hs2|lra]|].
  assert (Hcase : l = exit_at s0 c0 \/ l = exit_at s1 c1 \/ l = exit_at s2 c2).
  { unfold l, Rmin. repeat destruct (Rle_dec _ _); auto. }
  destruct Hcase as [He|[He|He]].
  - left. destruct (Rlt_dec c0 0) as [Hc|Hc].
    + rewrite He. apply exit_at_zero; assumption.
    + rewrite exit_at_one in He by lra. lra.
  - right; left. destruct (Rlt_dec c1 0) as [Hc|Hc].
    + rewrite He. apply exit_at_zero; assumption.
    + rewrite exit_at_one in He by lra. lra.
  - right; right. destruct (Rlt_dec c2 0) as [Hc|Hc].
    + rewrite He. apply exit_at_zero; assumption.
    + rewrite exit_at_one in He by lra. lra.
Qed.

Lemma norm_square3_sym (a b : Point3) : norm_square (a - b)%pt = norm_square (b - a)%pt.
Proof. vec3. Qed.

(** The corners of a triangle of positive area are three different
    points. *)
Lemma positive_area_corners p0 p1 p2 :
  Triangle.m_area (Triangle.reinit p0 p1 p2) > 0 ->
  p0 <> p1 /\ p1 <> p2 /\ p2 <> p0.
Proof.
  intros Hpos. pose proof (reinit_cross_square _ _ _ Hpos) as Hsq.
  repeat split; intros ->;
    replace (norm_square (edge_cross _ _ _)) with 0 in Hsq by vec3; lra.
Qed.

Lemma edge_loop_result tr p :
  let pts := Triangle.m_points tr in
  let r := fold_left (Triangle.edge_step tr p) [0; 1; 2]%nat (pt_zero, -1) in
  (exists i, (i < 3)%nat /\ r.1 = edge_point pts p i) /\
  forall i, (i < 3)%nat ->
    norm_square (p - r.1)%pt <= norm_square (p - edge_point pts p i)%pt.
Proof.
  intros pts r. subst r. cbn [fold_left].
  set (e0 := edge_point pts p 0). set (e1 := edge_point pts p 1).
  set (e2 := edge_point pts p 2).
  assert (Hstep : forall st i, Triangle.edge_step tr p st i
            = if bool_decide (norm_square (p - edge_point pts p i)%pt < st.2)
                 || bool_decide (st.2 < 0)
              then (edge_point pts p i, norm_square (p - edge_point pts p i)%pt)
              else st).
  { intros [q d] i. reflexivity. }
  pose proof (norm_square3_nonneg (p - e0)%pt) as H0.
  pose proof (norm_square3_nonneg (p - e1)%pt) as H1.
  pose proof (norm_square3_nonneg (p - e2)%pt) as H2.
  rewrite (Hstep _ 0%nat). fold e0. cbn [snd].
  rewrite (bool_decide_eq_true_2 (-1 < 0)) by lra. rewrite orb_true_r.
  rewrite (Hstep _ 1%nat). fold e1. cbn [snd].
  rewrite (bool_decide_eq_false_2 (norm_square (p - e0)%pt < 0)) by lra.
  rewrite orb_false_r.
  case_bool_decide as H10.
  - rewrite (Hstep _ 2%nat). fold e2. cbn [snd].
    rewrite (bool_decide_eq_false_2 (norm_square (p - e1)%pt < 0)) by lra.
    rewrite orb_false_r.
    case_bool_decide as H21; cbn [fst].
    + split; [exists 2%nat; split; [lia|reflexivity]|].
      intros [|[|[|i]]] Hi; try lia; fold e0 e1 e2; lra.
    + split; [exists 1%nat; split; [lia|reflexivity]|].
      intros [|[|[|i]]] Hi; try lia; fold e0 e1 e2; lra.
  - rewrite (Hstep _ 2%nat). fold e2. cbn [snd].
    rewrite (bool_decide_eq_false_2 (norm_square (p - e0)%pt < 0)) by lra.
    rewrite orb_false_r.
    case_bool_decide as H20; cbn [fst].
    + split; [exists 2%nat; split; [lia|reflexivity]|].
      intros [|[|[|i]]] Hi; try lia; fold e0 e1 e2; lra.
    + split; [exists 0%nat; split; [lia|reflexivity]|].
      intros [|[|[|i]]] Hi; try lia; fold e0 e1 e2; lra.
Qed.

(** A point of an edge is a point of the triangle. *)
Lemma edge_in_triangle p0 p1 p2 i q :
  (i < 3)%nat ->
  on_segment (at3 (p0, p1, p2) i) (at3 (p0, p1, p2) ((i + 1) mod 3)) q ->
  in_triangle (p0, p1, p2) q.
Proof.
  intros Hi (t & Ht & ->).
  destruct i as [|[|[|i]]]; [| | |lia]. 
  - exists (1 - t), t, 0. repeat split; try lra. cbn. vec3.
  - exists 0, (1 - t), t. repeat split; try lra. cbn. vec3.
  - exists t, 0, (1 - t). repeat split; try lra. cbn. vec3.
Qed.

(** A point of the triangle with a zero coordinate is on an edge. *)
Lemma zero_coordinate_on_edge p0 p1 p2 r0 r1 r2 :
  0 <= r0 -> 0 <= r1 -> 0 <= r2 -> r0 + r1 + r2 = 1 ->
  r0 = 0 \/ r1 = 0 \/ r2 = 0 ->
  exists i, (i < 3)%nat /\
    on_segment (at3 (p0, p1, p2) i) (at3 (p0, p1, p2) ((i + 1) mod 3))
      (combination (p0, p1, p2) (r0, r1, r2)).
Proof.
  intros H0 H1 H2 Hsum [Hz|[Hz|Hz]].
  - exists 1%nat. split; [lia|]. exists r2. split; [lra|].
    assert (r1 = 1 - r2) by lra. subst. cbn. vec3.
  - exists 2%nat. split; [lia|]. exists r0. split; [lra|].
    assert (r2 = 1 - r0) by lra. subst. cbn. vec3.
  - exists 0%nat. split; [lia|]. exists r1. split; [lra|].
    assert (r0 = 1 - r1) by lra. subst. cbn. vec3.
Qed.

Lemma closest_triangle_point_cases tr p a b c :
  let pp := Triangle.project_to_triangle_plane tr p in
  Triangle.barycentric_coordinates tr pp = (Some a, Some b, Some c) ->
  (0 <= a <= 1 /\ 0 <= b <= 1 /\ 0 <= c <= 1 /\
   Triangle.closest_triangle_point tr p = pp) \/
  (~ (0 <= a <= 1 /\ 0 <= b <= 1 /\ 0 <= c <= 1) /\
   Triangle.closest_triangle_point tr p
   = (fold_left (Triangle.edge_step tr p) [0; 1; 2]%nat (pt_zero, -1)).1).
Proof.
  intros pp Hb. unfold Triangle.closest_triangle_point. fold pp. rewrite Hb.
  cbn [array3_list fold_left at3 andb in_unit_interval].
  repeat case_bool_decide; cbn [andb]; first [left; repeat split; (lra || reflexivity) | right; split; [lra|reflexivity]].
Qed.

(** A triangle of area zero has no inside: the edge loop runs. *)
Lemma closest_triangle_point_degenerate tr p :
  Triangle.m_area tr = 0 ->
  Triangle.closest_triangle_point tr p
  = (fold_left (Triangle.edge_step tr p) [0; 1; 2]%nat (pt_zero, -1)).1.
Proof.
  intros Hz. unfold Triangle.closest_triangle_point.
  rewrite barycentric_none by exact Hz. reflexivity.
Qed.

Lemma combination_mix p0 p1 p2 s0 s1 s2 c0 c1 c2 l :
  ((1 - l) *^ combination (p0, p1, p2) (s0, s1, s2)
   + l *^ combination (p0, p1, p2) (c0, c1, c2))%pt
  = combination (p0, p1, p2)
      ((1 - l) * s0 + l * c0, (1 - l) * s1 + l * c1, (1 - l) * s2 + l * c2).
Proof. vec3. Qed.

Lemma mix_distance (q pp : Point3) l :
  0 <= l <= 1 ->
  norm_square (((1 - l) *^ q + l *^ pp) - pp)%pt <= norm_square (q - pp)%pt.
Proof.
  intros Hl.
  replace (norm_square (((1 - l) *^ q + l *^ pp) - pp)%pt)
    with ((1 - l) * (1 - l) * norm_square (q - pp)%pt) by vec3.
  pose proof (norm_square3_nonneg (q - pp)%pt) as Hn.
  assert (0 <= (1 - l) * (1 - l) <= 1) by nra.
  nra.
Qed.

Lemma closest_triangle_point_in_triangle p0 p1 p2 p :
  Triangle.m_area (Triangle.reinit p0 p1 p2) > 0 ->
  in_triangle (p0, p1, p2)
    (Triangle.closest_triangle_point (Triangle.reinit p0 p1 p2) p).
Proof.
  intros Hpos. set (tr := Triangle.reinit p0 p1 p2).
  destruct (positive_area_corners _ _ _ Hpos) as (H01 & H12 & H20).
  destruct (barycentric_ratios tr (Triangle.project_to_triangle_plane tr p))
    as (a & b & c & Hr & Hbary); [unfold tr; lra|].
  destruct (closest_triangle_point_cases tr p a b c Hbary)
    as [(Ha & Hb & Hc & ->)|[_ ->]].
  - pose proof (projection_in_plane p0 p1 p2 p Hpos) as Hin.
    pose proof (plane_point_is_combination p0 p1 p2 _ Hpos Hin) as Hcomb.
    pose proof (area_ratios_sum p0 p1 p2
                  (Triangle.project_to_triangle_plane tr p) Hpos) as Hsum.
    cbv zeta in Hsum. fold tr in Hcomb, Hsum. rewrite Hr in Hcomb, Hsum.
    cbn [at3] in *.
    exists a, b, c. repeat split; try lra. exact Hcomb.
  - destruct (edge_loop_result tr p) as [(i & Hi & ->) _].
    apply (edge_in_triangle p0 p1 p2 i); [exact Hi|].
    unfold edge_point. change (Triangle.m_points tr) with (p0, p1, p2).
    apply closest_segment_point_on_segment.
Qed.

Lemma closest_triangle_point_least p0 p1 p2 p q :
  Triangle.m_area (Triangle.reinit p0 p1 p2) > 0 ->
  in_triangle (p0, p1, p2) q ->
  norm_square (Triangle.closest_triangle_point (Triangle.reinit p0 p1 p2) p - p)%pt
  <= norm_square (q - p)%pt.
Proof.
  intros Hpos (s0 & s1 & s2 & Hs0 & Hs1 & Hs2 & Hsum & ->).
  set (tr := Triangle.reinit p0 p1 p2).
  set (q := combination (p0, p1, p2) (s0, s1, s2)).
  set (pp := Triangle.project_to_triangle_plane tr p).
  destruct (positive_area_corners _ _ _ Hpos) as (H01 & H12 & H20).
  pose proof (combination_in_plane p0 p1 p2 s0 s1 s2 Hpos Hsum) as Hq.
  fold q tr in Hq.
  pose proof (projection_pythagoras p0 p1 p2 p q Hpos Hq) as Hpyth.
  cbv zeta in Hpyth. fold tr pp in Hpyth.
  pose proof (projection_in_plane p0 p1 p2 p Hpos) as Hin. fold tr pp in Hin.
  pose proof (plane_point_is_combination p0 p1 p2 _ Hpos Hin) as Hcomb.
  pose proof (area_ratios_sum p0 p1 p2 pp Hpos) as Hcsum.
  cbv zeta in Hcsum. fold tr in Hcomb, Hcsum.
  destruct (barycentric_ratios tr pp) as (c0 & c1 & c2 & Hrat & Hbary);
    [unfold tr; lra|].
  rewrite Hrat in Hcomb, Hcsum.
  destruct (closest_triangle_point_cases tr p c0 c1 c2 Hbary)
    as [(Ha & Hb & Hc & Hres)|[Hout Hres]]; fold pp in Hres; rewrite Hres.
  - pose proof (norm_square3_nonneg (q - pp)%pt). lra.
  - cbn [at3] in *.
    assert (Hneg : c0 < 0 \/ c1 < 0 \/ c2 < 0).
    { destruct (Rlt_dec c0 0); [auto|]. destruct (Rlt_dec c1 0); [auto|].
      destruct (Rlt_dec c2 0); [auto|]. exfalso. apply Hout. lra. }
    destruct (leaves_through_an_edge s0 s1 s2 c0 c1 c2 Hs0 Hs1 Hs2 Hneg)
      as (l & Hl & Hr0 & Hr1 & Hr2 & Hzero).
    set (r0 := (1 - l) * s0 + l * c0) in *.
    set (r1 := (1 - l) * s1 + l * c1) in *.
    set (r2 := (1 - l) * s2 + l * c2) in *.
    assert (Hrsum : r0 + r1 + r2 = 1) by (unfold r0, r1, r2; nra).
    set (r := combination (p0, p1, p2) (r0, r1, r2)).
    assert (Hr : r = ((1 - l) *^ q + l *^ pp)%pt).
    { unfold r, q. rewrite Hcomb, combination_mix. reflexivity. }
    (* the point [r] of an edge is not farther from [p] than [q] *)
    assert (Hrq : norm_square (r - p)%pt <= norm_square (q - p)%pt).
    { pose proof (combination_in_plane p0 p1 p2 r0 r1 r2 Hpos Hrsum) as Hrin.
      fold r tr in Hrin.
      pose proof (projection_pythagoras p0 p1 p2 p r Hpos Hrin) as Hpr.
      cbv zeta in Hpr. fold tr pp in Hpr.
      pose proof (mix_distance q pp l Hl) as Hmix. rewrite <- Hr in Hmix.
      lra. }
    destruct (zero_coordinate_on_edge p0 p1 p2 r0 r1 r2 Hr0 Hr1 Hr2 Hrsum Hzero)
      as (i & Hi & t & Ht & Hon).
    fold r in Hon.
    destruct (edge_loop_result tr p) as [_ Hmin].
    specialize (Hmin i Hi). unfold edge_point in Hmin.
    change (Triangle.m_points tr) with (p0, p1, p2) in Hmin.
    assert (Hne : at3 (p0, p1, p2) i <> at3 (p0, p1, p2) ((i + 1) mod 3)).
    { destruct i as [|[|[|i]]]; [| | |lia]; cbn; auto. }
    pose proof (closest_segment_point3_least p _ _ t Hne Ht) as Hedge.
    rewrite <- Hon in Hedge.
    rewrite !(norm_square3_sym p) in Hmin.
    lra.
Qed.

(** X6. In a triangle of positive area, [closest_triangle_point] returns a
    point of the triangle, and no point of the triangle is nearer to
    [p]. *)
Theorem closest_triangle_point_nearest p0 p1 p2 p :
  let tr := Triangle.reinit p0 p1 p2 in
  Triangle.area tr > 0 ->
  in_triangle (p0, p1, p2) (Triangle.closest_triangle_point tr p) /\
  forall q, in_triangle (p0, p1, p2) q ->
    norm (Triangle.closest_triangle_point tr p - p)%pt <= norm (q - p)%pt.
Proof.
  intros tr Hpos. subst tr. unfold Triangle.area in Hpos.
  split; [apply closest_triangle_point_in_triangle; exact Hpos|].
  intros q Hq. unfold norm. apply sqrt_le_1_alt.
  apply closest_triangle_point_least; assumption.
Qed.

(** ** [preprocess] *)

Lemma lookup_resized {A} name n (a0 : A) (m : gmap string (list A)) :
  alter (resize n a0) name (map_subscript name m) !! name
  = Some (resize n a0 (default [] (m !! name))).
Proof.
  rewrite lookup_alter_eq. unfold map_subscript.
  destruct (m !! name) as [f|] eqn:Hf.
  - rewrite Hf. reflexivity.
  - rewrite lookup_insert_eq. reflexivity.
Qed.

Lemma lookup_map_subscript_ne {A} name name' (m : gmap string (list A)) :
  name <> name' -> map_subscript name m !! name' = m !! name'.
Proof.
  intros Hne. unfold map_subscript. destruct (m !! name); [reflexivity|].
  apply lookup_insert_ne. exact Hne.
Qed.

Lemma lookup_map_subscript_eq {A} name (m : gmap string (list A)) :
  map_subscript name m !! name = Some (default [] (m !! name)).
Proof.
  unfold map_subscript. destruct (m !! name) as [f|] eqn:Hf.
  - rewrite Hf. reflexivity.
  - rewrite lookup_insert_eq. reflexivity.
Qed.

Lemma preprocess_start_inv s :
  preprocessed_upto s (length (triangles s)) 0 (preprocess_start s).
Proof.
  set (n := length (triangles s)).
  unfold preprocessed_upto, preprocess_start. fold n. cbn.
  split; [reflexivity|]. split; [reflexivity|]. split; [reflexivity|].
  split; [apply length_resize|]. split; [|split].
  - intros name Ha Hl.
    rewrite !lookup_alter_ne, !lookup_map_subscript_ne by congruence.
    reflexivity.
  - intros name Hc Hn.
    rewrite !lookup_alter_ne, !lookup_map_subscript_ne by congruence.
    reflexivity.
  - eexists _, _, _, _.
    split; [rewrite lookup_alter_ne, lookup_alter_eq,
              lookup_map_subscript_ne, lookup_map_subscript_eq by discriminate;
            reflexivity|].
    split; [apply length_resize|].
    split; [rewrite lookup_alter_eq, lookup_alter_ne,
              lookup_map_subscript_eq by discriminate; reflexivity|].
    split; [apply length_resize|].
    split; [rewrite lookup_alter_ne, lookup_alter_eq,
              lookup_map_subscript_ne, lookup_map_subscript_eq by discriminate;
            reflexivity|].
    split; [apply length_resize|].
    split; [rewrite lookup_alter_eq, lookup_alter_ne,
              lookup_map_subscript_eq by discriminate; reflexivity|].
    split; [apply length_resize|].
    intros j Hj. lia.
Qed.

Lemma preprocess_unfold s :
  preprocess s
  = for_loop (length (triangles s)) preprocess_round (preprocess_start s).
Proof. reflexivity. Qed.

Lemma preprocess_round_run s n i x v tr :
  (i < n)%nat ->
  preprocessed_upto s n i x ->
  triangles s !! i = Some v ->
  triangle_of (points s) v = Some tr ->
  exists x', preprocess_round i x = (x', Ok tt) /\
             preprocessed_upto s n (S i) x'.
Proof.
  intros Hi (Hp & Ht & Hpf & Hc & Hcf & Hvf & fa & fl & fc & fn &
             Hfa & Hla & Hfl & Hll & Hfc & Hlc & Hfn & Hln & Hdone) Hv Htr.
  unfold triangle_of in Htr.
  destruct (points s !! at3 v 0) as [p0|] eqn:H0; [|discriminate].
  destruct (points s !! at3 v 1) as [p1|] eqn:H1; [|discriminate].
  destruct (points s !! at3 v 2) as [p2|] eqn:H2; [|discriminate].
  injection Htr as <-.
  unfold preprocess_round. rewrite bind_get.
  rewrite Ht, (bind_index_ok _ _ _ _ _ Hv).
  rewrite Hp, (bind_index_ok _ _ _ _ _ H0), (bind_index_ok _ _ _ _ _ H1),
    (bind_index_ok _ _ _ _ _ H2).
  cbv zeta. rewrite !bind_modify. unfold modify.
  eexists. split; [reflexivity|].
  set (tr := Triangle.reinit p0 p1 p2).
  unfold preprocessed_upto. cbn.
  split; [exact Hp|]. split; [exact Ht|]. split; [exact Hpf|].
  split; [rewrite length_insert; exact Hc|]. split; [|split].
  - intros name Ha Hl. rewrite !lookup_alter_ne by congruence. auto.
  - intros name Hce Hn. rewrite !lookup_alter_ne by congruence. auto.
  - exists (<[i := Triangle.area tr]> fa), (<[i := Triangle.longest_side tr]> fl),
      (<[i := Triangle.center tr]> fc), (<[i := Triangle.normal tr]> fn).
    split; [rewrite lookup_alter_ne, lookup_alter_eq, Hfa by discriminate;
            reflexivity|].
    split; [rewrite length_insert; exact Hla|].
    split; [rewrite lookup_alter_eq, lookup_alter_ne, Hfl by discriminate;
            reflexivity|].
    split; [rewrite length_insert; exact Hll|].
    split; [rewrite lookup_alter_ne, lookup_alter_eq, Hfc by discriminate;
            reflexivity|].
    split; [rewrite length_insert; exact Hlc|].
    split; [rewrite lookup_alter_eq, lookup_alter_ne, Hfn by discriminate;
            reflexivity|].
    split; [rewrite length_insert; exact Hln|].
    intros j Hj. destruct (decide (j = i)) as [->|Hne].
    + exists v, tr. split; [exact Hv|].
      split; [unfold triangle_of; rewrite H0, H1, H2; reflexivity|].
      rewrite !list_lookup_insert_eq by lia. auto.
    + destruct (Hdone j ltac:(lia)) as (w & tw & Hw & Htw & Hcw & Haw & Hlw & Hcew & Hnw).
      exists w, tw. rewrite !list_lookup_insert_ne by congruence. auto 10.
Qed.

Lemma triangle_of_valid pts v :
  (forall k, (k < 3)%nat -> (at3 v k < length pts)%nat) ->
  exists tr, triangle_of pts v = Some tr.
Proof.
  intros Hv. unfold triangle_of.
  destruct (lookup_lt_is_Some_2 pts (at3 v 0) (Hv 0%nat ltac:(lia))) as [p0 ->].
  destruct (lookup_lt_is_Some_2 pts (at3 v 1) (Hv 1%nat ltac:(lia))) as [p1 ->].
  destruct (lookup_lt_is_Some_2 pts (at3 v 2) (Hv 2%nat ltac:(lia))) as [p2 ->].
  eauto.
Qed.

Lemma preprocess_returns s :
  indices_valid s ->
  exists s', preprocess s = (s', Ok tt) /\
    preprocessed_upto s (length (triangles s)) (length (triangles s)) s'.
Proof.
  intros Hvalid. rewrite preprocess_unfold.
  set (n := length (triangles s)).
  destruct (hoare_returns (preprocessed_upto s n 0)
              (for_loop n preprocess_round) (preprocessed_upto s n n)
              (preprocess_start s)) as (s' & [] & Hrun & Hs').
  - apply for_loop_inv. intros i Hi x Hx.
    destruct (lookup_lt_is_Some_2 (triangles s) i Hi) as [v Hv].
    destruct (triangle_of_valid (points s) v) as [tr Htr].
    { intros k Hk. exact (Hvalid i v k Hv Hk). }
    destruct (preprocess_round_run s n i x v tr Hi Hx Hv Htr) as (x' & -> & Hx').
    exact Hx'.
  - apply preprocess_start_inv.
  - eauto.
Qed.

Lemma preprocess_frame s s' r :
  preprocess s = (s', r) ->
  points s' = points s /\ triangles s' = triangles s.
Proof.
  assert (Hsteady : steady (fun x => points x = points s /\
                                     triangles x = triangles s)
                      (fun _ x => points x = points s /\
                                  triangles x = triangles s) preprocess).
  { unfold preprocess.
    repeat lazymatch goal with
      | |- steady _ _ (bind _ _) => apply steady_bind; [|intros ?]
      | |- steady _ _ (gets _) => apply steady_gets
      | |- steady _ _ get => apply steady_get
      | |- steady _ _ (modify _) => apply steady_modify; intros ? Hkeep; exact Hkeep
      | |- steady _ _ (index _ _) => apply steady_index; intros ? Hkeep; exact Hkeep
      | |- steady _ _ (for_loop _ _) => apply steady_for_loop; intros ? ?
      end. }
  intros Hrun. specialize (Hsteady s (conj eq_refl eq_refl)).
  rewrite Hrun in Hsteady. destruct r; exact Hsteady.
Qed.

Lemma fields_are_maps {A} (f : Triangle.t -> A) (cache : list Triangle.t)
    (l : list A) :
  length l = length cache ->
  (forall j, (j < length cache)%nat ->
     exists tr, cache !! j = Some tr /\ l !! j = Some (f tr)) ->
  l = map f cache.
Proof.
  intros Hlen Hall. apply list_eq. intros j.
  change (map f cache) with (f <$> cache). rewrite list_lookup_fmap.
  destruct (decide (j < length cache)%nat) as [Hj|Hj].
  - destruct (Hall j Hj) as (tr & -> & ->). reflexivity.
  - rewrite !lookup_ge_None_2 by lia. reflexivity.
Qed.

(** X7. [preprocess] reads [points[v[k]]] for every corner of every
    triangle without a range check: it returns when every vertex index is
    below the number of points, and otherwise it reads past the end of
    [points] and throws no exception. *)
Theorem preprocess_returns_iff_indices_valid s :
  (indices_valid s -> exists s', preprocess s = (s', Ok tt)) /\
  (~ indices_valid s ->
     exists s', preprocess s = (s', Throw UndefinedBehaviour)).
Proof.
  split.
  - intros Hvalid. destruct (preprocess_returns s Hvalid) as (s' & Hrun & _).
    eauto.
  - intros Hbad. destruct (preprocess s) as [s' [[]|e]] eqn:Hrun.
    + exfalso. apply Hbad.
      destruct (preprocess_well_formed s s' Hrun) as [_ Hvalid].
      destruct (preprocess_frame s s' _ Hrun) as [Hp Ht].
      intros j v k Hv Hk. rewrite <- Hp. apply (Hvalid j v k); [|exact Hk].
      rewrite Ht. exact Hv.
    + rewrite (preprocess_throws_ub s s' e Hrun). eauto.
Qed.

(** What the surface holds when the loop of [preprocess] has run over all
    triangles. *)
Lemma preprocessed_surface raw s' :
  preprocessed_upto raw (length (triangles raw)) (length (triangles raw)) s' ->
  points s' = points raw /\ triangles s' = triangles raw /\
  point_fields s' = point_fields raw /\
  cache_of_points s' /\
  field s' CellField "area" = Ok (map Triangle.area (triangle_cache s')) /\
  field s' CellField "longest_side"
  = Ok (map Triangle.longest_side (triangle_cache s')) /\
  vector_field s' CellField "center"
  = Ok (map Triangle.center (triangle_cache s')) /\
  vector_field s' CellField "normal"
  = Ok (map Triangle.normal (triangle_cache s')) /\
  (forall name, name <> "area" -> name <> "longest_side" ->
     field s' CellField name = field raw CellField name).
Proof.
  intros (Hp & Ht & Hpf & Hc & Hcf & Hvf & fa & fl & fc & fn &
          Hfa & Hla & Hfl & Hll & Hfc & Hlc & Hfn & Hln & Hdone).
  split; [exact Hp|]. split; [exact Ht|]. split; [exact Hpf|].
  assert (Hall : forall j, (j < length (triangle_cache s'))%nat ->
            exists tr, triangle_cache s' !! j = Some tr /\
              fa !! j = Some (Triangle.area tr) /\
              fl !! j = Some (Triangle.longest_side tr) /\
              fc !! j = Some (Triangle.center tr) /\
              fn !! j = Some (Triangle.normal tr)).
  { intros j Hj. rewrite Hc in Hj.
    destruct (Hdone j Hj) as (v & tr & _ & _ & Htr & Hrest). eauto. }
  split; [|split; [|split; [|split; [|split]]]].
  - split; [rewrite Hc, Ht; reflexivity|].
    intros j v Hv. rewrite Ht in Hv.
    destruct (Hdone j (lookup_lt_Some _ _ _ Hv))
      as (w & tr & Hw & Htr & Hcache & _).
    assert (w = v) as -> by congruence.
    exists tr. rewrite Hp. auto.
  - unfold field. rewrite decide_True by reflexivity. rewrite Hfa. f_equal.
    apply fields_are_maps; [lia|].
    intros j Hj. destruct (Hall j Hj) as (tr & ? & ? & _). eauto.
  - unfold field. rewrite decide_True by reflexivity. rewrite Hfl. f_equal.
    apply fields_are_maps; [lia|].
    intros j Hj. destruct (Hall j Hj) as (tr & ? & _ & ? & _). eauto.
  - unfold vector_field. rewrite Hfc. f_equal.
    apply fields_are_maps; [lia|].
    intros j Hj. destruct (Hall j Hj) as (tr & ? & _ & _ & ? & _). eauto.
  - unfold vector_field. rewrite Hfn. f_equal.
    apply fields_are_maps; [lia|].
    intros j Hj. destruct (Hall j Hj) as (tr & ? & _ & _ & _ & ?). eauto.
  - intros name Ha Hl. unfold field. rewrite !decide_True by reflexivity.
    rewrite (Hcf name Ha Hl). reflexivity.
Qed.

(** X8. On a surface with valid vertex indices [preprocess] keeps the
    points, the triangles and the point fields, fills the cache with the
    triangle of the three points of every index triple, and stores the
    areas and longest sides of the cached triangles as the cell fields
    "area" and "longest_side" and their centers and normals as the cell
    vector fields "center" and "normal", whatever was stored under these
    names before; the other cell fields are kept. [vector_field] on a point
    field is not implemented. *)
Theorem preprocess_fills_cache_and_fields s :
  indices_valid s ->
  exists s',
    preprocess s = (s', Ok tt) /\
    points s' = points s /\ triangles s' = triangles s /\
    point_fields s' = point_fields s /\
    cache_of_points s' /\
    field s' CellField "area" = Ok (map Triangle.area (triangle_cache s')) /\
    field s' CellField "longest_side"
    = Ok (map Triangle.longest_side (triangle_cache s')) /\
    vector_field s' CellField "center"
    = Ok (map Triangle.center (triangle_cache s')) /\
    vector_field s' CellField "normal"
    = Ok (map Triangle.normal (triangle_cache s')) /\
    (forall name, name <> "area" -> name <> "longest_side" ->
       field s' CellField name = field s CellField name) /\
    (forall name, vector_field s' PointField name = Throw ExcNotImplemented).
Proof.
  intros Hvalid.
  destruct (preprocess_returns s Hvalid) as (s' & Hrun & Hs').
  destruct (preprocessed_surface s s' Hs')
    as (Hp & Ht & Hpf & Hcache & Ha & Hl & Hc & Hn & Hother).
  exists s'. repeat (split; [assumption|]).
  intros name. reflexivity.
Qed.

(** ** What the two [interpolate] functions store at a marked point *)

Lemma interpolate2_entry s name (targets : list Point2) markers tv0 out i p :
  I2.interpolate s name targets markers tv0 = (out, Ok tt) ->
  targets !! i = Some p -> markers !! i = Some true ->
  exists src f x,
    I2.field s name = Ok src /\
    best_of (segment_offer (I2.points s) p) (length (I2.points s) - 1) f /\
    blended_value s src f x /\
    out !! i = Some x.
Proof.
  intros Hrun Hp Hm.
  destruct (I2.field s name) as [src|e] eqn:Hsrc;
    [|rewrite (interpolate2_unfold_throw _ _ _ _ _ _ Hsrc) in Hrun;
      discriminate].
  rewrite (interpolate2_unfold_ok _ _ _ _ _ _ Hsrc), interpolate2_at_round
    in Hrun.
  destruct (marked_loop_post _ _ (blended_value s src) targets markers
              (blend_frame s src) (blend_ok s src) out Hrun) as [_ Hpost].
  destruct (Hpost i (lookup_lt_Some _ _ _ Hp))
    as [[Hm' _] | (_ & p' & f & x & Hp' & Hf & Hx & Hout)]; [congruence|].
  assert (p' = p) as -> by congruence.
  exists src, f, x. split; [reflexivity|].
  split; [|split; assumption].
  destruct (scan_segments_spec s p) as (f' & Hf' & [[-> Hnone]|Hbest]);
    [|congruence].
  exfalso. assert (f = found_init) as -> by congruence.
  destruct Hx as (a & b & _ & _ & Ha & Hb & _). simpl in Ha, Hb.
  apply (segment_offer_first (I2.points s) p).
  - apply lookup_lt_Some in Hb. lia.
  - apply Hnone. apply lookup_lt_Some in Hb. lia.
Qed.

Lemma blend_between t x0 x1 :
  0 <= t <= 1 ->
  Rmin x0 x1 <= (1 - t) * x0 + t * x1 <= Rmax x0 x1.
Proof.
  intros Ht. unfold Rmin, Rmax. destruct (Rle_dec x0 x1); nra.
Qed.

Lemma interpolate2_weights s name (targets : list Point2) markers tv0 out i p :
  polyline_proper (I2.points s) ->
  I2.interpolate s name targets markers tv0 = (out, Ok tt) ->
  targets !! i = Some p -> markers !! i = Some true ->
  exists src j a b x0 x1 t,
    I2.field s name = Ok src /\
    I2.points s !! j = Some a /\ I2.points s !! (j + 1)%nat = Some b /\
    src !! j = Some x0 /\ src !! (j + 1)%nat = Some x1 /\
    0 <= t <= 1 /\
    out !! i = Some (Some ((1 - t) * x0 + t * x1)) /\
    forall q, on_polyline (I2.points s) q ->
      norm ((a + t *^ (b - a)) - p)%pt <= norm (q - p)%pt.
Proof.
  intros Hproper Hrun Hp Hm.
  destruct (interpolate2_entry s name targets markers tv0 out i p Hrun Hp Hm)
    as (src & f & x & Hsrc & (Hlt & Hat & Hleast) & Hx & Hout).
  destruct Hx as (a & b & x0 & x1 & Ha & Hb & H0 & H1 & Hx).
  unfold segment_offer in Hat. rewrite Ha, Hb in Hat. cbv zeta in Hat.
  assert (Hpf : closest_segment_point p a b = p_found f) by congruence.
  assert (Hd : norm (closest_segment_point p a b - p)%pt = d2_min f)
    by congruence.
  clear Hat.
  pose proof (Hproper _ _ _ Ha Hb) as Hne.
  pose proof (norm_square2_pos a b Hne) as Hpos.
  set (t := clamp01 ((b - a) <.> (p - a) / norm_square (b - a))%pt).
  assert (Hq : p_found f = (a + t *^ (b - a))%pt)
    by (rewrite <- Hpf; apply closest_segment_point_eq; lra).
  rewrite Hq, (barycentric_on_line2 _ _ _ Hne) in Hx.
  change (blend2 (Some (1 - t), Some t) x0 x1)
    with (Some ((1 - t) * x0 + t * x1)) in Hx.
  pose proof (clamp01_range ((b - a) <.> (p - a) / norm_square (b - a))%pt) as Ht.
  fold t in Ht.
  exists src, (j_found f), a, b, x0, x1, t.
  split; [exact Hsrc|]. split; [exact Ha|]. split; [exact Hb|].
  split; [exact H0|]. split; [exact H1|]. split; [exact Ht|].
  split; [rewrite Hout, Hx; reflexivity|].
  intros q (j' & a' & b' & Ha' & Hb' & Hon).
  rewrite <- Hq, <- Hpf, Hd.
  destruct (Hleast j' (closest_segment_point p a' b')
              (norm (closest_segment_point p a' b' - p)%pt)) as [Hle _].
  { apply lookup_lt_Some in Hb'. lia. }
  { unfold segment_offer. rewrite Ha', Hb'. reflexivity. }
  eapply Rle_trans; [exact Hle|].
  apply closest_segment_point2_norm_least; [|exact Hon].
  exact (Hproper _ _ _ Ha' Hb').
Qed.

(** X9. On a polyline whose consecutive points differ, the value that the
    2D [interpolate] stores for a marked target point is the blend
    [(1 - t) f[j] + t f[j+1]] with [0 <= t <= 1] of the field values at the
    ends of a segment [j], taken at the point of that segment of parameter
    [t]; no point of the polyline is nearer to the target point than this
    one; so the value lies between the two end values. *)
Theorem interpolate2_blend_at_nearest_point :
  forall s name (targets : list Point2) markers tv0 out,
    polyline_proper (I2.points s) ->
    I2.interpolate s name targets markers tv0 = (out, Ok tt) ->
    forall i p, targets !! i = Some p -> markers !! i = Some true ->
    exists src j a b x0 x1 t,
      I2.field s name = Ok src /\
      I2.points s !! j = Some a /\ I2.points s !! (j + 1)%nat = Some b /\
      src !! j = Some x0 /\ src !! (j + 1)%nat = Some x1 /\
      0 <= t <= 1 /\
      out !! i = Some (Some ((1 - t) * x0 + t * x1)) /\
      Rmin x0 x1 <= (1 - t) * x0 + t * x1 <= Rmax x0 x1 /\
      forall q, on_polyline (I2.points s) q ->
        norm ((a + t *^ (b - a)) - p)%pt <= norm (q - p)%pt.
Proof.
  intros s name targets markers tv0 out Hproper Hrun i p Hp Hm.
  destruct (interpolate2_weights s name targets markers tv0 out i p
              Hproper Hrun Hp Hm)
    as (src & j & a & b & x0 & x1 & t & Hsrc & Ha & Hb & H0 & H1 & Ht &
        Hout & Hnear).
  exists src, j, a, b, x0, x1, t.
  repeat (split; [assumption|]).
  split; [apply blend_between; exact Ht|exact Hnear].
Qed.

Lemma interpolate3_entry s ft name (targets : list Point3) markers tv0 out i p :
  cache_in_step s ->
  interpolate s ft name targets markers tv0 = (out, Ok tt) ->
  targets !! i = Some p -> markers !! i = Some true ->
  exists src f tr x,
    field s ft name = Ok src /\
    selected s (length (triangles s)) p f /\
    triangle_cache s !! j_found f = Some tr /\
    p_found f = Triangle.closest_triangle_point tr p /\
    reconstructed_value s ft src f x /\
    out !! i = Some x.
Proof.
  intros Hstep Hrun Hp Hm.
  destruct (field s ft name) as [src|e] eqn:Hsrc;
    [|rewrite (interpolate_unfold_throw _ _ _ _ _ _ _ Hsrc) in Hrun;
      discriminate].
  rewrite (interpolate_unfold_ok _ _ _ _ _ _ _ Hsrc), interpolate_at_round in Hrun.
  destruct (marked_loop_post _ _ (reconstructed_value s ft src) targets markers
              (reconstruct_frame s ft src) (reconstruct_ok s ft src) out Hrun)
    as [_ Hpost].
  destruct (Hpost i (lookup_lt_Some _ _ _ Hp))
    as [[Hm' _] | (_ & p' & f & x & Hp' & Hf & Hx & Hout)]; [congruence|].
  assert (p' = p) as -> by congruence.
  destruct (find_triangle_spec s (length (triangles s)) p) as
    [[_ Hthrow]|(_ & f' & Hf' & Hsel)];
    [unfold cache_in_step in Hstep; lia|congruence|].
  assert (f' = f) as -> by congruence.
  destruct (selected_in_range _ _ _ _ Hsel) as (_ & tr & Htr & Hpf & _).
  exists src, f, tr, x. auto 10.
Qed.

Lemma convex_between t0 t1 t2 x0 x1 x2 :
  0 <= t0 -> 0 <= t1 -> 0 <= t2 -> t0 + t1 + t2 = 1 ->
  Rmin x0 (Rmin x1 x2) <= t0 * x0 + t1 * x1 + t2 * x2
  <= Rmax x0 (Rmax x1 x2).
Proof.
  intros H0 H1 H2 Hsum.
  set (lo := Rmin x0 (Rmin x1 x2)). set (hi := Rmax x0 (Rmax x1 x2)).
  assert (Hlo : lo <= x0 /\ lo <= x1 /\ lo <= x2).
  { unfold lo. pose proof (Rmin_l x0 (Rmin x1 x2)).
    pose proof (Rmin_r x0 (Rmin x1 x2)). pose proof (Rmin_l x1 x2).
    pose proof (Rmin_r x1 x2). lra. }
  assert (Hhi : x0 <= hi /\ x1 <= hi /\ x2 <= hi).
  { unfold hi. pose proof (Rmax_l x0 (Rmax x1 x2)).
    pose proof (Rmax_r x0 (Rmax x1 x2)). pose proof (Rmax_l x1 x2).
    pose proof (Rmax_r x1 x2). lra. }
  clearbody lo hi. destruct Hlo as (? & ? & ?), Hhi as (? & ? & ?).
  assert (t2 = 1 - t0 - t1) by lra. subst t2.
  split; nra.
Qed.

Lemma interpolate3_weights s name (targets : list Point3) markers tv0 out i p :
  cache_of_points s -> areas_positive s ->
  interpolate s PointField name targets markers tv0 = (out, Ok tt) ->
  targets !! i = Some p -> markers !! i = Some true ->
  exists src j v tr x0 x1 x2 t0 t1 t2,
    field s PointField name = Ok src /\
    triangles s !! j = Some v /\ triangle_cache s !! j = Some tr /\
    src !! at3 v 0 = Some x0 /\ src !! at3 v 1 = Some x1 /\
    src !! at3 v 2 = Some x2 /\
    0 <= t0 /\ 0 <= t1 /\ 0 <= t2 /\ t0 + t1 + t2 = 1 /\
    Triangle.closest_triangle_point tr p
    = combination (Triangle.m_points tr) (t0, t1, t2) /\
    out !! i = Some (Some (t0 * x0 + t1 * x1 + t2 * x2)).
Proof.
  intros [Hstep Hcache] Hareas Hrun Hp Hm.
  destruct (interpolate3_entry s PointField name targets markers tv0 out i p
              Hstep Hrun Hp Hm)
    as (src & f & tr & x & Hsrc & _ & Htr & Hpf & Hx & Hout).
  destruct Hx as (tr' & v & x0 & x1 & x2 & Htr' & Hv & H0 & H1 & H2 & Hx).
  assert (tr' = tr) as -> by congruence.
  destruct (Hcache _ _ Hv) as (tr' & Hof & Htr'').
  assert (tr' = tr) as -> by congruence.
  unfold triangle_of in Hof.
  destruct (points s !! at3 v 0) as [p0|]; [|discriminate].
  destruct (points s !! at3 v 1) as [p1|]; [|discriminate].
  destruct (points s !! at3 v 2) as [p2|]; [|discriminate].
  injection Hof as <-.
  pose proof (Hareas _ _ Htr) as Hpos. unfold Triangle.area in Hpos.
  destruct (closest_triangle_point_in_triangle p0 p1 p2 p Hpos)
    as (t0 & t1 & t2 & Ht0 & Ht1 & Ht2 & Hsum & Hcomb).
  rewrite Hpf, Hcomb, (barycentric_of_combination _ _ _ _ _ _ Hpos Hsum) in Hx.
  change (blend3 (Some t0, Some t1, Some t2) x0 x1 x2)
    with (Some (t0 * x0 + t1 * x1 + t2 * x2)) in Hx.
  exists src, (j_found f), v, (Triangle.reinit p0 p1 p2), x0, x1, x2, t0, t1, t2.
  rewrite reinit_points.
  repeat (split; [assumption|]).
  rewrite Hout, Hx. reflexivity.
Qed.

(** X10. On a surface whose cache holds the triangles of its points, all
    of positive area, the value that the 3D [interpolate] stores for a
    marked target point of a point field is a combination
    [t0 f[v0] + t1 f[v1] + t2 f[v2]] of the three vertex values of a
    triangle [(v0, v1, v2)] with weights that are not negative and add up
    to one; the weights are the coordinates of the closest point of that
    triangle to the target point; so the value lies between the least and
    the greatest of the three vertex values. *)
Theorem interpolate_point_field_is_convex_combination :
  forall s name (targets : list Point3) markers tv0 out,
    cache_of_points s -> areas_positive s ->
    interpolate s PointField name targets markers tv0 = (out, Ok tt) ->
    forall i p, targets !! i = Some p -> markers !! i = Some true ->
    exists src j v tr x0 x1 x2 t0 t1 t2,
      field s PointField name = Ok src /\
      triangles s !! j = Some v /\ triangle_cache s !! j = Some tr /\
      src !! at3 v 0 = Some x0 /\ src !! at3 v 1 = Some x1 /\
      src !! at3 v 2 = Some x2 /\
      0 <= t0 /\ 0 <= t1 /\ 0 <= t2 /\ t0 + t1 + t2 = 1 /\
      Triangle.closest_triangle_point tr p
      = combination (Triangle.m_points tr) (t0, t1, t2) /\
      out !! i = Some (Some (t0 * x0 + t1 * x1 + t2 * x2)) /\
      Rmin x0 (Rmin x1 x2) <= t0 * x0 + t1 * x1 + t2 * x2
      <= Rmax x0 (Rmax x1 x2).
Proof.
  intros s name targets markers tv0 out Hcache Hareas Hrun i p Hp Hm.
  destruct (interpolate3_weights s name targets markers tv0 out i p
              Hcache Hareas Hrun Hp Hm)
    as (src & j & v & tr & x0 & x1 & x2 & t0 & t1 & t2 & Hsrc & Hv & Htr &
        H0 & H1 & H2 & Ht0 & Ht1 & Ht2 & Hsum & Hcomb & Hout).
  exists src, j, v, tr, x0, x1, x2, t0, t1, t2.
  repeat (split; [assumption|]).
  apply convex_between; assumption.
Qed.

(** X11. Both [interpolate] functions reproduce a uniform field: when every
    value of the source field is [c], every marked target point gets [c];
    for the 3D point field on a surface whose cache holds the triangles of
    its points, all of positive area, and for the 2D field on a polyline
    whose consecutive points differ. *)
Theorem interpolate_reproduces_uniform_field :
  (forall s name (targets : list Point3) markers tv0 out src c,
     cache_of_points s -> areas_positive s ->
     field s PointField name = Ok src ->
     (forall k x, src !! k = Some x -> x = c) ->
     interpolate s PointField name targets markers tv0 = (out, Ok tt) ->
     forall i, (i < length targets)%nat -> markers !! i = Some true ->
       out !! i = Some (Some c)) /\
  (forall s name (targets : list Point2) markers tv0 out src c,
     polyline_proper (I2.points s) ->
     I2.field s name = Ok src ->
     (forall k x, src !! k = Some x -> x = c) ->
     I2.interpolate s name targets markers tv0 = (out, Ok tt) ->
     forall i, (i < length targets)%nat -> markers !! i = Some true ->
       out !! i = Some (Some c)).
Proof.
  split.
  - intros s name targets markers tv0 out src c Hcache Hareas Hsrc Hc Hrun i Hi Hm.
    destruct (lookup_lt_is_Some_2 targets i Hi) as [p Hp].
    destruct (interpolate3_weights s name targets markers tv0 out i p
                Hcache Hareas Hrun Hp Hm)
      as (src' & j & v & tr & x0 & x1 & x2 & t0 & t1 & t2 & Hsrc' & _ & _ &
          H0 & H1 & H2 & _ & _ & _ & Hsum & _ & Hout).
    assert (src' = src) as -> by congruence.
    rewrite Hout, (Hc _ _ H0), (Hc _ _ H1), (Hc _ _ H2). do 2 f_equal.
    replace (t0 * c + t1 * c + t2 * c) with ((t0 + t1 + t2) * c) by ring.
    rewrite Hsum. ring.
  - intros s name targets markers tv0 out src c Hproper Hsrc Hc Hrun i Hi Hm.
    destruct (lookup_lt_is_Some_2 targets i Hi) as [p Hp].
    destruct (interpolate2_weights s name targets markers tv0 out i p
                Hproper Hrun Hp Hm)
      as (src' & j & a & b & x0 & x1 & t & Hsrc' & _ & _ & H0 & H1 & _ &
          Hout & _).
    assert (src' = src) as -> by congruence.
    rewrite Hout, (Hc _ _ H0), (Hc _ _ H1). do 2 f_equal. ring.
Qed.

(** ** [convert]: what can go wrong *)

Lemma steady_assign {St A} (I : St -> Prop) (E : exn -> St -> Prop)
    (v : list A) i a :
  (forall s, I s -> E UndefinedBehaviour s) -> steady I E (assign v i a).
Proof.
  intros He s Hs. unfold assign. case_decide; [exact Hs|apply He; exact Hs].
Qed.

Lemma steady_put_any {St} (E : exn -> St -> Prop) (s0 : St) :
  steady (fun _ => True) E (put s0).
Proof. intros s Hs. exact Logic.I. Qed.

Ltac only_undefined_step :=
  lazymatch goal with
  | |- steady _ _ (bind _ _) => apply steady_bind; [|intros ?]
  | |- steady _ _ (gets _) => apply steady_gets
  | |- steady _ _ get => apply steady_get
  | |- steady _ _ (ret _) => apply steady_ret
  | |- steady _ _ (put _) => apply steady_put_any
  | |- steady _ _ (modify _) => apply steady_modify; intros ? ?; exact Logic.I
  | |- steady _ _ (index _ _) => apply steady_index; intros ? ?; reflexivity
  | |- steady _ _ (assign _ _ _) => apply steady_assign; intros ? ?; reflexivity
  | |- steady _ _ (for_loop _ _) => apply steady_for_loop; intros ? ?
  | |- steady _ _ (if ?b then _ else _) => destruct b
  end.

Lemma accumulate_only_undefined id x : only_undefined (accumulate id x).
Proof. unfold only_undefined, accumulate. repeat only_undefined_step. Qed.

Lemma divide_by_count_only_undefined i : only_undefined (divide_by_count i).
Proof. unfold only_undefined, divide_by_count. repeat only_undefined_step. Qed.

Lemma cell_loops_only_undefined (tris : list (array3 nat)) (src : list R) m n :
  only_undefined
    (for_loop m (fun i =>
       let* v := index tris i in
       for_loop 3 (fun k =>
         let* x := index src i in accumulate (at3 v k) x)) >>
     for_loop n divide_by_count).
Proof.
  unfold only_undefined.
  repeat first [apply accumulate_only_undefined
               |apply divide_by_count_only_undefined
               |only_undefined_step].
Qed.

Lemma point_loops_only_undefined (tris : list (array3 nat)) (src : list R) m n :
  only_undefined
    (for_loop m (fun i =>
       let* v := index tris i in
       for_loop 3 (fun k =>
         let* x := index src (at3 v k) in accumulate i x)) >>
     for_loop n divide_by_count).
Proof.
  unfold only_undefined.
  repeat first [apply accumulate_only_undefined
               |apply divide_by_count_only_undefined
               |only_undefined_step].
Qed.

Lemma cell_to_point_throws_ub src_name tgt s s' e :
  cell_to_point src_name tgt s = (s', Throw e) -> e = UndefinedBehaviour.
Proof.
  rewrite cell_to_point_run. cbv zeta.
  match goal with
  | |- context [(?m >> ?k) ?i] =>
      pose proof (cell_loops_only_undefined
                    (triangles s)
                    (deref (set_point_fields
                              <[tgt := replicate (length (points s)) 0]>
                              (set_point_fields (map_subscript tgt)
                                 (set_cell_fields (map_subscript src_name) s)))
                           (CellField, src_name))
                    (length (triangles s)) (length (points s)) i Logic.I) as Hub;
      change (match (m >> k) i with
              | (_, Ok _) => True
              | (_, Throw e) => e = UndefinedBehaviour
              end) in Hub;
      destruct ((m >> k) i) as [l [[]|e']]
  end.
  - discriminate.
  - intros [= _ <-]. exact Hub.
Qed.

Lemma point_to_cell_throws_ub src_name tgt s s' e :
  point_to_cell src_name tgt s = (s', Throw e) -> e = UndefinedBehaviour.
Proof.
  rewrite point_to_cell_run. cbv zeta.
  match goal with
  | |- context [(?m >> ?k) ?i] =>
      pose proof (point_loops_only_undefined
                    (triangles s)
                    (deref (set_cell_fields
                              <[tgt := replicate (length (triangles s)) 0]>
                              (set_cell_fields (map_subscript tgt)
                                 (set_point_fields (map_subscript src_name) s)))
                           (PointField, src_name))
                    (length (triangles s)) (length (triangles s)) i Logic.I) as Hub;
      change (match (m >> k) i with
              | (_, Ok _) => True
              | (_, Throw e) => e = UndefinedBehaviour
              end) in Hub;
      destruct ((m >> k) i) as [l [[]|e']]
  end.
  - discriminate.
  - intros [= _ <-]. exact Hub.
Qed.

(** X12. [convert] between two equal field types throws the "Unsupported
    combination" error and leaves the surface as it was. Between two
    different field types it throws no exception at all, whether the source
    field exists or not: when it does not return, it has read past the end
    of an array. *)
Theorem convert_failures :
  (forall ft src_name tgt s,
     convert ft src_name ft tgt s
     = (s, Throw (runtime_error
                    "Unsupported combination of source and target field types."))) /\
  (forall sft tft src_name tgt s s' e,
     sft <> tft ->
     convert sft src_name tft tgt s = (s', Throw e) ->
     e = UndefinedBehaviour).
Proof.
  split.
  - intros [] src_name tgt s; reflexivity.
  - intros [] [] src_name tgt s s' e Hne; try congruence.
    + rewrite convert_cell_to_point. apply cell_to_point_throws_ub.
    + rewrite convert_point_to_cell. apply point_to_cell_throws_ub.
Qed.

(** ** [convert]: the indices it reads *)

Lemma for_loop_ok_inv {St} (I : nat -> St -> Prop) (body : nat -> M St unit)
    n s s' :
  I 0%nat s ->
  (forall i x x', (i < n)%nat -> I i x -> body i x = (x', Ok tt) -> I (S i) x') ->
  for_loop n body s = (s', Ok tt) -> I n s'.
Proof.
  intros Hs Hstep Hrun.
  pose proof (for_loop_inv I (fun _ _ => True) body n) as Hloop.
  specialize (Hloop ltac:(intros i Hi x Hx;
    destruct (body i x) as [x' [[]|e]] eqn:Hb; [eapply Hstep; eauto|exact Logic.I])
    s Hs).
  rewrite Hrun in Hloop. exact Hloop.
Qed.

Lemma accumulate_ok n id x st st' :
  locals_sized n st ->
  accumulate id x st = (st', Ok tt) ->
  (id < n)%nat /\ locals_sized n st'.
Proof.
  intros [Hl1 Hl2]. unfold accumulate. rewrite bind_get.
  destruct (st.1 !! id) as [old|] eqn:Hold;
    [|rewrite (bind_index_ub _ _ _ _ Hold); discriminate].
  pose proof (lookup_lt_Some _ _ _ Hold) as Hid.
  rewrite (bind_index_ok _ _ _ _ _ Hold), bind_assign_ok by exact Hid.
  destruct (st.2 !! id) as [c|] eqn:Hc;
    [|rewrite (bind_index_ub _ _ _ _ Hc); discriminate].
  rewrite (bind_index_ok _ _ _ _ _ Hc), bind_assign_ok by lia.
  intros [= <-]. split; [lia|].
  split; simpl; rewrite length_insert; assumption.
Qed.

Lemma read_and_accumulate_ok n (src : list R) i id st st' :
  locals_sized n st ->
  (let* x := index src i in accumulate id x) st = (st', Ok tt) ->
  (i < length src)%nat /\ (id < n)%nat /\ locals_sized n st'.
Proof.
  intros Hst.
  destruct (src !! i) as [x|] eqn:Hx;
    [|rewrite (bind_index_ub _ _ _ _ Hx); discriminate].
  rewrite (bind_index_ok _ _ _ _ _ Hx). intros Hrun.
  destruct (accumulate_ok n id x st st' Hst Hrun) as [Hid Hst'].
  split; [eapply lookup_lt_Some; exact Hx|]. split; assumption.
Qed.

Lemma for_loop_3_ok {St} (body : nat -> M St unit) s s' :
  for_loop 3 body s = (s', Ok tt) ->
  exists s1 s2, body 0%nat s = (s1, Ok tt) /\ body 1%nat s1 = (s2, Ok tt) /\
                body 2%nat s2 = (s', Ok tt).
Proof.
  unfold for_loop. simpl for_from. unfold bind, ret.
  destruct (body 0%nat s) as [s1 [[]|e]] eqn:H0; [|discriminate].
  destruct (body 1%nat s1) as [s2 [[]|e]] eqn:H1; [|discriminate].
  destruct (body 2%nat s2) as [s3 [[]|e]] eqn:H2; [|discriminate].
  intros [= <-]. exists s1, s2. auto.
Qed.

(** When the triangle loop of [cell_to_point] returns, it has read
    [source_field[i]] for every triangle and [target_field[v[k]]] for every
    corner inside their arrays. *)
Lemma cell_loop_ok (tris : list (array3 nat)) (src : list R) n st st' :
  locals_sized n st ->
  for_loop (length tris) (fun i =>
    let* v := index tris i in
    for_loop 3 (fun k =>
      let* x := index src i in accumulate (at3 v k) x)) st = (st', Ok tt) ->
  (forall j v k, tris !! j = Some v -> (k < 3)%nat ->
     (j < length src)%nat /\ (at3 v k < n)%nat).
Proof.
  intros Hst Hrun.
  set (Inv := fun i x => locals_sized n x /\
       forall j v k, (j < i)%nat -> tris !! j = Some v -> (k < 3)%nat ->
         (j < length src)%nat /\ (at3 v k < n)%nat).
  assert (Hinv : Inv (length tris) st');
    [eapply (for_loop_ok_inv Inv); [| |exact Hrun]|destruct Hinv as [_ Hall]].
  - split; [exact Hst|]. intros j v k Hj. lia.
  - intros i x x' Hi [Hx Hdone] Hbody.
    destruct (lookup_lt_is_Some_2 tris i Hi) as [v Hv].
    rewrite (bind_index_ok _ _ _ _ _ Hv) in Hbody.
    destruct (for_loop_3_ok _ _ _ Hbody) as (x1 & x2 & H0 & H1 & H2).
    destruct (read_and_accumulate_ok n src i _ x x1 Hx H0) as (Hi0 & Hv0 & Hx1).
    destruct (read_and_accumulate_ok n src i _ x1 x2 Hx1 H1) as (_ & Hv1 & Hx2).
    destruct (read_and_accumulate_ok n src i _ x2 x' Hx2 H2) as (_ & Hv2 & Hx').
    split; [exact Hx'|].
    intros j w k Hj Hw Hk. destruct (decide (j = i)) as [->|Hne];
      [|apply (Hdone j w k); [lia|exact Hw|exact Hk]].
    assert (w = v) as -> by congruence.
    split; [exact Hi0|]. destruct k as [|[|[|k]]]; [assumption..|lia].
  - intros j v k Hv Hk. apply (Hall j v k); [|exact Hv|exact Hk].
    eapply lookup_lt_Some. exact Hv.
Qed.

Lemma point_loop_ok (tris : list (array3 nat)) (src : list R) n st st' :
  locals_sized n st ->
  for_loop (length tris) (fun i =>
    let* v := index tris i in
    for_loop 3 (fun k =>
      let* x := index src (at3 v k) in accumulate i x)) st = (st', Ok tt) ->
  (forall j v k, tris !! j = Some v -> (k < 3)%nat ->
     (at3 v k < length src)%nat).
Proof.
  intros Hst Hrun.
  set (Inv := fun i x => locals_sized n x /\
       forall j v k, (j < i)%nat -> tris !! j = Some v -> (k < 3)%nat ->
         (at3 v k < length src)%nat).
  assert (Hinv : Inv (length tris) st');
    [eapply (for_loop_ok_inv Inv); [| |exact Hrun]|destruct Hinv as [_ Hall]].
  - split; [exact Hst|]. intros j v k Hj. lia.
  - intros i x x' Hi [Hx Hdone] Hbody.
    destruct (lookup_lt_is_Some_2 tris i Hi) as [v Hv].
    rewrite (bind_index_ok _ _ _ _ _ Hv) in Hbody.
    destruct (for_loop_3_ok _ _ _ Hbody) as (x1 & x2 & H0 & H1 & H2).
    destruct (read_and_accumulate_ok n src _ i x x1 Hx H0) as (Hv0 & _ & Hx1).
    destruct (read_and_accumulate_ok n src _ i x1 x2 Hx1 H1) as (Hv1 & _ & Hx2).
    destruct (read_and_accumulate_ok n src _ i x2 x' Hx2 H2) as (Hv2 & _ & Hx').
    split; [exact Hx'|].
    intros j w k Hj Hw Hk. destruct (decide (j = i)) as [->|Hne];
      [|apply (Hdone j w k); [lia|exact Hw|exact Hk]].
    assert (w = v) as -> by congruence.
    destruct k as [|[|[|k]]]; [assumption..|lia].
  - intros j v k Hv Hk. apply (Hall j v k); [|exact Hv|exact Hk].
    eapply lookup_lt_Some. exact Hv.
Qed.

Lemma map_subscript_idem {A} name (m : gmap string (list A)) :
  map_subscript name (map_subscript name m) = map_subscript name m.
Proof. eapply map_subscript_present. apply lookup_map_subscript_eq. Qed.

Lemma bind_ok_inv {St A B} (m : M St A) (k : A -> M St B) s s' b :
  bind m k s = (s', Ok b) ->
  exists s1 a, m s = (s1, Ok a) /\ k a s1 = (s', Ok b).
Proof.
  unfold bind. destruct (m s) as [s1 [a|e]]; [eauto|discriminate].
Qed.

Lemma locals_sized_init n : locals_sized n (replicate n 0, replicate n 0%nat).
Proof. split; apply length_replicate. Qed.

Lemma cell_to_point_ok src_name tgt s s' :
  cell_to_point src_name tgt s = (s', Ok tt) ->
  let src := default [] (cell_fields s !! src_name) in
  (length (triangles s) <= length src)%nat /\ indices_valid s.
Proof.
  rewrite cell_to_point_run. cbv zeta.
  match goal with
  | |- context [(?m >> ?k) ?i] =>
      destruct ((m >> k) i) as [l [[]|e']] eqn:Hloops; [|discriminate]
  end.
  intros _. apply bind_ok_inv in Hloops as (st1 & [] & Hloop & _).
  pose proof (cell_loop_ok _ _ _ _ _ (locals_sized_init _) Hloop) as Hok.
  assert (Hsrc : deref (set_point_fields
                          <[tgt := replicate (length (points s)) 0]>
                          (set_point_fields (map_subscript tgt)
                             (set_cell_fields (map_subscript src_name) s)))
                       (CellField, src_name)
                 = default [] (cell_fields s !! src_name)).
  { unfold deref. simpl. rewrite lookup_map_subscript_eq. reflexivity. }
  rewrite Hsrc in Hok. split.
  - destruct (triangles s) as [|v0 tl] eqn:Htris; [simpl; lia|].
    rewrite <- Htris in *.
    assert (Hlast : is_Some (triangles s !! (length (triangles s) - 1)%nat)).
    { apply lookup_lt_is_Some_2. rewrite Htris. simpl. lia. }
    destruct Hlast as [v Hv].
    destruct (Hok _ v 0%nat Hv ltac:(lia)) as [Hlt _]. lia.
  - intros j v k Hv Hk. apply (Hok j v k Hv Hk).
Qed.

Lemma point_to_cell_ok src_name tgt s s' :
  point_to_cell src_name tgt s = (s', Ok tt) ->
  let src := default [] (point_fields s !! src_name) in
  forall j v k, triangles s !! j = Some v -> (k < 3)%nat ->
    (at3 v k < length src)%nat.
Proof.
  rewrite point_to_cell_run. cbv zeta.
  match goal with
  | |- context [(?m >> ?k) ?i] =>
      destruct ((m >> k) i) as [l [[]|e']] eqn:Hloops; [|discriminate]
  end.
  intros _. apply bind_ok_inv in Hloops as (st1 & [] & Hloop & _).
  pose proof (point_loop_ok _ _ _ _ _ (locals_sized_init _) Hloop) as Hok.
  assert (Hsrc : deref (set_cell_fields
                          <[tgt := replicate (length (triangles s)) 0]>
                          (set_cell_fields (map_subscript tgt)
                             (set_point_fields (map_subscript src_name) s)))
                       (PointField, src_name)
                 = default [] (point_fields s !! src_name)).
  { unfold deref. simpl. rewrite lookup_map_subscript_eq. reflexivity. }
  rewrite Hsrc in Hok. exact Hok.
Qed.

(** X13. The indices that [convert] reads are not checked. From a cell
    field to a point field it returns exactly when the source field has at
    least one value per triangle and every vertex index is below the number
    of points; from a point field to a cell field it returns exactly when
    every vertex index is below the length of the source field. A source
    field that does not exist counts as empty, so that the call returns
    exactly when the surface has no triangle. *)
Theorem convert_returns_iff_indices_in_range :
  (forall s src_name tgt,
     let src := default [] (cell_fields s !! src_name) in
     (exists s', convert CellField src_name PointField tgt s = (s', Ok tt))
     <-> ((length (triangles s) <= length src)%nat /\ indices_valid s)) /\
  (forall s src_name tgt,
     let src := default [] (point_fields s !! src_name) in
     (exists s', convert PointField src_name CellField tgt s = (s', Ok tt))
     <-> (forall j v k, triangles s !! j = Some v -> (k < 3)%nat ->
            (at3 v k < length src)%nat)) /\
  (forall s sft tft src_name tgt,
     sft <> tft ->
     (if decide (sft = CellField) then cell_fields s else point_fields s)
       !! src_name = None ->
     (exists s', convert sft src_name tft tgt s = (s', Ok tt))
     <-> triangles s = []).
Proof.
  assert (Hcell : forall s src_name tgt,
     (exists s', convert CellField src_name PointField tgt s = (s', Ok tt))
     <-> ((length (triangles s)
           <= length (default [] (cell_fields s !! src_name)))%nat /\
          indices_valid s)).
  { intros s src_name tgt. rewrite convert_cell_to_point. split.
    - intros [s' Hrun]. exact (cell_to_point_ok _ _ _ _ Hrun).
    - intros [Hlen Hvalid].
      set (s1 := set_cell_fields (map_subscript src_name) s).
      assert (Hrun : cell_to_point src_name (target_name_updated src_name tgt) s
                     = cell_to_point src_name (target_name_updated src_name tgt) s1).
      { rewrite !cell_to_point_run. cbv zeta.
        replace (set_cell_fields (map_subscript src_name) s1) with s1;
          [reflexivity|].
        unfold s1, set_cell_fields. simpl. f_equal. symmetry.
        apply map_subscript_idem. }
      rewrite Hrun.
      destruct (cell_to_point_spec s1 src_name (target_name_updated src_name tgt)
                  (default [] (cell_fields s !! src_name)))
        as (tf & Htf & _); [apply lookup_map_subscript_eq|exact Hlen|exact Hvalid|].
      eauto. }
  assert (Hpoint : forall s src_name tgt,
     (exists s', convert PointField src_name CellField tgt s = (s', Ok tt))
     <-> (forall j v k, triangles s !! j = Some v -> (k < 3)%nat ->
            (at3 v k < length (default [] (point_fields s !! src_name)))%nat)).
  { intros s src_name tgt. rewrite convert_point_to_cell. split.
    - intros [s' Hrun]. exact (point_to_cell_ok _ _ _ _ Hrun).
    - intros Hvalid.
      set (s1 := set_point_fields (map_subscript src_name) s).
      assert (Hrun : point_to_cell src_name (target_name_updated src_name tgt) s
                     = point_to_cell src_name (target_name_updated src_name tgt) s1).
      { rewrite !point_to_cell_run. cbv zeta.
        replace (set_point_fields (map_subscript src_name) s1) with s1;
          [reflexivity|].
        unfold s1, set_point_fields. simpl. f_equal. symmetry.
        apply map_subscript_idem. }
      rewrite Hrun.
      destruct (point_to_cell_spec s1 src_name (target_name_updated src_name tgt)
                  (default [] (point_fields s !! src_name)))
        as (tf & Htf & _); [apply lookup_map_subscript_eq|exact Hvalid|].
      eauto. }
  split; [exact Hcell|]. split; [exact Hpoint|].
  intros s [] [] src_name tgt Hne Hmiss; try congruence.
  - rewrite decide_True in Hmiss by reflexivity.
    rewrite Hcell, Hmiss. simpl. split.
    + intros [Hlen _]. destruct (triangles s); [reflexivity|simpl in Hlen; lia].
    + intros Hnil. rewrite Hnil. split; [simpl; lia|].
      intros j v k Hv. rewrite Hnil in Hv. discriminate.
  - rewrite decide_False in Hmiss by discriminate.
    rewrite Hpoint, Hmiss. simpl. split.
    + intros Hall. destruct (triangles s) as [|v tl]; [reflexivity|].
      specialize (Hall 0%nat v 0%nat eq_refl ltac:(lia)). lia.
    + intros Hnil j v k Hv. rewrite Hnil in Hv. discriminate.
Qed.

(** ** The markers and the target points *)

Lemma for_from_reaches_throw {St} (body : nat -> M St unit) lo n i :
  (lo <= i < lo + n)%nat ->
  (forall s, exists s' e, body i s = (s', Throw e)) ->
  forall s, exists s' e, for_from lo n body s = (s', Throw e).
Proof.
  revert lo. induction n as [|n IH]; intros lo Hi Hthrow s; [lia|].
  simpl. unfold bind.
  destruct (body lo s) as [s1 [[]|e]] eqn:Hb; [|eauto].
  destruct (decide (i = lo)) as [->|Hne].
  - destruct (Hthrow s) as (s' & e & He). congruence.
  - apply IH; [lia|exact Hthrow].
Qed.

Lemma marked_round_take {P} `{PointOps P} (search : P -> M (found P) unit)
    finish (targets : list P) markers n i tv :
  (i < n)%nat ->
  marked_round search finish targets markers i tv
  = marked_round search finish targets (take n markers) i tv.
Proof.
  intros Hi. unfold marked_round, bind, index.
  rewrite lookup_take_lt by exact Hi. reflexivity.
Qed.

Lemma marked_loop_take {P} `{PointOps P} (search : P -> M (found P) unit)
    finish (targets : list P) markers tv :
  for_loop (length targets) (marked_round search finish targets markers) tv
  = for_loop (length targets)
      (marked_round search finish targets (take (length targets) markers)) tv.
Proof.
  unfold for_loop. apply for_from_ext. intros j tv' Hj.
  apply marked_round_take. lia.
Qed.

Lemma marked_loop_short {P} `{PointOps P} (search : P -> M (found P) unit)
    finish (targets : list P) markers tv :
  (length markers < length targets)%nat ->
  exists out e,
    for_loop (length targets) (marked_round search finish targets markers) tv
    = (out, Throw e).
Proof.
  intros Hshort. unfold for_loop.
  apply (for_from_reaches_throw _ 0 (length targets) (length markers));
    [lia|].
  intros tv'. exists tv', UndefinedBehaviour. unfold marked_round.
  rewrite bind_index_ub; [reflexivity|]. apply lookup_ge_None_2. lia.
Qed.

(** X14. Both [interpolate] functions read [markers[i]] for every target
    point without a range check. Markers beyond the number of target points
    are never read: the call is the same with the markers cut to that
    number. With fewer markers than target points and an existing field
    the call does not return: it ends by an exception at an earlier target
    point or reads past the end of [markers]. *)
Theorem interpolate_reads_a_marker_per_target :
  (forall s ft name (targets : list Point3) markers tv0,
     interpolate s ft name targets markers tv0
     = interpolate s ft name targets (take (length targets) markers) tv0) /\
  (forall s name (targets : list Point2) markers tv0,
     I2.interpolate s name targets markers tv0
     = I2.interpolate s name targets (take (length targets) markers) tv0) /\
  (forall s ft name src (targets : list Point3) markers tv0,
     field s ft name = Ok src ->
     (length markers < length targets)%nat ->
     exists out e, interpolate s ft name targets markers tv0 = (out, Throw e)) /\
  (forall s name src (targets : list Point2) markers tv0,
     I2.field s name = Ok src ->
     (length markers < length targets)%nat ->
     exists out e, I2.interpolate s name targets markers tv0 = (out, Throw e)).
Proof.
  split; [|split; [|split]].
  - intros s ft name targets markers tv0.
    destruct (field s ft name) as [src|e] eqn:Hsrc.
    + rewrite !(interpolate_unfold_ok _ _ _ _ _ _ _ Hsrc), !interpolate_at_round.
      apply marked_loop_take.
    + rewrite !(interpolate_unfold_throw _ _ _ _ _ _ _ Hsrc). reflexivity.
  - intros s name targets markers tv0.
    destruct (I2.field s name) as [src|e] eqn:Hsrc.
    + rewrite !(interpolate2_unfold_ok _ _ _ _ _ _ Hsrc), !interpolate2_at_round.
      apply marked_loop_take.
    + rewrite !(interpolate2_unfold_throw _ _ _ _ _ _ Hsrc). reflexivity.
  - intros s ft name src targets markers tv0 Hsrc Hshort.
    rewrite (interpolate_unfold_ok _ _ _ _ _ _ _ Hsrc), interpolate_at_round.
    apply marked_loop_short. exact Hshort.
  - intros s name src targets markers tv0 Hsrc Hshort.
    rewrite (interpolate2_unfold_ok _ _ _ _ _ _ Hsrc), interpolate2_at_round.
    apply marked_loop_short. exact Hshort.
Qed.

(** ** Target points of the other dimension *)

Lemma hypot_rotation x y c sn :
  c * c + sn * sn = 1 ->
  sqrt ((c * x - sn * y) * (c * x - sn * y) + (sn * x + c * y) * (sn * x + c * y))
  = sqrt (x * x + y * y).
Proof.
  intros Hunit. f_equal.
  replace ((c * x - sn * y) * (c * x - sn * y) + (sn * x + c * y) * (sn * x + c * y))
    with ((c * c + sn * sn) * (x * x + y * y)) by ring.
  rewrite Hunit. ring.
Qed.

(** X15. The 2D [interpolate] for target points in 3D depends on a target
    point through its distance from the z axis and its height only: turning
    the target points about the z axis does not change the call, and a
    target point [(x, 0, z)] with [x >= 0] is treated like the 2D point
    [(x, z)]. The 3D [interpolate] for target points in 2D treats [(r, z)]
    like the 3D point [(r, 0, z)]. *)
Theorem interpolate_other_dimension :
  (forall s name (targets : list Point3) markers tv0 a,
     I2.interpolate_3d s name (map (rotate_z a) targets) markers tv0
     = I2.interpolate_3d s name targets markers tv0) /\
  (forall s name (targets : list Point2) markers tv0,
     (forall q, q ∈ targets -> 0 <= p2_x q) ->
     I2.interpolate_3d s name
       (map (fun q => mkPoint3 (p2_x q) 0 (p2_y q)) targets) markers tv0
     = I2.interpolate s name targets markers tv0) /\
  (forall s ft name (targets : list Point2) markers tv0,
     interpolate_2d s ft name targets markers tv0
     = interpolate s ft name
         (map (fun q => mkPoint3 (p2_x q) 0 (p2_y q)) targets) markers tv0).
Proof.
  split; [|split].
  - intros s name targets markers tv0 a. unfold I2.interpolate_3d.
    f_equal. rewrite map_map. apply map_ext. intros [x y z]. simpl.
    f_equal. apply hypot_rotation.
    pose proof (sin2_cos2 a) as Hsc. unfold Rsqr in Hsc. lra.
  - intros s name targets markers tv0 Hpos. unfold I2.interpolate_3d.
    f_equal. rewrite map_map. rewrite <- (map_id targets) at 2.
    apply map_ext_in. intros [x y] Hin. simpl.
    assert (Hx : 0 <= x) by (apply (Hpos (mkPoint2 x y)); apply list_elem_of_In; exact Hin).
    f_equal. replace (x * x + 0 * 0) with (x * x) by ring.
    apply sqrt_square. exact Hx.
  - intros. reflexivity.
Qed.

(** ** [read_txt]: what a load leaves *)

Lemma read_txt_from_any content s s0 :
  I2.read_txt content s0 = I2.read_txt content s.
Proof.
  unfold I2.read_txt.
  rewrite !(bind_ok _ _ _ I2.empty tt) by reflexivity. reflexivity.
Qed.

Lemma publish_loop_inv pts :
  forall i,
  hoare (fun r => I2.points (I2.obj r) = pts /\
                  ((0 < i)%nat -> I2.fields (I2.obj r) <> ∅))
        (I2.publish_field i)
        (fun _ r => I2.points (I2.obj r) = pts /\
                    ((0 < S i)%nat -> I2.fields (I2.obj r) <> ∅))
        (fun _ _ => True).
Proof.
  intros i r [Hpts _]. unfold I2.publish_field. rewrite bind_get.
  destruct (I2.field_names r !! i) as [name|] eqn:Hname;
    [rewrite (bind_index_ok _ _ _ _ _ Hname)
    |rewrite (bind_index_ub _ _ _ _ Hname); exact Logic.I].
  destruct (I2.field_values r !! i) as [col|] eqn:Hcol;
    [rewrite (bind_index_ok _ _ _ _ _ Hcol)
    |rewrite (bind_index_ub _ _ _ _ Hcol); exact Logic.I].
  unfold put. simpl. split; [exact Hpts|]. intros _. apply insert_non_empty.
Qed.

Lemma read_txt_points_need_a_field content s s' :
  I2.read_txt content s = (s', Ok tt) ->
  I2.fields s' = ∅ -> I2.points s' = [].
Proof.
  unfold I2.read_txt. rewrite (bind_ok _ _ _ I2.empty tt) by reflexivity.
  destruct content as [lines|]; [|intros [= <-]; reflexivity].
  set (r0 := I2.mkReader _ _ _ _ _).
  pose proof (read_lines_fit lines r0) as Hlines.
  unfold bind at 1.
  destruct (I2.read_lines lines r0) as [r1 [[]|e]]; [|discriminate].
  destruct Hlines as (Hlen & Hcols & Hempty & Hfields).
  { unfold r0, columns_fit. simpl. repeat split; try reflexivity.
    intros i col Hcol. discriminate. }
  rewrite bind_gets.
  pose proof (for_loop_inv
    (fun i r => I2.points (I2.obj r) = I2.points (I2.obj r1) /\
                ((0 < i)%nat -> I2.fields (I2.obj r) <> ∅))
    (fun _ _ => True) I2.publish_field (length (I2.field_names r1))
    (fun k _ => publish_loop_inv (I2.points (I2.obj r1)) k) r1) as Hpub.
  destruct (for_loop _ I2.publish_field r1) as [r2 [[]|e]]; [|discriminate].
  intros [= <-] Hnone.
  destruct Hpub as [Hpts Hsome]; [split; [reflexivity|lia]|].
  rewrite Hpts. apply Hempty.
  destruct (I2.field_names r1) as [|name names]; [reflexivity|].
  exfalso. apply Hsome; [simpl; lia|exact Hnone].
Qed.

(** X16. Whatever the interpolator held before, when [read_txt] returns it
    holds what the file gives: the result does not depend on the previous
    contents. Every field then has exactly one value per point, and there
    are points only if there is a field: as long as no line has given a
    field name, every line is read as a header. *)
Theorem read_txt_store_invariants content s s' :
  I2.read_txt content s = (s', Ok tt) ->
  (forall s0, I2.read_txt content s0 = (s', Ok tt)) /\
  fields_fit s' /\
  (I2.fields s' = ∅ -> I2.points s' = []).
Proof.
  intros Hrun. split; [|split].
  - intros s0. rewrite (read_txt_from_any content s s0). exact Hrun.
  - exact (read_txt_fields_fit content s s' Hrun).
  - exact (read_txt_points_need_a_field content s s' Hrun).
Qed.

Lemma read_lines_skip_empty lines r :
  I2.read_lines lines r
  = I2.read_lines (filter (fun line => line <> "") lines) r.
Proof.
  revert r. induction lines as [|line rest IH]; intros r; [reflexivity|].
  rewrite filter_cons. destruct (decide (line <> "")) as [Hne|Heq].
  - simpl. unfold bind. destruct (I2.read_line line r) as [r1 [[]|e]];
      [apply IH|reflexivity].
  - assert (line = "") as -> by (destruct (decide (line = "")); [assumption|contradiction]).
    simpl I2.read_lines. unfold I2.read_line.
    rewrite bool_decide_eq_true_2 by reflexivity. rewrite bind_ret. apply IH.
Qed.

(** X17. [read_txt] skips the empty lines of the file: the load of a file
    is the load of the file without its empty lines. *)
Theorem read_txt_skips_empty_lines lines s :
  I2.read_txt (Some lines) s
  = I2.read_txt (Some (filter (fun line => line <> "") lines)) s.
Proof.
  unfold I2.read_txt. rewrite !(bind_ok _ _ _ I2.empty tt) by reflexivity.
  unfold bind at 1 3. rewrite <- read_lines_skip_empty. reflexivity.
Qed.

(** ** [read_txt]: a well-formed table *)

Lemma words_nonempty line w ws : words line = w :: ws -> line <> "".
Proof. intros Hw ->. discriminate. Qed.

Lemma extract_number_ok {A} (parse : string -> option A) zero w rest old x :
  parse w = Some x ->
  extract_number parse zero (mkStream (w :: rest) false) old
  = (mkStream rest false, x).
Proof. intros Hw. unfold extract_number. simpl. rewrite Hw. reflexivity. Qed.

(** One value of a row, from a word that is a numeral. *)
Lemma read_value_run (names : list string) obj0 k v w rest
    (fv : list (list R)) old :
  (k < length names)%nat ->
  length fv = length names ->
  parse_double w = Some v ->
  exists col,
    fv !! k = Some col /\
    I2.read_value k (I2.mkReader obj0 names fv (mkStream (w :: rest) false) old)
    = (I2.mkReader obj0 names (<[k := col ++ [v]]> fv) (mkStream rest false)
                   (Some v), Ok tt).
Proof.
  intros Hk Hlen Hw.
  destruct (lookup_lt_is_Some_2 fv k ltac:(lia)) as [col Hcol].
  exists col. split; [exact Hcol|].
  unfold I2.read_value. rewrite bind_get.
  unfold extract_uninit. simpl. rewrite Hw.
  rewrite bind_put. unfold read_var. rewrite bind_ret. simpl.
  rewrite (bind_index_ok _ _ _ _ _ Hcol), bind_assign_ok
    by (apply lookup_lt_Some in Hcol; exact Hcol).
  reflexivity.
Qed.

(** One value of a row when the words are used up: [val] keeps the value
    it has. *)
Lemma read_value_exhausted (names : list string) obj0 k o fb
    (fv : list (list R)) :
  (k < length names)%nat ->
  length fv = length names ->
  exists col fb',
    fv !! k = Some col /\
    I2.read_value k (I2.mkReader obj0 names fv (mkStream [] fb) (Some o))
    = (I2.mkReader obj0 names (<[k := col ++ [o]]> fv) (mkStream [] fb')
                   (Some o), Ok tt).
Proof.
  intros Hk Hlen.
  destruct (lookup_lt_is_Some_2 fv k ltac:(lia)) as [col Hcol].
  exists col, true. split; [exact Hcol|].
  unfold I2.read_value. rewrite bind_get.
  unfold extract_uninit. simpl.
  destruct fb; rewrite bind_put; unfold read_var; rewrite bind_ret; simpl;
    rewrite (bind_index_ok _ _ _ _ _ Hcol), bind_assign_ok
      by (apply lookup_lt_Some in Hcol; exact Hcol);
    reflexivity.
Qed.

Lemma last_cons_default (v : R) vs d : List.last (v :: vs) d = List.last vs v.
Proof.
  revert v d. induction vs as [|u vs IH]; intros v d; [reflexivity|].
  change (List.last (v :: u :: vs) d) with (List.last (u :: vs) d).
  rewrite (IH u d), (IH u v). reflexivity.
Qed.

(** The value loop of a row: the words [ws] give the values [vs], and the
    columns beyond them get the value that [val] holds. *)
Lemma read_values_run (names : list string) obj0 :
  forall (n : nat) ws vs (fv : list (list R)) lo old fb,
  Forall2 (fun w v => parse_double w = Some v) ws vs ->
  (fb = true -> ws = []) ->
  (lo + n <= length names)%nat ->
  length fv = length names ->
  vs <> [] \/ is_Some old ->
  exists fv' f' old',
    for_from lo n I2.read_value
      (I2.mkReader obj0 names fv (mkStream ws fb) old)
    = (I2.mkReader obj0 names fv' f' old', Ok tt) /\
    length fv' = length names /\
    forall i, fv' !! i
      = if decide (lo <= i < lo + n)%nat
        then (fun col => col ++ [nth (i - lo) vs (List.last vs (default 0 old))])
               <$> fv !! i
        else fv !! i.
Proof.
  induction n as [|n IH]; intros ws vs fv lo old fb Hparse Hfb Hlo Hlen Hval.
  - exists fv, (mkStream ws fb), old. split; [reflexivity|].
    split; [exact Hlen|]. intros i. rewrite decide_False by lia. reflexivity.
  - destruct Hparse as [|w v ws vs Hw Hrest].
    + destruct Hval as [Hne|[o ->]]; [congruence|].
      destruct (read_value_exhausted names obj0 lo o fb fv ltac:(lia) Hlen)
        as (col & fb' & Hcol & Hrun).
      simpl for_from. rewrite (bind_ok _ _ _ _ _ Hrun).
      destruct (IH [] [] (<[lo := col ++ [o]]> fv) (S lo) (Some o) fb'
                  ltac:(constructor) ltac:(intros; reflexivity) ltac:(lia)
                  ltac:(rewrite length_insert; exact Hlen)
                  ltac:(right; eauto))
        as (fv' & f' & old' & Hloop & Hlen' & Hfv').
      exists fv', f', old'. split; [exact Hloop|]. split; [exact Hlen'|].
      intros i. rewrite Hfv'.
      destruct (decide (i = lo)) as [->|Hne].
      * rewrite decide_False by lia. rewrite decide_True by lia.
        rewrite list_lookup_insert_eq by (apply lookup_lt_Some in Hcol; exact Hcol).
        rewrite Hcol. simpl. rewrite Nat.sub_diag. reflexivity.
      * rewrite list_lookup_insert_ne by congruence.
        destruct (decide (S lo <= i < S lo + n)%nat) as [Hin|Hout].
        -- rewrite decide_True by lia. simpl.
           destruct (i - S lo)%nat, (i - lo)%nat; reflexivity.
        -- rewrite decide_False by lia. reflexivity.
    + assert (fb = false) as -> by (destruct fb; [discriminate (Hfb eq_refl)|reflexivity]).
      destruct (read_value_run names obj0 lo v w ws fv old
                  ltac:(lia) Hlen Hw) as (col & Hcol & Hrun).
      simpl for_from. rewrite (bind_ok _ _ _ _ _ Hrun).
      destruct (IH ws vs (<[lo := col ++ [v]]> fv) (S lo) (Some v) false Hrest
                  ltac:(discriminate) ltac:(lia)
                  ltac:(rewrite length_insert; exact Hlen)
                  ltac:(right; eauto))
        as (fv' & f' & old' & Hloop & Hlen' & Hfv').
      exists fv', f', old'. split; [exact Hloop|]. split; [exact Hlen'|].
      intros i. rewrite Hfv'. rewrite last_cons_default.
      destruct (decide (i = lo)) as [->|Hne].
      * rewrite decide_False by lia. rewrite decide_True by lia.
        rewrite list_lookup_insert_eq by (apply lookup_lt_Some in Hcol; exact Hcol).
        rewrite Hcol. simpl. rewrite Nat.sub_diag. reflexivity.
      * rewrite list_lookup_insert_ne by congruence.
        destruct (decide (S lo <= i < S lo + n)%nat) as [Hin|Hout].
        -- rewrite decide_True by lia.
           replace (i - lo)%nat with (S (i - S lo)) by lia. reflexivity.
        -- rewrite decide_False by lia. reflexivity.
Qed.

Lemma padded_column_snoc k tbl d :
  padded_column k (tbl ++ [d])
  = padded_column k tbl ++ [nth k d.2 (List.last d.2 0)].
Proof. unfold padded_column. rewrite map_app. reflexivity. Qed.

Lemma padded_column_full n k tbl :
  (k < n)%nat ->
  Forall (fun d => n <= length d.2)%nat tbl ->
  padded_column k tbl = column k tbl.
Proof.
  intros Hk Hall. unfold padded_column, column. apply map_ext_in.
  intros d Hd. apply nth_indep.
  rewrite Forall_forall in Hall. apply list_elem_of_In in Hd.
  specialize (Hall d Hd). simpl in Hall. lia.
Qed.

(** One data line. *)
Lemma read_row_run names tbl line d r :
  names <> [] ->
  reader_holds names tbl r ->
  parses_as line d -> d.2 <> [] ->
  exists r', I2.read_line line r = (r', Ok tt) /\
             reader_holds names (tbl ++ [d]) r'.
Proof.
  intros Hnames (Hobj & Hfn & Hfv) (wx & wy & ws & Hwords & Hx & Hy & Hvals) Hlen.
  pose proof (Forall2_length _ _ _ Hvals) as Hlws.
  unfold I2.read_line.
  rewrite bool_decide_eq_false_2 by (eapply words_nonempty; exact Hwords).
  rewrite bind_gets, Hfn.
  rewrite bool_decide_eq_false_2 by exact Hnames.
  unfold I2.read_row. rewrite Hwords.
  rewrite (extract_number_ok _ _ _ _ _ _ Hx), (extract_number_ok _ _ _ _ _ _ Hy).
  rewrite bind_modify, bind_gets. simpl I2.field_names. rewrite Hfn.
  unfold for_loop.
  destruct (read_values_run names
              (I2.mk (I2.points (I2.obj r) ++ [mkPoint2 d.1.1 d.1.2])
                     (I2.fields (I2.obj r)))
              (length names) ws d.2 (I2.field_values r) 0 None false Hvals
              ltac:(discriminate) ltac:(lia)
              ltac:(rewrite Hfv, length_map, length_seq; reflexivity)
              ltac:(left; exact Hlen))
    as (fv' & f' & old' & Hloop & Hlen' & Hfv').
  rewrite Hloop. eexists. split; [reflexivity|].
  split; [|split; [reflexivity|]].
  - simpl. rewrite Hobj. simpl. rewrite map_app. reflexivity.
  - simpl. apply list_eq. intros i. rewrite Hfv', Hfv.
    rewrite !list_lookup_fmap.
    destruct (decide (i < length names)%nat) as [Hi|Hi].
    + rewrite decide_True by lia. rewrite lookup_seq_lt by exact Hi. simpl.
      rewrite Nat.sub_0_r, padded_column_snoc. reflexivity.
    + rewrite decide_False by lia. rewrite lookup_seq_ge by lia. reflexivity.
Qed.

(** All data lines. *)
Lemma read_rows_run names :
  names <> [] ->
  forall rows data tbl r,
  reader_holds names tbl r ->
  Forall2 parses_as rows data ->
  Forall (fun d => d.2 <> []) data ->
  exists r', I2.read_lines rows r = (r', Ok tt) /\
             reader_holds names (tbl ++ data) r'.
Proof.
  intros Hnames rows data tbl r Hr Hparse. revert tbl r Hr.
  induction Hparse as [|line d rows data Hline Hrest IH]; intros tbl r Hr Hlen.
  - exists r. rewrite app_nil_r. split; [reflexivity|exact Hr].
  - apply Forall_cons in Hlen as [Hd Hlen].
    destruct (read_row_run names tbl line d r Hnames Hr Hline Hd)
      as (r1 & Hrun1 & Hr1).
    destruct (IH (tbl ++ [d]) r1 Hr1 Hlen) as (r2 & Hrun2 & Hr2).
    exists r2. simpl. rewrite (bind_ok _ _ _ _ _ Hrun1).
    split; [exact Hrun2|]. rewrite <- app_assoc in Hr2. exact Hr2.
Qed.

(** The loop that stores the columns under their names. *)
Lemma publish_run (names : list string) tbl :
  NoDup names ->
  forall r, reader_holds names tbl r ->
  exists r', for_loop (length names) I2.publish_field r = (r', Ok tt) /\
    I2.points (I2.obj r') = map (fun d => mkPoint2 d.1.1 d.1.2) tbl /\
    (forall k name, names !! k = Some name ->
       I2.fields (I2.obj r') !! name = Some (padded_column k tbl)) /\
    (forall name, name ∉ names -> I2.fields (I2.obj r') !! name = None).
Proof.
  intros Hnd r (Hobj & Hfn & Hfv).
  set (Inv := fun i (x : I2.reader) =>
    I2.points (I2.obj x) = map (fun d => mkPoint2 d.1.1 d.1.2) tbl /\
    I2.field_names x = names /\
    I2.field_values x = map (fun k => padded_column k tbl) (seq 0 (length names)) /\
    (forall k name, (k < i)%nat -> names !! k = Some name ->
       I2.fields (I2.obj x) !! name = Some (padded_column k tbl)) /\
    (forall name, (forall k, (k < i)%nat -> names !! k <> Some name) ->
       I2.fields (I2.obj x) !! name = None)).
  destruct (hoare_returns (Inv 0%nat) (for_loop (length names) I2.publish_field)
              (Inv (length names)) r) as (r' & [] & Hrun & Hr').
  - apply for_loop_inv. intros i Hi x (Hp & Hn & Hv & Hsome & Hnone).
    unfold I2.publish_field. rewrite bind_get.
    destruct (lookup_lt_is_Some_2 names i Hi) as [name Hname].
    rewrite Hn, (bind_index_ok _ _ _ _ _ Hname).
    assert (Hcol : I2.field_values x !! i = Some (padded_column i tbl)).
    { rewrite Hv, list_lookup_fmap, lookup_seq_lt by exact Hi. reflexivity. }
    rewrite (bind_index_ok _ _ _ _ _ Hcol). unfold put. unfold Inv. simpl.
    split; [exact Hp|]. split; [reflexivity|]. split; [exact Hv|]. split.
    + intros k name' Hk Hname'. destruct (decide (k = i)) as [->|Hne].
      * assert (name' = name) as -> by congruence. apply lookup_insert_eq.
      * rewrite lookup_insert_ne; [apply Hsome; [lia|exact Hname']|].
        intros <-. apply Hne. symmetry.
        exact (NoDup_lookup _ _ _ _ Hnd Hname Hname').
    + intros name' Hnot. rewrite lookup_insert_ne.
      * apply Hnone. intros k Hk. apply Hnot. lia.
      * intros <-. apply (Hnot i); [lia|exact Hname].
  - unfold Inv. rewrite Hobj. simpl. split; [reflexivity|].
    split; [exact Hfn|]. split; [exact Hfv|]. split.
    + intros k name Hk. lia.
    + intros name _. apply lookup_empty.
  - exists r'. split; [exact Hrun|].
    destruct Hr' as (Hp & _ & _ & Hsome & Hnone). split; [exact Hp|]. split.
    + intros k name Hname. apply Hsome; [|exact Hname].
      eapply lookup_lt_Some. exact Hname.
    + intros name Hnot. apply Hnone. intros k _ Hk. apply Hnot.
      eapply list_elem_of_lookup_2. exact Hk.
Qed.

(** The load of a table whose data lines have at least one value each. *)
Lemma read_txt_table header cx cy names rows data s :
  words header = cx :: cy :: names ->
  names <> [] -> NoDup names ->
  Forall2 parses_as rows data ->
  Forall (fun d => d.2 <> []) data ->
  exists s',
    I2.read_txt (Some (header :: rows)) s = (s', Ok tt) /\
    I2.points s' = map (fun d => mkPoint2 d.1.1 d.1.2) data /\
    (forall k name, names !! k = Some name ->
       I2.fields s' !! name = Some (padded_column k data)) /\
    (forall name, name ∉ names -> I2.fields s' !! name = None).
Proof.
  intros Hheader Hnames Hnd Hparse Hlen.
  unfold I2.read_txt. rewrite (bind_ok _ _ _ I2.empty tt) by reflexivity.
  set (r0 := I2.mkReader _ _ _ _ _).
  set (rh := I2.mkReader I2.empty names (replicate (length names) [])
                         (mkStream [] true) None).
  assert (Hh : I2.read_line header r0 = (rh, Ok tt)).
  { unfold I2.read_line.
    rewrite bool_decide_eq_false_2 by (eapply words_nonempty; exact Hheader).
    rewrite bind_gets. simpl I2.field_names.
    rewrite bool_decide_eq_true_2 by reflexivity.
    unfold I2.read_header, modify, r0, rh. simpl. rewrite Hheader. simpl.
    rewrite resize_nil. reflexivity. }
  assert (Hrh : reader_holds names [] rh).
  { split; [reflexivity|]. split; [reflexivity|]. simpl.
    apply list_eq. intros i. rewrite list_lookup_fmap.
    destruct (decide (i < length names)%nat) as [Hi|Hi].
    - rewrite lookup_replicate_2, lookup_seq_lt by exact Hi. reflexivity.
    - rewrite lookup_seq_ge by lia.
      rewrite (lookup_ge_None_2 (replicate _ _)) by (rewrite length_replicate; lia).
      reflexivity. }
  destruct (read_rows_run names Hnames rows data [] rh Hrh Hparse Hlen)
    as (r1 & Hrows & Hr1).
  simpl app in Hr1.
  destruct (publish_run names data Hnd r1 Hr1) as (r2 & Hpub & Hp & Hsome & Hnone).
  destruct Hr1 as (_ & Hfn & _).
  exists (I2.obj r2). split.
  - simpl I2.read_lines. rewrite bind_assoc, (bind_ok _ _ _ _ _ Hh).
    rewrite (bind_ok _ _ _ _ _ Hrows), bind_gets, Hfn, Hpub.
    reflexivity.
  - split; [exact Hp|]. split; assumption.
Qed.

(** X18. A well-formed table is read as it stands. When the first line has
    two words for the coordinates followed by at least one field name, the
    names being different from each other, and every further line has a
    numeral for [x], one for [y] and then at least one numeral per field,
    [read_txt] returns; the points are the [(x, y)] of the lines in their
    order, the field of the [k]-th name holds the [k]-th value of every
    line, and there is no other field. *)
Theorem read_txt_reads_table header cx cy names rows data s :
  words header = cx :: cy :: names ->
  names <> [] -> NoDup names ->
  Forall2 parses_as rows data ->
  Forall (fun d => length names <= length d.2)%nat data ->
  exists s',
    I2.read_txt (Some (header :: rows)) s = (s', Ok tt) /\
    I2.points s' = map (fun d => mkPoint2 d.1.1 d.1.2) data /\
    (forall k name, names !! k = Some name ->
       I2.field s' name = Ok (column k data)) /\
    (forall name, name ∉ names ->
       I2.field s' name
       = Throw (runtime_error ("Field '" +:+ name +:+ "' does not exist."))).
Proof.
  intros Hheader Hnames Hnd Hparse Hlen.
  destruct (read_txt_table header cx cy names rows data s Hheader Hnames Hnd
              Hparse) as (s' & Hrun & Hp & Hsome & Hnone).
  { eapply Forall_impl; [exact Hlen|]. intros d Hd Hnil. simpl in Hd.
    rewrite Hnil in Hd. simpl in Hd.
    destruct names; [congruence|simpl in Hd; lia]. }
  exists s'. split; [exact Hrun|]. split; [exact Hp|]. split.
  - intros k name Hname. unfold I2.field. rewrite (Hsome k name Hname).
    rewrite (padded_column_full (length names) k data); [reflexivity| |exact Hlen].
    eapply lookup_lt_Some. exact Hname.
  - intros name Hnot. unfold I2.field. rewrite (Hnone name Hnot). reflexivity.
Qed.

Lemma read_value_uninit k r f3 :
  extract_uninit parse_double 0 (I2.ss r) (I2.val r) = (f3, None) ->
  exists r', I2.read_value k r = (r', Throw UndefinedBehaviour).
Proof.
  intros Hun. unfold I2.read_value. rewrite bind_get, Hun, bind_put. simpl.
  eexists. reflexivity.
Qed.

(** A data line with at most its two coordinates, when there is a field. *)
Lemma read_row_without_value names tbl line r :
  names <> [] ->
  reader_holds names tbl r ->
  line <> "" -> (length (words line) <= 2)%nat ->
  exists r', I2.read_line line r = (r', Throw UndefinedBehaviour).
Proof.
  intros Hnames (Hobj & Hfn & Hfv) Hline Hwords.
  unfold I2.read_line.
  rewrite bool_decide_eq_false_2 by exact Hline.
  rewrite bind_gets, Hfn.
  rewrite bool_decide_eq_false_2 by exact Hnames.
  unfold I2.read_row.
  destruct (extract_number parse_double 0 (mkStream (words line) false) 0)
    as [f1 x] eqn:H1.
  destruct (extract_number parse_double 0 f1 0) as [f2 y] eqn:H2.
  assert (Hf2 : failbit f2 = true \/ tokens f2 = []).
  { unfold extract_number in H1, H2. simpl in H1.
    destruct (words line) as [|wx [|wy [|wz ws]]]; [| | |simpl in Hwords; lia].
    - injection H1 as <- <-. simpl in H2. injection H2 as <- <-. auto.
    - destruct (parse_double wx); injection H1 as <- <-; simpl in H2;
        injection H2 as <- <-; auto.
    - destruct (parse_double wx); injection H1 as <- <-; simpl in H2;
        [destruct (parse_double wy)|]; injection H2 as <- <-; auto. }
  rewrite bind_modify, bind_gets. simpl I2.field_names. rewrite Hfn.
  destruct names as [|name names]; [congruence|].
  unfold for_loop. simpl length. simpl for_from.
  assert (Hun : exists f3, extract_uninit parse_double 0 f2 None = (f3, None)).
  { unfold extract_uninit. destruct Hf2 as [Hfail|Hnil].
    - rewrite Hfail. eauto.
    - destruct (failbit f2); [eauto|]. rewrite Hnil. eauto. }
  destruct Hun as [f3 Hf3].
  match goal with
  | |- context [bind (I2.read_value 0) ?k ?r0] =>
      destruct (read_value_uninit 0 r0 f3 Hf3) as [r' Hr'];
      rewrite (bind_throw _ _ _ _ _ Hr')
  end.
  eauto.
Qed.

Lemma read_lines_app l1 l2 r :
  I2.read_lines (l1 ++ l2) r = (I2.read_lines l1 >> I2.read_lines l2) r.
Proof.
  revert r. induction l1 as [|line l1 IH]; intros r; [reflexivity|].
  simpl. unfold bind.
  destruct (I2.read_line line r) as [r1 [[]|e]]; [|reflexivity].
  rewrite IH. reflexivity.
Qed.


(** ** [read_vtk]: what a load leaves *)

Lemma read_vtk_from_any content s s0 :
  read_vtk content s0 = read_vtk content s.
Proof.
  unfold read_vtk.
  rewrite (bind_ok _ _ _ _ _ (clear_run s)), (bind_ok _ _ _ _ _ (clear_run s0)).
  reflexivity.
Qed.

(** A load that returns has ended with [preprocess] on the surface that the
    sections of the file gave. *)
Lemma read_vtk_ends_with_preprocess toks s s' :
  read_vtk (Some toks) s = (s', Ok tt) ->
  exists raw, preprocess raw = (s', Ok tt).
Proof.
  unfold read_vtk. rewrite (bind_ok _ _ _ _ _ (clear_run s)).
  destruct (while_extract _ _ _) as [[r [[]|e]]|]; [|discriminate..].
  eauto.
Qed.

Lemma preprocess_result raw s' :
  preprocess raw = (s', Ok tt) ->
  indices_valid raw /\
  preprocessed_upto raw (length (triangles raw)) (length (triangles raw)) s'.
Proof.
  intros Hrun.
  assert (Hvalid : indices_valid raw).
  { destruct (preprocess_well_formed raw s' Hrun) as [_ Hvalid].
    destruct (preprocess_frame raw s' _ Hrun) as [Hp Ht].
    intros j v k Hv Hk. rewrite <- Hp. apply (Hvalid j v k); [|exact Hk].
    rewrite Ht. exact Hv. }
  split; [exact Hvalid|].
  destruct (preprocess_returns raw Hvalid) as (s'' & Hrun' & Hs'').
  assert (s'' = s') as <- by congruence. exact Hs''.
Qed.

(** X20. Whatever the interpolator held before, when [read_vtk] returns it
    holds what the file gives. After a file that could be opened, every
    vertex index is below the number of points, the cache holds the
    triangle of the three points of every index triple, and the cell fields
    "area" and "longest_side" and the cell vector fields "center" and
    "normal" hold the values of the cached triangles, also when the file
    had fields of these names. After a file that could not be opened there
    is no field at all. *)
Theorem read_vtk_leaves_preprocessed_surface :
  (forall content s s' r,
     read_vtk content s = (s', r) ->
     forall s0, read_vtk content s0 = (s', r)) /\
  (forall toks s s',
     read_vtk (Some toks) s = (s', Ok tt) ->
     indices_valid s' /\ cache_of_points s' /\
     field s' CellField "area" = Ok (map Triangle.area (triangle_cache s')) /\
     field s' CellField "longest_side"
     = Ok (map Triangle.longest_side (triangle_cache s')) /\
     vector_field s' CellField "center"
     = Ok (map Triangle.center (triangle_cache s')) /\
     vector_field s' CellField "normal"
     = Ok (map Triangle.normal (triangle_cache s'))) /\
  (forall s ft name,
     exists e, field (read_vtk None s).1 ft name = Throw e).
Proof.
  split; [|split].
  - intros content s s' r Hrun s0. rewrite (read_vtk_from_any content s s0).
    exact Hrun.
  - intros toks s s' Hrun.
    destruct (read_vtk_ends_with_preprocess toks s s' Hrun) as [raw Hpre].
    destruct (preprocess_result raw s' Hpre) as (Hvalid & Hs').
    destruct (preprocessed_surface raw s' Hs')
      as (Hp & Ht & _ & Hcache & Ha & Hl & Hc & Hn & _).
    split; [|repeat (split; [assumption|]); assumption].
    intros j v k Hv Hk. rewrite Hp. rewrite Ht in Hv.
    exact (Hvalid j v k Hv Hk).
  - intros s [] name; eexists; reflexivity.
Qed.

(** ** Small utilities of the header *)

Lemma minmax_fold rest : forall lo hi seen,
  least_and_greatest seen lo hi ->
  let mm := fold_left
              (fun mm y => (if bool_decide (y < mm.1) then y else mm.1,
                            if bool_decide (y < mm.2) then mm.2 else y))
              rest (lo, hi) in
  least_and_greatest (seen ++ rest) mm.1 mm.2.
Proof.
  induction rest as [|y rest IH]; intros lo hi seen Hseen.
  - simpl. rewrite app_nil_r. exact Hseen.
  - simpl fold_left. cbv zeta.
    replace (seen ++ y :: rest) with ((seen ++ [y]) ++ rest)
      by (rewrite <- app_assoc; reflexivity).
    apply IH. destruct Hseen as (Hlo & Hhi & Hall). simpl.
    split; [|split].
    + case_bool_decide; apply elem_of_app; [right; apply list_elem_of_singleton; reflexivity|left; exact Hlo].
    + case_bool_decide; apply elem_of_app; [left; exact Hhi|right; apply list_elem_of_singleton; reflexivity].
    + intros z Hz. apply elem_of_app in Hz as [Hz|Hz].
      * specialize (Hall z Hz). repeat case_bool_decide; lra.
      * apply list_elem_of_singleton in Hz as ->.
        assert (lo <= hi) by (specialize (Hall lo Hlo); lra).
        repeat case_bool_decide; lra.
Qed.

Lemma minmax_element_spec x lo hi :
  minmax_element x = Some (lo, hi) -> least_and_greatest x lo hi.
Proof.
  destruct x as [|a rest]; [discriminate|]. simpl. intros [= Hmm].
  pose proof (minmax_fold rest a a [a]) as Hfold. cbv zeta in Hfold.
  rewrite Hmm in Hfold. apply Hfold.
  split; [apply list_elem_of_singleton; reflexivity|].
  split; [apply list_elem_of_singleton; reflexivity|].
  intros y Hy. apply list_elem_of_singleton in Hy as ->. lra.
Qed.

Lemma minmax_element_some x : x <> [] -> is_Some (minmax_element x).
Proof. destruct x; [congruence|]. intros _. simpl. eauto. Qed.

Lemma least_and_greatest_unique x lo hi lo' hi' :
  least_and_greatest x lo hi -> least_and_greatest x lo' hi' ->
  lo = lo' /\ hi = hi'.
Proof.
  intros (Hlo & Hhi & Hall) (Hlo' & Hhi' & Hall').
  pose proof (Hall lo' Hlo'). pose proof (Hall hi' Hhi').
  pose proof (Hall' lo Hlo). pose proof (Hall' hi Hhi). split; lra.
Qed.

Lemma minmax_collect_spec blocks : forall data,
  Forall (fun b => b <> []) blocks ->
  exists extra,
    minmax_collect blocks data = Ok (data ++ extra) /\
    (blocks <> [] -> extra <> []) /\
    (forall y, y ∈ extra -> y ∈ concat blocks) /\
    (forall y, y ∈ concat blocks ->
       exists lo hi, lo ∈ extra /\ hi ∈ extra /\ lo <= y <= hi).
Proof.
  induction blocks as [|b rest IH]; intros data Hne.
  - exists []. rewrite app_nil_r. split; [reflexivity|]. split; [congruence|].
    split; [intros y Hy; exact Hy|]. simpl. intros y Hy.
    apply elem_of_nil in Hy. contradiction.
  - apply Forall_cons in Hne as [Hb Hrest].
    destruct (minmax_element_some b Hb) as [[lo hi] Hmm].
    destruct (minmax_element_spec b lo hi Hmm) as (Hlo & Hhi & Hall).
    destruct (IH (data ++ [lo; hi]) Hrest) as (extra & Hrun & _ & Hin & Hcover).
    exists ([lo; hi] ++ extra). simpl minmax_collect. rewrite Hmm. simpl.
    split; [rewrite Hrun, <- app_assoc; reflexivity|].
    split; [intros _; discriminate|]. split.
    + intros y Hy. simpl. apply elem_of_app.
      apply elem_of_cons in Hy as [->|Hy]; [left; exact Hlo|].
      apply elem_of_cons in Hy as [->|Hy]; [left; exact Hhi|].
      right. apply Hin. exact Hy.
    + intros y Hy. simpl in Hy. apply elem_of_app in Hy as [Hy|Hy].
      * exists lo, hi. specialize (Hall y Hy).
        split; [apply elem_of_cons; left; reflexivity|].
        split; [|exact Hall].
        apply elem_of_cons; right. apply elem_of_cons; left; reflexivity.
      * destruct (Hcover y Hy) as (l & h & Hl & Hh & Hy'). exists l, h.
        split; [do 2 (apply elem_of_cons; right); exact Hl|].
        split; [do 2 (apply elem_of_cons; right); exact Hh|exact Hy'].
Qed.

Lemma minmax_collect_empty_block blocks : forall data,
  Exists (fun b => b = []) blocks ->
  minmax_collect blocks data = Throw UndefinedBehaviour.
Proof.
  induction blocks as [|b rest IH]; intros data Hex.
  - apply Exists_nil in Hex. contradiction.
  - apply Exists_cons in Hex as [->|Hex]; [reflexivity|].
    simpl. destruct (minmax_element b); [apply IH; exact Hex|reflexivity].
Qed.

(** X21. [minmax] on a vector returns its least and its greatest element,
    and dereferences the end iterator when the vector is empty. [minmax] on
    a block vector returns the least and the greatest element of all its
    blocks together when it has a block and none of its blocks is empty;
    with no block or with an empty block it dereferences an end
    iterator. *)
Theorem minmax_least_and_greatest :
  (forall x, x <> [] ->
     exists lo hi, minmax x = Ok (lo, hi) /\ least_and_greatest x lo hi) /\
  minmax [] = Throw UndefinedBehaviour /\
  (forall blocks, blocks <> [] -> Forall (fun b => b <> []) blocks ->
     exists lo hi, minmax_blocks blocks = Ok (lo, hi) /\
                   least_and_greatest (concat blocks) lo hi /\
                   minmax (concat blocks) = Ok (lo, hi)) /\
  (forall blocks, blocks = [] \/ Exists (fun b => b = []) blocks ->
     minmax_blocks blocks = Throw UndefinedBehaviour).
Proof.
  assert (Hvec : forall x, x <> [] ->
     exists lo hi, minmax x = Ok (lo, hi) /\ least_and_greatest x lo hi).
  { intros x Hx. destruct (minmax_element_some x Hx) as [[lo hi] Hmm].
    exists lo, hi. unfold minmax. rewrite Hmm. split; [reflexivity|].
    apply minmax_element_spec. exact Hmm. }
  split; [exact Hvec|]. split; [reflexivity|]. split.
  - intros blocks Hne Hall.
    destruct (minmax_collect_spec blocks [] Hall)
      as (extra & Hrun & Hextra & Hin & Hcover).
    simpl in Hrun. unfold minmax_blocks. rewrite Hrun.
    destruct (Hvec extra (Hextra Hne)) as (lo & hi & Hmm & Hlo & Hhi & Hbounds).
    assert (Hcat : least_and_greatest (concat blocks) lo hi).
    { split; [apply Hin; exact Hlo|]. split; [apply Hin; exact Hhi|].
      intros y Hy. destruct (Hcover y Hy) as (l & h & Hl & Hh & Hy').
      specialize (Hbounds l Hl) as Hbl. specialize (Hbounds h Hh) as Hbh. lra. }
    exists lo, hi. split; [exact Hmm|]. split; [exact Hcat|].
    assert (Hcne : concat blocks <> []).
    { intros Hnil. destruct Hcat as [Hlo' _]. rewrite Hnil in Hlo'.
      apply elem_of_nil in Hlo'. contradiction. }
    destruct (Hvec (concat blocks) Hcne) as (lo' & hi' & Hmm' & Hlg').
    destruct (least_and_greatest_unique _ _ _ _ _ Hcat Hlg') as [-> ->].
    exact Hmm'.
  - intros blocks [->|Hex]; [reflexivity|].
    unfold minmax_blocks. rewrite minmax_collect_empty_block by exact Hex.
    reflexivity.
Qed.

Lemma dx_analytical_derivative a b t :
  derivable_pt_lim (dx_analytical a b) t (a + b * dx_analytical a b t).
Proof.
  destruct (decide (b = 0)) as [->|Hb].
  - refine (derivable_pt_lim_ext (mult_real_fct a id) _ t _ _ _).
    + intros dt. unfold dx_analytical, mult_real_fct, id.
      rewrite bool_decide_eq_true_2 by reflexivity. reflexivity.
    + replace (a + 0 * dx_analytical a 0 t) with (a * 1) by ring.
      apply derivable_pt_lim_scal. apply derivable_pt_lim_id.
  - refine (derivable_pt_lim_ext
              (mult_real_fct (a / b)
                 ((comp exp (mult_real_fct b id)) - fct_cte 1)%F) _ t _ _ _).
    + intros dt.
      unfold dx_analytical, mult_real_fct, minus_fct, comp, fct_cte, id.
      rewrite bool_decide_eq_false_2 by exact Hb. reflexivity.
    + replace (a + b * dx_analytical a b t)
        with (a / b * (exp (b * t) * (b * 1) - 0)).
      * apply derivable_pt_lim_scal. apply derivable_pt_lim_minus.
        -- apply (derivable_pt_lim_comp (mult_real_fct b id) exp).
           ++ apply derivable_pt_lim_scal. apply derivable_pt_lim_id.
           ++ apply derivable_pt_lim_exp.
        -- apply derivable_pt_lim_const.
      * unfold dx_analytical. rewrite bool_decide_eq_false_2 by exact Hb.
        field. exact Hb.
Qed.

(** X22. [dx_analytical a b] is the solution of [x' = a + b x] that starts
    from zero: it vanishes at [dt = 0], and at every [dt] its derivative is
    [a + b] times its value; the branch for [b = 0] and the general branch
    satisfy the same equation. *)
Theorem dx_analytical_solves_linear_equation a b :
  dx_analytical a b 0 = 0 /\
  forall dt, derivable_pt_lim (dx_analytical a b) dt
               (a + b * dx_analytical a b dt).
Proof.
  split; [|apply dx_analytical_derivative].
  unfold dx_analytical. case_bool_decide; [ring|].
  rewrite Rmult_0_r, exp_0. ring.
Qed.

(** X23. [coordinate_names] returns as many names as the dimension, all
    different, for the dimensions 1, 2 and 3; for every other dimension,
    zero included, it throws [ExcNotImplemented]. *)
Theorem coordinate_names_per_dimension dim :
  ((1 <= dim <= 3)%nat ->
     exists names, coordinate_names dim = Ok names /\
                   length names = dim /\ NoDup names) /\
  (~ (1 <= dim <= 3)%nat -> coordinate_names dim = Throw ExcNotImplemented).
Proof.
  split.
  - intros Hdim.
    destruct dim as [|[|[|[|dim]]]]; try lia; eexists;
      (split; [reflexivity|]); (split; [reflexivity|]);
      repeat (apply NoDup_cons; split;
              [rewrite ?elem_of_cons, elem_of_nil; intros Hin; intuition discriminate|]);
      apply NoDup_nil; exact Logic.I.
  - intros Hdim. destruct dim as [|[|[|[|dim]]]]; try lia; reflexivity.
Qed.

(** ** When the pruning pass of the search is exact *)

Lemma cauchy_schwarz3 (a b : Point3) : a <.> b <= norm a * norm b.
Proof.
  pose proof (norm_square3_nonneg a) as Ha.
  pose proof (norm_square3_nonneg b) as Hb.
  assert (Hsq : (a <.> b) * (a <.> b) <= norm_square a * norm_square b).
  { pose proof (norm_square3_nonneg (cross_product_3d a b)) as Hc.
    replace (norm_square a * norm_square b)
      with ((a <.> b) * (a <.> b) + norm_square (cross_product_3d a b))
      by (destruct a, b; unfold norm_square, cross_product_3d; simpl; ring).
    lra. }
  assert (Hn : 0 <= norm a * norm b)
    by (apply Rmult_le_pos; unfold norm; apply sqrt_pos).
  destruct (Rle_dec (a <.> b) 0) as [Hneg|Hpos]; [lra|].
  rewrite <- (sqrt_square (a <.> b)) by lra.
  unfold norm. rewrite <- sqrt_mult by assumption.
  apply sqrt_le_1_alt. exact Hsq.
Qed.

Lemma norm3_nonneg (a : Point3) : 0 <= norm a.
Proof. unfold norm. apply sqrt_pos. Qed.

Lemma norm3_add (a b : Point3) : norm (a + b)%pt <= norm a + norm b.
Proof.
  pose proof (norm3_nonneg a) as Ha. pose proof (norm3_nonneg b) as Hb.
  pose proof (cauchy_schwarz3 a b) as Hcs.
  rewrite <- (sqrt_square (norm a + norm b)) by lra.
  unfold norm at 1. apply sqrt_le_1_alt.
  replace (norm_square (a + b)%pt)
    with (norm_square a + 2 * (a <.> b) + norm_square b)
    by (destruct a, b; unfold norm_square; simpl; ring).
  rewrite <- (norm_sqr a), <- (norm_sqr b) by apply norm_square3_nonneg.
  nra.
Qed.

Lemma norm3_scale t (a : Point3) : 0 <= t -> norm (t *^ a) = t * norm a.
Proof.
  intros Ht. unfold norm.
  replace (norm_square (t *^ a)) with (t * t * norm_square a)
    by (destruct a; unfold norm_square; simpl; ring).
  rewrite sqrt_mult; [|nra|apply norm_square3_nonneg].
  rewrite sqrt_square by exact Ht. reflexivity.
Qed.

Lemma norm3_sym (a b : Point3) : norm (a - b)%pt = norm (b - a)%pt.
Proof. unfold norm. rewrite norm_square3_sym. reflexivity. Qed.

(** A corner is not farther from the center than two thirds of the longest
    side. *)
Lemma corner_to_center (a b c : Point3) L :
  norm (a - b)%pt <= L -> norm (a - c)%pt <= L ->
  norm (a - (a + b + c) /^ 3)%pt <= 2 / 3 * L.
Proof.
  intros Hb Hc.
  replace (a - (a + b + c) /^ 3)%pt
    with ((1 / 3) *^ ((a - b) + (a - c)))%pt
    by (destruct a, b, c; simpl; apply point3_eq; field).
  rewrite norm3_scale by lra.
  pose proof (norm3_add (a - b)%pt (a - c)%pt). lra.
Qed.

(** Every point of a triangle is within the longest side of its center. *)
Lemma triangle_point_to_center p0 p1 p2 q :
  in_triangle (p0, p1, p2) q ->
  norm (q - Triangle.center (Triangle.reinit p0 p1 p2))%pt
  <= Triangle.longest_side (Triangle.reinit p0 p1 p2).
Proof.
  intros (t0 & t1 & t2 & H0 & H1 & H2 & Hsum & ->).
  unfold Triangle.longest_side. rewrite reinit_longest.
  change (Triangle.center (Triangle.reinit p0 p1 p2))
    with ((p0 + p1 + p2) /^ 3)%pt.
  set (c := ((p0 + p1 + p2) /^ 3)%pt).
  set (L := std_max _ _).
  assert (HL : norm (p1 - p0)%pt <= L /\ norm (p2 - p0)%pt <= L /\
               norm (p1 - p2)%pt <= L).
  { unfold L. pose proof (std_max_ge_l (std_max (norm (p1 - p0)%pt)
                                          (norm (p2 - p0)%pt)) (norm (p1 - p2)%pt)).
    pose proof (std_max_ge_r (std_max (norm (p1 - p0)%pt)
                                (norm (p2 - p0)%pt)) (norm (p1 - p2)%pt)).
    pose proof (std_max_ge_l (norm (p1 - p0)%pt) (norm (p2 - p0)%pt)).
    pose proof (std_max_ge_r (norm (p1 - p0)%pt) (norm (p2 - p0)%pt)).
    lra. }
  destruct HL as (H10 & H20 & H12).
  assert (HLpos : 0 <= L) by (pose proof (norm3_nonneg (p1 - p0)%pt); lra).
  assert (Hc0 : norm (p0 - c)%pt <= 2 / 3 * L).
  { apply corner_to_center; rewrite norm3_sym; assumption. }
  assert (Hc1 : norm (p1 - c)%pt <= 2 / 3 * L).
  { replace c with ((p1 + p0 + p2) /^ 3)%pt
      by (unfold c; destruct p0, p1, p2; simpl; apply point3_eq; field).
    apply corner_to_center; assumption. }
  assert (Hc2 : norm (p2 - c)%pt <= 2 / 3 * L).
  { replace c with ((p2 + p0 + p1) /^ 3)%pt
      by (unfold c; destruct p0, p1, p2; simpl; apply point3_eq; field).
    apply corner_to_center; [assumption|rewrite norm3_sym; assumption]. }
  replace (combination (p0, p1, p2) (t0, t1, t2) - c)%pt
    with (t0 *^ (p0 - c) + t1 *^ (p1 - c) + t2 *^ (p2 - c))%pt.
  2:{ assert (Ht0 : t0 = 1 - t1 - t2) by lra. subst t0.
      unfold combination. destruct p0, p1, p2, c. simpl.
      apply point3_eq; ring. }
  eapply Rle_trans; [apply norm3_add|].
  eapply Rle_trans; [apply Rplus_le_compat_r; apply norm3_add|].
  rewrite !norm3_scale by assumption.
  assert (t0 * norm (p0 - c)%pt <= t0 * (2 / 3 * L))
    by (apply Rmult_le_compat_l; assumption).
  assert (t1 * norm (p1 - c)%pt <= t1 * (2 / 3 * L))
    by (apply Rmult_le_compat_l; assumption).
  assert (t2 * norm (p2 - c)%pt <= t2 * (2 / 3 * L))
    by (apply Rmult_le_compat_l; assumption).
  assert (t0 * (2 / 3 * L) + t1 * (2 / 3 * L) + t2 * (2 / 3 * L)
          = 2 / 3 * L) by (assert (t0 = 1 - t1 - t2) by lra; subst t0; ring).
  lra.
Qed.

(** A triangle of positive area whose closest point is within twice its
    longest side of the target passes the pruning test. *)
Lemma near_triangle_survives p0 p1 p2 p :
  let tr := Triangle.reinit p0 p1 p2 in
  Triangle.area tr > 0 ->
  norm (Triangle.closest_triangle_point tr p - p)%pt
  <= 2 * Triangle.longest_side tr ->
  survives_pruning p tr = true.
Proof.
  intros tr Hpos Hnear. unfold survives_pruning.
  rewrite bool_decide_eq_false_2; [reflexivity|].
  pose proof (closest_triangle_point_in_triangle p0 p1 p2 p Hpos) as Hin.
  pose proof (triangle_point_to_center p0 p1 p2 _ Hin) as Hc. fold tr in Hc.
  set (q := Triangle.closest_triangle_point tr p) in *.
  replace (p - Triangle.center tr)%pt
    with ((p - q) + (q - Triangle.center tr))%pt
    by (destruct p, q, (Triangle.center tr); simpl; apply point3_eq; ring).
  pose proof (norm3_add (p - q)%pt (q - Triangle.center tr)%pt) as Hadd.
  rewrite (norm3_sym p q) in Hadd. lra.
Qed.

Lemma cached_triangle_is_reinit s j tr :
  cache_of_points s -> triangle_cache s !! j = Some tr ->
  exists p0 p1 p2, tr = Triangle.reinit p0 p1 p2.
Proof.
  intros [Hlen Hcache] Htr.
  destruct (lookup_lt_is_Some_2 (triangles s) j) as [v Hv];
    [rewrite <- Hlen; eapply lookup_lt_Some; exact Htr|].
  destruct (Hcache j v Hv) as (tr' & Hof & Htr').
  assert (tr' = tr) as -> by congruence.
  unfold triangle_of in Hof.
  destruct (points s !! at3 v 0) as [p0|]; [|discriminate].
  destruct (points s !! at3 v 1) as [p1|]; [|discriminate].
  destruct (points s !! at3 v 2) as [p2|]; [|discriminate].
  injection Hof as <-. eauto.
Qed.


(** ** [read_vtk]: what a well-formed file loads *)

(** A loop whose rounds lead from [f k] to [f (S k)]. *)
Lemma for_from_chain {St} (body : nat -> M St unit) n :
  forall (f : nat -> St) lo,
  (forall k, (k < n)%nat -> body (lo + k)%nat (f k) = (f (S k), Ok tt)) ->
  for_from lo n body (f 0%nat) = (f n, Ok tt).
Proof.
  induction n as [|n IH]; intros f lo Hstep; [reflexivity|].
  simpl. pose proof (Hstep 0%nat ltac:(lia)) as H0.
  rewrite Nat.add_0_r in H0. rewrite (bind_ok _ _ _ _ _ H0).
  apply (IH (fun k => f (S k)) (S lo)).
  intros k Hk. rewrite <- (Hstep (S k) ltac:(lia)).
  rewrite Nat.add_succ_r. reflexivity.
Qed.

(** Overwriting a vector from its start. *)
Lemma insert_take_drop {A} (new old : list A) k a :
  new !! k = Some a -> (k < length old)%nat ->
  <[k := a]> (take k new ++ drop k old) = take (S k) new ++ drop (S k) old.
Proof.
  intros Hnew Hold.
  pose proof (lookup_lt_Some _ _ _ Hnew) as Hk.
  destruct (lookup_lt_is_Some_2 old k Hold) as [b Hb].
  assert (Hlen : length (take k new) = k) by (apply length_take_le; lia).
  rewrite <- (Nat.add_0_r k) at 1. rewrite <- Hlen at 1.
  rewrite insert_app_r. rewrite (drop_S _ _ _ Hb). simpl.
  rewrite (take_S_r _ _ _ Hnew), <- app_assoc. reflexivity.
Qed.

Lemma lookup_take_drop {A} (new old : list A) k :
  (k <= length new)%nat -> (take k new ++ drop k old) !! k = old !! k.
Proof.
  intros Hk.
  assert (Hlen : length (take k new) = k) by (apply length_take_le; lia).
  rewrite lookup_app_r by lia. rewrite Hlen, Nat.sub_diag, lookup_drop.
  rewrite Nat.add_0_r. reflexivity.
Qed.

Lemma take_drop_all {A} (new old : list A) :
  length old = length new ->
  take (length new) new ++ drop (length new) old = new.
Proof.
  intros Hlen. rewrite take_ge, drop_ge by lia. apply app_nil_r.
Qed.

(** [m[name]] followed by a change of the entry. *)
Lemma alter_map_subscript {A} (g : list A -> list A) name
    (m : gmap string (list A)) :
  alter g name (map_subscript name m) = <[name := g (default [] (m !! name))]> m.
Proof.
  unfold map_subscript. destruct (m !! name) as [l|] eqn:Hm; simpl.
  - apply map_eq. intros i. destruct (decide (i = name)) as [->|Hne].
    + rewrite lookup_alter_eq, lookup_insert_eq, Hm. reflexivity.
    + rewrite lookup_alter_ne, lookup_insert_ne by congruence. reflexivity.
  - rewrite alter_insert_eq. reflexivity.
Qed.

Lemma in_s_run o tk rest vs dt dn :
  in_s (mkReader o (mkStream (tk :: rest) false) vs dt dn)
  = (mkReader o (mkStream rest false) tk dt dn, Ok tt).
Proof. reflexivity. Qed.

Lemma in_data_name_run o tk rest vs dt dn :
  in_data_name (mkReader o (mkStream (tk :: rest) false) vs dt dn)
  = (mkReader o (mkStream rest false) vs dt tk, Ok tt).
Proof. reflexivity. Qed.

Lemma in_count_run o tk n rest vs dt dn :
  parse_unsigned UINT_MAX tk = Some n ->
  in_count (mkReader o (mkStream (tk :: rest) false) vs dt dn)
  = (mkReader o (mkStream rest false) vs dt dn, Ok (Some n)).
Proof.
  intros Hn. unfold in_count, extract_uninit_unsigned.
  cbn [file failbit tokens]. unfold parse_unsigned in Hn.
  destruct (scan_unsigned UINT_MAX tk) as [x []]; [|discriminate].
  injection Hn as ->. reflexivity.
Qed.

Lemma in_unsigned_long_run old x o tk rest vs dt dn :
  parse_unsigned ULONG_MAX tk = Some x ->
  in_unsigned_long old (mkReader o (mkStream (tk :: rest) false) vs dt dn)
  = (mkReader o (mkStream rest false) vs dt dn, Ok x).
Proof.
  intros Hx. unfold in_unsigned_long, extract_unsigned.
  cbn [file failbit tokens]. unfold parse_unsigned in Hx.
  destruct (scan_unsigned ULONG_MAX tk) as [y []]; [|discriminate].
  injection Hx as ->. reflexivity.
Qed.

Lemma in_unsigned_long_end old o b vs dt dn :
  in_unsigned_long old (mkReader o (mkStream [] b) vs dt dn)
  = (mkReader o (mkStream [] true) vs dt dn, Ok old).
Proof. destruct b; reflexivity. Qed.

Lemma in_number_run {A} (parse : string -> option A) zero old x
    o tk rest vs dt dn :
  parse tk = Some x ->
  in_number parse zero old (mkReader o (mkStream (tk :: rest) false) vs dt dn)
  = (mkReader o (mkStream rest false) vs dt dn, Ok x).
Proof.
  intros Hx. unfold in_number, extract_number. cbn [file failbit tokens].
  rewrite Hx. reflexivity.
Qed.

Lemma parse_point_some c p :
  parse_point c = Some p ->
  exists x y z, c = (x, y, z) /\ parse_double x = Some (p3_x p) /\
    parse_double y = Some (p3_y p) /\ parse_double z = Some (p3_z p).
Proof.
  destruct c as [[x y] z]. unfold parse_point.
  destruct (parse_double x) as [a|] eqn:Ha; [|discriminate].
  destruct (parse_double y) as [b|] eqn:Hb; [|discriminate].
  destruct (parse_double z) as [c|] eqn:Hc; [|discriminate].
  intros [= <-]. exists x, y, z. simpl. auto.
Qed.

Lemma parse_cell_some c v :
  parse_cell c = Some v ->
  exists v0 v1 v2, c = (v0, v1, v2) /\ parse_unsigned ULONG_MAX v0 = Some (at3 v 0) /\
    parse_unsigned ULONG_MAX v1 = Some (at3 v 1) /\ parse_unsigned ULONG_MAX v2 = Some (at3 v 2).
Proof.
  destruct c as [[v0 v1] v2]. unfold parse_cell.
  destruct (parse_unsigned ULONG_MAX v0) as [a|] eqn:Ha; [|discriminate].
  destruct (parse_unsigned ULONG_MAX v1) as [b|] eqn:Hb; [|discriminate].
  destruct (parse_unsigned ULONG_MAX v2) as [c|] eqn:Hc; [|discriminate].
  intros [= <-]. exists v0, v1, v2. simpl. auto.
Qed.

Lemma in_s_end o b vs dt dn :
  in_s (mkReader o (mkStream [] b) vs dt dn)
  = (mkReader o (mkStream [] true) vs dt dn, Ok tt).
Proof. destruct b; reflexivity. Qed.

Lemma in_number_end {A} (parse : string -> option A) zero old o b vs dt dn :
  in_number parse zero old (mkReader o (mkStream [] b) vs dt dn)
  = (mkReader o (mkStream [] true) vs dt dn, Ok old).
Proof. destruct b; reflexivity. Qed.

Lemma take_drop_min {A} (new old : list A) k :
  (length new <= k)%nat ->
  take (k `min` length new) new ++ drop (k `min` length new) old
  = new ++ drop (length new) old.
Proof.
  intros Hk. rewrite Nat.min_r by lia. rewrite take_ge by lia. reflexivity.
Qed.

(** The [POINTS] section on a block whose count is [count] and whose
    numerals make up the points [pts]: all of them, or fewer when the file
    ends there. The points that are not read keep what [resize] has left. *)
Lemma read_points_upto o n count ty coords pts rest vs dt dn :
  parse_unsigned UINT_MAX n = Some count ->
  mapM parse_point coords = Some pts ->
  (length coords <= count)%nat ->
  ((length coords < count)%nat -> rest = []) ->
  read_points (mkReader o (mkStream (n :: ty :: concat (map point_tokens coords)
                                       ++ rest) false) vs dt dn)
  = (mkReader
       (set_points (fun old => pts ++ drop (length pts) (resize count pt_zero old)) o)
       (mkStream rest (bool_decide (length coords < count)%nat)) ty dt dn, Ok tt).
Proof.
  intros Hn Hpts Hle Hrest. apply mapM_Some_1 in Hpts.
  pose proof (Forall2_length _ _ _ Hpts) as Hlen.
  destruct o as [ps ts cf pf cvf tc].
  unfold read_points.
  rewrite (bind_ok _ _ _ _ _ (in_count_run _ _ _ _ _ _ _ Hn)).
  rewrite (bind_ok _ _ _ _ _ (in_s_run _ _ _ _ _ _)).
  unfold read_var. rewrite bind_ret.
  unfold on_obj at 1. rewrite bind_modify. cbn [obj file var_s var_data_type var_data_name].
  unfold set_points at 1. cbn [points triangles cell_fields point_fields
                                cell_vector_fields triangle_cache].
  set (l0 := resize count pt_zero ps).
  assert (Hl0 : length l0 = count) by apply length_resize.
  set (f := fun k =>
    mkReader (I3.mk (take (k `min` length pts) pts ++ drop (k `min` length pts) l0)
                    ts cf pf cvf tc)
             (mkStream (concat (map point_tokens (drop k coords)) ++ rest)
                       (bool_decide (length coords < k)%nat))
             ty dt dn).
  unfold for_loop.
  refine (eq_trans (for_from_chain _ count f 0%nat _) _).
  - intros k Hk. simpl Nat.add. unfold f.
    destruct (decide (k < length coords)%nat) as [Hin|Hout].
    + rewrite !Nat.min_l by lia.
      rewrite (bool_decide_eq_false_2 (length coords < k)%nat) by lia.
      rewrite (bool_decide_eq_false_2 (length coords < S k)%nat) by lia.
      destruct (lookup_lt_is_Some_2 coords k Hin) as [c Hc].
      destruct (Forall2_lookup_l _ _ _ _ _ Hpts Hc) as (p & Hp & Hcp).
      destruct (parse_point_some _ _ Hcp) as (x & y & z & -> & Hx & Hy & Hz).
      destruct p as [px py pz]. cbn [p3_x p3_y p3_z] in Hx, Hy, Hz.
      rewrite (drop_S _ _ _ Hc). cbn [map concat point_tokens app].
      rewrite bind_get. cbn [obj points].
      destruct (lookup_lt_is_Some_2 l0 k ltac:(lia)) as [q Hq].
      rewrite (bind_index_ok _ k q)
        by (rewrite lookup_take_drop by lia; exact Hq).
      rewrite (bind_ok _ _ _ _ _ (in_number_run _ _ _ _ _ _ _ _ _ _ Hx)).
      rewrite (bind_ok _ _ _ _ _ (in_number_run _ _ _ _ _ _ _ _ _ _ Hy)).
      rewrite (bind_ok _ _ _ _ _ (in_number_run _ _ _ _ _ _ _ _ _ _ Hz)).
      unfold on_obj, modify, set_points.
      cbn [obj file var_s var_data_type var_data_name points triangles
           cell_fields point_fields cell_vector_fields triangle_cache].
      rewrite (insert_take_drop pts l0 k _ Hp ltac:(lia)). reflexivity.
    + rewrite (Hrest ltac:(lia)).
      rewrite !take_drop_min by lia.
      rewrite !(drop_ge coords) by lia. cbn [map concat app].
      rewrite (bool_decide_eq_true_2 (length coords < S k)%nat) by lia.
      rewrite bind_get. cbn [obj points].
      destruct (lookup_lt_is_Some_2 (pts ++ drop (length pts) l0) k) as [p Hp].
      { rewrite length_app, length_drop. lia. }
      rewrite (bind_index_ok _ k p) by exact Hp.
      rewrite (bind_ok _ _ _ _ _ (in_number_end _ _ _ _ _ _ _ _)).
      rewrite (bind_ok _ _ _ _ _ (in_number_end _ _ _ _ _ _ _ _)).
      rewrite (bind_ok _ _ _ _ _ (in_number_end _ _ _ _ _ _ _ _)).
      unfold on_obj, modify, set_points.
      cbn [obj file var_s var_data_type var_data_name points triangles
           cell_fields point_fields cell_vector_fields triangle_cache].
      destruct p as [px py pz]. cbn [p3_x p3_y p3_z].
      rewrite (list_insert_id _ _ _ Hp). reflexivity.
  - unfold f, set_points. cbn [points triangles cell_fields point_fields
                                cell_vector_fields triangle_cache].
    rewrite take_drop_min by lia. rewrite (drop_ge coords) by lia. reflexivity.
Qed.

(** The [POINTS] section of a well-formed block. *)
Lemma read_points_run o n ty coords pts rest vs dt dn :
  parse_unsigned UINT_MAX n = Some (length coords) ->
  mapM parse_point coords = Some pts ->
  read_points (mkReader o (mkStream (n :: ty :: concat (map point_tokens coords)
                                       ++ rest) false) vs dt dn)
  = (mkReader (set_points (fun _ => pts) o) (mkStream rest false) ty dt dn, Ok tt).
Proof.
  intros Hn Hpts.
  rewrite (read_points_upto o n (length coords) ty coords pts rest vs dt dn
             Hn Hpts ltac:(lia) ltac:(lia)).
  apply mapM_Some_1, Forall2_length in Hpts.
  rewrite bool_decide_eq_false_2 by lia.
  unfold set_points. rewrite drop_ge by (rewrite length_resize; lia).
  rewrite app_nil_r. reflexivity.
Qed.

(** The [CELLS] section on a block whose count is [count] and whose rows
    make up the triangles [tris]: all of them, or fewer, but at least one,
    when the file ends there. *)
Lemma read_cells_upto o n count size rows tris rest vs dt dn :
  parse_unsigned UINT_MAX n = Some count ->
  mapM parse_cell rows = Some tris ->
  (length rows <= count)%nat ->
  ((length rows < count)%nat -> rest = [] /\ (0 < length rows)%nat) ->
  read_cells (mkReader o (mkStream (n :: size :: concat (map cell_tokens rows)
                                      ++ rest) false) vs dt dn)
  = (mkReader
       (set_triangles
          (fun old => tris ++ drop (length tris)
                                   (resize count ((0, 0, 0)%nat : array3 nat) old)) o)
       (mkStream rest (bool_decide (length rows < count)%nat))
       (if bool_decide (count = 0)%nat then size else "3") dt dn, Ok tt).
Proof.
  intros Hn Htris Hle Hrest. apply mapM_Some_1 in Htris.
  pose proof (Forall2_length _ _ _ Htris) as Hlen.
  destruct o as [ps ts cf pf cvf tc].
  unfold read_cells.
  rewrite (bind_ok _ _ _ _ _ (in_count_run _ _ _ _ _ _ _ Hn)).
  rewrite (bind_ok _ _ _ _ _ (in_s_run _ _ _ _ _ _)).
  unfold read_var. rewrite bind_ret.
  unfold on_obj at 1. rewrite bind_modify. cbn [obj file var_s var_data_type var_data_name].
  unfold set_triangles at 1. cbn [points triangles cell_fields point_fields
                                   cell_vector_fields triangle_cache].
  set (l0 := (resize count ((0, 0, 0)%nat : array3 nat) ts : list (array3 nat))).
  assert (Hl0 : length l0 = count) by apply (length_resize (A := array3 nat)).
  set (f := fun k =>
    mkReader (I3.mk ps (take (k `min` length tris) tris
                          ++ drop (k `min` length tris) l0) cf pf cvf tc)
             (mkStream (concat (map cell_tokens (drop k rows)) ++ rest)
                       (bool_decide (length rows < k)%nat))
             (if bool_decide (k = 0)%nat then size else "3") dt dn).
  unfold for_loop.
  refine (eq_trans (for_from_chain _ count f 0%nat _) _).
  - intros k Hk. simpl Nat.add. unfold f.
    rewrite (bool_decide_eq_false_2 (S k = 0)%nat) by lia.
    destruct (decide (k < length rows)%nat) as [Hin|Hout].
    + rewrite !Nat.min_l by lia.
      rewrite (bool_decide_eq_false_2 (length rows < k)%nat) by lia.
      rewrite (bool_decide_eq_false_2 (length rows < S k)%nat) by lia.
      destruct (lookup_lt_is_Some_2 rows k Hin) as [c Hc].
      destruct (Forall2_lookup_l _ _ _ _ _ Htris Hc) as (v & Hv & Hcv).
      destruct (parse_cell_some _ _ Hcv) as (v0 & v1 & v2 & -> & H0 & H1 & H2).
      destruct v as [[a b] c]. cbn [at3] in H0, H1, H2.
      rewrite (drop_S _ _ _ Hc). cbn [map concat cell_tokens app].
      rewrite (bind_ok _ _ _ _ _ (in_s_run _ _ _ _ _ _)).
      rewrite bind_gets. cbn [var_s].
      rewrite (bool_decide_eq_false_2 ("3" <> "3"))
        by (intros Hne; apply Hne; reflexivity).
      rewrite bind_get. cbn [obj triangles].
      assert (Hkl : (k < length l0)%nat) by (rewrite Hl0; exact Hk).
      destruct (lookup_lt_is_Some_2 l0 k Hkl) as [q Hq].
      rewrite (bind_index_ok _ k q)
        by (rewrite (lookup_take_drop tris l0 k) by (rewrite <- Hlen; lia);
            exact Hq).
      rewrite (bind_ok _ _ _ _ _ (in_unsigned_long_run _ _ _ _ _ _ _ _ H0)).
      rewrite (bind_ok _ _ _ _ _ (in_unsigned_long_run _ _ _ _ _ _ _ _ H1)).
      rewrite (bind_ok _ _ _ _ _ (in_unsigned_long_run _ _ _ _ _ _ _ _ H2)).
      unfold on_obj, modify, set_triangles.
      cbn [obj file var_s var_data_type var_data_name points triangles
           cell_fields point_fields cell_vector_fields triangle_cache].
      do 3 f_equal. apply insert_take_drop; [exact Hv|exact Hkl].
    + destruct (Hrest ltac:(lia)) as [-> Hrow].
      rewrite !(take_drop_min tris l0) by (rewrite <- Hlen; lia).
      rewrite !(drop_ge rows) by lia. cbn [map concat app].
      rewrite (bool_decide_eq_true_2 (length rows < S k)%nat) by lia.
      rewrite (bool_decide_eq_false_2 (k = 0)%nat) by lia.
      rewrite (bind_ok _ _ _ _ _ (in_s_end _ _ _ _ _)).
      rewrite bind_gets. cbn [var_s].
      rewrite (bool_decide_eq_false_2 ("3" <> "3"))
        by (intros Hne; apply Hne; reflexivity).
      rewrite bind_get. cbn [obj triangles].
      destruct (lookup_lt_is_Some_2 (tris ++ drop (length tris) l0) k) as [v Hv].
      { rewrite length_app, length_drop, Hl0, <- Hlen. lia. }
      rewrite (bind_index_ok _ k v) by exact Hv.
      rewrite (bind_ok _ _ _ _ _ (in_unsigned_long_end _ _ _ _ _ _)).
      rewrite (bind_ok _ _ _ _ _ (in_unsigned_long_end _ _ _ _ _ _)).
      rewrite (bind_ok _ _ _ _ _ (in_unsigned_long_end _ _ _ _ _ _)).
      unfold on_obj, modify, set_triangles.
      cbn [obj file var_s var_data_type var_data_name points triangles
           cell_fields point_fields cell_vector_fields triangle_cache].
      do 3 f_equal. destruct v as [[a b] c]. cbn [at3].
      apply (list_insert_id _ _ _ Hv).
  - unfold f, set_triangles. cbn [points triangles cell_fields point_fields
                                   cell_vector_fields triangle_cache].
    rewrite (take_drop_min tris l0) by (rewrite <- Hlen; lia).
    rewrite (drop_ge rows) by lia. reflexivity.
Qed.

(** The [CELLS] section of a well-formed block. *)
Lemma read_cells_run o n size rows tris rest vs dt dn :
  parse_unsigned UINT_MAX n = Some (length rows) ->
  mapM parse_cell rows = Some tris ->
  exists vs',
    read_cells (mkReader o (mkStream (n :: size :: concat (map cell_tokens rows)
                                        ++ rest) false) vs dt dn)
    = (mkReader (set_triangles (fun _ => tris) o) (mkStream rest false) vs' dt dn,
       Ok tt).
Proof.
  intros Hn Htris.
  exists (if bool_decide (length rows = 0)%nat then size else "3").
  rewrite (read_cells_upto o n (length rows) size rows tris rest vs dt dn
             Hn Htris ltac:(lia) ltac:(lia)).
  apply mapM_Some_1, Forall2_length in Htris.
  rewrite (bool_decide_eq_false_2 (length rows < length rows)%nat) by lia.
  unfold set_triangles.
  rewrite drop_ge by (rewrite (length_resize (A := array3 nat)); lia).
  rewrite app_nil_r. reflexivity.
Qed.

(** The values of a field of a well-formed block. *)
Lemma read_field_values_run o dt name values o' rest vs :
  decode_values dt name values o = Some o' ->
  read_field_values (mkReader o (mkStream (values ++ rest) false) vs dt name)
  = (mkReader o' (mkStream rest false) vs dt name, Ok tt).
Proof.
  unfold decode_values.
  destruct (mapM parse_double values) as [vals|] eqn:Hvals; [|discriminate].
  apply mapM_Some_1 in Hvals.
  pose proof (Forall2_length _ _ _ Hvals) as Hlen.
  destruct o as [ps ts cf pf cvf tc].
  cbn [points triangles]. intros Hdec.
  unfold read_field_values. rewrite bind_get. cbv zeta.
  cbn [obj var_data_type var_data_name points triangles].
  destruct (bool_decide (dt = "CELL_DATA")) eqn:Hcell.
  - destruct (bool_decide (length vals = length ts)) eqn:HN; [|discriminate].
    apply bool_decide_eq_true_1 in HN. injection Hdec as <-.
    unfold on_obj at 1. rewrite bind_modify.
    unfold on_obj at 1. rewrite bind_modify.
    unfold set_cell_fields.
    cbn [obj file var_s var_data_type var_data_name points triangles
         cell_fields point_fields cell_vector_fields triangle_cache].
    rewrite alter_map_subscript.
    set (l0 := resize (length ts) 0 (default [] (cf !! name))).
    assert (Hl0 : length l0 = length ts) by apply length_resize.
    set (f := fun k =>
      mkReader (I3.mk ps ts (<[name := take k vals ++ drop k l0]> cf) pf cvf tc)
               (mkStream (drop k values ++ rest) false) vs dt name).
    unfold for_loop.
    refine (eq_trans (for_from_chain _ (length ts) f 0%nat _) _).
    + intros k Hk. simpl Nat.add. unfold f.
      destruct (lookup_lt_is_Some_2 values k ltac:(lia)) as [w Hw].
      destruct (Forall2_lookup_l _ _ _ _ _ Hvals Hw) as (x & Hx & Hwx).
      rewrite (drop_S _ _ _ Hw). cbn [app].
      rewrite bind_get. cbn [obj cell_fields].
      rewrite lookup_insert_eq. cbn [default from_option Datatypes.id].
      destruct (lookup_lt_is_Some_2 l0 k ltac:(lia)) as [q Hq].
      rewrite (bind_index_ok _ k q)
        by (rewrite lookup_take_drop by lia; exact Hq).
      rewrite (bind_ok _ _ _ _ _ (in_number_run _ _ _ _ _ _ _ _ _ _ Hwx)).
      unfold on_obj, modify, set_cell_fields.
      cbn [obj file var_s var_data_type var_data_name points triangles
           cell_fields point_fields cell_vector_fields triangle_cache].
      rewrite alter_insert_eq.
      rewrite (insert_take_drop vals l0 k x Hx ltac:(lia)). reflexivity.
    + unfold f, set_cell_fields.
      cbn [points triangles cell_fields point_fields cell_vector_fields
           triangle_cache].
      rewrite <- HN at 1 2. rewrite take_drop_all by lia.
      rewrite drop_ge by lia. reflexivity.
  - destruct (bool_decide (length vals = length ps)) eqn:HN; [|discriminate].
    apply bool_decide_eq_true_1 in HN. injection Hdec as <-.
    unfold on_obj at 1. rewrite bind_modify.
    unfold on_obj at 1. rewrite bind_modify.
    unfold set_point_fields.
    cbn [obj file var_s var_data_type var_data_name points triangles
         cell_fields point_fields cell_vector_fields triangle_cache].
    rewrite alter_map_subscript.
    set (l0 := resize (length ps) 0 (default [] (pf !! name))).
    assert (Hl0 : length l0 = length ps) by apply length_resize.
    set (f := fun k =>
      mkReader (I3.mk ps ts cf (<[name := take k vals ++ drop k l0]> pf) cvf tc)
               (mkStream (drop k values ++ rest) false) vs dt name).
    unfold for_loop.
    refine (eq_trans (for_from_chain _ (length ps) f 0%nat _) _).
    + intros k Hk. simpl Nat.add. unfold f.
      destruct (lookup_lt_is_Some_2 values k ltac:(lia)) as [w Hw].
      destruct (Forall2_lookup_l _ _ _ _ _ Hvals Hw) as (x & Hx & Hwx).
      rewrite (drop_S _ _ _ Hw). cbn [app].
      rewrite bind_get. cbn [obj point_fields].
      rewrite lookup_insert_eq. cbn [default from_option Datatypes.id].
      destruct (lookup_lt_is_Some_2 l0 k ltac:(lia)) as [q Hq].
      rewrite (bind_index_ok _ k q)
        by (rewrite lookup_take_drop by lia; exact Hq).
      rewrite (bind_ok _ _ _ _ _ (in_number_run _ _ _ _ _ _ _ _ _ _ Hwx)).
      unfold on_obj, modify, set_point_fields.
      cbn [obj file var_s var_data_type var_data_name points triangles
           cell_fields point_fields cell_vector_fields triangle_cache].
      rewrite alter_insert_eq.
      rewrite (insert_take_drop vals l0 k x Hx ltac:(lia)). reflexivity.
    + unfold f, set_point_fields.
      cbn [points triangles cell_fields point_fields cell_vector_fields
           triangle_cache].
      rewrite <- HN at 1 2. rewrite take_drop_all by lia.
      rewrite drop_ge by lia. reflexivity.
Qed.

(** The arrays of a well-formed [FIELD] block. *)
Lemma field_arrays_run dt arrays :
  forall lo o o' rest vs dn,
  decode_arrays dt arrays o = Some o' ->
  exists vs' dn',
    for_from lo (length arrays)
      (fun _ => in_data_name >> in_s >> in_s >> in_s >> read_field_values)
      (mkReader o (mkStream (concat (map array_tokens arrays) ++ rest) false)
                vs dt dn)
    = (mkReader o' (mkStream rest false) vs' dt dn', Ok tt).
Proof.
  induction arrays as [|[[[[name h1] h2] h3] values] arrays IH];
    intros lo o o' rest vs dn Hdec.
  - injection Hdec as <-. exists vs, dn. reflexivity.
  - simpl in Hdec.
    destruct (decode_values dt name values o) as [o1|] eqn:Hv; [|discriminate].
    destruct (IH (S lo) o1 o' rest h3 name Hdec) as (vs' & dn' & Hrun).
    exists vs', dn'. cbn [length for_from map concat array_tokens app].
    rewrite <- app_assoc.
    assert (Hbody :
      (in_data_name >> in_s >> in_s >> in_s >> read_field_values)
        (mkReader o (mkStream (name :: h1 :: h2 :: h3 :: values
                                 ++ concat (map array_tokens arrays) ++ rest)
                              false) vs dt dn)
      = (mkReader o1 (mkStream (concat (map array_tokens arrays) ++ rest) false)
                  h3 dt name, Ok tt)).
    { rewrite (bind_ok _ _ _ _ _ (in_data_name_run _ _ _ _ _ _)).
      rewrite (bind_ok _ _ _ _ _ (in_s_run _ _ _ _ _ _)).
      rewrite (bind_ok _ _ _ _ _ (in_s_run _ _ _ _ _ _)).
      rewrite (bind_ok _ _ _ _ _ (in_s_run _ _ _ _ _ _)).
      apply read_field_values_run. exact Hv. }
    rewrite (bind_ok _ _ _ _ _ Hbody). exact Hrun.
Qed.

Ltac decide_keyword :=
  repeat match goal with
         | |- context [bool_decide (?a = ?b)] =>
             first [ rewrite (bool_decide_eq_true_2 (a = b)) by reflexivity
                   | rewrite (bool_decide_eq_false_2 (a = b)) by discriminate ]
         end;
  cbn [orb].

(** One round of the loop of [read_vtk] on a well-formed block: [tk] is
    the token that the loop condition has stored in [s]. *)
Lemma block_run b o dt o' dt' rest dn :
  decode_block b (o, dt) = Some (o', dt') ->
  exists tk toks vs' dn',
    vtk_block_tokens b ++ rest = tk :: toks /\
    vtk_section (mkReader o (mkStream toks false) tk dt dn)
    = (mkReader o' (mkStream rest false) vs' dt' dn', Ok tt).
Proof.
  intros Hdec. destruct b as [w|n ty coords|n size rows
                              |name ty lookup table values|word n arrays];
    cbn [decode_block] in Hdec.
  - destruct (bool_decide (w = "POINTS")) eqn:H1; [discriminate|].
    destruct (bool_decide (w = "CELLS")) eqn:H2; [discriminate|].
    destruct (bool_decide (w = "SCALARS")) eqn:H3; [discriminate|].
    destruct (bool_decide (w = "FIELD")) eqn:H4; [discriminate|].
    cbn [orb] in Hdec.
    exists w, rest, w, dn. split; [reflexivity|].
    unfold vtk_section. rewrite bind_gets. cbn [var_s]. rewrite H1, H2.
    destruct (bool_decide (w = "CELL_DATA") || bool_decide (w = "POINT_DATA"));
      injection Hdec as <- <-.
    + unfold set_data_type. rewrite bind_modify.
      cbn [obj file var_s var_data_type var_data_name].
      rewrite bind_gets. cbn [var_s]. rewrite H3, bind_ret.
      rewrite bind_gets. cbn [var_s]. rewrite H4. reflexivity.
    + rewrite bind_ret.
      rewrite bind_gets. cbn [var_s]. rewrite H3, bind_ret.
      rewrite bind_gets. cbn [var_s]. rewrite H4. reflexivity.
  - destruct (mapM parse_point coords) as [pts|] eqn:Hpts; [|discriminate].
    destruct (bool_decide (parse_unsigned UINT_MAX n = Some (length coords))) eqn:Hn;
      [|discriminate].
    apply bool_decide_eq_true_1 in Hn. injection Hdec as <- <-.
    exists "POINTS", (n :: ty :: concat (map point_tokens coords) ++ rest), ty, dn.
    split; [reflexivity|].
    unfold vtk_section. rewrite bind_gets. cbn [var_s]. decide_keyword.
    apply read_points_run; assumption.
  - destruct (mapM parse_cell rows) as [tris|] eqn:Htris; [|discriminate].
    destruct (bool_decide (parse_unsigned UINT_MAX n = Some (length rows))) eqn:Hn;
      [|discriminate].
    apply bool_decide_eq_true_1 in Hn. injection Hdec as <- <-.
    destruct (read_cells_run o n size rows tris rest "CELLS" dt dn Hn Htris)
      as [vs' Hrun].
    exists "CELLS", (n :: size :: concat (map cell_tokens rows) ++ rest), vs', dn.
    split; [reflexivity|].
    unfold vtk_section. rewrite bind_gets. cbn [var_s]. decide_keyword.
    exact Hrun.
  - destruct (bool_decide (table = "FIELD")) eqn:Htable; [discriminate|].
    destruct (decode_values dt name values o) as [o1|] eqn:Hv; [|discriminate].
    injection Hdec as <- <-.
    exists "SCALARS", (name :: ty :: lookup :: table :: values ++ rest),
      table, name.
    split; [reflexivity|].
    unfold vtk_section. rewrite bind_gets. cbn [var_s]. decide_keyword.
    rewrite bind_ret. rewrite bind_gets. cbn [var_s]. decide_keyword.
    assert (Hbody :
      (in_data_name >> in_s >> in_s >> in_s >> read_field_values)
        (mkReader o (mkStream (name :: ty :: lookup :: table :: values ++ rest)
                              false) "SCALARS" dt dn)
      = (mkReader o1 (mkStream rest false) table dt name, Ok tt)).
    { rewrite (bind_ok _ _ _ _ _ (in_data_name_run _ _ _ _ _ _)).
      rewrite (bind_ok _ _ _ _ _ (in_s_run _ _ _ _ _ _)).
      rewrite (bind_ok _ _ _ _ _ (in_s_run _ _ _ _ _ _)).
      rewrite (bind_ok _ _ _ _ _ (in_s_run _ _ _ _ _ _)).
      apply read_field_values_run. exact Hv. }
    rewrite (bind_ok _ _ _ _ _ Hbody).
    rewrite bind_gets. cbn [var_s]. rewrite Htable. reflexivity.
  - destruct (bool_decide (parse_unsigned UINT_MAX n = Some (length arrays))) eqn:Hn;
      [|discriminate].
    apply bool_decide_eq_true_1 in Hn.
    destruct (decode_arrays dt arrays o) as [o1|] eqn:Ha; [|discriminate].
    injection Hdec as <- <-.
    destruct (field_arrays_run dt arrays 0%nat o o1 rest word dn Ha)
      as (vs' & dn' & Hrun).
    exists "FIELD", (word :: n :: concat (map array_tokens arrays) ++ rest),
      vs', dn'.
    split; [reflexivity|].
    unfold vtk_section. rewrite bind_gets. cbn [var_s]. decide_keyword.
    rewrite bind_ret. rewrite bind_gets. cbn [var_s]. decide_keyword.
    rewrite bind_ret. rewrite bind_gets. cbn [var_s]. decide_keyword.
    rewrite (bind_ok _ _ _ _ _ (in_s_run _ _ _ _ _ _)).
    rewrite (bind_ok _ _ _ _ _ (in_count_run _ _ _ _ _ _ _ Hn)).
    unfold read_var. rewrite bind_ret. exact Hrun.
Qed.

Lemma vtk_tokens_length bs : (length bs <= length (vtk_tokens bs))%nat.
Proof.
  induction bs as [|b bs IH]; [reflexivity|].
  change (vtk_tokens (b :: bs)) with (vtk_block_tokens b ++ vtk_tokens bs).
  rewrite length_app. destruct b; simpl; lia.
Qed.

(** The loop of [read_vtk] on the tokens of well-formed blocks. *)
Lemma blocks_run bs :
  forall fuel o dt o' dt' vs dn,
  decode_blocks bs (o, dt) = Some (o', dt') -> (length bs < fuel)%nat ->
  exists vs' dn',
    while_extract fuel vtk_section
                  (mkReader o (mkStream (vtk_tokens bs) false) vs dt dn)
    = Some (mkReader o' (mkStream [] true) vs' dt' dn', Ok tt).
Proof.
  induction bs as [|b bs IH]; intros fuel o dt o' dt' vs dn Hdec Hfuel;
    (destruct fuel as [|fuel]; [simpl in Hfuel; lia|]).
  - simpl in Hdec. injection Hdec as <- <-. exists vs, dn. reflexivity.
  - cbn [decode_blocks] in Hdec.
    destruct (decode_block b (o, dt)) as [[o1 dt1]|] eqn:Hb; [|discriminate].
    destruct (block_run b o dt o1 dt1 (vtk_tokens bs) dn Hb)
      as (tk & toks & vs1 & dn1 & Htok & Hrun).
    destruct (IH fuel o1 dt1 o' dt' vs1 dn1 Hdec ltac:(simpl in Hfuel; lia))
      as (vs' & dn' & Hloop).
    exists vs', dn'. rewrite while_extract_step.
    change (vtk_tokens (b :: bs)) with (vtk_block_tokens b ++ vtk_tokens bs).
    rewrite Htok, in_s_run. cbn [fst file failbit]. rewrite Hrun. exact Hloop.
Qed.

(** X25. [read_vtk] loads a well-formed legacy VTK file as it stands. When
    the tokens of the file are a sequence of blocks that decodes to the
    surface [raw], starting from the empty surface (a [POINTS] block sets
    the points and a [CELLS] block of triangles the triangles, each with as
    many entries as its count says; a [SCALARS] block or an array of a
    [FIELD] block sets the field of its name to its values, as a cell field
    after [CELL_DATA] and as a point field otherwise, with one value per
    cell or per point; every other token is skipped), then on any
    interpolator the call is [preprocess] on [raw]. *)
Theorem read_vtk_loads_blocks bs raw data_type s :
  decode_blocks bs (I3.empty, "") = Some (raw, data_type) ->
  read_vtk (Some (vtk_tokens bs)) s = preprocess raw.
Proof.
  intros Hdec. unfold read_vtk. rewrite (bind_ok _ _ _ _ _ (clear_run s)).
  destruct (blocks_run bs (S (length (vtk_tokens bs))) I3.empty "" raw
              data_type "" "" Hdec) as (vs' & dn' & Hloop).
  { pose proof (vtk_tokens_length bs). lia. }
  rewrite Hloop. reflexivity.
Qed.

(** ** [read_vtk]: a file that ends inside a block *)

Lemma blocks_prefix_run bs :
  forall fuel o dt o' dt' vs dn rest,
  decode_blocks bs (o, dt) = Some (o', dt') ->
  exists vs' dn',
    while_extract (length bs + fuel) vtk_section
                  (mkReader o (mkStream (vtk_tokens bs ++ rest) false) vs dt dn)
    = while_extract fuel vtk_section
                    (mkReader o' (mkStream rest false) vs' dt' dn').
Proof.
  induction bs as [|b bs IH]; intros fuel o dt o' dt' vs dn rest Hdec.
  - simpl in Hdec. injection Hdec as <- <-. exists vs, dn. reflexivity.
  - cbn [decode_blocks] in Hdec.
    destruct (decode_block b (o, dt)) as [[o1 dt1]|] eqn:Hb; [|discriminate].
    destruct (block_run b o dt o1 dt1 (vtk_tokens bs ++ rest) dn Hb)
      as (tk & toks & vs1 & dn1 & Htok & Hrun).
    destruct (IH fuel o1 dt1 o' dt' vs1 dn1 rest Hdec) as (vs' & dn' & Hloop).
    exists vs', dn'. cbn [length Nat.add]. rewrite while_extract_step.
    change (vtk_tokens (b :: bs)) with (vtk_block_tokens b ++ vtk_tokens bs).
    rewrite <- app_assoc, Htok, in_s_run. cbn [fst file failbit].
    rewrite Hrun. exact Hloop.
Qed.

Lemma vtk_section_points r :
  var_s r = "POINTS" -> vtk_section r = read_points r.
Proof.
  intros Hs. unfold vtk_section. rewrite bind_gets, Hs. decide_keyword.
  reflexivity.
Qed.

Lemma vtk_section_cells r :
  var_s r = "CELLS" -> vtk_section r = read_cells r.
Proof.
  intros Hs. unfold vtk_section. rewrite bind_gets, Hs. decide_keyword.
  reflexivity.
Qed.

(** [read_vtk] on well-formed blocks followed by a last block of at least
    three tokens: the loop runs on the last block with the surface of the
    first ones. *)
Lemma read_vtk_last_block bs raw data_type tk t1 t2 last s :
  decode_blocks bs (I3.empty, "") = Some (raw, data_type) ->
  exists dn fuel,
    read_vtk (Some (vtk_tokens bs ++ tk :: t1 :: t2 :: last)) s
    = match vtk_section (mkReader raw (mkStream (t1 :: t2 :: last) false)
                                  tk data_type dn) with
      | (r, Ok _) =>
          match while_extract (S fuel) vtk_section r with
          | Some (r', Ok _) => preprocess (obj r')
          | Some (r', Throw e) => (obj r', Throw e)
          | None => (I3.empty, Throw UndefinedBehaviour)
          end
      | (r, Throw e) => (obj r, Throw e)
      end.
Proof.
  intros Hdec. unfold read_vtk. rewrite (bind_ok _ _ _ _ _ (clear_run s)).
  assert (Hfuel : exists d,
            S (length (vtk_tokens bs ++ tk :: t1 :: t2 :: last))
            = (length bs + S (S d))%nat).
  { exists (length (vtk_tokens bs) - length bs + S (S (length last)))%nat.
    pose proof (vtk_tokens_length bs). rewrite length_app. simpl. lia. }
  destruct Hfuel as [d ->].
  destruct (blocks_prefix_run bs (S (S d)) I3.empty "" raw data_type "" ""
              (tk :: t1 :: t2 :: last) Hdec) as (vs & dn & ->).
  exists dn, d. rewrite while_extract_step, in_s_run.
  cbn [fst file failbit].
  destruct (vtk_section _) as [r [[]|e]]; reflexivity.
Qed.

Lemma while_extract_at_end fuel o b vs dt dn :
  while_extract (S fuel) vtk_section (mkReader o (mkStream [] b) vs dt dn)
  = Some (mkReader o (mkStream [] true) vs dt dn, Ok tt).
Proof. rewrite while_extract_step, in_s_end. reflexivity. Qed.

(** X26. [read_vtk] does not report a file that ends inside its [POINTS] or
    [CELLS] block. After well-formed blocks that decode to [raw], a last
    [POINTS] block with fewer points than its count [count] gives the call
    on [raw] resized to [count] points, of which the first are the ones
    read: the missing points are the zero points that [resize] adds. A last
    [CELLS] block with fewer rows than its count, but at least one, gives
    in the same way [count] triangles, the missing ones with the vertex
    indices (0, 0, 0) that [resize] adds. With no row at all the token read
    last stands where 3 is expected, and the call throws
    [std::runtime_error] unless that token is 3. *)
Theorem read_vtk_truncated_block bs raw data_type n count ty s :
  decode_blocks bs (I3.empty, "") = Some (raw, data_type) ->
  parse_unsigned UINT_MAX n = Some count ->
  (forall coords pts,
     mapM parse_point coords = Some pts -> (length coords < count)%nat ->
     read_vtk (Some (vtk_tokens bs ++ "POINTS" :: n :: ty ::
                       concat (map point_tokens coords))) s
     = preprocess
         (set_points
            (fun old => pts ++ drop (length pts) (resize count pt_zero old))
            raw)) /\
  (forall rows tris,
     mapM parse_cell rows = Some tris -> (0 < length rows < count)%nat ->
     read_vtk (Some (vtk_tokens bs ++ "CELLS" :: n :: ty ::
                       concat (map cell_tokens rows))) s
     = preprocess
         (set_triangles
            (fun old => tris ++ drop (length tris)
                                     (resize count ((0, 0, 0)%nat : array3 nat) old))
            raw)) /\
  ((0 < count)%nat -> ty <> "3" ->
     read_vtk (Some (vtk_tokens bs ++ ["CELLS"; n; ty])) s
     = (set_triangles (resize count ((0, 0, 0)%nat : array3 nat)) raw,
        Throw (runtime_error ("Triangle expected, numPoints=" +:+ ty +:+ "found")))).
Proof.
  intros Hdec Hn. split; [|split].
  - intros coords pts Hpts Hlt.
    destruct (read_vtk_last_block bs raw data_type "POINTS" n ty
                (concat (map point_tokens coords)) s Hdec)
      as (dn & fuel & ->).
    rewrite vtk_section_points by reflexivity.
    rewrite <- (app_nil_r (concat (map point_tokens coords))).
    rewrite (read_points_upto raw n count ty coords pts [] "POINTS" data_type dn
               Hn Hpts ltac:(lia) ltac:(reflexivity)).
    rewrite while_extract_at_end. reflexivity.
  - intros rows tris Htris Hlt.
    destruct (read_vtk_last_block bs raw data_type "CELLS" n ty
                (concat (map cell_tokens rows)) s Hdec)
      as (dn & fuel & ->).
    rewrite vtk_section_cells by reflexivity.
    rewrite <- (app_nil_r (concat (map cell_tokens rows))).
    rewrite (read_cells_upto raw n count ty rows tris [] "CELLS" data_type dn
               Hn Htris ltac:(lia) ltac:(intros _; split; [reflexivity|lia])).
    rewrite while_extract_at_end. reflexivity.
  - intros Hcount Hty.
    destruct (read_vtk_last_block bs raw data_type "CELLS" n ty [] s Hdec)
      as (dn & fuel & ->).
    rewrite vtk_section_cells by reflexivity.
    unfold read_cells.
    rewrite (bind_ok _ _ _ _ _ (in_count_run _ _ _ _ _ _ _ Hn)).
    rewrite (bind_ok _ _ _ _ _ (in_s_run _ _ _ _ _ _)).
    unfold read_var. rewrite bind_ret.
    unfold on_obj at 1. rewrite bind_modify.
    cbn [obj file var_s var_data_type var_data_name].
    destruct count as [|count]; [lia|].
    unfold for_loop. cbn [for_from].
    rewrite (bind_assoc in_s).
    rewrite (bind_ok _ _ _ _ _ (in_s_end _ _ _ _ _)).
    rewrite bind_assoc, bind_gets. cbn [var_s].
    rewrite (bool_decide_eq_true_2 (ty <> "3")) by exact Hty.
    reflexivity.
Qed.

(** ** [preprocess] on a preprocessed surface *)

Lemma lists_agree {A} (l1 l2 : list A) n :
  length l1 = n -> length l2 = n ->
  (forall j, (j < n)%nat -> exists a, l1 !! j = Some a /\ l2 !! j = Some a) ->
  l1 = l2.
Proof.
  intros H1 H2 Hall. apply list_eq. intros j.
  destruct (decide (j < n)%nat) as [Hj|Hj].
  - destruct (Hall j Hj) as (a & -> & ->). reflexivity.
  - rewrite !lookup_ge_None_2 by lia. reflexivity.
Qed.

(** X27. [preprocess] is idempotent: on the surface that a call of
    [preprocess] has returned, a second call returns too and changes
    nothing, neither the cache nor a field. *)
Theorem preprocess_idempotent s s' :
  preprocess s = (s', Ok tt) -> preprocess s' = (s', Ok tt).
Proof.
  intros Hrun.
  destruct (preprocess_result s s' Hrun) as [Hvalid Hs'].
  destruct Hs' as (Hp & Ht & Hpf & Hc & Hcf & Hvf & fa & fl & fc & fn &
                   Hfa & Hla & Hfl & Hll & Hfc & Hlc & Hfn & Hln & Hdone).
  assert (Hvalid' : indices_valid s').
  { intros j v k Hv Hk. rewrite Hp. apply (Hvalid j v k); [|exact Hk].
    rewrite <- Ht. exact Hv. }
  destruct (preprocess_returns s' Hvalid') as (s'' & Hrun' & Hs'').
  rewrite Hrun'. f_equal.
  destruct Hs'' as (Hp2 & Ht2 & Hpf2 & Hc2 & Hcf2 & Hvf2 & fa2 & fl2 & fc2 & fn2 &
                    Hfa2 & Hla2 & Hfl2 & Hll2 & Hfc2 & Hlc2 & Hfn2 & Hln2 & Hdone2).
  rewrite Ht in Hc2, Hla2, Hll2, Hlc2, Hln2, Hdone2.
  set (n := length (triangles s)) in *.
  assert (Hsame : forall j, (j < n)%nat ->
            exists tr, triangle_cache s' !! j = Some tr /\
                       triangle_cache s'' !! j = Some tr /\
                       fa !! j = Some (Triangle.area tr) /\
                       fa2 !! j = Some (Triangle.area tr) /\
                       fl !! j = Some (Triangle.longest_side tr) /\
                       fl2 !! j = Some (Triangle.longest_side tr) /\
                       fc !! j = Some (Triangle.center tr) /\
                       fc2 !! j = Some (Triangle.center tr) /\
                       fn !! j = Some (Triangle.normal tr) /\
                       fn2 !! j = Some (Triangle.normal tr)).
  { intros j Hj.
    destruct (Hdone j Hj) as (v & tr & Hv & Htr & Hcache & Ha & Hl & Hce & Hno).
    destruct (Hdone2 j Hj)
      as (v2 & tr2 & Hv2 & Htr2 & Hcache2 & Ha2 & Hl2 & Hce2 & Hno2).
    rewrite Hp in Htr2.
    assert (v2 = v) as -> by congruence.
    assert (tr2 = tr) as -> by congruence.
    exists tr. auto 10. }
  assert (Hcache : triangle_cache s'' = triangle_cache s').
  { apply (lists_agree _ _ n Hc2 Hc). intros j Hj.
    destruct (Hsame j Hj) as (tr & ? & ? & _). eauto. }
  assert (Ea : fa2 = fa).
  { apply (lists_agree _ _ n Hla2 Hla). intros j Hj.
    destruct (Hsame j Hj) as (tr & _ & _ & ? & ? & _). eauto. }
  assert (El : fl2 = fl).
  { apply (lists_agree _ _ n Hll2 Hll). intros j Hj.
    destruct (Hsame j Hj) as (tr & _ & _ & _ & _ & ? & ? & _). eauto. }
  assert (Ec : fc2 = fc).
  { apply (lists_agree _ _ n Hlc2 Hlc). intros j Hj.
    destruct (Hsame j Hj) as (tr & _ & _ & _ & _ & _ & _ & ? & ? & _). eauto. }
  assert (En : fn2 = fn).
  { apply (lists_agree _ _ n Hln2 Hln). intros j Hj.
    destruct (Hsame j Hj) as (tr & _ & _ & _ & _ & _ & _ & _ & _ & ? & ?). eauto. }
  subst fa2 fl2 fc2 fn2.
  assert (Hcells : cell_fields s'' = cell_fields s').
  { apply map_eq. intros name.
    destruct (decide (name = "area")) as [->|Ha]; [congruence|].
    destruct (decide (name = "longest_side")) as [->|Hl]; [congruence|].
    apply Hcf2; assumption. }
  assert (Hvectors : cell_vector_fields s'' = cell_vector_fields s').
  { apply map_eq. intros name.
    destruct (decide (name = "center")) as [->|Hce]; [congruence|].
    destruct (decide (name = "normal")) as [->|Hno]; [congruence|].
    apply Hvf2; assumption. }
  destruct s', s''. cbn in Hp2, Ht2, Hpf2, Hcache, Hcells, Hvectors.
  congruence.
Qed.

(** ** [interpolate] on a field that is an affine function of the position *)

Lemma interpolate3_selected_weights s name (targets : list Point3) markers tv0
    out i p :
  cache_of_points s -> areas_positive s ->
  interpolate s PointField name targets markers tv0 = (out, Ok tt) ->
  targets !! i = Some p -> markers !! i = Some true ->
  exists src f v p0 p1 p2 x0 x1 x2 t0 t1 t2,
    field s PointField name = Ok src /\
    selected s (length (triangles s)) p f /\
    triangles s !! j_found f = Some v /\
    triangle_cache s !! j_found f = Some (Triangle.reinit p0 p1 p2) /\
    points s !! at3 v 0 = Some p0 /\ points s !! at3 v 1 = Some p1 /\
    points s !! at3 v 2 = Some p2 /\
    src !! at3 v 0 = Some x0 /\ src !! at3 v 1 = Some x1 /\
    src !! at3 v 2 = Some x2 /\
    0 <= t0 /\ 0 <= t1 /\ 0 <= t2 /\ t0 + t1 + t2 = 1 /\
    Triangle.closest_triangle_point (Triangle.reinit p0 p1 p2) p
    = combination (p0, p1, p2) (t0, t1, t2) /\
    out !! i = Some (Some (t0 * x0 + t1 * x1 + t2 * x2)).
Proof.
  intros [Hstep Hcache] Hareas Hrun Hp Hm.
  destruct (interpolate3_entry s PointField name targets markers tv0 out i p
              Hstep Hrun Hp Hm)
    as (src & f & tr & x & Hsrc & Hsel & Htr & Hpf & Hx & Hout).
  destruct Hx as (tr' & v & x0 & x1 & x2 & Htr' & Hv & H0 & H1 & H2 & Hx).
  assert (tr' = tr) as -> by congruence.
  destruct (Hcache _ _ Hv) as (tr' & Hof & Htr'').
  assert (tr' = tr) as -> by congruence.
  unfold triangle_of in Hof.
  destruct (points s !! at3 v 0) as [p0|] eqn:Hp0; [|discriminate].
  destruct (points s !! at3 v 1) as [p1|] eqn:Hp1; [|discriminate].
  destruct (points s !! at3 v 2) as [p2|] eqn:Hp2; [|discriminate].
  injection Hof as <-.
  pose proof (Hareas _ _ Htr) as Hpos. unfold Triangle.area in Hpos.
  destruct (closest_triangle_point_in_triangle p0 p1 p2 p Hpos)
    as (t0 & t1 & t2 & Ht0 & Ht1 & Ht2 & Hsum & Hcomb).
  rewrite Hpf, Hcomb, (barycentric_of_combination _ _ _ _ _ _ Hpos Hsum) in Hx.
  change (blend3 (Some t0, Some t1, Some t2) x0 x1 x2)
    with (Some (t0 * x0 + t1 * x1 + t2 * x2)) in Hx.
  exists src, f, v, p0, p1, p2, x0, x1, x2, t0, t1, t2.
  repeat (split; [assumption|]).
  rewrite Hout, Hx. reflexivity.
Qed.

Lemma affine_of_combination (a p0 p1 p2 : Point3) b t0 t1 t2 :
  t0 + t1 + t2 = 1 ->
  t0 * (a <.> p0 + b) + t1 * (a <.> p1 + b) + t2 * (a <.> p2 + b)
  = a <.> combination (p0, p1, p2) (t0, t1, t2) + b.
Proof.
  intros Hsum. assert (Ht0 : t0 = 1 - t1 - t2) by lra. subst t0.
  destruct a, p0, p1, p2. unfold combination. simpl. ring.
Qed.

Lemma norm_square3_zero (a b : Point3) : norm_square (a - b)%pt <= 0 -> a = b.
Proof.
  destruct a as [ax ay az], b as [bx by_ bz]. unfold norm_square. simpl.
  intros Hz.
  pose proof (Rle_0_sqr (ax - bx)) as Hx. pose proof (Rle_0_sqr (ay - by_)) as Hy.
  pose proof (Rle_0_sqr (az - bz)) as Hz'. unfold Rsqr in Hx, Hy, Hz'.
  assert (Ex : (ax - bx) * (ax - bx) = 0) by lra.
  assert (Ey : (ay - by_) * (ay - by_) = 0) by lra.
  assert (Ez : (az - bz) * (az - bz) = 0) by lra.
  apply Rmult_integral in Ex, Ey, Ez.
  apply point3_eq; lra.
Qed.

Lemma reinit_longest_nonneg p0 p1 p2 :
  0 <= Triangle.longest_side (Triangle.reinit p0 p1 p2).
Proof.
  unfold Triangle.longest_side. rewrite reinit_longest.
  pose proof (norm3_nonneg (p1 - p0)%pt).
  pose proof (std_max_ge_l (std_max (norm (p1 - p0)%pt) (norm (p2 - p0)%pt))
                (norm (p1 - p2)%pt)).
  pose proof (std_max_ge_l (norm (p1 - p0)%pt) (norm (p2 - p0)%pt)).
  lra.
Qed.

(** X28. The 3D [interpolate] is exact on affine fields. On a surface
    whose cache holds the triangles of its points, all of positive area, let
    the point field hold at every point [q] the value [a . q + b] of an
    affine function of the position. Then the value stored for a marked
    target point [p] is [a . q + b] at the closest point [q] of a triangle to
    [p]; and when [p] lies on the surface, in one of its triangles, the
    value is [a . p + b], whichever triangle the search has selected. *)
Theorem interpolate_affine_field s name a b src (targets : list Point3)
    markers tv0 out i p :
  cache_of_points s -> areas_positive s ->
  field s PointField name = Ok src ->
  (forall v q, points s !! v = Some q -> src !! v = Some (a <.> q + b)) ->
  interpolate s PointField name targets markers tv0 = (out, Ok tt) ->
  targets !! i = Some p -> markers !! i = Some true ->
  (exists j tr, triangle_cache s !! j = Some tr /\
     out !! i = Some (Some (a <.> Triangle.closest_triangle_point tr p + b))) /\
  ((exists j tr, triangle_cache s !! j = Some tr /\
      in_triangle (Triangle.m_points tr) p) ->
   out !! i = Some (Some (a <.> p + b))).
Proof.
  intros Hcache Hareas Hsrc Haffine Hrun Hp Hm.
  destruct (interpolate3_selected_weights s name targets markers tv0 out i p
              Hcache Hareas Hrun Hp Hm)
    as (src' & f & v & p0 & p1 & p2 & x0 & x1 & x2 & t0 & t1 & t2 & Hsrc' & Hsel &
        Hv & Htr & Hp0 & Hp1 & Hp2 & H0 & H1 & H2 & Ht0 & Ht1 & Ht2 & Hsum &
        Hcomb & Hout).
  assert (src' = src) as -> by congruence.
  rewrite (Haffine _ _ Hp0) in H0. rewrite (Haffine _ _ Hp1) in H1.
  rewrite (Haffine _ _ Hp2) in H2.
  assert (x0 = a <.> p0 + b) as -> by congruence.
  assert (x1 = a <.> p1 + b) as -> by congruence.
  assert (x2 = a <.> p2 + b) as -> by congruence.
  rewrite (affine_of_combination a p0 p1 p2 b t0 t1 t2 Hsum), <- Hcomb in Hout.
  split; [eauto|].
  intros (j0 & tr0 & Htr0 & Hin).
  destruct (cached_triangle_is_reinit s j0 tr0 Hcache Htr0) as (q0 & q1 & q2 & ->).
  rewrite reinit_points in Hin.
  pose proof (Hareas _ _ Htr0) as Hpos0. unfold Triangle.area in Hpos0.
  assert (Hzero : closest_distance2 (Triangle.reinit q0 q1 q2) p <= 0).
  { unfold closest_distance2.
    eapply Rle_trans; [apply (closest_triangle_point_least _ _ _ _ p Hpos0 Hin)|].
    destruct p. unfold norm_square. simpl. lra. }
  assert (Hkeep : survives_pruning p (Triangle.reinit q0 q1 q2) = true).
  { apply near_triangle_survives; [exact Hpos0|].
    pose proof (reinit_longest_nonneg q0 q1 q2) as HL.
    pose proof (norm_square3_nonneg
                  (Triangle.closest_triangle_point (Triangle.reinit q0 q1 q2) p - p)%pt)
      as Hnn.
    unfold closest_distance2 in Hzero.
    assert (Hn : norm (Triangle.closest_triangle_point (Triangle.reinit q0 q1 q2) p
                       - p)%pt = 0).
    { apply norm_eq; [lra|]. lra. }
    rewrite Hn. lra. }
  pose proof (lookup_lt_Some _ _ _ Htr0) as Hj0.
  destruct Hcache as [Hlen _]. rewrite Hlen in Hj0.
  destruct (proj1 (selected_cases _ _ _ _ Hsel)) as (_ & tr & Htr' & _ & Hmin).
  { exists j0, (Triangle.reinit q0 q1 q2). auto. }
  assert (tr = Triangle.reinit p0 p1 p2) as -> by congruence.
  destruct (Hmin j0 _ Hj0 Htr0 Hkeep) as [Hle _].
  assert (Hq : Triangle.closest_triangle_point (Triangle.reinit p0 p1 p2) p = p).
  { apply norm_square3_zero. unfold closest_distance2 in Hle, Hzero. lra. }
  rewrite Hq in Hout. exact Hout.
Qed.

Lemma norm_square2_zero (a b : Point2) : norm_square (a - b)%pt <= 0 -> a = b.
Proof.
  destruct a as [ax ay], b as [bx by_]. unfold norm_square. simpl.
  intros Hz.
  pose proof (Rle_0_sqr (ax - bx)) as Hx. pose proof (Rle_0_sqr (ay - by_)) as Hy.
  unfold Rsqr in Hx, Hy.
  assert (Ex : (ax - bx) * (ax - bx) = 0) by lra.
  assert (Ey : (ay - by_) * (ay - by_) = 0) by lra.
  apply Rmult_integral in Ex, Ey.
  apply point2_eq; lra.
Qed.

(** X29. The 2D [interpolate] is exact on affine fields. On a polyline
    whose consecutive points differ, let the field hold at every point [q]
    the value [c . q + d] of an affine function of the position. Then the
    value stored for a marked target point [p] is [c . q + d] at a point [q]
    of the polyline that no point of the polyline is nearer to [p] than; and
    when [p] lies on the polyline, the value is [c . p + d]. *)
Theorem interpolate2_affine_field s name c d src (targets : list Point2)
    markers tv0 out i p :
  polyline_proper (I2.points s) ->
  I2.field s name = Ok src ->
  (forall v q, I2.points s !! v = Some q -> src !! v = Some (c <.> q + d)) ->
  I2.interpolate s name targets markers tv0 = (out, Ok tt) ->
  targets !! i = Some p -> markers !! i = Some true ->
  (exists q, on_polyline (I2.points s) q /\
     (forall q', on_polyline (I2.points s) q' ->
        norm (q - p)%pt <= norm (q' - p)%pt) /\
     out !! i = Some (Some (c <.> q + d))) /\
  (on_polyline (I2.points s) p -> out !! i = Some (Some (c <.> p + d))).
Proof.
  intros Hproper Hsrc Haffine Hrun Hp Hm.
  destruct (interpolate2_weights s name targets markers tv0 out i p
              Hproper Hrun Hp Hm)
    as (src' & j & a & b & x0 & x1 & t & Hsrc' & Ha & Hb & H0 & H1 & Ht &
        Hout & Hnear).
  assert (src' = src) as -> by congruence.
  rewrite (Haffine _ _ Ha) in H0. rewrite (Haffine _ _ Hb) in H1.
  assert (x0 = c <.> a + d) as -> by congruence.
  assert (x1 = c <.> b + d) as -> by congruence.
  set (q := (a + t *^ (b - a))%pt) in *.
  assert (Hval : (1 - t) * (c <.> a + d) + t * (c <.> b + d) = c <.> q + d).
  { unfold q. destruct a, b, c. simpl. ring. }
  rewrite Hval in Hout.
  assert (Hq : on_polyline (I2.points s) q).
  { exists j, a, b. split; [exact Ha|]. split; [exact Hb|].
    exists t. split; [exact Ht|reflexivity]. }
  split; [exists q; auto|].
  intros Hon. specialize (Hnear p Hon).
  assert (Hpp : norm (p - p)%pt = 0).
  { apply norm_eq; [lra|]. destruct p. unfold norm_square. simpl. lra. }
  rewrite Hpp in Hnear.
  assert (Heq : q = p).
  { apply norm_square2_zero.
    pose proof (norm_square2_nonneg (q - p)%pt) as Hnn.
    rewrite <- (norm_sqr (q - p)%pt Hnn).
    pose proof (sqrt_pos (norm_square (q - p)%pt)) as Hs.
    fold (norm (q - p)%pt) in Hs. nra. }
  rewrite <- Heq. exact Hout.
Qed.

(** * Instances of the properties above *)

Lemma unit_area_positive : Triangle.area unit_triangle > 0.
Proof. rewrite unit_triangle_eq. simpl. lra. Qed.

Lemma unit_surface_cache : cache_of_points unit_surface /\ areas_positive unit_surface.
Proof.
  assert (Hcache : triangle_cache unit_surface = [unit_triangle]) by reflexivity.
  split.
  - split; [reflexivity|]. intros [|j] v Hv; [|discriminate].
    injection Hv as <-. exists unit_triangle. split; reflexivity.
  - intros [|j] tr Htr; rewrite Hcache in Htr; [|discriminate].
    injection Htr as <-. exact unit_area_positive.
Qed.

Lemma reinit_geometry_witness : norm (Triangle.normal unit_triangle) = 1.
Proof.
  exact (proj1 (proj1 (proj2 (reinit_geometry (mkPoint3 0 0 0) (mkPoint3 1 0 0)
                                 (mkPoint3 0 1 0))) unit_area_positive)).
Defined.

Lemma barycentric_coordinates_invert_combination_witness :
  Triangle.barycentric_coordinates unit_triangle (mkPoint3 1 0 0)
  = (Some 0, Some 1, Some 0).
Proof.
  exact (proj1 (proj2 (proj2 (barycentric_coordinates_invert_combination
                                (mkPoint3 0 0 0) (mkPoint3 1 0 0) (mkPoint3 0 1 0)
                                unit_area_positive)))).
Defined.

Lemma projection_is_nearest_in_plane_witness :
  in_plane unit_triangle
    (Triangle.project_to_triangle_plane unit_triangle (mkPoint3 0 0 7)).
Proof.
  exact (proj1 (projection_is_nearest_in_plane
                  (mkPoint3 0 0 0) (mkPoint3 1 0 0) (mkPoint3 0 1 0)
                  (mkPoint3 0 0 7) unit_area_positive)).
Defined.

Lemma closest_triangle_point_nearest_witness :
  in_triangle (mkPoint3 0 0 0, mkPoint3 1 0 0, mkPoint3 0 1 0)
    (Triangle.closest_triangle_point unit_triangle (mkPoint3 2 2 7)).
Proof.
  exact (proj1 (closest_triangle_point_nearest
                  (mkPoint3 0 0 0) (mkPoint3 1 0 0) (mkPoint3 0 1 0)
                  (mkPoint3 2 2 7) unit_area_positive)).
Defined.

Lemma unit_raw_valid : indices_valid unit_raw.
Proof.
  intros [|j] v k Hv Hk; [|discriminate]. injection Hv as <-.
  destruct k as [|[|[|k]]]; simpl; lia.
Qed.

Lemma preprocess_returns_iff_indices_valid_witness :
  exists s', preprocess unit_raw = (s', Ok tt).
Proof.
  exact (proj1 (preprocess_returns_iff_indices_valid unit_raw) unit_raw_valid).
Defined.

Lemma preprocess_fills_cache_and_fields_witness :
  exists s', preprocess unit_raw = (s', Ok tt) /\ points s' = points unit_raw.
Proof.
  destruct (preprocess_fills_cache_and_fields unit_raw unit_raw_valid)
    as (s' & Hrun & Hp & _).
  exists s'. split; assumption.
Defined.

Lemma line_surface_proper : polyline_proper (I2.points line_surface).
Proof.
  intros [|[|[|j]]] a b Ha Hb; try discriminate;
    injection Ha as <-; injection Hb as <-; intros [=]; lra.
Qed.

Lemma line_run :
  I2.interpolate line_surface "T" [mkPoint2 1.5 0] [true] [] = ([Some 15], Ok tt).
Proof. apply line_example. Qed.

Lemma interpolate2_blend_at_nearest_point_witness :
  exists src j a b x0 x1 t,
    I2.field line_surface "T" = Ok src /\
    I2.points line_surface !! j = Some a /\
    I2.points line_surface !! (j + 1)%nat = Some b /\
    src !! j = Some x0 /\ src !! (j + 1)%nat = Some x1 /\
    0 <= t <= 1 /\
    [Some 15] !! 0%nat = Some (Some ((1 - t) * x0 + t * x1)).
Proof.
  destruct (interpolate2_blend_at_nearest_point line_surface "T"
              [mkPoint2 1.5 0] [true] [] [Some 15] line_surface_proper line_run
              0%nat (mkPoint2 1.5 0) eq_refl eq_refl)
    as (src & j & a & b & x0 & x1 & t & H1 & H2 & H3 & H4 & H5 & H6 & H7 & _).
  exists src, j, a, b, x0, x1, t. auto 10.
Defined.

Lemma unit_point_run :
  interpolate unit_surface PointField "g" [mkPoint3 (1/3) (1/3) 0] [true] []
  = ([Some 2], Ok tt).
Proof. apply unit_point_example. Qed.

Lemma interpolate_point_field_is_convex_combination_witness :
  exists x0 x1 x2 t0 t1 t2,
    0 <= t0 /\ 0 <= t1 /\ 0 <= t2 /\ t0 + t1 + t2 = 1 /\
    [Some 2] !! 0%nat = Some (Some (t0 * x0 + t1 * x1 + t2 * x2)).
Proof.
  destruct unit_surface_cache as [Hcache Hareas].
  destruct (interpolate_point_field_is_convex_combination unit_surface "g"
              [mkPoint3 (1/3) (1/3) 0] [true] [] [Some 2] Hcache Hareas
              unit_point_run 0%nat (mkPoint3 (1/3) (1/3) 0) eq_refl eq_refl)
    as (src & j & v & tr & x0 & x1 & x2 & t0 & t1 & t2 & _ & _ & _ & _ & _ & _ &
        H0 & H1 & H2 & Hsum & _ & Hout & _).
  exists x0, x1, x2, t0, t1, t2. auto 10.
Defined.

Lemma interpolate2_returns s name src (targets : list Point2) markers tv0 :
  I2.field s name = Ok src ->
  (2 <= length (I2.points s))%nat ->
  length src = length (I2.points s) ->
  length markers = length targets ->
  exists out, I2.interpolate s name targets markers tv0 = (out, Ok tt).
Proof.
  intros Hsrc Hlong Hfits Hcover.
  rewrite (interpolate2_unfold_ok _ _ _ _ _ _ Hsrc), interpolate2_at_round.
  apply (marked_loop_returns _ _ targets markers (blend_frame s src) Hcover).
  intros i p tv _ Hi.
  destruct (scan_segments_best s p Hlong) as (f & Hf & Hbest).
  destruct (best_segment_value_exists s src f p Hbest Hfits) as [x Hx].
  destruct (blend_run s src i f tv x Hi Hx) as (y & _ & Hrun).
  eauto.
Qed.

Lemma flat_line_proper : polyline_proper (I2.points flat_line).
Proof.
  intros [|[|[|j]]] a b Ha Hb; try discriminate;
    injection Ha as <-; injection Hb as <-; intros [=]; lra.
Qed.

Lemma interpolate_reproduces_uniform_field_witness :
  exists out,
    I2.interpolate flat_line "c" [mkPoint2 0.5 3] [true] [] = (out, Ok tt) /\
    out !! 0%nat = Some (Some 4).
Proof.
  destruct (interpolate2_returns flat_line "c" [4; 4; 4] [mkPoint2 0.5 3]
              [true] [] eq_refl ltac:(simpl; lia) eq_refl eq_refl) as [out Hrun].
  exists out. split; [exact Hrun|].
  apply (proj2 interpolate_reproduces_uniform_field flat_line "c"
           [mkPoint2 0.5 3] [true] [] out [4; 4; 4] 4 flat_line_proper eq_refl);
    [|exact Hrun|simpl; lia|reflexivity].
  intros [|[|[|k]]] x Hx; try discriminate; injection Hx as <-; reflexivity.
Defined.

Lemma convert_failures_witness :
  exists s' e,
    convert CellField "missing" PointField "" unit_surface = (s', Throw e) /\
    e = UndefinedBehaviour.
Proof.
  assert (Hrun : exists s', convert CellField "missing" PointField "" unit_surface
                            = (s', Throw UndefinedBehaviour)).
  { eexists. rewrite convert_cell_to_point, cell_to_point_run. reflexivity. }
  destruct Hrun as [s' Hrun]. exists s', UndefinedBehaviour.
  split; [exact Hrun|].
  apply (proj2 convert_failures CellField PointField "missing" "" unit_surface s');
    [discriminate|exact Hrun].
Defined.

Lemma convert_returns_iff_indices_in_range_witness :
  exists s', convert CellField "missing" PointField "" I3.empty = (s', Ok tt).
Proof.
  apply (proj2 (proj2 convert_returns_iff_indices_in_range) I3.empty
           CellField PointField "missing" "");
    [discriminate|reflexivity|reflexivity].
Defined.

Lemma interpolate_reads_a_marker_per_target_witness :
  exists out e,
    I2.interpolate line_surface "T" [mkPoint2 1.5 0] [] [] = (out, Throw e).
Proof.
  apply (proj2 (proj2 (proj2 interpolate_reads_a_marker_per_target))
           line_surface "T" [0; 10; 20]); [reflexivity|simpl; lia].
Defined.

Lemma interpolate_other_dimension_witness :
  I2.interpolate_3d line_surface "T" [mkPoint3 1.5 0 0] [true] []
  = I2.interpolate line_surface "T" [mkPoint2 1.5 0] [true] [].
Proof.
  apply (proj1 (proj2 interpolate_other_dimension) line_surface "T"
           [mkPoint2 1.5 0] [true] []).
  intros q Hq. apply list_elem_of_singleton in Hq. subst q. simpl. lra.
Defined.

Lemma line_file_parses :
  Forall2 parses_as ["0 0 0"; "1 0 10"; "2 0 20"] line_table.
Proof.
  apply List.Forall2_cons; [|apply List.Forall2_cons; [|apply List.Forall2_cons;
    [|apply List.Forall2_nil]]].
  - exists "0", "0", ["0"].
    split; [vm_compute; reflexivity|].
    split; [vm_compute; reflexivity|]. split; [vm_compute; reflexivity|].
    apply List.Forall2_cons; [vm_compute; reflexivity|apply List.Forall2_nil].
  - exists "1", "0", ["10"].
    split; [vm_compute; reflexivity|].
    split; [vm_compute; reflexivity|]. split; [vm_compute; reflexivity|].
    apply List.Forall2_cons; [vm_compute; reflexivity|apply List.Forall2_nil].
  - exists "2", "0", ["20"].
    split; [vm_compute; reflexivity|].
    split; [vm_compute; reflexivity|]. split; [vm_compute; reflexivity|].
    apply List.Forall2_cons; [vm_compute; reflexivity|apply List.Forall2_nil].
Qed.

Lemma read_txt_reads_table_witness :
  exists s', I2.read_txt (Some line_file) I2.empty = (s', Ok tt) /\
             I2.field s' "T" = Ok (column 0 line_table).
Proof.
  destruct (read_txt_reads_table "x y T" "x" "y" ["T"]
              ["0 0 0"; "1 0 10"; "2 0 20"] line_table I2.empty)
    as (s' & Hrun & _ & Hfield & _).
  - vm_compute. reflexivity.
  - discriminate.
  - apply NoDup_singleton.
  - exact line_file_parses.
  - repeat (apply List.Forall_cons; [simpl; lia|]). apply List.Forall_nil.
  - exists s'. split; [exact Hrun|]. apply (Hfield 0%nat). reflexivity.
Defined.


Lemma minmax_least_and_greatest_witness :
  exists lo hi, minmax [3; 1; 2] = Ok (lo, hi) /\
                least_and_greatest [3; 1; 2] lo hi.
Proof.
  apply (proj1 minmax_least_and_greatest). discriminate.
Defined.

Lemma coordinate_names_per_dimension_witness :
  exists names, coordinate_names 2 = Ok names /\
                length names = 2%nat /\ NoDup names.
Proof.
  apply (proj1 (coordinate_names_per_dimension 2)). lia.
Defined.

Lemma unit_point_is_near :
  norm (Triangle.closest_triangle_point unit_triangle (mkPoint3 0.25 0.25 1)
        - mkPoint3 0.25 0.25 1)%pt
  <= 2 * Triangle.longest_side unit_triangle.
Proof.
  assert (Hq : Triangle.closest_triangle_point unit_triangle (mkPoint3 0.25 0.25 1)
               = mkPoint3 0.25 0.25 0).
  { rewrite unit_triangle_eq.
    apply (closest_inside _ _ _ 0.5 0.25 0.25); [pt_eq|bary_eq|lra..]. }
  rewrite Hq.
  assert (Hn : norm (mkPoint3 0.25 0.25 0 - mkPoint3 0.25 0.25 1)%pt = 1)
    by (apply norm_eq; [lra|unfold norm_square; simpl; lra]).
  rewrite Hn.
  unfold Triangle.longest_side, unit_triangle. rewrite reinit_longest.
  assert (Hside : norm (mkPoint3 1 0 0 - mkPoint3 0 0 0)%pt = 1)
    by (apply norm_eq; [lra|unfold norm_square; simpl; lra]).
  pose proof (std_max_ge_l (std_max (norm (mkPoint3 1 0 0 - mkPoint3 0 0 0)%pt)
                              (norm (mkPoint3 0 1 0 - mkPoint3 0 0 0)%pt))
                (norm (mkPoint3 1 0 0 - mkPoint3 0 1 0)%pt)).
  pose proof (std_max_ge_l (norm (mkPoint3 1 0 0 - mkPoint3 0 0 0)%pt)
                (norm (mkPoint3 0 1 0 - mkPoint3 0 0 0)%pt)).
  lra.
Qed.


Lemma parse_small_numerals :
  parse_double "0" = Some 0 /\ parse_double "1" = Some 1 /\
  parse_double "2" = Some 2 /\ parse_double "3" = Some 3 /\
  parse_double "5" = Some 5.
Proof.
  repeat split; unfold parse_double; simpl; f_equal; lra.
Qed.

Lemma unit_file_decodes :
  decode_blocks unit_file (I3.empty, "") = Some (unit_raw, "POINT_DATA").
Proof.
  destruct parse_small_numerals as (P0 & P1 & P2 & P3 & P5).
  assert (Hpts : mapM parse_point [("0", "0", "0"); ("1", "0", "0"); ("0", "1", "0")]
                 = Some [mkPoint3 0 0 0; mkPoint3 1 0 0; mkPoint3 0 1 0]).
  { apply mapM_Some_2.
    repeat (apply List.Forall2_cons; [unfold parse_point; rewrite ?P0, ?P1; reflexivity|]).
    apply List.Forall2_nil. }
  assert (Htris : mapM parse_cell [("0", "1", "2")] = Some [(0, 1, 2)%nat])
    by reflexivity.
  assert (Hf : mapM parse_double ["5"] = Some [5]).
  { apply mapM_Some_2. apply List.Forall2_cons; [exact P5|apply List.Forall2_nil]. }
  assert (Hg : mapM parse_double ["1"; "2"; "3"] = Some [1; 2; 3]).
  { apply mapM_Some_2.
    apply List.Forall2_cons; [exact P1|].
    apply List.Forall2_cons; [exact P2|].
    apply List.Forall2_cons; [exact P3|apply List.Forall2_nil]. }
  unfold unit_file.
  repeat (cbn [decode_blocks decode_block decode_arrays]; unfold decode_values;
          rewrite ?Hpts, ?Htris, ?Hf, ?Hg; decide_keyword).
  unfold unit_raw, set_points, set_triangles, set_cell_fields, set_point_fields,
    I3.empty.
  cbn [points triangles cell_fields point_fields cell_vector_fields
       triangle_cache].
  rewrite !insert_empty. reflexivity.
Qed.

Lemma read_vtk_loads_blocks_witness :
  read_vtk (Some (vtk_tokens unit_file)) I3.empty = preprocess unit_raw.
Proof.
  exact (read_vtk_loads_blocks unit_file unit_raw "POINT_DATA" I3.empty
           unit_file_decodes).
Defined.

Lemma one_point_parses :
  mapM parse_point [("1", "0", "0")] = Some [mkPoint3 1 0 0].
Proof.
  destruct parse_small_numerals as (P0 & P1 & _).
  apply mapM_Some_2.
  apply List.Forall2_cons; [|apply List.Forall2_nil].
  unfold parse_point. rewrite P0, P1. reflexivity.
Qed.

Lemma read_vtk_truncated_block_witness :
  read_vtk (Some (vtk_tokens [VtkWord "DATASET"; VtkWord "UNSTRUCTURED_GRID"]
                    ++ "POINTS" :: "3" :: "float" ::
                       concat (map point_tokens [("1", "0", "0")]))) I3.empty
  = preprocess
      (set_points (fun old => [mkPoint3 1 0 0] ++ drop 1 (resize 3 pt_zero old))
                  I3.empty) /\
  read_vtk (Some (vtk_tokens [VtkWord "DATASET"; VtkWord "UNSTRUCTURED_GRID"]
                    ++ "CELLS" :: "2" :: "8" ::
                       concat (map cell_tokens [("0", "1", "2")]))) I3.empty
  = preprocess
      (set_triangles
         (fun old => [(0, 1, 2)%nat] ++ drop 1 (resize 2 ((0, 0, 0)%nat : array3 nat) old))
         I3.empty) /\
  read_vtk (Some (vtk_tokens [VtkWord "DATASET"; VtkWord "UNSTRUCTURED_GRID"]
                    ++ ["CELLS"; "2"; "8"])) I3.empty
  = (set_triangles (resize 2 ((0, 0, 0)%nat : array3 nat)) I3.empty,
     Throw (runtime_error ("Triangle expected, numPoints=" +:+ "8" +:+ "found"))).
Proof.
  assert (Hdec : decode_blocks [VtkWord "DATASET"; VtkWord "UNSTRUCTURED_GRID"]
                               (I3.empty, "") = Some (I3.empty, ""))
    by reflexivity.
  split; [|split].
  - apply (proj1 (read_vtk_truncated_block _ I3.empty "" "3" 3%nat "float"
                    I3.empty Hdec eq_refl) [("1", "0", "0")] [mkPoint3 1 0 0]);
      [exact one_point_parses|simpl; lia].
  - apply (proj1 (proj2 (read_vtk_truncated_block _ I3.empty "" "2" 2%nat "8"
                           I3.empty Hdec eq_refl))
             [("0", "1", "2")] [(0, 1, 2)%nat]);
      [reflexivity|simpl; lia].
  - apply (proj2 (proj2 (read_vtk_truncated_block _ I3.empty "" "2" 2%nat "8"
                           I3.empty Hdec eq_refl)));
      [lia|discriminate].
Defined.

Lemma unit_surface_run : preprocess unit_raw = (unit_surface, Ok tt).
Proof.
  destruct (preprocess_returns unit_raw unit_raw_valid) as (s' & Hrun & _).
  unfold unit_surface. rewrite Hrun. reflexivity.
Qed.

Lemma preprocess_idempotent_witness :
  preprocess unit_surface = (unit_surface, Ok tt).
Proof.
  exact (preprocess_idempotent unit_raw unit_surface unit_surface_run).
Defined.

Lemma unit_field_affine :
  forall v q, points unit_surface !! v = Some q ->
    [1; 2; 3] !! v = Some (mkPoint3 1 2 0 <.> q + 1).
Proof.
  assert (Hpts : points unit_surface
                 = [mkPoint3 0 0 0; mkPoint3 1 0 0; mkPoint3 0 1 0]) by reflexivity.
  rewrite Hpts. intros [|[|[|v]]] q Hq; try discriminate;
    injection Hq as <-; simpl; f_equal; lra.
Qed.

Lemma interpolate_affine_field_witness :
  [Some 2] !! 0%nat = Some (Some (mkPoint3 1 2 0 <.> mkPoint3 (1/3) (1/3) 0 + 1)).
Proof.
  destruct unit_surface_cache as [Hcache Hareas].
  apply (proj2 (interpolate_affine_field unit_surface "g" (mkPoint3 1 2 0) 1
                  [1; 2; 3] [mkPoint3 (1/3) (1/3) 0] [true] [] [Some 2] 0%nat
                  (mkPoint3 (1/3) (1/3) 0) Hcache Hareas eq_refl
                  unit_field_affine unit_point_run eq_refl eq_refl)).
  exists 0%nat, unit_triangle. split; [reflexivity|].
  exists (1/3), (1/3), (1/3).
  split; [lra|]. split; [lra|]. split; [lra|]. split; [lra|].
  unfold unit_triangle. rewrite reinit_points. unfold combination. simpl.
  apply point3_eq; lra.
Defined.

Lemma line_field_affine :
  forall v q, I2.points line_surface !! v = Some q ->
    [0; 10; 20] !! v = Some (mkPoint2 10 0 <.> q + 0).
Proof.
  intros [|[|[|v]]] q Hq; try discriminate;
    injection Hq as <-; simpl; f_equal; lra.
Qed.

Lemma interpolate2_affine_field_witness :
  [Some 15] !! 0%nat = Some (Some (mkPoint2 10 0 <.> mkPoint2 1.5 0 + 0)).
Proof.
  apply (proj2 (interpolate2_affine_field line_surface "T" (mkPoint2 10 0) 0
                  [0; 10; 20] [mkPoint2 1.5 0] [true] [] [Some 15] 0%nat
                  (mkPoint2 1.5 0) line_surface_proper eq_refl
                  line_field_affine line_run eq_refl eq_refl)).
  exists 1%nat, (mkPoint2 1 0), (mkPoint2 2 0).
  split; [reflexivity|]. split; [reflexivity|].
  exists 0.5. split; [lra|]. simpl. apply point2_eq; lra.
Defined.

(** * The claims on the search and on the values stored *)

(** ** Failure of the search *)

(** C5, as the code has it. [interpolate] looks the field up first: when
    the named field is absent the call throws the [std::runtime_error] of
    [field] and no [ExcInterpolationFailed], with the output untouched, on
    whatever surface and target points. When the field exists on a
    well-formed surface, with a marker per target point, the call ends with
    [ExcInterpolationFailed] exactly when some target point is marked and the
    surface has no triangle; the exception names the first marked target
    point; with at least one triangle the call returns. *)
Theorem interpolation_fails_iff_no_triangle :
  (forall s ft name (targets : list Point3) markers tv0,
     (if decide (ft = CellField) then cell_fields s else point_fields s)
       !! name = None ->
     interpolate s ft name targets markers tv0
     = (tv0, Throw (runtime_error
                      ("Field '" +:+ name +:+ "' does not exist.")))) /\
  (forall s ft name src (targets : list Point3) markers tv0,
     cache_in_step s -> indices_valid s ->
     field s ft name = Ok src -> field_fits s ft src ->
     length markers = length targets ->
     exists out r,
       interpolate s ft name targets markers tv0 = (out, r) /\
       ((exists p, r = Throw (ExcInterpolationFailed p)) <->
        ((exists i, markers !! i = Some true) /\ triangles s = [])) /\
       (forall p, r = Throw (ExcInterpolationFailed p) ->
          exists i, targets !! i = Some p /\ markers !! i = Some true /\
                    forall j, (j < i)%nat -> markers !! j = Some false) /\
       (triangles s <> [] -> r = Ok tt)).
Proof.
  split; [exact interpolate_missing_field|].
  intros s ft name src targets markers tv0 Hstep Hvalid Hsrc Hfits Hmarkers.
  rewrite (interpolate_unfold_ok _ _ _ _ _ _ _ Hsrc), interpolate_at_round.
  destruct (triangles s) as [|v0 vs] eqn:Htris.
  - (* no triangle: every marked round throws *)
    destruct (marked_loop_throws (find_triangle s 0) (reconstruct s ft src)
                targets markers Hmarkers ExcInterpolationFailed) as
      (out & r & Hrun & Hr).
    { intros i p tv Hp.
      destruct (find_triangle_spec s 0 p ltac:(lia)) as [[_ ->]|[Hlt _]];
        [eauto|lia]. }
    simpl length. exists out, r. split; [exact Hrun|].
    destruct Hr as [[-> Hnone] | (i & p & Hp & Hm & Hfirst & ->)].
    + split; [|split]; [|intros p [=]|intros Hne; reflexivity].
      split; [intros [p [=]]|].
      intros [[i Hm] _]. pose proof (lookup_lt_Some _ _ _ Hm).
      rewrite Hnone in Hm by lia. discriminate.
    + split; [|split]; [|intros q [= <-]; eauto|congruence].
      split; [eauto|eauto].
  - (* at least one triangle: every round returns *)
    destruct (marked_loop_returns (find_triangle s (length (v0 :: vs)))
                (reconstruct s ft src) targets markers
                (reconstruct_frame s ft src) Hmarkers) as [out Hrun].
    { intros i p tv Hp Hi.
      destruct (find_triangle_spec s (length (v0 :: vs)) p) as
        [[Hz _]|(_ & f & Hf & Hsel)];
        [unfold cache_in_step in Hstep; rewrite Hstep, Htris; lia
        |discriminate|].
      destruct (selected_in_range _ _ _ _ Hsel) as [Hj _].
      destruct (reconstructed_value_exists s ft src f Hstep Hvalid Hfits) as [x Hx];
        [rewrite Htris; exact Hj|].
      destruct (reconstruct_run s ft src i f tv x Hi Hx) as (y & _ & Hy).
      eauto. }
    exists out, (Ok tt). split; [exact Hrun|].
    split; [|split]; [|intros p [=]|reflexivity].
    split; [intros [p [=]]|intros [_ [=]]].
Qed.

(** C5, the claim as stated fails on a store without the named field, such
    as the store that a failed load leaves: the surface has no triangle and
    the target point is marked, and [interpolate] throws the "does not
    exist" error of [field], which names no point. *)
Lemma missing_field_precedes_interpolation_failure :
  read_vtk None unit_surface = (I3.empty, Ok tt) /\
  triangles I3.empty = [] /\
  forall tv0,
    interpolate I3.empty CellField "f" [mkPoint3 0.25 0.25 0] [true] tv0
    = (tv0, Throw (runtime_error "Field 'f' does not exist.")).
Proof.
  split; [reflexivity|]. split; [reflexivity|].
  intros tv0. apply interpolate_missing_field. reflexivity.
Qed.

Lemma blank_surface_eq :
  blank_surface = I3.mk [] [] {["area" := []; "longest_side" := []]} ∅
                        {["center" := []; "normal" := []]} [].
Proof. vm_compute. reflexivity. Qed.

Lemma interpolation_fails_iff_no_triangle_witness :
  exists out,
    interpolate blank_surface CellField "area" [mkPoint3 0.25 0.25 0] [true] []
    = (out, Throw (ExcInterpolationFailed (mkPoint3 0.25 0.25 0))).
Proof.
  destruct (proj2 interpolation_fails_iff_no_triangle blank_surface CellField
              "area" [] [mkPoint3 0.25 0.25 0] [true] [])
    as (out & r & Hrun & Hiff & Hname & _).
  - rewrite blank_surface_eq. reflexivity.
  - rewrite blank_surface_eq. intros j v k Hv. discriminate.
  - rewrite blank_surface_eq. reflexivity.
  - rewrite blank_surface_eq. reflexivity.
  - reflexivity.
  - destruct (proj2 Hiff) as [q Hq].
    { split; [exists 0%nat; reflexivity|].
      rewrite blank_surface_eq. reflexivity. }
    destruct (Hname q Hq) as (i & Hi & _).
    destruct i as [|i]; [|discriminate]. injection Hi as <-.
    exists out. rewrite Hrun, Hq. reflexivity.
Defined.

(** ** The triangle that the search selects *)

(** The closest point of a cached triangle of positive area is not farther
    from the target than any point of the triangle. *)
Lemma cached_closest_point_least s j tr p q :
  cache_of_points s -> areas_positive s ->
  triangle_cache s !! j = Some tr ->
  in_triangle (Triangle.m_points tr) q ->
  in_triangle (Triangle.m_points tr) (Triangle.closest_triangle_point tr p) /\
  closest_distance2 tr p <= norm_square (q - p)%pt.
Proof.
  intros Hcache Hareas Htr Hq.
  pose proof (Hareas _ _ Htr) as Hpos. unfold Triangle.area in Hpos.
  destruct (cached_triangle_is_reinit s j tr Hcache Htr) as (p0 & p1 & p2 & ->).
  rewrite reinit_points in *. split.
  - apply closest_triangle_point_in_triangle. exact Hpos.
  - apply closest_triangle_point_least; assumption.
Qed.

(** C1, as the code has it. On a loaded surface with at least one triangle
    the search of [interpolate] returns, and the triangle it selects is the
    first of least distance from the target point to the point that
    [closest_triangle_point] returns, among the triangles that survive the
    pruning test when some triangle survives it, and among all triangles
    when none survives. When the cache holds the triangles of the points and
    all of them have a positive area, the point found is a point of the
    selected triangle and no point of a triangle that was scanned (a
    survivor, or any triangle when none survives) is nearer to the
    target. *)
Theorem search_minimises_among_survivors s p :
  cache_in_step s -> triangles s <> [] ->
  let n := length (triangles s) in
  exists f,
    find_triangle s n p found_init = (f, Ok tt) /\
    ((exists j tr, (j < n)%nat /\ triangle_cache s !! j = Some tr /\
                   survives_pruning p tr = true) ->
     nearest_among (survives_pruning p) (triangle_cache s) n p (j_found f)) /\
    ((forall j tr, (j < n)%nat -> triangle_cache s !! j = Some tr ->
                   survives_pruning p tr = false) ->
     nearest_among (fun _ => true) (triangle_cache s) n p (j_found f)) /\
    (cache_of_points s -> areas_positive s ->
     exists tr,
       triangle_cache s !! j_found f = Some tr /\
       p_found f = Triangle.closest_triangle_point tr p /\
       in_triangle (Triangle.m_points tr) (p_found f) /\
       forall j' tr' q,
         triangle_cache s !! j' = Some tr' ->
         (survives_pruning p tr' = true \/
          forall j tr, triangle_cache s !! j = Some tr ->
                       survives_pruning p tr = false) ->
         in_triangle (Triangle.m_points tr') q ->
         norm (p_found f - p)%pt <= norm (q - p)%pt).
Proof.
  intros Hstep Hne n.
  destruct (find_triangle_spec s n p) as [[Hz _]|(_ & f & Hf & Hsel)].
  - unfold cache_in_step in Hstep. subst n. lia.
  - exfalso. subst n. destruct (triangles s); [congruence|discriminate].
  - exists f. split; [exact Hf|].
    destruct (selected_cases _ _ _ _ Hsel) as [Hsome Hnone].
    split; [exact Hsome|]. split; [exact Hnone|].
    intros Hcache Hareas.
    destruct (selected_in_range _ _ _ _ Hsel) as (Hj & tr & Htr & Hpf & Hd).
    exists tr. split; [exact Htr|]. split; [exact Hpf|].
    assert (Hin : forall q, in_triangle (Triangle.m_points tr) q ->
              in_triangle (Triangle.m_points tr)
                          (Triangle.closest_triangle_point tr p)).
    { intros q Hq.
      apply (cached_closest_point_least s _ tr p q Hcache Hareas Htr Hq). }
    split.
    { rewrite Hpf.
      destruct (cached_triangle_is_reinit s _ tr Hcache Htr)
        as (p0 & p1 & p2 & ->).
      apply closest_triangle_point_in_triangle.
      exact (Hareas _ _ Htr). }
    intros j' tr' q Htr' Hscanned Hq.
    pose proof (lookup_lt_Some _ _ _ Htr') as Hj'.
    unfold cache_in_step in Hstep. rewrite Hstep in Hj'. fold n in Hj'.
    destruct (cached_closest_point_least s j' tr' p q Hcache Hareas Htr' Hq)
      as [_ Hleast].
    assert (Hmin : closest_distance2 tr p <= closest_distance2 tr' p).
    { destruct Hscanned as [Hkeep|Hpruned].
      - destruct Hsome as (_ & tr0 & Htr0 & _ & Hmin); [eauto|].
        assert (tr0 = tr) as -> by congruence.
        apply (Hmin j' tr' Hj' Htr' Hkeep).
      - destruct Hnone as (_ & tr0 & Htr0 & _ & Hmin);
          [intros j0 tr0 _ Htr0; apply (Hpruned j0); exact Htr0|].
        assert (tr0 = tr) as -> by congruence.
        apply (Hmin j' tr' Hj' Htr' eq_refl). }
    rewrite Hpf. unfold norm. apply sqrt_le_1_alt.
    unfold closest_distance2 in Hmin, Hleast. lra.
Qed.

Lemma search_minimises_among_survivors_witness :
  exists f,
    find_triangle two_surface 2 above found_init = (f, Ok tt) /\
    ((exists j tr, (j < 2)%nat /\ triangle_cache two_surface !! j = Some tr /\
                   survives_pruning above tr = true) ->
     nearest_among (survives_pruning above) (triangle_cache two_surface) 2
                   above (j_found f)).
Proof.
  destruct (search_minimises_among_survivors two_surface above)
    as (f & Hf & Hsome & _); [reflexivity|discriminate|].
  exists f. split; [exact Hf|exact Hsome].
Defined.

(** ** The value stored for a marked target point *)

Lemma interpolate3_search s ft name (targets : list Point3) markers tv0 out i p :
  cache_in_step s ->
  interpolate s ft name targets markers tv0 = (out, Ok tt) ->
  targets !! i = Some p -> markers !! i = Some true ->
  exists src f tr x,
    field s ft name = Ok src /\
    find_triangle s (length (triangles s)) p found_init = (f, Ok tt) /\
    triangle_cache s !! j_found f = Some tr /\
    p_found f = Triangle.closest_triangle_point tr p /\
    reconstructed_value s ft src f x /\
    out !! i = Some x.
Proof.
  intros Hstep Hrun Hp Hm.
  destruct (field s ft name) as [src|e] eqn:Hsrc;
    [|rewrite (interpolate_unfold_throw _ _ _ _ _ _ _ Hsrc) in Hrun;
      discriminate].
  rewrite (interpolate_unfold_ok _ _ _ _ _ _ _ Hsrc), interpolate_at_round in Hrun.
  destruct (marked_loop_post _ _ (reconstructed_value s ft src) targets markers
              (reconstruct_frame s ft src) (reconstruct_ok s ft src) out Hrun)
    as [_ Hpost].
  destruct (Hpost i (lookup_lt_Some _ _ _ Hp))
    as [[Hm' _] | (_ & p' & f & x & Hp' & Hf & Hx & Hout)]; [congruence|].
  assert (p' = p) as -> by congruence.
  destruct (find_triangle_spec s (length (triangles s)) p) as
    [[_ Hthrow]|(_ & f' & Hf' & Hsel)];
    [unfold cache_in_step in Hstep; lia|congruence|].
  assert (f' = f) as -> by congruence.
  destruct (selected_in_range _ _ _ _ Hsel) as (_ & tr & Htr & Hpf & _).
  exists src, f, tr, x. auto 10.
Qed.

Lemma needle_cache : triangle_cache needle_surface = [needle].
Proof. reflexivity. Qed.

Lemma needle_area : Triangle.area needle = 0.
Proof.
  unfold Triangle.area, needle. rewrite reinit_area.
  replace (edge_cross (mkPoint3 0 0 0) (mkPoint3 1 0 0) (mkPoint3 2 0 0))
    with (mkPoint3 0 0 0)
    by (unfold edge_cross, cross_product_3d; simpl; apply point3_eq; ring).
  unfold norm, norm_square. simpl.
  replace (0 * 0 + 0 * 0 + 0 * 0) with 0 by ring. rewrite sqrt_0. ring.
Qed.

Lemma needle_example tv0 :
  interpolate needle_surface PointField "g" [mkPoint3 0.5 1 0] [true] tv0
  = ([None], Ok tt).
Proof.
  destruct (single_triangle_found needle_surface (mkPoint3 0.5 1 0)
              needle needle_cache) as (f & Hf & Hj & Hp).
  apply (interpolate_one _ _ _ [1; 2; 3] _ f); [reflexivity|exact Hf|].
  unfold reconstructed_value. rewrite Hj.
  exists needle, (0, 1, 2)%nat, 1, 2, 3.
  do 5 (split; [reflexivity|]).
  rewrite barycentric_none by exact needle_area. reflexivity.
Qed.

(** C2, as the code has it. For every marked target point of a call that
    returns, the entry of the output is, for a cell field, the stored value
    of the selected triangle, and for a point field the blend
    [t0 f[v0] + t1 f[v1] + t2 f[v2]] of the three vertex values of the
    selected triangle with its barycentric coordinates at the closest point
    found, when the area of the selected triangle is not zero; on a surface
    whose cache holds the triangles of its points these coordinates are not
    negative and add up to one, and the closest point found is the
    combination of the corners with them. When the area of the selected
    triangle is zero the coordinates are quotients by zero and the entry is
    no number. On the unit right triangle a cell field of value 5 gives 5
    at (0.25, 0.25, 0), and the point field (1, 2, 3) gives 2 at the
    centroid. *)
Theorem interpolate_reconstructs :
  (forall s ft name (targets : list Point3) markers tv0 out,
     cache_in_step s ->
     interpolate s ft name targets markers tv0 = (out, Ok tt) ->
     forall i p, targets !! i = Some p -> markers !! i = Some true ->
     exists src f tr,
       field s ft name = Ok src /\
       find_triangle s (length (triangles s)) p found_init = (f, Ok tt) /\
       triangle_cache s !! j_found f = Some tr /\
       p_found f = Triangle.closest_triangle_point tr p /\
       match ft with
       | CellField =>
           exists y, src !! j_found f = Some y /\ out !! i = Some (Some y)
       | PointField =>
           exists v x0 x1 x2,
             triangles s !! j_found f = Some v /\
             src !! at3 v 0 = Some x0 /\ src !! at3 v 1 = Some x1 /\
             src !! at3 v 2 = Some x2 /\
             (Triangle.area tr <> 0 ->
              exists t0 t1 t2,
                Triangle.barycentric_coordinates tr (p_found f)
                = (Some t0, Some t1, Some t2) /\
                out !! i = Some (Some (t0 * x0 + t1 * x1 + t2 * x2)) /\
                (cache_of_points s ->
                 0 <= t0 /\ 0 <= t1 /\ 0 <= t2 /\ t0 + t1 + t2 = 1 /\
                 p_found f = combination (Triangle.m_points tr) (t0, t1, t2))) /\
             (Triangle.area tr = 0 -> out !! i = Some None)
       end) /\
  (forall tv0,
     interpolate unit_surface CellField "f" [mkPoint3 0.25 0.25 0] [true] tv0
     = ([Some 5], Ok tt)) /\
  (forall tv0,
     interpolate unit_surface PointField "g" [mkPoint3 (1/3) (1/3) 0] [true] tv0
     = ([Some 2], Ok tt)).
Proof.
  split; [|split; [exact unit_cell_example|exact unit_point_example]].
  intros s ft name targets markers tv0 out Hstep Hrun i p Hp Hm.
  destruct (interpolate3_search s ft name targets markers tv0 out i p
              Hstep Hrun Hp Hm)
    as (src & f & tr & x & Hsrc & Hf & Htr & Hpf & Hx & Hout).
  exists src, f, tr. do 4 (split; [assumption|]).
  destruct ft.
  - destruct Hx as (y & Hy & ->). exists y. auto.
  - destruct Hx as (tr' & v & x0 & x1 & x2 & Htr' & Hv & H0 & H1 & H2 & Hx).
    assert (tr' = tr) as -> by congruence.
    exists v, x0, x1, x2. do 4 (split; [assumption|]). split.
    + intros Harea. unfold Triangle.area in Harea.
      destruct (barycentric_ratios tr (p_found f) Harea)
        as (t0 & t1 & t2 & _ & Hbary).
      exists t0, t1, t2. split; [exact Hbary|].
      rewrite Hbary in Hx. split; [rewrite Hout, Hx; reflexivity|].
      intros Hcache.
      destruct (cached_triangle_is_reinit s _ tr Hcache Htr)
        as (p0 & p1 & p2 & ->).
      pose proof (reinit_area_nonneg p0 p1 p2) as Hnn.
      assert (Hpos : Triangle.m_area (Triangle.reinit p0 p1 p2) > 0) by lra.
      destruct (closest_triangle_point_in_triangle p0 p1 p2 p Hpos)
        as (s0 & s1 & s2 & Hs0 & Hs1 & Hs2 & Hsum & Hcomb).
      rewrite Hpf, Hcomb,
        (barycentric_of_combination _ _ _ _ _ _ Hpos Hsum) in Hbary.
      injection Hbary as <- <- <-.
      rewrite reinit_points, Hpf. auto 10.
    + intros Harea. unfold Triangle.area in Harea.
      rewrite (barycentric_none tr _ Harea) in Hx.
      rewrite Hout, Hx. reflexivity.
Qed.

(** C2, the claim as stated fails on a triangle of area zero. The surface
    has the one triangle (0,0,0), (1,0,0), (2,0,0) with the point field
    (1, 2, 3): at the marked target point (0.5, 1, 0) the call returns and
    the value stored is no number, and so no blend of the vertex values. *)
Lemma zero_area_triangle_gives_no_number :
  preprocess needle_raw = (needle_surface, Ok tt) /\
  triangle_cache needle_surface = [needle] /\
  Triangle.area needle = 0 /\
  forall tv0,
    interpolate needle_surface PointField "g" [mkPoint3 0.5 1 0] [true] tv0
    = ([None], Ok tt).
Proof.
  split; [|split; [exact needle_cache|split; [exact needle_area|]]].
  - assert (Hvalid : indices_valid needle_raw).
    { intros [|j] v k Hv Hk; [|discriminate]. injection Hv as <-.
      destruct k as [|[|[|k]]]; simpl; lia. }
    destruct (preprocess_returns needle_raw Hvalid) as (s' & Hrun & _).
    unfold needle_surface. rewrite Hrun. reflexivity.
  - exact needle_example.
Qed.

Lemma interpolate_reconstructs_witness :
  exists src f tr,
    field unit_surface PointField "g" = Ok src /\
    find_triangle unit_surface (length (triangles unit_surface))
                  (mkPoint3 (1/3) (1/3) 0) found_init = (f, Ok tt) /\
    triangle_cache unit_surface !! j_found f = Some tr /\
    p_found f = Triangle.closest_triangle_point tr (mkPoint3 (1/3) (1/3) 0) /\
    exists v x0 x1 x2,
      triangles unit_surface !! j_found f = Some v /\
      src !! at3 v 0 = Some x0 /\ src !! at3 v 1 = Some x1 /\
      src !! at3 v 2 = Some x2 /\
      (Triangle.area tr <> 0 ->
       exists t0 t1 t2,
         Triangle.barycentric_coordinates tr (p_found f)
         = (Some t0, Some t1, Some t2) /\
         [Some 2] !! 0%nat = Some (Some (t0 * x0 + t1 * x1 + t2 * x2)) /\
         (cache_of_points unit_surface ->
          0 <= t0 /\ 0 <= t1 /\ 0 <= t2 /\ t0 + t1 + t2 = 1 /\
          p_found f = combination (Triangle.m_points tr) (t0, t1, t2))) /\
      (Triangle.area tr = 0 -> [Some 2] !! 0%nat = Some None).
Proof.
  apply (proj1 interpolate_reconstructs unit_surface PointField "g"
           [mkPoint3 (1/3) (1/3) 0] [true] [] [Some 2]);
    [reflexivity|apply unit_point_example|reflexivity|reflexivity].
Defined.

(** ** The segment that the 2D search keeps *)

Lemma closest_segment_point_degenerate (p a : Point2) :
  closest_segment_point p a a = a.
Proof.
  unfold closest_segment_point. cbv zeta.
  rewrite fdiv_none by apply norm_square_self2.
  destruct a. simpl. apply point2_eq; ring.
Qed.

(** Also on a segment whose end points coincide, the point that
    [closest_segment_point] returns is not farther from [p] than any point
    of the segment. *)
Lemma closest_segment_point2_nearest (p a b q : Point2) :
  on_segment a b q ->
  norm (closest_segment_point p a b - p)%pt <= norm (q - p)%pt.
Proof.
  intros Hq.
  destruct (Req_dec (norm_square (a - b)%pt) 0) as [Hz|Hnz].
  - assert (a = b) as -> by (apply norm_square2_zero; lra).
    destruct Hq as (t & _ & ->). rewrite closest_segment_point_degenerate.
    replace (b + t *^ (b - b))%pt with b
      by (destruct b; simpl; apply point2_eq; ring).
    apply Rle_refl.
  - apply closest_segment_point2_norm_least; [|exact Hq].
    intros ->. apply Hnz. apply norm_square_self2.
Qed.

Lemma interpolate2_search s name (targets : list Point2) markers tv0 out i p :
  I2.interpolate s name targets markers tv0 = (out, Ok tt) ->
  targets !! i = Some p -> markers !! i = Some true ->
  exists src f x,
    I2.field s name = Ok src /\
    I2.scan_segments s (length (I2.points s)) p found_init = (f, Ok tt) /\
    best_of (segment_offer (I2.points s) p) (length (I2.points s) - 1) f /\
    blended_value s src f x /\
    out !! i = Some x.
Proof.
  intros Hrun Hp Hm.
  destruct (I2.field s name) as [src|e] eqn:Hsrc;
    [|rewrite (interpolate2_unfold_throw _ _ _ _ _ _ Hsrc) in Hrun;
      discriminate].
  rewrite (interpolate2_unfold_ok _ _ _ _ _ _ Hsrc), interpolate2_at_round
    in Hrun.
  destruct (marked_loop_post _ _ (blended_value s src) targets markers
              (blend_frame s src) (blend_ok s src) out Hrun) as [_ Hpost].
  destruct (Hpost i (lookup_lt_Some _ _ _ Hp))
    as [[Hm' _] | (_ & p' & f & x & Hp' & Hf & Hx & Hout)]; [congruence|].
  assert (p' = p) as -> by congruence.
  exists src, f, x. split; [reflexivity|]. split; [exact Hf|].
  split; [|split; assumption].
  destruct (scan_segments_spec s p) as (f' & Hf' & [[-> Hnone]|Hbest]);
    [|congruence].
  exfalso. assert (f = found_init) as -> by congruence.
  destruct Hx as (a & b & _ & _ & Ha & Hb & _). simpl in Ha, Hb.
  apply (segment_offer_first (I2.points s) p).
  - apply lookup_lt_Some in Hb. lia.
  - apply Hnone. apply lookup_lt_Some in Hb. lia.
Qed.

Lemma doubled_line_example tv0 :
  I2.interpolate doubled_line "T" [mkPoint2 1 1] [true] tv0 = ([None], Ok tt).
Proof.
  rewrite (interpolate2_unfold_ok _ _ [3; 7]) by reflexivity.
  rewrite interpolate2_at_round.
  destruct (scan_segments_best doubled_line (mkPoint2 1 1) ltac:(simpl; lia))
    as (f & Hf & Hbest).
  destruct Hbest as (Hlt & Hat & _). simpl in Hlt.
  assert (Hj : j_found f = 0%nat) by lia.
  destruct (blend_run doubled_line [3; 7] 0 f [Some 0] None eq_refl)
    as (y & -> & Hrun).
  { unfold blended_value. rewrite Hj.
    exists (mkPoint2 0 0), (mkPoint2 0 0), 3, 7.
    do 4 (split; [reflexivity|]).
    rewrite barycentric_degenerate2. reflexivity. }
  unfold for_loop. simpl for_from. simpl replicate.
  rewrite (bind_ok _ _ _ [None] tt); [reflexivity|].
  rewrite (marked_round_marked _ _ [mkPoint2 1 1] [true] 0 [Some 0]
             (mkPoint2 1 1) eq_refl eq_refl).
  change (length (I2.points doubled_line)) with 2%nat in Hf.
  rewrite Hf. exact Hrun.
Qed.

(** C7, as the code has it. For every marked target point of a call that
    returns, the loop over the segments ends with a segment [j] and the
    point [q] that [closest_segment_point] returns for it: [q] is a point
    of the segment, no point of the polyline is nearer to the target, and
    every point of a segment of lower index is farther. When the two end
    points of segment [j] differ, the entry of the output is the blend
    [(1 - t) f[j] + t f[j+1]] of the field values at its ends, where [t]
    between 0 and 1 is the parameter of [q] on the segment. When they
    coincide the parameter is a quotient by zero and the entry is no number.
    On the polyline (0,0), (1,0), (2,0) with values (0, 10, 20) the value at
    (1.5, 0) is 15. *)
Theorem interpolate2_blends_nearest_segment :
  (forall s name (targets : list Point2) markers tv0 out,
     I2.interpolate s name targets markers tv0 = (out, Ok tt) ->
     forall i p, targets !! i = Some p -> markers !! i = Some true ->
     exists src f a b x0 x1,
       I2.field s name = Ok src /\
       I2.scan_segments s (length (I2.points s)) p found_init = (f, Ok tt) /\
       I2.points s !! j_found f = Some a /\
       I2.points s !! (j_found f + 1)%nat = Some b /\
       src !! j_found f = Some x0 /\ src !! (j_found f + 1)%nat = Some x1 /\
       p_found f = closest_segment_point p a b /\
       on_segment a b (p_found f) /\
       (forall q, on_polyline (I2.points s) q ->
          norm (p_found f - p)%pt <= norm (q - p)%pt) /\
       (forall j' a' b' q,
          (j' < j_found f)%nat ->
          I2.points s !! j' = Some a' -> I2.points s !! (j' + 1)%nat = Some b' ->
          on_segment a' b' q ->
          norm (p_found f - p)%pt < norm (q - p)%pt) /\
       (a <> b ->
        exists t, 0 <= t <= 1 /\ p_found f = (a + t *^ (b - a))%pt /\
                  out !! i = Some (Some ((1 - t) * x0 + t * x1))) /\
       (a = b -> out !! i = Some None)) /\
  (forall tv0,
     I2.interpolate line_surface "T" [mkPoint2 1.5 0] [true] tv0
     = ([Some 15], Ok tt)).
Proof.
  split; [|exact line_example].
  intros s name targets markers tv0 out Hrun i p Hp Hm.
  destruct (interpolate2_search s name targets markers tv0 out i p Hrun Hp Hm)
    as (src & f & x & Hsrc & Hf & (Hlt & Hat & Hleast) & Hx & Hout).
  destruct Hx as (a & b & x0 & x1 & Ha & Hb & H0 & H1 & Hx).
  exists src, f, a, b, x0, x1.
  do 6 (split; [assumption|]).
  unfold segment_offer in Hat. rewrite Ha, Hb in Hat. cbv zeta in Hat.
  assert (Hpf : p_found f = closest_segment_point p a b) by congruence.
  assert (Hd : d2_min f = norm (closest_segment_point p a b - p)%pt)
    by congruence.
  clear Hat.
  split; [exact Hpf|].
  split; [rewrite Hpf; apply closest_segment_point_on_segment|].
  split; [|split; [|split]].
  - intros q (j' & a' & b' & Ha' & Hb' & Hon).
    rewrite Hpf, <- Hd.
    destruct (Hleast j' (closest_segment_point p a' b')
                (norm (closest_segment_point p a' b' - p)%pt)) as [Hle _].
    { apply lookup_lt_Some in Hb'. lia. }
    { unfold segment_offer. rewrite Ha', Hb'. reflexivity. }
    eapply Rle_trans; [exact Hle|].
    apply closest_segment_point2_nearest. exact Hon.
  - intros j' a' b' q Hj' Ha' Hb' Hon.
    rewrite Hpf, <- Hd.
    destruct (Hleast j' (closest_segment_point p a' b')
                (norm (closest_segment_point p a' b' - p)%pt)) as [_ Hstrict].
    { apply lookup_lt_Some in Hb'. lia. }
    { unfold segment_offer. rewrite Ha', Hb'. reflexivity. }
    eapply Rlt_le_trans; [exact (Hstrict Hj')|].
    apply closest_segment_point2_nearest. exact Hon.
  - intros Hne. pose proof (norm_square2_pos a b Hne) as Hpos.
    set (t := clamp01 ((b - a) <.> (p - a) / norm_square (b - a))%pt).
    assert (Hq : p_found f = (a + t *^ (b - a))%pt)
      by (rewrite Hpf; apply closest_segment_point_eq; lra).
    exists t. split; [apply clamp01_range|]. split; [exact Hq|].
    rewrite Hq, (barycentric_on_line2 _ _ _ Hne) in Hx.
    rewrite Hout, Hx. reflexivity.
  - intros ->. rewrite barycentric_degenerate2 in Hx.
    rewrite Hout, Hx. reflexivity.
Qed.

(** C7, the claim as stated fails on a segment whose end points coincide.
    On the polyline (0,0), (0,0) with the values (3, 7) the call at the
    marked target point (1, 1) returns, and the value stored is no number,
    and so no blend of 3 and 7. *)
Lemma coincident_points_give_no_number :
  I2.points doubled_line = [mkPoint2 0 0; mkPoint2 0 0] /\
  I2.field doubled_line "T" = Ok [3; 7] /\
  forall tv0,
    I2.interpolate doubled_line "T" [mkPoint2 1 1] [true] tv0
    = ([None], Ok tt).
Proof.
  split; [reflexivity|]. split; [reflexivity|exact doubled_line_example].
Qed.

Lemma interpolate2_blends_nearest_segment_witness :
  exists src f a b x0 x1,
    I2.field line_surface "T" = Ok src /\
    I2.scan_segments line_surface (length (I2.points line_surface))
                     (mkPoint2 1.5 0) found_init = (f, Ok tt) /\
    I2.points line_surface !! j_found f = Some a /\
    I2.points line_surface !! (j_found f + 1)%nat = Some b /\
    src !! j_found f = Some x0 /\ src !! (j_found f + 1)%nat = Some x1 /\
    (a <> b ->
     exists t, 0 <= t <= 1 /\ p_found f = (a + t *^ (b - a))%pt /\
               [Some 15] !! 0%nat = Some (Some ((1 - t) * x0 + t * x1))).
Proof.
  destruct (proj1 interpolate2_blends_nearest_segment line_surface "T"
              [mkPoint2 1.5 0] [true] [] [Some 15] (line_example [])
              0%nat (mkPoint2 1.5 0) eq_refl eq_refl)
    as (src & f & a & b & x0 & x1 & H1 & H2 & H3 & H4 & H5 & H6 & _ & _ & _ &
        _ & H7 & _).
  exists src, f, a, b, x0, x1. auto 10.
Defined.

(** * Loads that fail *)

(** A loop whose round [k] throws after the rounds before it have led from
    [f 0] to [f k]. *)
Lemma for_from_chain_throw {St} (body : nat -> M St unit) k :
  forall n (f : nat -> St) lo s' e,
  (k < n)%nat ->
  (forall j, (j < k)%nat -> body (lo + j)%nat (f j) = (f (S j), Ok tt)) ->
  body (lo + k)%nat (f k) = (s', Throw e) ->
  for_from lo n body (f 0%nat) = (s', Throw e).
Proof.
  induction k as [|k IH]; intros n f lo s' e Hk Hstep Hthrow;
    (destruct n as [|n]; [lia|]); simpl.
  - rewrite Nat.add_0_r in Hthrow. apply bind_throw. exact Hthrow.
  - pose proof (Hstep 0%nat ltac:(lia)) as H0.
    rewrite Nat.add_0_r in H0. rewrite (bind_ok _ _ _ _ _ H0).
    apply (IH n (fun j => f (S j)) (S lo)); [lia| |].
    + intros j Hj. rewrite <- (Hstep (S j) ltac:(lia)).
      rewrite Nat.add_succ_r. reflexivity.
    + rewrite <- Hthrow. rewrite Nat.add_succ_r. reflexivity.
Qed.

(** The [CELLS] section on a block whose first rows are triangles and whose
    next row does not start with 3. *)
Lemma read_cells_bad_row o n count size rows tris tok rest vs dt dn :
  parse_unsigned UINT_MAX n = Some count ->
  mapM parse_cell rows = Some tris ->
  (length rows < count)%nat ->
  tok <> "3" ->
  read_cells (mkReader o (mkStream (n :: size :: concat (map cell_tokens rows)
                                      ++ tok :: rest) false) vs dt dn)
  = (mkReader
       (set_triangles
          (fun old => tris ++ drop (length tris)
                                   (resize count ((0, 0, 0)%nat : array3 nat) old)) o)
       (mkStream rest false) tok dt dn,
     Throw (runtime_error ("Triangle expected, numPoints=" +:+ tok +:+ "found"))).
Proof.
  intros Hn Htris Hlt Htok. apply mapM_Some_1 in Htris.
  pose proof (Forall2_length _ _ _ Htris) as Hlen.
  destruct o as [ps ts cf pf cvf tc].
  unfold read_cells.
  rewrite (bind_ok _ _ _ _ _ (in_count_run _ _ _ _ _ _ _ Hn)).
  rewrite (bind_ok _ _ _ _ _ (in_s_run _ _ _ _ _ _)).
  unfold read_var. rewrite bind_ret.
  unfold on_obj at 1. rewrite bind_modify. cbn [obj file var_s var_data_type var_data_name].
  unfold set_triangles at 1. cbn [points triangles cell_fields point_fields
                                   cell_vector_fields triangle_cache].
  set (l0 := (resize count ((0, 0, 0)%nat : array3 nat) ts : list (array3 nat))).
  assert (Hl0 : length l0 = count) by apply (length_resize (A := array3 nat)).
  set (f := fun k =>
    mkReader (I3.mk ps (take k tris ++ drop k l0) cf pf cvf tc)
             (mkStream (concat (map cell_tokens (drop k rows)) ++ tok :: rest)
                       false)
             (if bool_decide (k = 0)%nat then size else "3") dt dn).
  unfold for_loop.
  refine (eq_trans (for_from_chain_throw _ (length rows) count f 0%nat _ _
                      Hlt _ _) eq_refl).
  - intros k Hk. simpl Nat.add. unfold f.
    rewrite (bool_decide_eq_false_2 (S k = 0)%nat) by lia.
    destruct (lookup_lt_is_Some_2 rows k Hk) as [c Hc].
    destruct (Forall2_lookup_l _ _ _ _ _ Htris Hc) as (v & Hv & Hcv).
    destruct (parse_cell_some _ _ Hcv) as (v0 & v1 & v2 & -> & H0 & H1 & H2).
    destruct v as [[a b] c]. cbn [at3] in H0, H1, H2.
    rewrite (drop_S _ _ _ Hc). cbn [map concat cell_tokens app].
    rewrite (bind_ok _ _ _ _ _ (in_s_run _ _ _ _ _ _)).
    rewrite bind_gets. cbn [var_s].
    rewrite (bool_decide_eq_false_2 ("3" <> "3"))
      by (intros Hne; apply Hne; reflexivity).
    rewrite bind_get. cbn [obj triangles].
    assert (Hkl : (k < length l0)%nat) by lia.
    destruct (lookup_lt_is_Some_2 l0 k Hkl) as [q Hq].
    rewrite (bind_index_ok _ k q)
      by (rewrite (lookup_take_drop tris l0 k) by lia; exact Hq).
    rewrite (bind_ok _ _ _ _ _ (in_unsigned_long_run _ _ _ _ _ _ _ _ H0)).
    rewrite (bind_ok _ _ _ _ _ (in_unsigned_long_run _ _ _ _ _ _ _ _ H1)).
    rewrite (bind_ok _ _ _ _ _ (in_unsigned_long_run _ _ _ _ _ _ _ _ H2)).
    unfold on_obj, modify, set_triangles.
    cbn [obj file var_s var_data_type var_data_name points triangles
         cell_fields point_fields cell_vector_fields triangle_cache].
    do 3 f_equal. apply insert_take_drop; [exact Hv|exact Hkl].
  - simpl Nat.add. unfold f.
    rewrite (drop_ge rows) by lia. cbn [map concat app].
    rewrite (bind_ok _ _ _ _ _ (in_s_run _ _ _ _ _ _)).
    rewrite bind_gets. cbn [var_s].
    rewrite (bool_decide_eq_true_2 (tok <> "3")) by exact Htok.
    unfold throw, set_triangles.
    cbn [points triangles cell_fields point_fields cell_vector_fields
         triangle_cache].
    rewrite Hlen, take_ge by lia. reflexivity.
Qed.

(** [read_vtk] on well-formed blocks followed by a [CELLS] block with a row
    that does not start with 3. *)
Lemma read_vtk_bad_row bs raw data_type n count size rows tris tok rest s :
  decode_blocks bs (I3.empty, "") = Some (raw, data_type) ->
  parse_unsigned UINT_MAX n = Some count ->
  mapM parse_cell rows = Some tris ->
  (length rows < count)%nat ->
  tok <> "3" ->
  read_vtk (Some (vtk_tokens bs ++ "CELLS" :: n :: size ::
                    concat (map cell_tokens rows) ++ tok :: rest)) s
  = (set_triangles
       (fun old => tris ++ drop (length tris)
                                (resize count ((0, 0, 0)%nat : array3 nat) old))
       raw,
     Throw (runtime_error ("Triangle expected, numPoints=" +:+ tok +:+ "found"))).
Proof.
  intros Hdec Hn Htris Hlt Htok.
  destruct (read_vtk_last_block bs raw data_type "CELLS" n size
              (concat (map cell_tokens rows) ++ tok :: rest) s Hdec)
    as (dn & fuel & ->).
  rewrite vtk_section_cells by reflexivity.
  rewrite (read_cells_bad_row raw n count size rows tris tok rest "CELLS"
             data_type dn Hn Htris Hlt Htok).
  reflexivity.
Qed.

(** ** [read_vtu] on an array that does not fit *)

Lemma store_data_array_misfit stod stoul data r size :
  array_misfit (obj r) (var_data_type r) (var_data_name r) (length data) size ->
  store_data_array stod stoul data r
  = (r, Throw (size_error (var_data_type r) size (var_data_name r)
                          (length data))).
Proof.
  intros Hmis. unfold store_data_array. rewrite bind_get.
  destruct Hmis as [(Hdt & Hn & ->)|[(Hdt & Hn & ->)|[(Hdt & Hn & ->)|
                    (Hdt & Hdn & Hn & ->)]]]; rewrite Hdt.
  - rewrite (bool_decide_eq_true_2 ("<CellData>" = "<CellData>")) by reflexivity.
    rewrite bool_decide_eq_true_2 by exact Hn. reflexivity.
  - rewrite (bool_decide_eq_false_2 ("<PointData>" = "<CellData>"))
      by discriminate.
    rewrite (bool_decide_eq_true_2 ("<PointData>" = "<PointData>"))
      by reflexivity.
    rewrite bool_decide_eq_true_2 by exact Hn. reflexivity.
  - rewrite (bool_decide_eq_false_2 ("<Points>" = "<CellData>")) by discriminate.
    rewrite (bool_decide_eq_false_2 ("<Points>" = "<PointData>"))
      by discriminate.
    rewrite (bool_decide_eq_true_2 ("<Points>" = "<Points>")) by reflexivity.
    rewrite bool_decide_eq_true_2 by exact Hn. reflexivity.
  - rewrite (bool_decide_eq_false_2 ("<Cells>" = "<CellData>")) by discriminate.
    rewrite (bool_decide_eq_false_2 ("<Cells>" = "<PointData>"))
      by discriminate.
    rewrite (bool_decide_eq_false_2 ("<Cells>" = "<Points>")) by discriminate.
    rewrite (bool_decide_eq_true_2 ("<Cells>" = "<Cells>")) by reflexivity.
    rewrite Hdn.
    rewrite (bool_decide_eq_true_2 ("connectivity" = "connectivity"))
      by reflexivity.
    cbn [andb]. rewrite bool_decide_eq_true_2 by exact Hn. reflexivity.
Qed.

(** The inner loop up to [</DataArray>]. *)
Lemma read_data_array_run stod stoul data2 :
  forall fuel data1 o rest vs dt dn,
  Forall (fun d => d <> "</DataArray>") data2 ->
  (length data2 < fuel)%nat ->
  read_data_array stod stoul fuel data1
    (mkReader o (mkStream (data2 ++ "</DataArray>" :: rest) false) vs dt dn)
  = Some ((store_data_array stod stoul (data1 ++ data2) >>
           set_data_name "" >> ret false)
            (mkReader o (mkStream rest false) "</DataArray>" dt dn)).
Proof.
  induction data2 as [|d data2 IH]; intros fuel data1 o rest vs dt dn Hdata Hfuel;
    (destruct fuel as [|fuel]; [simpl in Hfuel; lia|]).
  - cbn [read_data_array app]. rewrite in_s_run. cbn [fst file failbit var_s].
    rewrite (bool_decide_eq_true_2 ("</DataArray>" = "</DataArray>"))
      by reflexivity.
    rewrite app_nil_r. reflexivity.
  - apply Forall_cons_1 in Hdata. destruct Hdata as [Hd Hdata].
    cbn [read_data_array app]. rewrite in_s_run. cbn [fst file failbit var_s].
    rewrite (bool_decide_eq_false_2 (d = "</DataArray>")) by exact Hd.
    rewrite (IH fuel (data1 ++ [d]) o rest d dt dn Hdata)
      by (simpl in Hfuel; lia).
    rewrite <- app_assoc. reflexivity.
Qed.

Lemma vtu_loop_step split sti stod stoul fuel ds o tk rest vs dt dn :
  vtu_loop split sti stod stoul (S fuel) ds
           (mkReader o (mkStream (tk :: rest) false) vs dt dn)
  = match vtu_token split sti stod stoul fuel ds
            (mkReader o (mkStream rest false) tk dt dn) with
    | Some (r2, Ok ds') => vtu_loop split sti stod stoul fuel ds' r2
    | Some (r2, Throw e) => Some (r2, Throw e)
    | None => None
    end.
Proof. reflexivity. Qed.

(** The loop of [read_vtu] at the end of a [<DataArray ...>] tag whose
    values do not fit. *)
Lemma vtu_loop_misfit split sti stod stoul fuel o tk data rest vs dt dn size :
  closes_tag tk ->
  Forall (fun d => d <> "</DataArray>") data ->
  array_misfit o dt dn (length data) size ->
  (S (length data) < fuel)%nat ->
  vtu_loop split sti stod stoul fuel true
    (mkReader o (mkStream (tk :: data ++ "</DataArray>" :: rest) false)
              vs dt dn)
  = Some (mkReader o (mkStream rest false) "</DataArray>" dt dn,
          Throw (size_error dt size dn (length data))).
Proof.
  intros (Hnum & Hcell & Hpoint & Hname & Hback) Hdata Hmis Hfuel.
  destruct fuel as [|fuel]; [lia|].
  rewrite vtu_loop_step. unfold vtu_token. cbn [var_s].
  rewrite Hnum, Hcell, Hpoint, Hname. cbn [orb].
  rewrite !bind_ret. rewrite orb_true_r.
  rewrite (bool_decide_eq_true_2 _ Hback). cbn [andb]. unfold ret at 1.
  rewrite (read_data_array_run stod stoul data fuel [] o rest tk dt dn Hdata)
    by lia.
  cbn [app].
  rewrite (bind_throw _ _ _ _ _
             (store_data_array_misfit stod stoul data
                (mkReader o (mkStream rest false) "</DataArray>" dt dn)
                size Hmis)).
  reflexivity.
Qed.

(** ** [read_vtu]: the loops end *)

Lemma steady_lift {St A} (I : St -> Prop) (E : exn -> St -> Prop)
    (x : result A) :
  (forall e s, I s -> E e s) -> steady I E (lift x).
Proof. intros He s Hs. destruct x as [a|e]; [exact Hs|apply He; exact Hs]. Qed.

Ltac keeps_file_step :=
  lazymatch goal with
  | |- steady _ _ (bind _ _) => apply steady_bind; [|intros ?]
  | |- steady _ _ (ret _) => apply steady_ret
  | |- steady _ _ get => apply steady_get
  | |- steady _ _ (gets _) => apply steady_gets
  | |- steady _ _ (throw _) => apply steady_throw; intros; assumption
  | |- steady _ _ (lift _) => apply steady_lift; intros; assumption
  | |- steady _ _ (index _ _) => apply steady_index; intros; assumption
  | |- steady _ _ (on_obj _) => apply steady_modify; intros; assumption
  | |- steady _ _ (set_data_name _) => apply steady_modify; intros; assumption
  | |- steady _ _ set_data_type => apply steady_modify; intros; assumption
  | |- steady _ _ (for_loop _ _) => apply steady_for_loop; intros ? ?
  | |- steady _ _ (if ?b then _ else _) => destruct b
  end.

Lemma store_data_array_keeps_file stod stoul data f0 :
  steady (file_is f0) (fun _ => file_is f0) (store_data_array stod stoul data).
Proof.
  unfold store_data_array, store_values, store_points, store_cells.
  repeat keeps_file_step.
Qed.

Lemma vtu_number_of_keeps_file split sti f0 :
  steady (file_is f0) (fun _ => file_is f0) (vtu_number_of split sti).
Proof. unfold vtu_number_of. repeat keeps_file_step. Qed.

Lemma read_data_array_total stod stoul fuel :
  forall data r,
  (length (tokens (file r)) < fuel)%nat ->
  exists r2 res,
    read_data_array stod stoul fuel data r = Some (r2, res) /\
    (length (tokens (file r2)) <= length (tokens (file r)))%nat.
Proof.
  induction fuel as [|fuel IH]; intros data r Hfuel; [lia|].
  cbn [read_data_array].
  pose proof (extract_string_tokens (file r) (var_s r)) as Hle.
  destruct (failbit (file (in_s r).1)) eqn:Hfail.
  - eexists _, _. split; [reflexivity|].
    unfold in_s, modify. cbn [fst].
    destruct (extract_string (file r) (var_s r)) as [f x]. exact Hle.
  - pose proof (in_s_progress r Hfail) as Hlt.
    destruct (bool_decide (var_s (in_s r).1 = "</DataArray>")).
    + assert (Hkeep : steady (file_is (file (in_s r).1))
                             (fun _ => file_is (file (in_s r).1))
                             (store_data_array stod stoul data >>
                              set_data_name "" >> ret false)).
      { apply steady_bind; [apply store_data_array_keeps_file|intros _].
        repeat keeps_file_step. }
      specialize (Hkeep (in_s r).1 eq_refl).
      destruct ((store_data_array stod stoul data >> set_data_name "" >>
                 ret false) (in_s r).1) as [r2 res].
      exists r2, res. split; [reflexivity|].
      assert (Hfile : file r2 = file (in_s r).1)
        by (destruct res; exact Hkeep).
      rewrite Hfile. lia.
    + destruct (IH (data ++ [var_s (in_s r).1]) (in_s r).1 ltac:(lia))
        as (r2 & res & Hrun & Hle2).
      exists r2, res. split; [exact Hrun|lia].
Qed.

Lemma vtu_token_total split sti stod stoul fuel ds r :
  (length (tokens (file r)) < fuel)%nat ->
  exists r2 res,
    vtu_token split sti stod stoul fuel ds r = Some (r2, res) /\
    (length (tokens (file r2)) <= length (tokens (file r)))%nat.
Proof.
  intros Hfuel. unfold vtu_token.
  destruct (match_at_string_start (var_s r) "NumberOf").
  - assert (Hkeep : steady (file_is (file r)) (fun _ => file_is (file r))
                           (vtu_number_of split sti >> ret ds)).
    { apply steady_bind; [apply vtu_number_of_keeps_file|intros _].
      apply steady_ret. }
    specialize (Hkeep r eq_refl).
    destruct ((vtu_number_of split sti >> ret ds) r) as [r2 res].
    exists r2, res. split; [reflexivity|].
    assert (Hfile : file r2 = file r) by (destruct res; exact Hkeep).
    rewrite Hfile. lia.
  - match goal with
    | |- context [match ?m r with _ => _ end] =>
        assert (Hkeep : steady (file_is (file r)) (fun _ => file_is (file r)) m)
          by (repeat keeps_file_step);
        specialize (Hkeep r eq_refl);
        destruct (m r) as [r1 [[]|e]]
    end.
    + unfold file_is in Hkeep.
      destruct (_ && _).
      * destruct (read_data_array_total stod stoul fuel [] r1)
          as (r2 & res & Hrun & Hle); [rewrite Hkeep; exact Hfuel|].
        exists r2, res. split; [exact Hrun|]. rewrite <- Hkeep. exact Hle.
      * eexists _, _. split; [reflexivity|]. rewrite Hkeep. lia.
    + unfold file_is in Hkeep. eexists _, _. split; [reflexivity|].
      rewrite Hkeep. lia.
Qed.

Lemma vtu_loop_total split sti stod stoul fuel :
  forall ds r,
  (length (tokens (file r)) < fuel)%nat ->
  vtu_loop split sti stod stoul fuel ds r <> None.
Proof.
  induction fuel as [|fuel IH]; intros ds r Hfuel; [lia|].
  cbn [vtu_loop].
  destruct (failbit (file (in_s r).1)) eqn:Hfail; [discriminate|].
  pose proof (in_s_progress r Hfail) as Hlt.
  destruct (vtu_token_total split sti stod stoul fuel ds (in_s r).1
              ltac:(lia)) as (r2 & res & -> & Hle).
  destruct res as [ds'|e]; [|discriminate].
  apply IH. lia.
Qed.

(** The fuel that [read_vtu] gives its loops is never used up. *)
Lemma read_vtu_fuel_suffices split sti stod stoul toks s :
  vtu_loop split sti stod stoul (S (length toks)) false
           (mkReader s (mkStream toks false) "" "" "") <> None.
Proof. apply vtu_loop_total. simpl. lia. Qed.

(** ** [read_vtu]: the tokens outside the arrays *)

Lemma vtu_token_number_of split sti stod stoul fuel ds o f tk dt dn l0 num l k :
  match_at_string_start tk "NumberOf" = true ->
  split tk quote = l0 :: num :: l ->
  sti num = Ok (Z.of_nat k) ->
  vtu_token split sti stod stoul fuel ds (mkReader o f tk dt dn)
  = Some (mkReader
            (if bool_decide (l0 = "NumberOfPoints=")
             then set_points (resize k pt_zero) o
             else if bool_decide (l0 = "NumberOfCells=")
                  then set_triangles (resize k (0, 0, 0)%nat) o
                  else o)
            f tk dt dn, Ok ds).
Proof.
  intros Hnum Hsplit Hint. unfold vtu_token. cbn [var_s]. rewrite Hnum.
  unfold vtu_number_of. rewrite bind_assoc, bind_gets. cbn [var_s].
  rewrite Hsplit.
  rewrite bind_assoc, (bind_index_ok _ 1 num) by reflexivity.
  rewrite bind_assoc, Hint, bind_lift_ok.
  rewrite bind_assoc, (bind_index_ok _ 0 l0) by reflexivity.
  assert (Hres : forall A (a0 : A) v,
            resize_int (Z.of_nat k) a0 v = Ok (resize k a0 v)).
  { intros A a0 v. unfold resize_int.
    rewrite bool_decide_eq_false_2 by lia. rewrite Nat2Z.id. reflexivity. }
  destruct (bool_decide (l0 = "NumberOfPoints=")).
  - rewrite bind_assoc, bind_get, bind_assoc, Hres, bind_lift_ok.
    destruct o. reflexivity.
  - destruct (bool_decide (l0 = "NumberOfCells=")).
    + rewrite bind_assoc, bind_get, bind_assoc, Hres, bind_lift_ok.
      destruct o. reflexivity.
    + reflexivity.
Qed.

Lemma vtu_token_other split sti stod stoul fuel ds o f tk dt dn name :
  match_at_string_start tk "NumberOf" = false ->
  (match_at_string_start tk "Name=" = true ->
   split tk quote !! 1%nat = Some name) ->
  (bool_decide (tk = "<DataArray") || ds)
  && bool_decide (string_back tk = Some ">"%char) = false ->
  vtu_token split sti stod stoul fuel ds (mkReader o f tk dt dn)
  = Some (mkReader o f tk
            (if match_at_string_start tk "<Cell"
                || match_at_string_start tk "<Point" then tk else dt)
            (if match_at_string_start tk "Name=" then name else dn),
          Ok (bool_decide (tk = "<DataArray") || ds)).
Proof.
  intros Hnum Hname Hskip. unfold vtu_token. cbn [var_s]. rewrite Hnum, Hskip.
  destruct (match_at_string_start tk "<Cell" || match_at_string_start tk "<Point");
    destruct (match_at_string_start tk "Name=");
    unfold set_data_type; rewrite ?bind_modify, ?bind_ret;
    rewrite ?(bind_index_ok _ _ _ _ _ (Hname eq_refl)); reflexivity.
Qed.

Ltac vtu_tests :=
  repeat match goal with
  | |- context [match_at_string_start ?a ?b] =>
      let v := eval vm_compute in (match_at_string_start a b) in
      change (match_at_string_start a b) with v
  end; cbn [orb andb].

(** The example: the loop reaches the array with three points and one
    triangle allocated, and the array has two values. *)
Lemma short_array_run split sti stod stoul s :
  split vtu_points_token quote = ["NumberOfPoints="; "3"] ->
  split vtu_cells_token quote = ["NumberOfCells="; "1"; ">"] ->
  split vtu_name_token quote = ["Name="; "T"] ->
  sti "3" = Ok 3%Z -> sti "1" = Ok 1%Z ->
  read_vtu split sti stod stoul (Some short_array_tokens) s
  = (I3.mk (replicate 3 pt_zero) [(0, 0, 0)%nat] ∅ ∅ ∅ [],
     Throw (runtime_error "<PointData> 3 T 2")).
Proof.
  intros HP HC HN H3 H1. unfold read_vtu.
  rewrite (bind_ok _ _ _ _ _ (clear_run s)).
  unfold short_array_tokens. cbn [length].
  rewrite vtu_loop_step.
  rewrite (vtu_token_other _ _ _ _ _ _ _ _ _ _ _ "")
    by (try reflexivity; discriminate).
  vtu_tests. rewrite vtu_loop_step.
  rewrite (vtu_token_number_of _ _ _ _ _ _ _ _ vtu_points_token _ _ _ _ _ 3
             eq_refl HP H3).
  rewrite (bool_decide_eq_true_2 ("NumberOfPoints=" = "NumberOfPoints="))
    by reflexivity.
  rewrite vtu_loop_step.
  rewrite (vtu_token_number_of _ _ _ _ _ _ _ _ vtu_cells_token _ _ _ _ _ 1
             eq_refl HC H1).
  rewrite (bool_decide_eq_false_2 ("NumberOfCells=" = "NumberOfPoints="))
    by discriminate.
  rewrite (bool_decide_eq_true_2 ("NumberOfCells=" = "NumberOfCells="))
    by reflexivity.
  rewrite vtu_loop_step.
  rewrite (vtu_token_other _ _ _ _ _ _ _ _ _ _ _ "")
    by (try reflexivity; discriminate).
  vtu_tests. rewrite vtu_loop_step.
  rewrite (vtu_token_other _ _ _ _ _ _ _ _ _ _ _ "")
    by (try reflexivity; discriminate).
  vtu_tests.
  rewrite (bool_decide_eq_true_2 ("<DataArray" = "<DataArray")) by reflexivity.
  cbn [orb]. rewrite vtu_loop_step.
  rewrite (vtu_token_other _ _ _ _ _ _ _ _ _ _ _ "")
    by (try reflexivity; discriminate).
  vtu_tests. rewrite vtu_loop_step.
  rewrite (vtu_token_other _ _ _ _ _ _ _ _ _ _ _ "T")
    by (try reflexivity; intros _; rewrite HN; reflexivity).
  vtu_tests. rewrite orb_true_r.
  rewrite (vtu_loop_misfit split sti stod stoul _ _ vtu_format_token ["1"; "2"]
             [] _ "<PointData>" "T" 3).
  - reflexivity.
  - repeat split; reflexivity.
  - repeat (apply List.Forall_cons; [discriminate|]). apply List.Forall_nil.
  - right; left. repeat split; simpl; lia.
  - simpl. lia.
Qed.

(** ** The surface that a failed load leaves *)


Lemma unit_points_decode :
  decode_blocks unit_points_blocks (I3.empty, "")
  = Some (I3.mk [mkPoint3 0 0 0; mkPoint3 1 0 0; mkPoint3 0 1 0] [] ∅ ∅ ∅ [],
          "").
Proof.
  destruct parse_small_numerals as (P0 & P1 & _).
  assert (Hpts : mapM parse_point [("0", "0", "0"); ("1", "0", "0"); ("0", "1", "0")]
                 = Some [mkPoint3 0 0 0; mkPoint3 1 0 0; mkPoint3 0 1 0]).
  { apply mapM_Some_2.
    repeat (apply List.Forall2_cons; [unfold parse_point; rewrite ?P0, ?P1; reflexivity|]).
    apply List.Forall2_nil. }
  unfold unit_points_blocks.
  repeat (cbn [decode_blocks decode_block]; rewrite ?Hpts; decide_keyword).
  reflexivity.
Qed.


(** * Loads that return *)

Lemma line_file_run : I2.read_txt (Some line_file) I2.empty = (line_loaded, Ok tt).
Proof.
  destruct (read_txt_table "x y T" "x" "y" ["T"]
              ["0 0 0"; "1 0 10"; "2 0 20"] line_table I2.empty)
    as (s' & Hrun & _).
  - vm_compute. reflexivity.
  - discriminate.
  - apply NoDup_singleton.
  - exact line_file_parses.
  - repeat (apply List.Forall_cons; [discriminate|]). apply List.Forall_nil.
  - unfold line_loaded. change (["x y T"; "0 0 0"; "1 0 10"; "2 0 20"])
      with line_file in Hrun. rewrite Hrun. reflexivity.
Qed.

Lemma read_txt_store_invariants_witness :
  (forall s0, I2.read_txt (Some line_file) s0 = (line_loaded, Ok tt)) /\
  fields_fit line_loaded /\
  (I2.fields line_loaded = ∅ -> I2.points line_loaded = []).
Proof.
  exact (read_txt_store_invariants (Some line_file) I2.empty line_loaded
           line_file_run).
Defined.

Lemma unit_file_run :
  read_vtk (Some (vtk_tokens unit_file)) I3.empty = (unit_surface, Ok tt).
Proof.
  unfold read_vtk. rewrite (bind_ok _ _ _ _ _ (clear_run I3.empty)).
  destruct (blocks_run unit_file (S (length (vtk_tokens unit_file))) I3.empty ""
              unit_raw "POINT_DATA" "" "" unit_file_decodes)
    as (vs' & dn' & Hloop).
  { pose proof (vtk_tokens_length unit_file). lia. }
  rewrite Hloop. exact unit_surface_run.
Qed.

Lemma read_vtk_leaves_preprocessed_surface_witness :
  (forall s0, read_vtk (Some (vtk_tokens unit_file)) s0 = (unit_surface, Ok tt)) /\
  indices_valid unit_surface /\ cache_of_points unit_surface /\
  field unit_surface CellField "area"
  = Ok (map Triangle.area (triangle_cache unit_surface)).
Proof.
  split.
  - exact (proj1 read_vtk_leaves_preprocessed_surface
             (Some (vtk_tokens unit_file)) I3.empty unit_surface (Ok tt)
             unit_file_run).
  - destruct (proj1 (proj2 read_vtk_leaves_preprocessed_surface)
                (vtk_tokens unit_file) I3.empty unit_surface unit_file_run)
      as (Hvalid & Hcache & Harea & _).
    auto.
Defined.
